(** * A shallow embedding of the hot-path data structures of the trading
      system: the slab pool, the SPSC ring buffer, the circular buffer, the
      price levels and the order book, the pre-trade risk gate with its
      position tracker, and the rate limiter of the execution engine.

    Conventions.
    - A [uintN_t] value is a [Z] in [0, 2^N); every arithmetic operation
      that can leave the range is followed by its wrap-around ([u64],
      [u32]).  [Price] is a signed 64-bit integer and is only compared.
    - A pointer into the slab ([OrderBookEntry*]) is [option nat]:
      [None] is [nullptr], [Some i] is [&storage_[i]].
    - [std::map<Price, PriceLevel, Cmp>] is an association list kept in
      the comparator's order, so that [begin()] is the head of the list.
    - [std::unordered_map<OrderId, OrderBookEntry*>] is a [gmap]. *)

From Stdlib Require Import ZArith List Bool Lia Floats Sorted.
From stdpp Require Import base option list gmap.

Local Open Scope Z_scope.

(** ** Fixed-width integers *)

Definition u64 (z : Z) : Z := z mod 2 ^ 64.
Definition u32 (z : Z) : Z := z mod 2 ^ 32.
Definition PRICE_MAX : Z := 2 ^ 63 - 1.   (* std::numeric_limits<Price>::max() *)

(** Two's-complement wrap-around of a signed 64-bit result. *)
Definition s64 (z : Z) : Z := (z + 2 ^ 63) mod 2 ^ 64 - 2 ^ 63.

(** ** common/types.hpp *)

Inductive Side := Buy | Sell.
Inductive OrderType := Limit | Market | IOC | FOK.
Inductive OrderStatus := New | PartiallyFilled | Filled | Cancelled | Rejected.

#[global] Instance Side_eq_dec : EqDecision Side.
Proof. solve_decision. Defined.
#[global] Instance OrderType_eq_dec : EqDecision OrderType.
Proof. solve_decision. Defined.
#[global] Instance OrderStatus_eq_dec : EqDecision OrderStatus.
Proof. solve_decision. Defined.

Record Trade := mkTrade {
  buyer_order_id : Z;
  seller_order_id : Z;
  trade_instrument : Z;
  trade_price : Z;
  trade_quantity : Z;
  trade_timestamp : Z
}.

Record OrderRequest := mkOrderRequest {
  req_id : Z;
  req_instrument : Z;
  req_side : Side;
  req_type : OrderType;
  req_price : Z;
  req_quantity : Z;
  req_exchange : Z;
  req_timestamp : Z
}.

(** ** order_book/order.hpp *)

Module OrderBookEntry.
Record t := mk {
    id : Z;
    instrument : Z;
    side : Side;
    type : OrderType;
    status : OrderStatus;
    price : Z;
    quantity : Z;
    filled_quantity : Z;
    timestamp : Z;
    prev : option nat;
    next : option nat
  }.

(** The all-zero object: what [make_unique<StorageType[]>] leaves in a
    slot before anything is written to it. *)
Definition zero : t := mk 0 0 Buy Limit New 0 0 0 0 None None.

Definition set_id (v : Z) (e : t) : t :=
  mk v (instrument e) (side e) (type e) (status e) (price e) (quantity e)
     (filled_quantity e) (timestamp e) (prev e) (next e).
Definition set_status (v : OrderStatus) (e : t) : t :=
  mk (id e) (instrument e) (side e) (type e) v (price e) (quantity e)
     (filled_quantity e) (timestamp e) (prev e) (next e).
Definition set_filled_quantity (v : Z) (e : t) : t :=
  mk (id e) (instrument e) (side e) (type e) (status e) (price e) (quantity e)
     v (timestamp e) (prev e) (next e).
Definition set_prev (v : option nat) (e : t) : t :=
  mk (id e) (instrument e) (side e) (type e) (status e) (price e) (quantity e)
     (filled_quantity e) (timestamp e) v (next e).
Definition set_next (v : option nat) (e : t) : t :=
  mk (id e) (instrument e) (side e) (type e) (status e) (price e) (quantity e)
     (filled_quantity e) (timestamp e) (prev e) v.
End OrderBookEntry.

(** ** containers/memory_pool.hpp *)

(** What the pool needs of its element type: an object is at least four
    bytes wide, and the pool reads and writes the first four bytes of a
    slot as a [uint32_t] free-list link. *)
Class PoolSlot (T : Type) := {
  slot_zero : T;
  read_link : T → Z;
  write_link : Z → T → T
}.

Module MemoryPool.
Definition INVALID : Z := 0xFFFFFFFF.

Record t (T : Type) := mk {
    storage_ : list T;
    free_head_ : Z;          (* uint32_t *)
    allocated_count_ : Z     (* size_t *)
  }.
Arguments mk {T}.
Arguments storage_ {T}.
Arguments free_head_ {T}.
Arguments allocated_count_ {T}.

Section Pool.
Context {T : Type} `{PoolSlot T}.

(** [storage_[i]]; reading outside the array is undefined in the
    source and gives the zero object here. *)
Definition slot (s : list T) (i : nat) : T := default slot_zero (s !! i).

(** The links the constructor writes, from slot [i] on: slot [i]
    points to [i + 1]. *)
Fixpoint init_links (n : nat) (i : Z) : list T :=
  match n with
  | O => []
  | S n' => write_link (i + 1) slot_zero :: init_links n' (i + 1)
  end.

(** The constructor, for [PoolSize >= 1]. *)
Definition init (PoolSize : nat) : t T :=
  mk (init_links (PoolSize - 1) 0 ++ [write_link INVALID slot_zero]) 0 0.

Definition allocate (p : t T) : option nat * t T :=
  if free_head_ p =? INVALID then (None, p)
  else
    let idx := Z.to_nat (free_head_ p) in
    (Some idx,
     mk (storage_ p)
        (read_link (slot (storage_ p) idx))
        (u64 (allocated_count_ p + 1))).

Definition deallocate (p : t T) (ptr : option nat) : t T :=
  match ptr with
  | None => p
  | Some idx =>
      mk (<[idx := write_link (free_head_ p) (slot (storage_ p) idx)]> (storage_ p))
         (u32 (Z.of_nat idx))
         (u64 (allocated_count_ p - 1))
  end.

Definition owns (PoolSize : nat) (ptr : option nat) : bool :=
  match ptr with
  | None => false
  | Some idx => bool_decide (idx < PoolSize)%nat
  end.

Definition allocated (p : t T) : Z := allocated_count_ p.
Definition available (PoolSize : nat) (p : t T) : Z :=
  u64 (Z.of_nat PoolSize - allocated_count_ p).
Definition pool_size (PoolSize : nat) : Z := Z.of_nat PoolSize.
End Pool.
End MemoryPool.

(** [OrderBookEntry] as a pool element: its first four bytes are the low
    half of [id] (the target is little-endian). *)
Definition entry_read_link (e : OrderBookEntry.t) : Z :=
  Z.land (OrderBookEntry.id e) (Z.ones 32).
Definition entry_write_link (w : Z) (e : OrderBookEntry.t) : OrderBookEntry.t :=
  OrderBookEntry.set_id (Z.lor (Z.shiftl (Z.shiftr (OrderBookEntry.id e) 32) 32) w) e.

#[global] Instance entry_slot : PoolSlot OrderBookEntry.t := {
  slot_zero := OrderBookEntry.zero;
  read_link := entry_read_link;
  write_link := entry_write_link
}.

(** A write through a pointer into the slab: [storage_[i] = f(storage_[i])]. *)
Definition poke (i : nat) (f : OrderBookEntry.t → OrderBookEntry.t)
    (mem : list OrderBookEntry.t) : list OrderBookEntry.t :=
  <[i := f (MemoryPool.slot mem i)]> mem.

(** ** order_book/price_level.hpp *)

Module PriceLevel.
Record t := mk {
    price : Z;
    total_quantity : Z;      (* Quantity *)
    order_count : Z;         (* uint32_t *)
    head : option nat;
    tail : option nat
  }.

(** The default member initialisers. *)
Definition fresh : t := mk 0 0 0 None None.

Definition set_price (v : Z) (l : t) : t :=
  mk v (total_quantity l) (order_count l) (head l) (tail l).
Definition set_total_quantity (v : Z) (l : t) : t :=
  mk (price l) v (order_count l) (head l) (tail l).

Definition add_order (mem : list OrderBookEntry.t) (l : t) (entry : nat)
    : list OrderBookEntry.t * t :=
  let mem1 := poke entry (OrderBookEntry.set_prev (tail l)) mem in
  let mem2 := poke entry (OrderBookEntry.set_next None) mem1 in
  let '(mem3, head') :=
    match tail l with
    | Some tl => (poke tl (OrderBookEntry.set_next (Some entry)) mem2, head l)
    | None => (mem2, Some entry)
    end in
  let e := MemoryPool.slot mem3 entry in
  (mem3,
   mk (price l)
      (u64 (total_quantity l
            + u64 (OrderBookEntry.quantity e - OrderBookEntry.filled_quantity e)))
      (u32 (order_count l + 1))
      head'
      (Some entry)).

Definition remove_order (mem : list OrderBookEntry.t) (l : t) (entry : nat)
    : list OrderBookEntry.t * t :=
  let e0 := MemoryPool.slot mem entry in
  let '(mem1, head') :=
    match OrderBookEntry.prev e0 with
    | Some p => (poke p (OrderBookEntry.set_next (OrderBookEntry.next e0)) mem, head l)
    | None => (mem, OrderBookEntry.next e0)
    end in
  let e1 := MemoryPool.slot mem1 entry in
  let '(mem2, tail') :=
    match OrderBookEntry.next e1 with
    | Some n => (poke n (OrderBookEntry.set_prev (OrderBookEntry.prev e1)) mem1, tail l)
    | None => (mem1, OrderBookEntry.prev e1)
    end in
  let mem3 := poke entry (OrderBookEntry.set_prev None) mem2 in
  let mem4 := poke entry (OrderBookEntry.set_next None) mem3 in
  let e := MemoryPool.slot mem4 entry in
  let remaining :=
    u64 (OrderBookEntry.quantity e - OrderBookEntry.filled_quantity e) in
  (mem4,
   mk (price l)
      (if remaining <=? total_quantity l then total_quantity l - remaining else 0)
      (u32 (order_count l - 1))
      head'
      tail').

Definition front (l : t) : option nat := head l.
Definition empty (l : t) : bool := bool_decide (head l = None).
End PriceLevel.

(** ** std::map<Price, PriceLevel, Cmp>

    [before a b] is the comparator: [Z.ltb] for the asks (ascending),
    [Z.gtb] for the bids ([std::greater], descending). *)

Module PriceMap.
Definition t := list (Z * PriceLevel.t).

Fixpoint find (k : Z) (m : t) : option PriceLevel.t :=
  match m with
  | [] => None
  | (k', v) :: r => if k =? k' then Some v else find k r
  end.

(** [m[k] = f(m[k])], where [m[k]] default-constructs a level at its
    place in the order when the key is absent. *)
Fixpoint at_key (before : Z → Z → bool) (k : Z)
    (f : PriceLevel.t → PriceLevel.t) (m : t) : t :=
  match m with
  | [] => [(k, f PriceLevel.fresh)]
  | (k', v) :: r =>
      if k =? k' then (k', f v) :: r
      else if before k k' then (k, f PriceLevel.fresh) :: m
      else (k', v) :: at_key before k f r
  end.

(** [m[k]], read. *)
Definition subscript (before : Z → Z → bool) (k : Z) (m : t) : PriceLevel.t :=
  default PriceLevel.fresh (find k (at_key before k (fun l => l) m)).

(** Assignment through an iterator that points at key [k]. *)
Fixpoint assign (k : Z) (v : PriceLevel.t) (m : t) : t :=
  match m with
  | [] => []
  | (k', v') :: r => if k =? k' then (k', v) :: r else (k', v') :: assign k v r
  end.

Fixpoint erase (k : Z) (m : t) : t :=
  match m with
  | [] => []
  | (k', v) :: r => if k =? k' then r else (k', v) :: erase k r
  end.

Definition keys (m : t) : list Z := map fst m.
End PriceMap.

(** ** order_book/order_book.hpp, src/order_book.cpp *)

Module OrderBook.
Definition MAX_TRADES_PER_MATCH : Z := 64.
Definition ORDER_POOL_SIZE : nat := Z.to_nat 65536.

Record t := mk {
    instrument_ : Z;
    pool_ : MemoryPool.t OrderBookEntry.t;
    bids_ : PriceMap.t;                  (* std::greater: descending *)
    asks_ : PriceMap.t;                  (* ascending *)
    orders_ : gmap Z nat;
    best_bid_ : Z;
    best_ask_ : Z;
    best_bid_qty_ : Z;
    best_ask_qty_ : Z
  }.

Definition init (instrument : Z) : t :=
  mk instrument (MemoryPool.init ORDER_POOL_SIZE) [] [] ∅ 0 PRICE_MAX 0 0.

(** What a matching walk mutates besides the level map it iterates:
    the slab (entries and free list), the id map and the trade buffer.
    [trade_count] is the length of [trades]: [trade_buffer_[trade_count++]]
    appends. *)
Record walk := mkWalk {
    w_pool : MemoryPool.t OrderBookEntry.t;
    w_orders : gmap Z nat;
    w_trades : list Trade
  }.

Definition trade_count (w : walk) : Z := Z.of_nat (length (w_trades w)).

Definition mem (p : MemoryPool.t OrderBookEntry.t) : list OrderBookEntry.t :=
  MemoryPool.storage_ p.
Definition with_mem (m : list OrderBookEntry.t) (p : MemoryPool.t OrderBookEntry.t)
    : MemoryPool.t OrderBookEntry.t :=
  MemoryPool.mk m (MemoryPool.free_head_ p) (MemoryPool.allocated_count_ p).
Definition deref (p : MemoryPool.t OrderBookEntry.t) (i : nat) : OrderBookEntry.t :=
  MemoryPool.slot (mem p) i.

Definition remaining_of (e : OrderBookEntry.t) : Z :=
  u64 (OrderBookEntry.quantity e - OrderBookEntry.filled_quantity e).

Definition add_filled (fill_qty : Z) (e : OrderBookEntry.t) : OrderBookEntry.t :=
  OrderBookEntry.set_filled_quantity
    (u64 (OrderBookEntry.filled_quantity e + fill_qty)) e.

(** One turn of the inner loop past its [return]: record the trade of the
  incoming [entry] against [resting], the front of [level], and book the
  fill on both.  [side_of] yields the side the trade's buyer and seller
  ids are assigned by: [entry->side] in [try_match_limit], the branch's
  side in [try_match_market]. *)
Definition fill (side_of : OrderBookEntry.t → Side) (instrument : Z)
    (entry resting : nat) (level : PriceLevel.t) (w : walk) : PriceLevel.t * walk :=
  let e := deref (w_pool w) entry in
  let entry_remaining := remaining_of e in
  let r := deref (w_pool w) resting in
  let resting_remaining := remaining_of r in
  let fill_qty := Z.min entry_remaining resting_remaining in
  let trade :=
    mkTrade
      (match side_of e with Buy => OrderBookEntry.id e | Sell => OrderBookEntry.id r end)
      (match side_of e with Sell => OrderBookEntry.id e | Buy => OrderBookEntry.id r end)
      instrument
      (OrderBookEntry.price r)
      fill_qty
      (OrderBookEntry.timestamp e) in
  let trades' := w_trades w ++ [trade] in
  let m1 := poke entry (add_filled fill_qty) (mem (w_pool w)) in
  let m2 := poke resting (add_filled fill_qty) m1 in
  let r2 := MemoryPool.slot m2 resting in
  if OrderBookEntry.quantity r2 <=? OrderBookEntry.filled_quantity r2 then
    let m3 := poke resting (OrderBookEntry.set_status Filled) m2 in
    let '(m4, level') := PriceLevel.remove_order m3 level resting in
    let orders' :=
      delete (OrderBookEntry.id (MemoryPool.slot m4 resting)) (w_orders w) in
    let pool' :=
      MemoryPool.deallocate (with_mem m4 (w_pool w)) (Some resting) in
    (level', mkWalk pool' orders' trades')
  else
    let m3 := poke resting (OrderBookEntry.set_status PartiallyFilled) m2 in
    let level' :=
      PriceLevel.set_total_quantity
        (u64 (PriceLevel.total_quantity level - fill_qty)) level in
    (level', mkWalk (with_mem m3 (w_pool w)) (w_orders w) trades').

(** The inner loop of a walk,
    [while (level.front() && trade_count < MAX_TRADES_PER_MATCH)].
    The third component is [true] when the loop left through [return]
    (the incoming order has no residual).  Every turn that goes round
    records one trade, so [fuel] = [MAX_TRADES_PER_MATCH] never runs out
    before the loop's own guard (lemma [match_level_spec]). *)
Fixpoint match_level (fuel : nat) (side_of : OrderBookEntry.t → Side)
    (instrument : Z) (entry : nat) (level : PriceLevel.t) (w : walk)
    : PriceLevel.t * walk * bool :=
  match fuel with
  | O => (level, w, false)
  | S fuel' =>
      match PriceLevel.front level with
      | None => (level, w, false)
      | Some resting =>
          if negb (trade_count w <? MAX_TRADES_PER_MATCH) then (level, w, false)
          else if remaining_of (deref (w_pool w) entry) =? 0 then (level, w, true)
          else
            let '(level', w') := fill side_of instrument entry resting level w in
            match_level fuel' side_of instrument entry level' w'
      end
  end.

(** The outer loop of a walk over one side's levels, from [begin()].
      [limit] is [true] in [try_match_limit] (price compatibility is
      checked) and [false] in [try_match_market].  The result is the level
      map after the walk. *)
Fixpoint match_against (limit : bool) (side_of : OrderBookEntry.t → Side)
    (instrument : Z) (entry : nat) (levels : PriceMap.t) (w : walk)
    : PriceMap.t * walk :=
  match levels with
  | [] => ([], w)
  | (k, level) :: rest =>
      if negb (trade_count w <? MAX_TRADES_PER_MATCH) then (levels, w)
      else
        let e := deref (w_pool w) entry in
        if limit && bool_decide (OrderBookEntry.side e = Buy)
           && (OrderBookEntry.price e <? PriceLevel.price level) then (levels, w)
        else if limit && bool_decide (OrderBookEntry.side e = Sell)
           && (PriceLevel.price level <? OrderBookEntry.price e) then (levels, w)
        else
          let '(level', w', returned) :=
            match_level (Z.to_nat MAX_TRADES_PER_MATCH) side_of instrument entry level w in
          if returned then ((k, level') :: rest, w')
          else if PriceLevel.empty level' then
            match_against limit side_of instrument entry rest w'
          else
            let '(rest', w'') := match_against limit side_of instrument entry rest w' in
            ((k, level') :: rest', w'')
  end.

Definition update_best_bid (b : t) : t :=
  match bids_ b with
  | [] => mk (instrument_ b) (pool_ b) (bids_ b) (asks_ b) (orders_ b)
             0 (best_ask_ b) 0 (best_ask_qty_ b)
  | (k, level) :: _ =>
      mk (instrument_ b) (pool_ b) (bids_ b) (asks_ b) (orders_ b)
         k (best_ask_ b) (PriceLevel.total_quantity level) (best_ask_qty_ b)
  end.

Definition update_best_ask (b : t) : t :=
  match asks_ b with
  | [] => mk (instrument_ b) (pool_ b) (bids_ b) (asks_ b) (orders_ b)
             (best_bid_ b) PRICE_MAX (best_bid_qty_ b) 0
  | (k, level) :: _ =>
      mk (instrument_ b) (pool_ b) (bids_ b) (asks_ b) (orders_ b)
         (best_bid_ b) k (best_bid_qty_ b) (PriceLevel.total_quantity level)
  end.

(** One side of [try_match_limit] / [try_match_market]: walk the
    opposite side's levels, then refresh that side's cached best. *)
Definition walk_asks (limit : bool) (side_of : OrderBookEntry.t → Side)
    (b : t) (entry : nat) (trades : list Trade) : t * list Trade :=
  let '(asks', w) :=
    match_against limit side_of (instrument_ b) entry (asks_ b)
      (mkWalk (pool_ b) (orders_ b) trades) in
  (update_best_ask
     (mk (instrument_ b) (w_pool w) (bids_ b) asks' (w_orders w)
         (best_bid_ b) (best_ask_ b) (best_bid_qty_ b) (best_ask_qty_ b)),
   w_trades w).

Definition walk_bids (limit : bool) (side_of : OrderBookEntry.t → Side)
    (b : t) (entry : nat) (trades : list Trade) : t * list Trade :=
  let '(bids', w) :=
    match_against limit side_of (instrument_ b) entry (bids_ b)
      (mkWalk (pool_ b) (orders_ b) trades) in
  (update_best_bid
     (mk (instrument_ b) (w_pool w) bids' (asks_ b) (w_orders w)
         (best_bid_ b) (best_ask_ b) (best_bid_qty_ b) (best_ask_qty_ b)),
   w_trades w).

Definition try_match_limit (b : t) (entry : nat) (trades : list Trade)
    : t * list Trade :=
  match OrderBookEntry.side (deref (pool_ b) entry) with
  | Buy => walk_asks true OrderBookEntry.side b entry trades
  | Sell => walk_bids true OrderBookEntry.side b entry trades
  end.

Definition try_match_market (b : t) (entry : nat) (trades : list Trade)
    : t * list Trade :=
  match OrderBookEntry.side (deref (pool_ b) entry) with
  | Buy => walk_asks false (fun _ => Buy) b entry trades
  | Sell => walk_bids false (fun _ => Sell) b entry trades
  end.

Definition add_to_book (b : t) (entry : nat) : t :=
  let e := deref (pool_ b) entry in
  let p := OrderBookEntry.price e in
  match OrderBookEntry.side e with
  | Buy =>
      let bids1 := PriceMap.at_key Z.gtb p (PriceLevel.set_price p) (bids_ b) in
      let '(m, level) :=
        PriceLevel.add_order (mem (pool_ b)) (PriceMap.subscript Z.gtb p bids1) entry in
      let bids2 := PriceMap.assign p level bids1 in
      let p' := OrderBookEntry.price (MemoryPool.slot m entry) in
      if (best_bid_ b <? p') || (best_bid_qty_ b =? 0) then
        mk (instrument_ b) (with_mem m (pool_ b)) bids2 (asks_ b) (orders_ b)
           p' (best_ask_ b)
           (PriceLevel.total_quantity (PriceMap.subscript Z.gtb p' bids2))
           (best_ask_qty_ b)
      else
        mk (instrument_ b) (with_mem m (pool_ b)) bids2 (asks_ b) (orders_ b)
           (best_bid_ b) (best_ask_ b) (best_bid_qty_ b) (best_ask_qty_ b)
  | Sell =>
      let asks1 := PriceMap.at_key Z.ltb p (PriceLevel.set_price p) (asks_ b) in
      let '(m, level) :=
        PriceLevel.add_order (mem (pool_ b)) (PriceMap.subscript Z.ltb p asks1) entry in
      let asks2 := PriceMap.assign p level asks1 in
      let p' := OrderBookEntry.price (MemoryPool.slot m entry) in
      if (p' <? best_ask_ b) || (best_ask_qty_ b =? 0) then
        mk (instrument_ b) (with_mem m (pool_ b)) (bids_ b) asks2 (orders_ b)
           (best_bid_ b) p' (best_bid_qty_ b)
           (PriceLevel.total_quantity (PriceMap.subscript Z.ltb p' asks2))
      else
        mk (instrument_ b) (with_mem m (pool_ b)) (bids_ b) asks2 (orders_ b)
           (best_bid_ b) (best_ask_ b) (best_bid_qty_ b) (best_ask_qty_ b)
  end.

(** [entry->status = s]. *)
Definition set_entry_status (s : OrderStatus) (entry : nat) (b : t) : t :=
  mk (instrument_ b)
     (with_mem (poke entry (OrderBookEntry.set_status s) (mem (pool_ b))) (pool_ b))
     (bids_ b) (asks_ b) (orders_ b)
     (best_bid_ b) (best_ask_ b) (best_bid_qty_ b) (best_ask_qty_ b).

(** [orders_.erase(entry->id); pool_.deallocate(entry);] *)
Definition discard (entry : nat) (b : t) : t :=
  mk (instrument_ b)
     (MemoryPool.deallocate (pool_ b) (Some entry))
     (bids_ b) (asks_ b)
     (delete (OrderBookEntry.id (deref (pool_ b) entry)) (orders_ b))
     (best_bid_ b) (best_ask_ b) (best_bid_qty_ b) (best_ask_qty_ b).

Definition match_order (b : t) (entry : nat) : t * list Trade :=
  let '(b1, trades) :=
    match OrderBookEntry.type (deref (pool_ b) entry) with
    | Market => try_match_market b entry []
    | _ => try_match_limit b entry []
    end in
  let e := deref (pool_ b1) entry in
  let remaining := remaining_of e in
  if bool_decide (OrderBookEntry.type e = FOK) && (0 <? remaining)
     && (0 <? Z.of_nat (length trades)) then
    (* FOK: rollback *)
    let b2 :=
      mk (instrument_ b1)
         (with_mem (poke entry (OrderBookEntry.set_filled_quantity 0) (mem (pool_ b1)))
                   (pool_ b1))
         (bids_ b1) (asks_ b1) (orders_ b1)
         (best_bid_ b1) (best_ask_ b1) (best_bid_qty_ b1) (best_ask_qty_ b1) in
    (discard entry (set_entry_status Cancelled entry b2), [])
  else if 0 <? remaining then
    match OrderBookEntry.type e with
    | IOC | Market =>
        let s := if 0 <? OrderBookEntry.filled_quantity e
                 then PartiallyFilled else Cancelled in
        (discard entry (set_entry_status s entry b1), trades)
    | Limit =>
        let s := if 0 <? OrderBookEntry.filled_quantity e
                 then PartiallyFilled else New in
        (add_to_book (set_entry_status s entry b1) entry, trades)
    | FOK => (b1, trades)
    end
  else
    (discard entry (set_entry_status Filled entry b1), trades).

Definition add_order (b : t) (id : Z) (side : Side) (type : OrderType)
    (price quantity timestamp : Z) : t * list Trade :=
  match MemoryPool.allocate (pool_ b) with
  | (None, _) => (b, [])
  | (Some entry, pool') =>
      let e := OrderBookEntry.mk id (instrument_ b) side type New price quantity
                 0 timestamp None None in
      let b1 :=
        mk (instrument_ b)
           (with_mem (<[entry := e]> (mem pool')) pool')
           (bids_ b) (asks_ b)
           (<[id := entry]> (orders_ b))
           (best_bid_ b) (best_ask_ b) (best_bid_qty_ b) (best_ask_qty_ b) in
      match_order b1 entry
  end.

Definition remove_from_book (b : t) (entry : nat) : t :=
  let e := deref (pool_ b) entry in
  match OrderBookEntry.side e with
  | Buy =>
      let b1 :=
        match PriceMap.find (OrderBookEntry.price e) (bids_ b) with
        | Some level =>
            let '(m, level') := PriceLevel.remove_order (mem (pool_ b)) level entry in
            let bids' :=
              if PriceLevel.empty level'
              then PriceMap.erase (OrderBookEntry.price e) (bids_ b)
              else PriceMap.assign (OrderBookEntry.price e) level' (bids_ b) in
            mk (instrument_ b) (with_mem m (pool_ b)) bids' (asks_ b) (orders_ b)
               (best_bid_ b) (best_ask_ b) (best_bid_qty_ b) (best_ask_qty_ b)
        | None => b
        end in
      update_best_bid b1
  | Sell =>
      let b1 :=
        match PriceMap.find (OrderBookEntry.price e) (asks_ b) with
        | Some level =>
            let '(m, level') := PriceLevel.remove_order (mem (pool_ b)) level entry in
            let asks' :=
              if PriceLevel.empty level'
              then PriceMap.erase (OrderBookEntry.price e) (asks_ b)
              else PriceMap.assign (OrderBookEntry.price e) level' (asks_ b) in
            mk (instrument_ b) (with_mem m (pool_ b)) (bids_ b) asks' (orders_ b)
               (best_bid_ b) (best_ask_ b) (best_bid_qty_ b) (best_ask_qty_ b)
        | None => b
        end in
      update_best_ask b1
  end.

(** [orders_.erase(it); pool_.deallocate(entry);] with [it] at key [id]. *)
Definition release (id : Z) (entry : nat) (b : t) : t :=
  mk (instrument_ b)
     (MemoryPool.deallocate (pool_ b) (Some entry))
     (bids_ b) (asks_ b)
     (delete id (orders_ b))
     (best_bid_ b) (best_ask_ b) (best_bid_qty_ b) (best_ask_qty_ b).

Definition cancel_order (b : t) (id : Z) : t * bool :=
  match orders_ b !! id with
  | None => (b, false)
  | Some entry =>
      let b1 := set_entry_status Cancelled entry b in
      (release id entry (remove_from_book b1 entry), true)
  end.

Definition modify_order (b : t) (id new_price new_quantity : Z) : t * list Trade :=
  match orders_ b !! id with
  | None => (b, [])
  | Some entry =>
      let e := deref (pool_ b) entry in
      let side := OrderBookEntry.side e in
      let type := OrderBookEntry.type e in
      let ts := OrderBookEntry.timestamp e in
      add_order (release id entry (remove_from_book b entry))
        id side type new_price new_quantity ts
  end.

Definition best_bid (b : t) : Z := best_bid_ b.
Definition best_ask (b : t) : Z :=
  if best_ask_ b =? PRICE_MAX then 0 else best_ask_ b.
Definition best_bid_quantity (b : t) : Z := best_bid_qty_ b.
Definition best_ask_quantity (b : t) : Z := best_ask_qty_ b.

Definition order_count (b : t) : Z := Z.of_nat (size (orders_ b)).
Definition bid_level_count (b : t) : Z := Z.of_nat (length (bids_ b)).
Definition ask_level_count (b : t) : Z := Z.of_nat (length (asks_ b)).
Definition instrument (b : t) : Z := instrument_ b.

Definition spread (b : t) : Z :=
  match bids_ b, asks_ b with
  | [], _ | _, [] => 0
  | _, _ => s64 (best_ask_ b - best_bid_ b)
  end.

Record DepthEntry := mkDepthEntry {
    depth_price : Z;
    depth_quantity : Z;
    depth_order_count : Z
  }.

(** One loop of [get_depth], at index [i] with [n] turns left before
    [i] reaches [max_levels] and the iterator at the head of [levels]:
    [entries[i]] is written, and [count = i + 1].  The caller's array
    holds at least [max_levels] entries; a write past the end of the list
    is not modelled. *)
Fixpoint fill_depth (i n : nat) (levels : PriceMap.t) (entries : list DepthEntry)
    (count : Z) : list DepthEntry * Z :=
  match n, levels with
  | S n', (k, level) :: rest =>
      fill_depth (S i) n' rest
        (<[i := mkDepthEntry k (PriceLevel.total_quantity level)
                  (PriceLevel.order_count level)]> entries)
        (Z.of_nat i + 1)
  | _, _ => (entries, count)
  end.

(** [get_depth(bid_entries, ask_entries, max_levels)]: the value returned
    and the two arrays as it leaves them.  Only the loop over the bids
    assigns [count]. *)
Definition get_depth (b : t) (bid_entries ask_entries : list DepthEntry)
    (max_levels : Z) : Z * list DepthEntry * list DepthEntry :=
  let '(bid_entries', count) :=
    fill_depth 0 (Z.to_nat max_levels) (bids_ b) bid_entries 0 in
  let '(ask_entries', _) :=
    fill_depth 0 (Z.to_nat max_levels) (asks_ b) ask_entries 0 in
  (count, bid_entries', ask_entries').
End OrderBook.

(** ** common/utils.hpp *)

Definition is_power_of_two (n : Z) : bool :=
  (0 <? n) && (Z.land n (u64 (n - 1)) =? 0).

(** ** containers/lock_free_queue.hpp

    The buffer as a sequential state machine: the atomics are plain
    fields, a load reads the field and a store writes it. *)

Module LockFreeRingBuffer.
Record t (T : Type) := mk {
    head_ : Z;             (* std::atomic<size_t> *)
    tail_ : Z;             (* std::atomic<size_t> *)
    buffer_ : list T
  }.
Arguments mk {T}.
Arguments head_ {T}.
Arguments tail_ {T}.
Arguments buffer_ {T}.

Section Ring.
Context {T : Type}.
Variable Capacity : Z.

Definition MASK : Z := Capacity - 1.

(** [new T[Capacity]{}]: every slot value-initialised to [zero]. *)
Definition init (zero : T) : t T :=
  mk 0 0 (replicate (Z.to_nat Capacity) zero).

Definition try_push (q : t T) (item : T) : bool * t T :=
  let current_tail := tail_ q in
  let next_tail := Z.land (u64 (current_tail + 1)) MASK in
  if next_tail =? head_ q then (false, q)
  else (true, mk (head_ q) next_tail (<[Z.to_nat current_tail := item]> (buffer_ q))).

(** [try_pop(item)]: [None] is [false] (the out-parameter is left
    alone), [Some v] is [true] with [item = v]. *)
Definition try_pop (q : t T) : option T * t T :=
  let current_head := head_ q in
  if current_head =? tail_ q then (None, q)
  else
    match buffer_ q !! Z.to_nat current_head with
    | Some v => (Some v, mk (Z.land (u64 (current_head + 1)) MASK) (tail_ q) (buffer_ q))
    | None => (None, q)     (* outside the array: not reached *)
    end.

Definition size (q : t T) : Z := Z.land (u64 (tail_ q - head_ q)) MASK.
Definition empty (q : t T) : bool := head_ q =? tail_ q.
Definition full (q : t T) : bool :=
  Z.land (u64 (tail_ q + 1)) MASK =? head_ q.
Definition capacity : Z := Capacity - 1.
End Ring.
End LockFreeRingBuffer.

(** ** containers/circular_buffer.hpp *)

Module CircularBuffer.
Record t (T : Type) := mk {
    buffer_ : list T;
    write_pos_ : Z;        (* size_t *)
    count_ : Z             (* size_t *)
  }.
Arguments mk {T}.
Arguments buffer_ {T}.
Arguments write_pos_ {T}.
Arguments count_ {T}.

Section Circular.
Context {T : Type}.
Variable Capacity : Z.

(** [new T[Capacity]{}]: every slot value-initialised to [zero]. *)
Definition init (zero : T) : t T :=
  mk (replicate (Z.to_nat Capacity) zero) 0 0.

Definition push_back (c : t T) (value : T) : t T :=
  mk (<[Z.to_nat (write_pos_ c) := value]> (buffer_ c))
     (u64 (write_pos_ c + 1) mod Capacity)
     (if count_ c <? Capacity then u64 (count_ c + 1) else count_ c).

(** [operator[](idx)]; [None] is a read outside the array, which the
    reduction modulo [Capacity] excludes. *)
Definition subscript (c : t T) (idx : Z) : option T :=
  let start := if count_ c <? Capacity then 0 else write_pos_ c in
  buffer_ c !! Z.to_nat (u64 (start + idx) mod Capacity).

Definition back (c : t T) : option T :=
  buffer_ c !! Z.to_nat (u64 (u64 (write_pos_ c + Capacity) - 1) mod Capacity).

Definition front (c : t T) : option T :=
  let start := if count_ c <? Capacity then 0 else write_pos_ c in
  buffer_ c !! Z.to_nat start.

Definition size (c : t T) : Z := count_ c.
Definition empty (c : t T) : bool := count_ c =? 0.
Definition full (c : t T) : bool := count_ c =? Capacity.
Definition capacity : Z := Capacity.
Definition clear (c : t T) : t T := mk (buffer_ c) 0 0.
End Circular.
End CircularBuffer.

(** ** Doubles

    [double] is Rocq's primitive binary64 float.  [double_of_Z] is
    [static_cast<double>] of an integer: round to nearest, ties to even. *)

Definition double_of_Z (z : Z) : float :=
  SF2Prim (binary_normalize prec emax z 0 false).

Definition fabs (x : float) : float := PrimFloat.abs x.

Definition PRICE_SCALE : Z := 100.
Definition MAX_INSTRUMENTS : nat := 256.

(** ** common/config.hpp *)

Record RiskLimits := mkRiskLimits {
  max_position_per_instrument : Z;    (* int64_t *)
  max_total_position : Z;             (* int64_t *)
  max_capital : float;
  max_order_size : Z;                 (* Quantity *)
  max_orders_per_second : Z;          (* uint32_t *)
  max_price_deviation_pct : float;
  max_drawdown_pct : float
}.

(** ** risk/position_tracker.hpp, src/position_tracker.cpp *)

Module PositionTracker.
Record t := mk {
    positions_ : list Z;          (* std::array<int64_t, MAX_INSTRUMENTS> *)
    avg_prices_ : list float;
    mark_prices_ : list Z;
    instrument_pnl_ : list float;
    realized_pnl_ : float
  }.

(** The constructor, through [reset]. *)
Definition init : t :=
  mk (replicate MAX_INSTRUMENTS 0) (replicate MAX_INSTRUMENTS 0%float)
     (replicate MAX_INSTRUMENTS 0) (replicate MAX_INSTRUMENTS 0%float) 0%float.

Definition update_mark_price (p : t) (instrument price : Z) : t :=
  if instrument <? Z.of_nat MAX_INSTRUMENTS then
    mk (positions_ p) (avg_prices_ p)
       (<[Z.to_nat instrument := price]> (mark_prices_ p))
       (instrument_pnl_ p) (realized_pnl_ p)
  else p.

Definition position (p : t) (instrument : Z) : Z :=
  if Z.of_nat MAX_INSTRUMENTS <=? instrument then 0
  else default 0 (positions_ p !! Z.to_nat instrument).

Definition total_absolute_position (p : t) : Z :=
  fold_left (fun total pos => s64 (total + s64 (Z.abs pos)))
    (firstn MAX_INSTRUMENTS (positions_ p)) 0.

(** The loop of [capital_used] from index [i] on, over the three
    arrays side by side. *)
Fixpoint capital_loop (ps : list Z) (marks : list Z) (avgs : list float)
    (capital : float) : float :=
  match ps, marks, avgs with
  | pos :: ps', mark :: marks', avg :: avgs' =>
      let capital' :=
        if pos =? 0 then capital
        else
          let price :=
            if 0 <? mark
            then PrimFloat.div (double_of_Z mark) (double_of_Z PRICE_SCALE)
            else avg in
          PrimFloat.add capital (PrimFloat.mul (fabs (double_of_Z pos)) price) in
      capital_loop ps' marks' avgs' capital'
  | _, _, _ => capital
  end.

Definition capital_used (p : t) : float :=
  capital_loop (firstn MAX_INSTRUMENTS (positions_ p)) (mark_prices_ p)
    (avg_prices_ p) 0%float.

Definition reset (p : t) : t := init.

Definition on_fill (p : t) (instrument : Z) (side : Side) (quantity price : Z) : t :=
  if Z.of_nat MAX_INSTRUMENTS <=? instrument then p
  else
    let i := Z.to_nat instrument in
    let signed_qty := s64 quantity in
    let fill_price := PrimFloat.div (double_of_Z price) (double_of_Z PRICE_SCALE) in
    let pos := default 0 (positions_ p !! i) in
    let avg := default 0%float (avg_prices_ p !! i) in
    match side with
    | Buy =>
        if 0 <=? pos then
          (* adding to a long position *)
          let total_cost :=
            PrimFloat.add (PrimFloat.mul avg (double_of_Z pos))
                          (PrimFloat.mul fill_price (double_of_Z signed_qty)) in
          let pos' := s64 (pos + signed_qty) in
          let avg' :=
            if 0 <? pos' then PrimFloat.div total_cost (double_of_Z pos') else avg in
          mk (<[i := pos']> (positions_ p)) (<[i := avg']> (avg_prices_ p))
             (mark_prices_ p) (instrument_pnl_ p) (realized_pnl_ p)
        else
          (* covering a short *)
          let cover_qty := Z.min signed_qty (s64 (- pos)) in
          let pnl := PrimFloat.mul (double_of_Z cover_qty) (PrimFloat.sub avg fill_price) in
          let pos' := s64 (pos + signed_qty) in
          let avg' :=
            if 0 <? pos' then fill_price else if pos' =? 0 then 0%float else avg in
          mk (<[i := pos']> (positions_ p)) (<[i := avg']> (avg_prices_ p))
             (mark_prices_ p)
             (<[i := PrimFloat.add (default 0%float (instrument_pnl_ p !! i)) pnl]>
                (instrument_pnl_ p))
             (PrimFloat.add (realized_pnl_ p) pnl)
    | Sell =>
        if pos <=? 0 then
          (* adding to a short position *)
          let total_cost :=
            PrimFloat.add (PrimFloat.mul avg (double_of_Z (s64 (- pos))))
                          (PrimFloat.mul fill_price (double_of_Z signed_qty)) in
          let pos' := s64 (pos - signed_qty) in
          let avg' :=
            if pos' <? 0 then PrimFloat.div total_cost (double_of_Z (s64 (- pos')))
            else avg in
          mk (<[i := pos']> (positions_ p)) (<[i := avg']> (avg_prices_ p))
             (mark_prices_ p) (instrument_pnl_ p) (realized_pnl_ p)
        else
          (* selling a long *)
          let sell_qty := Z.min signed_qty pos in
          let pnl := PrimFloat.mul (double_of_Z sell_qty) (PrimFloat.sub fill_price avg) in
          let pos' := s64 (pos - signed_qty) in
          let avg' :=
            if pos' <? 0 then fill_price else if pos' =? 0 then 0%float else avg in
          mk (<[i := pos']> (positions_ p)) (<[i := avg']> (avg_prices_ p))
             (mark_prices_ p)
             (<[i := PrimFloat.add (default 0%float (instrument_pnl_ p !! i)) pnl]>
                (instrument_pnl_ p))
             (PrimFloat.add (realized_pnl_ p) pnl)
    end.

Definition realized_pnl (p : t) : float := realized_pnl_ p.

(** The loop of [unrealized_pnl] from index [i] on. *)
Fixpoint unrealized_loop (ps : list Z) (marks : list Z) (avgs : list float)
    (pnl : float) : float :=
  match ps, marks, avgs with
  | pos :: ps', mark :: marks', avg :: avgs' =>
      let pnl' :=
        if negb (pos =? 0) && negb (mark =? 0) then
          let m := PrimFloat.div (double_of_Z mark) (double_of_Z PRICE_SCALE) in
          if 0 <? pos
          then PrimFloat.add pnl (PrimFloat.mul (double_of_Z pos) (PrimFloat.sub m avg))
          else PrimFloat.add pnl
                 (PrimFloat.mul (double_of_Z (s64 (- pos))) (PrimFloat.sub avg m))
        else pnl in
      unrealized_loop ps' marks' avgs' pnl'
  | _, _, _ => pnl
  end.

Definition unrealized_pnl (p : t) : float :=
  unrealized_loop (firstn MAX_INSTRUMENTS (positions_ p)) (mark_prices_ p)
    (avg_prices_ p) 0%float.

Definition total_pnl (p : t) : float :=
  PrimFloat.add (realized_pnl_ p) (unrealized_pnl p).

Definition avg_price (p : t) (instrument : Z) : float :=
  if Z.of_nat MAX_INSTRUMENTS <=? instrument then 0%float
  else default 0%float (avg_prices_ p !! Z.to_nat instrument).
End PositionTracker.

(** ** risk/risk_manager.hpp, src/risk_manager.cpp

    [now_ns()] reads the monotonic clock; the value it returns is an
    argument ([now]) of the operations that call it. *)

Inductive RiskCheckResult :=
  | Approved | KillSwitchActive | PositionLimitBreached | CapitalLimitBreached
  | OrderSizeTooLarge | OrderRateExceeded | FatFingerPrice.

#[global] Instance RiskCheckResult_eq_dec : EqDecision RiskCheckResult.
Proof. solve_decision. Defined.

Module RiskManager.
Record t := mk {
    limits_ : RiskLimits;
    positions_ : PositionTracker.t;
    kill_switch_ : bool;                (* std::atomic<bool> *)
    price_deviation_threshold_ : float;
    order_count_in_window_ : Z;         (* uint32_t *)
    rate_window_start_ : Z;             (* Timestamp *)
    peak_pnl_ : float;
    max_drawdown_threshold_ : float;
    checks_performed_ : Z;              (* uint64_t *)
    checks_rejected_ : Z                (* uint64_t *)
  }.

Definition ONE_SECOND_NS : Z := 1000000000.

Definition update_precomputed (m : t) : t :=
  mk (limits_ m) (positions_ m) (kill_switch_ m)
     (PrimFloat.div (max_price_deviation_pct (limits_ m)) 100)
     (order_count_in_window_ m) (rate_window_start_ m) (peak_pnl_ m)
     (PrimFloat.div (max_drawdown_pct (limits_ m)) 100)
     (checks_performed_ m) (checks_rejected_ m).

Definition init (limits : RiskLimits) (now : Z) : t :=
  let m := update_precomputed
             (mk limits PositionTracker.init false 0 0 0 0 0 0 0) in
  mk (limits_ m) (positions_ m) (kill_switch_ m) (price_deviation_threshold_ m)
     (order_count_in_window_ m) now (peak_pnl_ m) (max_drawdown_threshold_ m)
     (checks_performed_ m) (checks_rejected_ m).

Definition set_kill_switch (v : bool) (m : t) : t :=
  mk (limits_ m) (positions_ m) v (price_deviation_threshold_ m)
     (order_count_in_window_ m) (rate_window_start_ m) (peak_pnl_ m)
     (max_drawdown_threshold_ m) (checks_performed_ m) (checks_rejected_ m).
Definition activate_kill_switch (m : t) : t := set_kill_switch true m.
Definition deactivate_kill_switch (m : t) : t := set_kill_switch false m.
Definition kill_switch_active (m : t) : bool := kill_switch_ m.

Definition set_peak_pnl (m : t) (peak : float) : t :=
  mk (limits_ m) (positions_ m) (kill_switch_ m) (price_deviation_threshold_ m)
     (order_count_in_window_ m) (rate_window_start_ m) peak
     (max_drawdown_threshold_ m) (checks_performed_ m) (checks_rejected_ m).

Definition set_limits (m : t) (limits : RiskLimits) : t :=
  update_precomputed
    (mk limits (positions_ m) (kill_switch_ m) (price_deviation_threshold_ m)
        (order_count_in_window_ m) (rate_window_start_ m) (peak_pnl_ m)
        (max_drawdown_threshold_ m) (checks_performed_ m) (checks_rejected_ m)).

Definition reset_rate_counter (m : t) (now : Z) : t :=
  mk (limits_ m) (positions_ m) (kill_switch_ m) (price_deviation_threshold_ m)
     0 now (peak_pnl_ m)
     (max_drawdown_threshold_ m) (checks_performed_ m) (checks_rejected_ m).

(** [++checks_rejected_; return r;] *)
Definition reject (r : RiskCheckResult) (m : t) : RiskCheckResult * t :=
  (r,
   mk (limits_ m) (positions_ m) (kill_switch_ m) (price_deviation_threshold_ m)
      (order_count_in_window_ m) (rate_window_start_ m) (peak_pnl_ m)
      (max_drawdown_threshold_ m) (checks_performed_ m)
      (u64 (checks_rejected_ m + 1))).

(** Step 5's updates of the window: the reset when a second has
    passed, then [++order_count_in_window_]. *)
Definition count_in_window (now : Z) (m : t) : t :=
  let elapsed := ONE_SECOND_NS <=? u64 (now - rate_window_start_ m) in
  let start := if elapsed then now else rate_window_start_ m in
  let count := if elapsed then 0 else order_count_in_window_ m in
  mk (limits_ m) (positions_ m) (kill_switch_ m) (price_deviation_threshold_ m)
     (u32 (count + 1)) start (peak_pnl_ m)
     (max_drawdown_threshold_ m) (checks_performed_ m) (checks_rejected_ m).

Definition check_order (m0 : t) (request : OrderRequest)
    (current_market_price : Z) (now : Z) : RiskCheckResult * t :=
  let m :=
    mk (limits_ m0) (positions_ m0) (kill_switch_ m0) (price_deviation_threshold_ m0)
       (order_count_in_window_ m0) (rate_window_start_ m0) (peak_pnl_ m0)
       (max_drawdown_threshold_ m0) (u64 (checks_performed_ m0 + 1))
       (checks_rejected_ m0) in
  (* 1. kill switch *)
  if kill_switch_ m then reject KillSwitchActive m
  (* 2. order size *)
  else if max_order_size (limits_ m) <? req_quantity request
  then reject OrderSizeTooLarge m
  else
    (* 3. position limits *)
    let current_pos := PositionTracker.position (positions_ m) (req_instrument request) in
    let signed_qty := s64 (req_quantity request) in
    let new_pos :=
      match req_side request with
      | Buy => s64 (current_pos + signed_qty)
      | Sell => s64 (current_pos - signed_qty)
      end in
    if max_position_per_instrument (limits_ m) <? s64 (Z.abs new_pos)
    then reject PositionLimitBreached m
    else
      let total := PositionTracker.total_absolute_position (positions_ m) in
      let delta := s64 (s64 (Z.abs new_pos) - s64 (Z.abs current_pos)) in
      if max_total_position (limits_ m) <? s64 (total + delta)
      then reject PositionLimitBreached m
      else
        (* 4. capital *)
        let capital := PositionTracker.capital_used (positions_ m) in
        let order_value :=
          PrimFloat.div
            (PrimFloat.mul (double_of_Z (req_quantity request))
                           (double_of_Z (req_price request)))
            (double_of_Z PRICE_SCALE) in
        if PrimFloat.ltb (max_capital (limits_ m)) (PrimFloat.add capital order_value)
        then reject CapitalLimitBreached m
        else
          (* 5. order rate *)
          let m := count_in_window now m in
          if max_orders_per_second (limits_ m) <? order_count_in_window_ m
          then reject OrderRateExceeded m
          else
            (* 6. fat finger *)
            if 0 <? current_market_price then
              let price_diff := s64 (Z.abs (s64 (req_price request - current_market_price))) in
              let diff_d := double_of_Z price_diff in
              let market_d := double_of_Z current_market_price in
              if PrimFloat.ltb (PrimFloat.mul market_d (price_deviation_threshold_ m)) diff_d
              then reject FatFingerPrice m
              else (Approved, m)
            else (Approved, m).

Definition on_pnl_update (m : t) (total_pnl : float) : t :=
  let m1 :=
    if PrimFloat.ltb (peak_pnl_ m) total_pnl then set_peak_pnl m total_pnl else m in
  if PrimFloat.ltb 0 (peak_pnl_ m1) then
    let drawdown :=
      PrimFloat.div (PrimFloat.sub (peak_pnl_ m1) total_pnl) (peak_pnl_ m1) in
    if PrimFloat.ltb (max_drawdown_threshold_ m1) drawdown
    then activate_kill_switch m1
    else m1
  else m1.

Definition checks_performed (m : t) : Z := checks_performed_ m.
Definition checks_rejected (m : t) : Z := checks_rejected_ m.
End RiskManager.

(** ** execution/execution_engine.hpp, src/execution_engine.cpp

    The rate limiter of the engine: the fields [check_rate_limit] reads
    and writes.  As for the risk gate, the value [now_ns()] returns is an
    argument. *)

Module ExecutionEngine.
Record t := mk {
    max_orders_per_sec_ : Z;      (* uint32_t *)
    rate_window_start_ : Z;       (* Timestamp *)
    orders_in_window_ : Z         (* uint32_t *)
  }.

Definition ONE_SECOND_NS : Z := 1000000000.

(** The default member initialisers. *)
Definition init : t := mk 10000 0 0.

Definition set_rate_limit (e : t) (max_orders_per_sec : Z) : t :=
  mk max_orders_per_sec (rate_window_start_ e) (orders_in_window_ e).

Definition check_rate_limit (e : t) (now : Z) : bool * t :=
  let elapsed := ONE_SECOND_NS <=? u64 (now - rate_window_start_ e) in
  let start := if elapsed then now else rate_window_start_ e in
  let count := if elapsed then 0 else orders_in_window_ e in
  if max_orders_per_sec_ e <=? count
  then (false, mk (max_orders_per_sec_ e) start count)
  else (true, mk (max_orders_per_sec_ e) start (u32 (count + 1))).
End ExecutionEngine.

(** ** Call sequences on a book *)

Inductive call :=
  | Add (id : Z) (side : Side) (type : OrderType) (price quantity timestamp : Z)
  | Cancel (id : Z)
  | Modify (id new_price new_quantity : Z).

Definition step (b : OrderBook.t) (c : call) : OrderBook.t :=
  match c with
  | Add id side type price quantity timestamp =>
      fst (OrderBook.add_order b id side type price quantity timestamp)
  | Cancel id => fst (OrderBook.cancel_order b id)
  | Modify id new_price new_quantity =>
      fst (OrderBook.modify_order b id new_price new_quantity)
  end.

Definition run (cs : list call) (b : OrderBook.t) : OrderBook.t :=
  fold_left step cs b.

(** ** What the claims speak of *)

(** The entries linked into a level's list, from [p] along [next]. *)
Fixpoint chain (fuel : nat) (mem : list OrderBookEntry.t) (p : option nat) : list nat :=
  match fuel, p with
  | S fuel', Some i => i :: chain fuel' mem (OrderBookEntry.next (MemoryPool.slot mem i))
  | _, _ => []
  end.

Definition level_entries (b : OrderBook.t) (l : PriceLevel.t) : list nat :=
  chain (length (OrderBook.mem (OrderBook.pool_ b))) (OrderBook.mem (OrderBook.pool_ b))
    (PriceLevel.head l).

Definition residual_sum (b : OrderBook.t) (ptrs : list nat) : Z :=
  fold_right
    (fun i acc =>
       OrderBookEntry.quantity (OrderBook.deref (OrderBook.pool_ b) i)
       - OrderBookEntry.filled_quantity (OrderBook.deref (OrderBook.pool_ b) i) + acc)
    0 ptrs.

(** I2 for one level. *)
Definition level_consistent (b : OrderBook.t) (l : PriceLevel.t) : Prop :=
  PriceLevel.total_quantity l = residual_sum b (level_entries b l)
  ∧ PriceLevel.order_count l = Z.of_nat (length (level_entries b l)).

(** I4: no resting bid price reaches a resting ask price. *)
Definition no_cross (b : OrderBook.t) : Prop :=
  ∀ kb ka, kb ∈ PriceMap.keys (OrderBook.bids_ b) →
           ka ∈ PriceMap.keys (OrderBook.asks_ b) → kb < ka.

(** The order of a level map and the agreement of each level's [price]
    with its key. *)
Definition ordered (before : Z → Z → bool) (m : PriceMap.t) : Prop :=
  StronglySorted (fun a b => before a b = true) (PriceMap.keys m).

Definition keyed (m : PriceMap.t) : Prop :=
  Forall (fun kl => PriceLevel.price (snd kl) = fst kl) m.

Definition book_wf (b : OrderBook.t) : Prop :=
  ordered Z.gtb (OrderBook.bids_ b) ∧ ordered Z.ltb (OrderBook.asks_ b)
  ∧ keyed (OrderBook.bids_ b) ∧ keyed (OrderBook.asks_ b).

Definition is_max (k : Z) (ks : list Z) : Prop := k ∈ ks ∧ ∀ k', k' ∈ ks → k' ≤ k.
Definition is_min (k : Z) (ks : list Z) : Prop := k ∈ ks ∧ ∀ k', k' ∈ ks → k ≤ k'.

(** ** Scenarios, and the vocabulary of the theorems *)

Definition seed_sell_50 : OrderBook.t :=
  run [Add 1 Sell Limit 10000 50 1] (OrderBook.init 0).

Definition two_sells_then_buy_50 : OrderBook.t :=
  run [Add 1 Sell Limit 10000 50 1; Add 2 Sell Limit 10000 30 2;
       Add 3 Buy Limit 10000 50 3] (OrderBook.init 0).

Definition three_sells : OrderBook.t :=
  run [Add 1 Sell Limit 10000 50 1; Add 2 Sell Limit 10000 30 2;
       Add 3 Sell Limit 9900 20 3] (OrderBook.init 0).


(** The two comparators the book instantiates [std::map] with. *)
Definition comparator (before : Z → Z → bool) : Prop :=
  (∀ a b, before a b = true ↔ a < b) ∨ (∀ a b, before a b = true ↔ b < a).

(** [thinned m m']: [m'] is [m] with some levels erased and the others
    replaced by levels of the same price; what a walk and a removal do. *)
Inductive thinned : PriceMap.t → PriceMap.t → Prop :=
  | thinned_nil : thinned [] []
  | thinned_keep k l l' m m' :
      PriceLevel.price l' = PriceLevel.price l →
      thinned m m' → thinned ((k, l) :: m) ((k, l') :: m')
  | thinned_drop k l m m' : thinned m m' → thinned ((k, l) :: m) m'.

Definition same_order_fields (e e' : OrderBookEntry.t) : Prop :=
  OrderBookEntry.side e' = OrderBookEntry.side e
  ∧ OrderBookEntry.type e' = OrderBookEntry.type e
  ∧ OrderBookEntry.price e' = OrderBookEntry.price e.

Definition stable (m m' : list OrderBookEntry.t) : Prop :=
  ∀ i, same_order_fields (MemoryPool.slot m i) (MemoryPool.slot m' i).

Definition keeps (f : OrderBookEntry.t → OrderBookEntry.t) : Prop :=
  ∀ e, same_order_fields e (f e).

(** A level an incoming limit order of side [s] and price [p] does not
    match: a sell above the buy's limit, a buy below the sell's. *)
Definition unmarketable (s : Side) (p k : Z) : Prop :=
  match s with Buy => p < k | Sell => k < p end.

(** Where the walk of an order of side [s] goes: a buy walks the asks, a
    sell the bids. *)
Definition walked_order (s : Side) (m : PriceMap.t) : Prop :=
  match s with Buy => ordered Z.ltb m | Sell => ordered Z.gtb m end.

(** The cache of one side agrees with the first level of that side. *)
Definition bid_cache_fresh (b : OrderBook.t) : Prop :=
  match OrderBook.bids_ b with
  | [] => OrderBook.best_bid_ b = 0 ∧ OrderBook.best_bid_qty_ b = 0
  | (k, l) :: _ =>
      OrderBook.best_bid_ b = k ∧ OrderBook.best_bid_qty_ b = PriceLevel.total_quantity l
  end.

Definition ask_cache_fresh (b : OrderBook.t) : Prop :=
  match OrderBook.asks_ b with
  | [] => OrderBook.best_ask_ b = PRICE_MAX ∧ OrderBook.best_ask_qty_ b = 0
  | (k, l) :: _ =>
      OrderBook.best_ask_ b = k ∧ OrderBook.best_ask_qty_ b = PriceLevel.total_quantity l
  end.

(** The cached price of a side is the key of its first level. *)
Definition bid_price_ok (b : OrderBook.t) : Prop :=
  match PriceMap.keys (OrderBook.bids_ b) with
  | [] => OrderBook.best_bid_ b = 0
  | k :: _ => OrderBook.best_bid_ b = k
  end.

Definition ask_price_ok (b : OrderBook.t) : Prop :=
  match PriceMap.keys (OrderBook.asks_ b) with
  | [] => OrderBook.best_ask_ b = PRICE_MAX
  | k :: _ => OrderBook.best_ask_ b = k
  end.

(** The cached quantity of a side is zero exactly when the side is empty:
    what [add_to_book] takes a zero quantity to mean. *)
Definition bid_qty_ok (b : OrderBook.t) : Prop :=
  OrderBook.best_bid_qty_ b = 0 ↔ OrderBook.bids_ b = [].

Definition ask_qty_ok (b : OrderBook.t) : Prop :=
  OrderBook.best_ask_qty_ b = 0 ↔ OrderBook.asks_ b = [].

(** Two books with the same level maps and the same cached best. *)
Definition same_levels (b b' : OrderBook.t) : Prop :=
  OrderBook.bids_ b' = OrderBook.bids_ b ∧ OrderBook.asks_ b' = OrderBook.asks_ b
  ∧ OrderBook.best_bid_ b' = OrderBook.best_bid_ b
  ∧ OrderBook.best_ask_ b' = OrderBook.best_ask_ b
  ∧ OrderBook.best_bid_qty_ b' = OrderBook.best_bid_qty_ b
  ∧ OrderBook.best_ask_qty_ b' = OrderBook.best_ask_qty_ b.

(** The walk [match_order] starts with, by the order's type. *)
Definition first_walk (b : OrderBook.t) (entry : nat) : OrderBook.t * list Trade :=
  match OrderBookEntry.type (OrderBook.deref (OrderBook.pool_ b) entry) with
  | Market => OrderBook.try_match_market b entry []
  | _ => OrderBook.try_match_limit b entry []
  end.


Definition bbo_prices_ok (b : OrderBook.t) : Prop := bid_price_ok b ∧ ask_price_ok b.

Definition bbo_qty_ok (b : OrderBook.t) : Prop := bid_qty_ok b ∧ ask_qty_ok b.

(** The book [modify_order] hands to [add_order]: the old order removed. *)
Definition modify_removed (b : OrderBook.t) (id : Z) : OrderBook.t :=
  match OrderBook.orders_ b !! id with
  | None => b
  | Some entry => OrderBook.release id entry (OrderBook.remove_from_book b entry)
  end.

(** The books reached from the empty one by calls after each of which (and
    after the removal inside [modify_order]) the cached best quantity of a
    side is zero exactly when the side has no level. *)
Inductive synced : OrderBook.t → Prop :=
  | synced_init instrument : synced (OrderBook.init instrument)
  | synced_add b id side type price quantity timestamp :
      synced b →
      bbo_qty_ok (fst (OrderBook.add_order b id side type price quantity timestamp)) →
      synced (fst (OrderBook.add_order b id side type price quantity timestamp))
  | synced_cancel b id :
      synced b →
      bbo_qty_ok (fst (OrderBook.cancel_order b id)) →
      synced (fst (OrderBook.cancel_order b id))
  | synced_modify b id new_price new_quantity :
      synced b →
      bbo_qty_ok (modify_removed b id) →
      bbo_qty_ok (fst (OrderBook.modify_order b id new_price new_quantity)) →
      synced (fst (OrderBook.modify_order b id new_price new_quantity)).

(** P4 as the claim words it. *)
Definition bbo_as_claimed (b : OrderBook.t) : Prop :=
  (OrderBook.bids_ b = [] → OrderBook.best_bid b = 0)
  ∧ (∀ k, is_max k (PriceMap.keys (OrderBook.bids_ b)) → OrderBook.best_bid b = k)
  ∧ (OrderBook.asks_ b = [] → OrderBook.best_ask b = 0)
  ∧ (∀ k, is_min k (PriceMap.keys (OrderBook.asks_ b)) → OrderBook.best_ask b = k).

(** P4 as the code has it: the lowest ask is reported unless it is
    [INT64_MAX], the value that stands for "no ask". *)
Definition bbo_correct (b : OrderBook.t) : Prop :=
  (OrderBook.bids_ b = [] → OrderBook.best_bid b = 0)
  ∧ (∀ k, is_max k (PriceMap.keys (OrderBook.bids_ b)) → OrderBook.best_bid b = k)
  ∧ (OrderBook.asks_ b = [] → OrderBook.best_ask b = 0)
  ∧ (∀ k, is_min k (PriceMap.keys (OrderBook.asks_ b)) →
          OrderBook.best_ask b = if k =? PRICE_MAX then 0 else k).

(** The free head of the slab is null or points into the slab: the entry
    [add_order] is handed is a slot of the slab. *)
Definition pool_head_ok (b : OrderBook.t) : Prop :=
  MemoryPool.free_head_ (OrderBook.pool_ b) = MemoryPool.INVALID
  ∨ (Z.to_nat (MemoryPool.free_head_ (OrderBook.pool_ b))
     < length (MemoryPool.storage_ (OrderBook.pool_ b)))%nat.

(** Two bids at 100, then a FOK buy that meets no sell, cancelled. *)
Definition fok_cancelled : OrderBook.t :=
  run [Add 1 Buy Limit 100 10 1; Add 2 Buy Limit 100 10 2;
       Add 3 Buy FOK 100 5 3; Cancel 3] (OrderBook.init 0).

Definition fok_cancelled_then_bids : OrderBook.t :=
  run [Add 4 Buy Limit 100 10 4; Cancel 1; Add 5 Buy Limit 90 10 5] fok_cancelled.

Definition two_bids_at_100 : OrderBook.t :=
  run [Add 1 Buy Limit 100 10 1; Add 2 Buy Limit 100 5 2] (OrderBook.init 0).

(** A bid at 100, a FOK buy at 100 that meets no sell, cancelled, and a
    second bid at 100. *)
Definition bid_lost_then_new_bid : OrderBook.t :=
  run [Add 1 Buy Limit 100 10 1; Add 2 Buy FOK 100 5 2; Cancel 2;
       Add 3 Buy Limit 100 10 3] (OrderBook.init 0).

(** The limits of the unit tests' fixture. *)
Definition test_limits : RiskLimits := mkRiskLimits 1000 5000 1000000 500 100 5 2.

(** What the claim takes a [FatFingerPrice] return to leave alone. *)
Definition rate_state_kept (m m' : RiskManager.t) : Prop :=
  RiskManager.positions_ m' = RiskManager.positions_ m
  ∧ RiskManager.rate_window_start_ m' = RiskManager.rate_window_start_ m
  ∧ RiskManager.order_count_in_window_ m' = RiskManager.order_count_in_window_ m.

Inductive ring_op (T : Type) :=
  | Push (x : T)
  | Pop.
Arguments Push {T}.
Arguments Pop {T}.

(** One call on the buffer, with the record of the values pushed and
    popped so far; a push that returns [false] and a pop that returns
    [false] leave the record alone. *)
Definition ring_step {T} (Capacity : Z)
    (tr : LockFreeRingBuffer.t T * list T * list T) (op : ring_op T)
    : LockFreeRingBuffer.t T * list T * list T :=
  let '(q, pushed, popped) := tr in
  match op with
  | Push x =>
      let '(ok, q') := LockFreeRingBuffer.try_push Capacity q x in
      (q', if ok then pushed ++ [x] else pushed, popped)
  | Pop =>
      let '(r, q') := LockFreeRingBuffer.try_pop Capacity q in
      (q', pushed, match r with Some v => popped ++ [v] | None => popped end)
  end.

Definition ring_run {T} (Capacity : Z) (zero : T) (ops : list (ring_op T))
    : LockFreeRingBuffer.t T * list T * list T :=
  fold_left (ring_step Capacity) ops (LockFreeRingBuffer.init Capacity zero, [], []).

(** The free list of a pool: the slots met from [h] along the links, up
    to the [INVALID] link. *)
Inductive free_list {T} `{PoolSlot T} (s : list T) : Z → list nat → Prop :=
  | free_list_end : free_list s MemoryPool.INVALID []
  | free_list_link i l :
      (i < length s)%nat →
      free_list s (read_link (MemoryPool.slot s i)) l →
      free_list s (Z.of_nat i) (i :: l).

(** The list of a level, as the intrusive links spell it: from [p] along
    [next], each entry's [prev] being the entry before it. *)
Fixpoint dlinked (mem : list OrderBookEntry.t) (before_p p : option nat)
    (ptrs : list nat) : Prop :=
  match ptrs with
  | [] => p = None
  | i :: r =>
      p = Some i ∧ (i < length mem)%nat
      ∧ OrderBookEntry.prev (MemoryPool.slot mem i) = before_p
      ∧ dlinked mem (Some i) (OrderBookEntry.next (MemoryPool.slot mem i)) r
  end.

(** The level [l] holds the orders [ptrs], oldest first. *)
Definition level_queue (mem : list OrderBookEntry.t) (l : PriceLevel.t)
    (ptrs : list nat) : Prop :=
  dlinked mem None (PriceLevel.head l) ptrs
  ∧ PriceLevel.tail l = last ptrs
  ∧ NoDup ptrs.

(** The trade one turn of the inner loop records. *)
Definition trade_of (side_of : OrderBookEntry.t → Side) (instrument : Z)
    (e r : OrderBookEntry.t) : Trade :=
  mkTrade
    (match side_of e with Buy => OrderBookEntry.id e | Sell => OrderBookEntry.id r end)
    (match side_of e with Sell => OrderBookEntry.id e | Buy => OrderBookEntry.id r end)
    instrument
    (OrderBookEntry.price r)
    (Z.min (OrderBook.remaining_of e) (OrderBook.remaining_of r))
    (OrderBookEntry.timestamp e).

(** The side of the book an incoming order of side [s] is matched
    against. *)
Definition opposite_levels (b : OrderBook.t) (s : Side) : PriceMap.t :=
  match s with Buy => OrderBook.asks_ b | Sell => OrderBook.bids_ b end.

Section RingQueue.
Context {T : Type}.
Variable Capacity : Z.

(** The buffer [q] holds the queue [l]: [l] sits in the slots from
    [head_] up to [tail_], around the end of the array. *)
Definition holds (q : LockFreeRingBuffer.t T) (l : list T) : Prop :=
  0 ≤ LockFreeRingBuffer.head_ q < Capacity
  ∧ 0 ≤ LockFreeRingBuffer.tail_ q < Capacity
  ∧ Z.of_nat (length (LockFreeRingBuffer.buffer_ q)) = Capacity
  ∧ Z.of_nat (length l)
    = (LockFreeRingBuffer.tail_ q - LockFreeRingBuffer.head_ q) mod Capacity
  ∧ ∀ i, (i < length l)%nat →
         LockFreeRingBuffer.buffer_ q
           !! Z.to_nat ((LockFreeRingBuffer.head_ q + Z.of_nat i) mod Capacity)
         = l !! i.
End RingQueue.

Section PoolDiscipline.
Context {T : Type} `{PoolSlot T}.
Variable PoolSize : nat.

(** The pool [p] with the set [A] of slots handed out and not yet given
    back. *)
Definition pool_inv (p : MemoryPool.t T) (A : gset nat) : Prop :=
  length (MemoryPool.storage_ p) = PoolSize
  ∧ MemoryPool.allocated_count_ p = Z.of_nat (size A)
  ∧ (∀ i, i ∈ A → (i < PoolSize)%nat)
  ∧ ∃ l, free_list (MemoryPool.storage_ p) (MemoryPool.free_head_ p) l
         ∧ NoDup l
         ∧ ∀ i, i ∈ l ↔ (i < PoolSize)%nat ∧ i ∉ A.

(** The pools reached under the discipline: [deallocate] is given null or
    a slot that is handed out; the owner of a slot may write to it. *)
Inductive pool_reach : MemoryPool.t T → gset nat → Prop :=
  | reach_init : pool_reach (MemoryPool.init PoolSize) ∅
  | reach_allocate p A :
      pool_reach p A →
      pool_reach (snd (MemoryPool.allocate p))
        (match fst (MemoryPool.allocate p) with Some i => A ∪ {[i]} | None => A end)
  | reach_deallocate p A i :
      pool_reach p A → i ∈ A →
      pool_reach (MemoryPool.deallocate p (Some i)) (A ∖ {[i]})
  | reach_deallocate_null p A :
      pool_reach p A → pool_reach (MemoryPool.deallocate p None) A
  | reach_write p A i v :
      pool_reach p A → i ∈ A →
      pool_reach (MemoryPool.mk (<[i := v]> (MemoryPool.storage_ p))
                    (MemoryPool.free_head_ p) (MemoryPool.allocated_count_ p)) A.
End PoolDiscipline.

(** ** The vocabulary of the further properties *)

(** [n] calls of [allocate] in a row: the pointers returned, in order, and
    the pool afterwards. *)
Fixpoint allocate_many {T} `{PoolSlot T} (n : nat) (p : MemoryPool.t T)
    : list (option nat) * MemoryPool.t T :=
  match n with
  | O => ([], p)
  | S n' =>
      let '(r, p') := MemoryPool.allocate p in
      let '(rs, p'') := allocate_many n' p' in
      (r :: rs, p'')
  end.

(** The calls on the risk gate other than [deactivate_kill_switch], the
    tracker being reached through [position_tracker()]. *)
Inductive risk_call :=
  | CheckOrder (request : OrderRequest) (current_market_price now : Z)
  | OnPnlUpdate (total_pnl : float)
  | SetPeakPnl (peak : float)
  | SetLimits (limits : RiskLimits)
  | ResetRateCounter (now : Z)
  | ActivateKillSwitch
  | OnFill (instrument : Z) (side : Side) (quantity price : Z)
  | UpdateMarkPrice (instrument price : Z).

Definition with_positions (m : RiskManager.t) (p : PositionTracker.t) : RiskManager.t :=
  RiskManager.mk (RiskManager.limits_ m) p (RiskManager.kill_switch_ m)
    (RiskManager.price_deviation_threshold_ m) (RiskManager.order_count_in_window_ m)
    (RiskManager.rate_window_start_ m) (RiskManager.peak_pnl_ m)
    (RiskManager.max_drawdown_threshold_ m) (RiskManager.checks_performed_ m)
    (RiskManager.checks_rejected_ m).

Definition risk_step (m : RiskManager.t) (c : risk_call) : RiskManager.t :=
  match c with
  | CheckOrder request current_market_price now =>
      snd (RiskManager.check_order m request current_market_price now)
  | OnPnlUpdate total_pnl => RiskManager.on_pnl_update m total_pnl
  | SetPeakPnl peak => RiskManager.set_peak_pnl m peak
  | SetLimits limits => RiskManager.set_limits m limits
  | ResetRateCounter now => RiskManager.reset_rate_counter m now
  | ActivateKillSwitch => RiskManager.activate_kill_switch m
  | OnFill instrument side quantity price =>
      with_positions m
        (PositionTracker.on_fill (RiskManager.positions_ m) instrument side quantity price)
  | UpdateMarkPrice instrument price =>
      with_positions m
        (PositionTracker.update_mark_price (RiskManager.positions_ m) instrument price)
  end.

(** A run of [check_order] calls, each with its request, market price and
    clock value: the results in order and the gate afterwards. *)
Fixpoint check_orders (m : RiskManager.t) (calls : list (OrderRequest * Z * Z))
    : list RiskCheckResult * RiskManager.t :=
  match calls with
  | [] => ([], m)
  | (request, current_market_price, now) :: rest =>
      let '(r, m') := RiskManager.check_order m request current_market_price now in
      let '(rs, m'') := check_orders m' rest in
      (r :: rs, m'')
  end.

Definition approvals (rs : list RiskCheckResult) : Z :=
  Z.of_nat (length (filter (fun r => r = Approved) rs)).

(** The position [check_order] computes for after the order. *)
Definition position_after (m : RiskManager.t) (request : OrderRequest) : Z :=
  let current_pos :=
    PositionTracker.position (RiskManager.positions_ m) (req_instrument request) in
  match req_side request with
  | Buy => s64 (current_pos + s64 (req_quantity request))
  | Sell => s64 (current_pos - s64 (req_quantity request))
  end.

(** A fill as [on_fill] is given it: instrument, side, quantity, price. *)
Definition fill_call : Type := Z * Side * Z * Z.

Definition apply_fill (p : PositionTracker.t) (f : fill_call) : PositionTracker.t :=
  let '(instrument, side, quantity, price) := f in
  PositionTracker.on_fill p instrument side quantity price.

(** What a fill adds to the position of [instrument]. *)
Definition signed_fill (instrument : Z) (f : fill_call) : Z :=
  let '(i, side, quantity, _) := f in
  if i =? instrument
  then match side with Buy => s64 quantity | Sell => - s64 quantity end
  else 0.

Definition net_filled (instrument : Z) (fs : list fill_call) : Z :=
  fold_right (fun f acc => signed_fill instrument f + acc) 0 fs.

(** The arrays of a tracker have [MAX_INSTRUMENTS] elements. *)
Definition tracker_sized (p : PositionTracker.t) : Prop :=
  length (PositionTracker.positions_ p) = MAX_INSTRUMENTS
  ∧ length (PositionTracker.avg_prices_ p) = MAX_INSTRUMENTS
  ∧ length (PositionTracker.mark_prices_ p) = MAX_INSTRUMENTS
  ∧ length (PositionTracker.instrument_pnl_ p) = MAX_INSTRUMENTS.

(** The positions are 64-bit values, and an instrument without a position
    has an average price of 0.0. *)
Definition flat_is_clean (p : PositionTracker.t) : Prop :=
  ∀ k pos avg,
    PositionTracker.positions_ p !! k = Some pos →
    PositionTracker.avg_prices_ p !! k = Some avg →
    - 2 ^ 63 ≤ pos < 2 ^ 63 ∧ (pos = 0 → avg = 0%float).

(** The side of the book an order of side [s] rests on. *)
Definition own_levels (b : OrderBook.t) (s : Side) : PriceMap.t :=
  match s with Buy => OrderBook.bids_ b | Sell => OrderBook.asks_ b end.

(** An order of side [s], type [t] and price [p] that finds nothing to
    trade with: the other side is empty, or the order is not a market
    order and its price does not reach the first level of the other
    side. *)
Definition finds_no_match (levels : PriceMap.t) (s : Side) (t : OrderType) (p : Z) : Prop :=
  match levels with
  | [] => True
  | (_, level) :: _ => t ≠ Market ∧ unmarketable s p (PriceLevel.price level)
  end.


(** What [get_depth] writes for one level. *)
Definition depth_entry_of (kl : Z * PriceLevel.t) : OrderBook.DepthEntry :=
  OrderBook.mkDepthEntry (fst kl) (PriceLevel.total_quantity (snd kl))
    (PriceLevel.order_count (snd kl)).

(** A slab of three entries linked into one level in the order 0, 1, 2. *)
Definition three_in_a_level : list OrderBookEntry.t * PriceLevel.t :=
  let '(m1, l1) := PriceLevel.add_order (replicate 3 OrderBookEntry.zero) PriceLevel.fresh 0 in
  let '(m2, l2) := PriceLevel.add_order m1 l1 1 in
  PriceLevel.add_order m2 l2 2.

(** A run of [check_rate_limit] calls, one per clock value: the answers
    in order and the engine afterwards. *)
Fixpoint check_rate_limits (e : ExecutionEngine.t) (nows : list Z)
    : list bool * ExecutionEngine.t :=
  match nows with
  | [] => ([], e)
  | now :: rest =>
      let '(ok, e') := ExecutionEngine.check_rate_limit e now in
      let '(oks, e'') := check_rate_limits e' rest in
      (ok :: oks, e'')
  end.

(** The two thresholds are those of the limits in force. *)
Definition thresholds_in_step (m : RiskManager.t) : Prop :=
  RiskManager.price_deviation_threshold_ m
  = PrimFloat.div (max_price_deviation_pct (RiskManager.limits_ m)) 100
  ∧ RiskManager.max_drawdown_threshold_ m
    = PrimFloat.div (max_drawdown_pct (RiskManager.limits_ m)) 100.

Section RollingWindow.
Context {T : Type}.
Variable Capacity : Z.

(** The buffer [c] after the values [xs] have been pushed, oldest first:
    the last [Capacity] of them sit in the slots their positions in [xs]
    reduce to. *)
Definition rolled (c : CircularBuffer.t T) (xs : list T) : Prop :=
  Z.of_nat (length (CircularBuffer.buffer_ c)) = Capacity
  ∧ CircularBuffer.write_pos_ c = Z.of_nat (length xs) mod Capacity
  ∧ CircularBuffer.count_ c = Z.min (Z.of_nat (length xs)) Capacity
  ∧ ∀ j, 0 ≤ j < Z.of_nat (length xs) → Z.of_nat (length xs) - j ≤ Capacity →
         CircularBuffer.buffer_ c !! Z.to_nat (j mod Capacity) = xs !! Z.to_nat j.
End RollingWindow.

(** A write to an entry that leaves its links and its quantities alone,
    as a write of [status] does. *)
Definition keeps_links (f : OrderBookEntry.t → OrderBookEntry.t) : Prop :=
  ∀ e, OrderBookEntry.prev (f e) = OrderBookEntry.prev e
       ∧ OrderBookEntry.next (f e) = OrderBookEntry.next e
       ∧ OrderBookEntry.quantity (f e) = OrderBookEntry.quantity e
       ∧ OrderBookEntry.filled_quantity (f e) = OrderBookEntry.filled_quantity e.

(** Two resting orders of 100 and 50 queued at one level, and a third
    order of 30 in the slab that is not queued yet. *)
Definition two_queued_one_spare : list OrderBookEntry.t * PriceLevel.t :=
  let mem :=
    [OrderBookEntry.mk 1 0 Buy Limit New 10000 100 0 0 None None;
     OrderBookEntry.mk 2 0 Buy Limit New 10000 50 0 0 None None;
     OrderBookEntry.mk 3 0 Buy Limit New 10000 30 0 0 None None] in
  let '(m1, l1) := PriceLevel.add_order mem PriceLevel.fresh 0 in
  PriceLevel.add_order m1 l1 1.

(** The comparator of the side an order of side [s] rests on. *)
Definition own_before (s : Side) : Z → Z → bool :=
  match s with Buy => Z.gtb | Sell => Z.ltb end.

(** The level [l] at [price] is a consistent, non-empty list of orders
    that does not hold the slot [entry], and an order of [quantity] more
    fits its counters. *)
Definition queue_with_room (mem : list OrderBookEntry.t) (entry : nat)
    (quantity price : Z) (l : PriceLevel.t) : Prop :=
  PriceLevel.price l = price
  ∧ (0 ≤ PriceLevel.order_count l ∧ PriceLevel.order_count l < 2 ^ 32)
  ∧ (0 ≤ PriceLevel.total_quantity l)
  ∧ (PriceLevel.total_quantity l + quantity < 2 ^ 64)
  ∧ (∃ ptrs, ptrs ≠ [] ∧ (entry ∉ ptrs) ∧ level_queue mem l ptrs).

(** An order whose filled quantity is within its quantity, both in the
    range of [Quantity]. *)
Definition within_quantity (e : OrderBookEntry.t) : Prop :=
  0 ≤ OrderBookEntry.filled_quantity e
  ∧ OrderBookEntry.filled_quantity e ≤ OrderBookEntry.quantity e
  ∧ OrderBookEntry.quantity e < 2 ^ 64.

(** A write to an entry that leaves its links alone. *)
Definition keeps_chain (f : OrderBookEntry.t → OrderBookEntry.t) : Prop :=
  ∀ e, OrderBookEntry.prev (f e) = OrderBookEntry.prev e
       ∧ OrderBookEntry.next (f e) = OrderBookEntry.next e.

(** The fields of an order a walk never writes. *)
Definition same_order (e e' : OrderBookEntry.t) : Prop :=
  OrderBookEntry.id e' = OrderBookEntry.id e
  ∧ OrderBookEntry.side e' = OrderBookEntry.side e
  ∧ OrderBookEntry.type e' = OrderBookEntry.type e
  ∧ OrderBookEntry.price e' = OrderBookEntry.price e
  ∧ OrderBookEntry.quantity e' = OrderBookEntry.quantity e
  ∧ OrderBookEntry.timestamp e' = OrderBookEntry.timestamp e.

(** The levels of one side of the book with the lists of their orders,
    oldest first: every level is a consistent, non-empty list of orders
    within their quantity, and no order is in two places. *)
Definition side_queues (mem : list OrderBookEntry.t) (levels : PriceMap.t)
    (qs : list (list nat)) : Prop :=
  Forall2 (fun kl q => level_queue mem kl.2 q ∧ q ≠ []
                       ∧ Forall (fun p => within_quantity (MemoryPool.slot mem p)) q)
    levels qs
  ∧ NoDup (concat qs).

(** The trade [t] of the incoming order [e] of side [s] is against the
    resting order [r], at [r]'s price, for no more than [r]'s residual. *)
Definition trade_against (s : Side) (e r : OrderBookEntry.t) (t : Trade) : Prop :=
  match s with
  | Buy => buyer_order_id t = OrderBookEntry.id e ∧ seller_order_id t = OrderBookEntry.id r
  | Sell => seller_order_id t = OrderBookEntry.id e ∧ buyer_order_id t = OrderBookEntry.id r
  end
  ∧ trade_price t = OrderBookEntry.price r
  ∧ (0 ≤ trade_quantity t ∧ trade_quantity t ≤ OrderBook.remaining_of r).

(** A stretch of a walk that took the slab from [mem] to [mem'] and
    recorded the trades [new]: the trades are against the first [n]
    orders of [flat], in that order, the first [m] of them filled
    completely ([n] is [m] or [m + 1]); no slot outside [flat] but the
    incoming order's was written, and the orders not filled completely
    are the orders they were. *)
Definition in_order (s : Side) (entry : nat) (mem mem' : list OrderBookEntry.t)
    (flat : list nat) (new : list Trade) (n m : nat) : Prop :=
  (m ≤ n)%nat ∧ (n ≤ S m)%nat ∧ (n ≤ length flat)%nat
  ∧ Forall2 (fun t p => trade_against s (MemoryPool.slot mem entry) (MemoryPool.slot mem p) t)
      new (take n flat)
  ∧ Forall2 (fun t p => trade_quantity t = OrderBook.remaining_of (MemoryPool.slot mem p))
      (take m new) (take m flat)
  ∧ length mem' = length mem
  ∧ (∀ p, p ≠ entry → p ∉ flat → MemoryPool.slot mem' p = MemoryPool.slot mem p)
  ∧ (∀ p, p ∈ drop m flat →
          same_order (MemoryPool.slot mem p) (MemoryPool.slot mem' p)
          ∧ within_quantity (MemoryPool.slot mem' p))
  ∧ (∀ p, p ∈ drop n flat →
          OrderBookEntry.filled_quantity (MemoryPool.slot mem' p)
          = OrderBookEntry.filled_quantity (MemoryPool.slot mem p))
  ∧ same_order (MemoryPool.slot mem entry) (MemoryPool.slot mem' entry)
  ∧ within_quantity (MemoryPool.slot mem' entry)
  ∧ (n = S m → OrderBook.remaining_of (MemoryPool.slot mem' entry) = 0).

(** The order [add_order] writes to the slot the pool hands out. *)
Definition incoming_order (b : OrderBook.t) (id : Z) (side : Side) (type : OrderType)
    (price quantity timestamp : Z) : OrderBookEntry.t :=
  OrderBookEntry.mk id (OrderBook.instrument_ b) side type New price quantity 0 timestamp
    None None.

(** The three sells of the scenario, and a limit buy of 100 at 10000
    written to slot 3 of the slab, before its walk. *)
Definition three_sells_and_a_buy : OrderBook.t :=
  OrderBook.mk (OrderBook.instrument_ three_sells)
    (OrderBook.with_mem
       (<[3%nat := incoming_order three_sells 4 Buy Limit 10000 100 4]>
          (OrderBook.mem (OrderBook.pool_ three_sells)))
       (OrderBook.pool_ three_sells))
    (OrderBook.bids_ three_sells) (OrderBook.asks_ three_sells)
    (OrderBook.orders_ three_sells)
    (OrderBook.best_bid_ three_sells) (OrderBook.best_ask_ three_sells)
    (OrderBook.best_bid_qty_ three_sells) (OrderBook.best_ask_qty_ three_sells).

(** * Theorems *)

(** ** Scenarios on the order book *)

(** C1. A buy of 100 FOK at 10000 against one resting sell of 50 at 10000
    returns no trade and discards the new entry, but the book is not as it
    was: the walk has consumed the resting sell, and only the incoming
    side is rolled back.  The ask level, the resting order's map entry and
    the best ask are gone.  (A FOK that meets no liquidity at all records
    no trade, falls through every branch of [match_order] and stays in the
    id map with its slot allocated.) *)
Theorem fok_reject_consumes_resting_orders :
  let b := seed_sell_50 in
  let r := OrderBook.add_order b 2 Buy FOK 10000 100 2 in
  snd r = []
  ∧ OrderBook.orders_ (fst r) !! 2 = None
  ∧ (OrderBook.ask_level_count b = 1 ∧ OrderBook.ask_level_count (fst r) = 0)
  ∧ (OrderBook.best_ask b = 10000 ∧ OrderBook.best_ask (fst r) = 0)
  ∧ (OrderBook.best_ask_quantity b = 50 ∧ OrderBook.best_ask_quantity (fst r) = 0)
  ∧ (OrderBook.orders_ b !! 1 = Some 0%nat ∧ OrderBook.orders_ (fst r) !! 1 = None)
  ∧ OrderBook.asks_ (fst r) ≠ OrderBook.asks_ b
  ∧ (let r0 := OrderBook.add_order (OrderBook.init 0) 7 Buy FOK 10000 100 2 in
     snd r0 = [] ∧ OrderBook.orders_ (fst r0) !! 7 = Some 0%nat
     ∧ MemoryPool.allocated (OrderBook.pool_ (fst r0)) = 1).
Proof. vm_compute. repeat split; congruence. Qed.

(** C3. After sells of 50 and 30 rest at 10000 and a buy of 50 at 10000
    fully consumes the first, the level still holds the second order
    (residual 30, one entry) but its [total_quantity] is 80:
    [try_match_limit] adds the fill to [filled_quantity] before it calls
    [remove_order], which then subtracts a residual of 0.  The aggregate is
    not the sum of the residuals of the linked entries. *)
Theorem consumed_order_stays_in_level_total :
  ∃ l, OrderBook.asks_ two_sells_then_buy_50 = [(10000, l)]
       ∧ level_entries two_sells_then_buy_50 l = [1%nat]
       ∧ residual_sum two_sells_then_buy_50 (level_entries two_sells_then_buy_50 l) = 30
       ∧ PriceLevel.total_quantity l = 80
       ∧ PriceLevel.order_count l = 1
       ∧ ¬ level_consistent two_sells_then_buy_50 l.
Proof.
  eexists. split; [vm_compute; reflexivity|].
  split; [vm_compute; reflexivity|].
  split; [vm_compute; reflexivity|].
  split; [reflexivity|]. split; [reflexivity|].
  intros [Htotal _]. vm_compute in Htotal. discriminate.
Qed.


(** ** Level maps: order, keys and prices *)

Lemma comparator_ltb : comparator Z.ltb.
Proof. left. intros a b. apply Z.ltb_lt. Qed.

Lemma comparator_gtb : comparator Z.gtb.
Proof. right. intros a b. rewrite Z.gtb_ltb. apply Z.ltb_lt. Qed.

Create HintDb book.
#[local] Hint Constructors thinned : book.

Lemma thinned_refl m : thinned m m.
Proof. induction m as [|[k l] m IH]; auto with book. Qed.

#[local] Hint Resolve thinned_refl : book.

Lemma thinned_trans m1 m2 m3 : thinned m1 m2 → thinned m2 m3 → thinned m1 m3.
Proof.
  intros H12. revert m3. induction H12; intros m3 H23; auto with book.
  inversion H23; subst; auto with book.
  apply thinned_keep; [congruence | auto].
Qed.

Lemma thinned_keys m m' k :
  thinned m m' → k ∈ PriceMap.keys m' → k ∈ PriceMap.keys m.
Proof.
  induction 1; simpl; auto; rewrite !elem_of_cons; intuition.
Qed.

Lemma thinned_keyed m m' : thinned m m' → keyed m → keyed m'.
Proof.
  unfold keyed. induction 1; intros Hk; auto.
  - inversion Hk; subst. constructor; simpl in *; [congruence | auto].
  - inversion Hk; subst. auto.
Qed.

Lemma thinned_ordered before m m' :
  thinned m m' → ordered before m → ordered before m'.
Proof.
  unfold ordered. induction 1 as [| k l l' m m' Hp Ht IH | k l m m' Ht IH];
    simpl; intros Hs; auto.
  - apply StronglySorted_inv in Hs as [Hs Hall]. constructor; [auto|].
    rewrite Forall_forall in *. intros x Hx. apply Hall.
    apply (thinned_keys _ _ _ Ht), Hx.
  - apply StronglySorted_inv in Hs as [Hs _]. auto.
Qed.

Lemma thinned_nil_inv m' : thinned [] m' → m' = [].
Proof. inversion 1; reflexivity. Qed.

Section PriceMapFacts.
Variable before : Z → Z → bool.
Hypothesis Hcmp : comparator before.

Lemma keys_at_key k f m k' :
    k' ∈ PriceMap.keys (PriceMap.at_key before k f m) ↔ k' = k ∨ k' ∈ PriceMap.keys m.
  Proof.
    induction m as [|[k0 l0] m IH]; simpl.
    - rewrite list_elem_of_singleton, elem_of_nil. tauto.
    - destruct (Z.eqb_spec k k0) as [->|Hne]; simpl.
      + rewrite elem_of_cons. tauto.
      + destruct (before k k0); simpl; rewrite !elem_of_cons; [tauto|].
        rewrite IH. tauto.
  Qed.

Lemma ordered_at_key k f m :
    ordered before m → ordered before (PriceMap.at_key before k f m).
  Proof.
    unfold ordered. induction m as [|[k0 l0] m IH]; simpl; intros Hs.
    - repeat constructor.
    - destruct (Z.eqb_spec k k0) as [->|Hne]; simpl; [exact Hs|].
      pose proof Hs as Hs0.
      apply StronglySorted_inv in Hs as [Hs Hall].
      destruct (before k k0) eqn:Hb; simpl.
      + constructor; [exact Hs0|]. constructor; [exact Hb|].
        rewrite Forall_forall in *. intros x Hx. specialize (Hall x Hx).
        destruct Hcmp as [Hc|Hc]; rewrite Hc in *; lia.
      + constructor; [auto|].
        rewrite Forall_forall in *. intros x Hx.
        apply keys_at_key in Hx as [->|Hx].
        * destruct Hcmp as [Hc|Hc]; rewrite Hc;
            (destruct (before k k0) eqn:Hb'; [discriminate|]);
            assert (¬ before k k0 = true) as Hn by congruence;
            rewrite Hc in Hn; lia.
        * apply Hall, Hx.
  Qed.

Lemma keyed_at_key k f m :
    (∀ l, PriceLevel.price (f l) = k) → keyed m → keyed (PriceMap.at_key before k f m).
  Proof.
    unfold keyed. intros Hf. induction m as [|[k0 l0] m IH]; simpl; intros Hk.
    - repeat constructor. simpl. apply Hf.
    - inversion Hk; subst.
      destruct (Z.eqb_spec k k0) as [->|Hne]; simpl.
      + constructor; simpl; auto.
      + destruct (before k k0); constructor; simpl; auto.
  Qed.

  (** [begin()] after [m[k]] has been created: the old first key, or [k]
      when [k] comes before it. *)
Lemma head_at_key k f m :
    match PriceMap.keys m with
    | [] => PriceMap.keys (PriceMap.at_key before k f m) = [k]
    | k0 :: _ =>
        ∃ r, PriceMap.keys (PriceMap.at_key before k f m)
             = (if before k k0 then k else k0) :: r
    end.
  Proof.
    destruct m as [|[k0 l0] m]; simpl; [reflexivity|].
    destruct (Z.eqb_spec k k0) as [->|Hne]; simpl.
    - destruct (before k0 k0); eauto.
    - destruct (before k k0); simpl; eauto.
  Qed.
End PriceMapFacts.

Lemma keys_assign k v m : PriceMap.keys (PriceMap.assign k v m) = PriceMap.keys m.
Proof.
  induction m as [|[k0 l0] m IH]; simpl; [reflexivity|].
  destruct (k =? k0); simpl; congruence.
Qed.

Lemma keyed_assign k v m :
  PriceLevel.price v = k → keyed m → keyed (PriceMap.assign k v m).
Proof.
  unfold keyed. intros Hv. induction m as [|[k0 l0] m IH]; simpl; intros Hk; [constructor|].
  inversion Hk as [|? ? Hhd Htl]; simpl in Hhd.
  destruct (Z.eqb_spec k k0) as [Heq|Hne]; constructor; simpl; auto; congruence.
Qed.

Lemma ordered_assign before k v m :
  ordered before m → ordered before (PriceMap.assign k v m).
Proof. unfold ordered. rewrite keys_assign. auto. Qed.

Lemma thinned_assign k v m :
  (∀ l, PriceMap.find k m = Some l → PriceLevel.price v = PriceLevel.price l) →
  thinned m (PriceMap.assign k v m).
Proof.
  induction m as [|[k0 l0] m IH]; simpl; intros Hv; [constructor|].
  destruct (Z.eqb_spec k k0) as [->|Hne].
  - apply thinned_keep; [apply Hv; reflexivity | apply thinned_refl].
  - apply thinned_keep; [reflexivity | apply IH, Hv].
Qed.

Lemma thinned_erase k m : thinned m (PriceMap.erase k m).
Proof.
  induction m as [|[k0 l0] m IH]; simpl; [constructor|].
  destruct (k =? k0); auto with book.
Qed.

Lemma find_keyed k m l : keyed m → PriceMap.find k m = Some l → PriceLevel.price l = k.
Proof.
  unfold keyed. induction m as [|[k0 l0] m IH]; simpl; intros Hk Hf; [discriminate|].
  inversion Hk; subst. destruct (Z.eqb_spec k k0) as [->|Hne]; [|auto].
  injection Hf as <-. assumption.
Qed.

(** ** What a walk leaves alone in the slab

    No write of the matching engine after [add_order] has filled in the
    new entry touches an order's side, type or price. *)

Lemma stable_refl m : stable m m.
Proof. intros i. repeat split. Qed.

Lemma stable_trans m1 m2 m3 : stable m1 m2 → stable m2 m3 → stable m1 m3.
Proof.
  intros H12 H23 i. destruct (H12 i) as (?&?&?), (H23 i) as (?&?&?).
  repeat split; congruence.
Qed.

Lemma slot_insert (m : list OrderBookEntry.t) i j x :
  MemoryPool.slot (<[i := x]> m) j
  = if decide (i = j ∧ (i < length m)%nat) then x else MemoryPool.slot m j.
Proof.
  unfold MemoryPool.slot. destruct (decide (i = j)) as [->|Hne].
  - destruct (decide (j < length m)%nat) as [Hlt|Hge].
    + rewrite list_lookup_insert_eq by assumption.
      rewrite decide_True by auto. reflexivity.
    + rewrite list_insert_ge by lia. rewrite decide_False by tauto. reflexivity.
  - rewrite list_lookup_insert_ne by assumption.
    rewrite decide_False by tauto. reflexivity.
Qed.

Lemma poke_stable i f m : keeps f → stable m (poke i f m).
Proof.
  intros Hf j. unfold poke. rewrite slot_insert.
  destruct (decide _) as [[-> _]|_]; [apply Hf | repeat split].
Qed.

Lemma keeps_set_prev v : keeps (OrderBookEntry.set_prev v).
Proof. intros e. repeat split. Qed.
Lemma keeps_set_next v : keeps (OrderBookEntry.set_next v).
Proof. intros e. repeat split. Qed.
Lemma keeps_set_status v : keeps (OrderBookEntry.set_status v).
Proof. intros e. repeat split. Qed.
Lemma keeps_set_filled_quantity v : keeps (OrderBookEntry.set_filled_quantity v).
Proof. intros e. repeat split. Qed.
Lemma keeps_add_filled v : keeps (OrderBook.add_filled v).
Proof. intros e. repeat split. Qed.
Lemma keeps_write_link w : keeps (entry_write_link w).
Proof. intros e. repeat split. Qed.

#[local] Hint Resolve stable_refl poke_stable keeps_set_prev keeps_set_next
  keeps_set_status keeps_set_filled_quantity keeps_add_filled keeps_write_link : book.

Lemma remove_order_spec m l entry m' l' :
  PriceLevel.remove_order m l entry = (m', l') →
  stable m m' ∧ PriceLevel.price l' = PriceLevel.price l.
Proof.
  unfold PriceLevel.remove_order.
  destruct (OrderBookEntry.prev (MemoryPool.slot m entry)) as [p|];
    (match goal with
     | |- context [OrderBookEntry.next (MemoryPool.slot ?mm entry)] =>
         destruct (OrderBookEntry.next (MemoryPool.slot mm entry)) as [n|] eqn:Hn
     end);
    intros [= <- <-]; (split; [|reflexivity]);
    repeat (eapply stable_trans; [|apply poke_stable; auto with book]);
    apply stable_refl.
Qed.

Lemma add_order_spec m l entry m' l' :
  PriceLevel.add_order m l entry = (m', l') →
  stable m m' ∧ PriceLevel.price l' = PriceLevel.price l.
Proof.
  unfold PriceLevel.add_order.
  destruct (PriceLevel.tail l) as [tl|]; intros [= <- <-]; (split; [|reflexivity]);
    repeat (eapply stable_trans; [|apply poke_stable; auto with book]);
    apply stable_refl.
Qed.

Lemma deallocate_stable (p : MemoryPool.t OrderBookEntry.t) ptr :
  stable (OrderBook.mem p) (OrderBook.mem (MemoryPool.deallocate p ptr)).
Proof.
  destruct ptr as [i|]; simpl; [|apply stable_refl].
  apply (poke_stable i (entry_write_link (MemoryPool.free_head_ p))), keeps_write_link.
Qed.

(** ** The inner loop *)

Lemma fill_spec side_of instrument entry resting level w level' w' :
  OrderBook.fill side_of instrument entry resting level w = (level', w') →
  PriceLevel.price level' = PriceLevel.price level
  ∧ stable (OrderBook.mem (OrderBook.w_pool w)) (OrderBook.mem (OrderBook.w_pool w'))
  ∧ OrderBook.trade_count w' = OrderBook.trade_count w + 1.
Proof.
  unfold OrderBook.fill.
  destruct (_ <=? _).
  - destruct (PriceLevel.remove_order _ _ _) as [m4 l4] eqn:Hrm.
    intros [= <- <-]. apply remove_order_spec in Hrm as [Hst Hp].
    split_and!; [assumption | |].
    + eapply stable_trans;
        [|apply (deallocate_stable (OrderBook.with_mem m4 (OrderBook.w_pool w))
                   (Some resting))].
      simpl. eapply stable_trans; [|exact Hst].
      repeat (eapply stable_trans; [|apply poke_stable; auto with book]).
      apply stable_refl.
    + unfold OrderBook.trade_count. simpl. rewrite length_app. simpl. lia.
  - intros [= <- <-]. split_and!; [reflexivity | |].
    + simpl.
      repeat (eapply stable_trans; [|apply poke_stable; auto with book]).
      apply stable_refl.
    + unfold OrderBook.trade_count. simpl. rewrite length_app. simpl. lia.
Qed.

Lemma match_level_spec side_of instrument entry fuel :
  ∀ level w level' w' ret,
    OrderBook.MAX_TRADES_PER_MATCH ≤ Z.of_nat fuel + OrderBook.trade_count w →
    OrderBook.match_level fuel side_of instrument entry level w = (level', w', ret) →
    PriceLevel.price level' = PriceLevel.price level
    ∧ stable (OrderBook.mem (OrderBook.w_pool w)) (OrderBook.mem (OrderBook.w_pool w'))
    ∧ OrderBook.trade_count w ≤ OrderBook.trade_count w'
    ∧ (ret = true →
       OrderBook.remaining_of (OrderBook.deref (OrderBook.w_pool w') entry) = 0)
    ∧ (ret = false →
       PriceLevel.empty level' = true
       ∨ OrderBook.MAX_TRADES_PER_MATCH ≤ OrderBook.trade_count w').
Proof.
  induction fuel as [|fuel IH]; intros level w level' w' ret Hfuel H.
  - simpl in H. injection H as <- <- <-.
    split_and!; [reflexivity | apply stable_refl | lia | discriminate | intros _; right; lia].
  - cbn [OrderBook.match_level] in H.
    destruct (PriceLevel.front level) as [resting|] eqn:Hfront.
    + destruct (OrderBook.trade_count w <? OrderBook.MAX_TRADES_PER_MATCH) eqn:Hguard;
        simpl in H.
      * destruct (OrderBook.remaining_of _ =? 0) eqn:Hrem.
        -- injection H as <- <- <-.
           split_and!; [reflexivity | apply stable_refl | lia | | discriminate].
           intros _. apply Z.eqb_eq, Hrem.
        -- destruct (OrderBook.fill _ _ _ _ _ _) as [l1 w1] eqn:Hfill.
           apply fill_spec in Hfill as (Hp1 & Hst1 & Htc1).
           apply IH in H as (Hp & Hst & Htc & Hret & Hnot); [|lia].
           split_and!; [congruence | eapply stable_trans; eassumption | lia
                       | assumption | assumption].
      * injection H as <- <- <-. apply Z.ltb_ge in Hguard.
        split_and!; [reflexivity | apply stable_refl | lia | discriminate
                    | intros _; right; assumption].
    + injection H as <- <- <-.
      split_and!; [reflexivity | apply stable_refl | lia | discriminate |].
      intros _. left. unfold PriceLevel.empty, PriceLevel.front in *.
      rewrite Hfront. reflexivity.
Qed.

(** ** The outer loop *)

Lemma match_against_spec limit side_of instrument entry :
  ∀ levels w levels' w',
    OrderBook.match_against limit side_of instrument entry levels w = (levels', w') →
    thinned levels levels'
    ∧ stable (OrderBook.mem (OrderBook.w_pool w)) (OrderBook.mem (OrderBook.w_pool w'))
    ∧ OrderBook.trade_count w ≤ OrderBook.trade_count w'.
Proof.
  induction levels as [|[k level] rest IH]; intros w levels' w' H.
  - injection H as <- <-. split_and!; [constructor | apply stable_refl | lia].
  - cbn [OrderBook.match_against] in H.
    destruct (negb _);
      [injection H as <- <-; split_and!; [apply thinned_refl | apply stable_refl | lia]|].
    destruct (_ && _ && _);
      [injection H as <- <-; split_and!; [apply thinned_refl | apply stable_refl | lia]|].
    destruct (_ && _ && _);
      [injection H as <- <-; split_and!; [apply thinned_refl | apply stable_refl | lia]|].
    destruct (OrderBook.match_level _ _ _ _ _ _) as [[level1 w1] ret] eqn:Hlevel.
    apply match_level_spec in Hlevel as (Hp & Hst & Htc & _ & _);
      [|unfold OrderBook.trade_count, OrderBook.MAX_TRADES_PER_MATCH; lia].
    destruct ret.
    + injection H as <- <-.
      split_and!; [apply thinned_keep; [assumption | apply thinned_refl] | assumption | lia].
    + destruct (PriceLevel.empty level1).
      * apply IH in H as (Hth & Hst' & Htc').
        split_and!; [apply thinned_drop; assumption
                    | eapply stable_trans; eassumption | lia].
      * destruct (OrderBook.match_against _ _ _ _ rest w1) as [rest' w2] eqn:Hrest.
        injection H as <- <-.
        apply IH in Hrest as (Hth & Hst' & Htc').
        split_and!; [apply thinned_keep; assumption
                    | eapply stable_trans; eassumption | lia].
Qed.

Lemma walked_order_tail s k l m :
  walked_order s ((k, l) :: m) →
  walked_order s m ∧ ∀ k', k' ∈ PriceMap.keys m → unmarketable s k k'.
Proof.
  destruct s; unfold walked_order, ordered; simpl; intros Hs;
    apply StronglySorted_inv in Hs as [Hs Hall]; (split; [assumption|]);
    rewrite Forall_forall in Hall; intros k' Hk'; specialize (Hall k' Hk'); simpl.
  - apply Z.ltb_lt, Hall.
  - rewrite Z.gtb_ltb in Hall. apply Z.ltb_lt, Hall.
Qed.

Lemma unmarketable_beyond s p k l m :
  walked_order s ((k, l) :: m) → unmarketable s p k →
  ∀ k', k' ∈ PriceMap.keys ((k, l) :: m) → unmarketable s p k'.
Proof.
  intros Hord Hun k' Hk'. apply walked_order_tail in Hord as [_ Hbeyond].
  simpl in Hk'. apply elem_of_cons in Hk' as [->|Hk']; [assumption|].
  specialize (Hbeyond k' Hk'). destruct s; simpl in *; lia.
Qed.

Lemma buy_break e q :
  true && bool_decide (OrderBookEntry.side e = Buy) && (OrderBookEntry.price e <? q) = true →
  unmarketable (OrderBookEntry.side e) (OrderBookEntry.price e) q.
Proof.
  simpl. intros H. apply andb_true_iff in H as [Hs Hlt].
  apply bool_decide_eq_true in Hs. rewrite Hs. apply Z.ltb_lt, Hlt.
Qed.

Lemma sell_break e q :
  true && bool_decide (OrderBookEntry.side e = Sell) && (q <? OrderBookEntry.price e) = true →
  unmarketable (OrderBookEntry.side e) (OrderBookEntry.price e) q.
Proof.
  simpl. intros H. apply andb_true_iff in H as [Hs Hlt].
  apply bool_decide_eq_true in Hs. rewrite Hs. apply Z.ltb_lt, Hlt.
Qed.

(** When a limit walk ends below the trade cap with a residual, every
    level still on the walked side is out of the order's reach. *)
Lemma match_against_rest side_of instrument entry :
  ∀ levels w levels' w',
    OrderBook.match_against true side_of instrument entry levels w = (levels', w') →
    keyed levels →
    walked_order (OrderBookEntry.side (OrderBook.deref (OrderBook.w_pool w) entry)) levels →
    OrderBook.trade_count w' < OrderBook.MAX_TRADES_PER_MATCH →
    OrderBook.remaining_of (OrderBook.deref (OrderBook.w_pool w') entry) ≠ 0 →
    ∀ k, k ∈ PriceMap.keys levels' →
         unmarketable (OrderBookEntry.side (OrderBook.deref (OrderBook.w_pool w) entry))
           (OrderBookEntry.price (OrderBook.deref (OrderBook.w_pool w) entry)) k.
Proof.
  induction levels as [|[k level] rest IH]; intros w levels' w' H Hkeyed Hord Hcap Hrem k0 Hk0.
  - injection H as <- <-. apply elem_of_nil in Hk0. contradiction.
  - cbn [OrderBook.match_against] in H.
    destruct (OrderBook.trade_count w <? OrderBook.MAX_TRADES_PER_MATCH) eqn:Hguard;
      cbn [negb] in H; [|injection H as <- <-; apply Z.ltb_ge in Hguard; lia].
    assert (Hkl : PriceLevel.price level = k) by (inversion Hkeyed; assumption).
    assert (Hkeyed' : keyed rest) by (inversion Hkeyed; assumption).
    destruct (true && bool_decide _ && (_ <? PriceLevel.price level)) eqn:Hbuy.
    { injection H as <- <-. apply buy_break in Hbuy. rewrite Hkl in Hbuy.
      eapply unmarketable_beyond; eassumption. }
    destruct (true && bool_decide _ && (PriceLevel.price level <? _)) eqn:Hsell.
    { injection H as <- <-. apply sell_break in Hsell. rewrite Hkl in Hsell.
      eapply unmarketable_beyond; eassumption. }
    destruct (OrderBook.match_level _ _ _ _ _ _) as [[level1 w1] ret] eqn:Hlevel.
    apply match_level_spec in Hlevel as (Hp & Hst & Htc & Hret & Hnot);
      [|unfold OrderBook.trade_count, OrderBook.MAX_TRADES_PER_MATCH; lia].
    destruct (Hst entry) as (Hside & _ & Hprice).
    fold (OrderBook.deref (OrderBook.w_pool w) entry) in Hside, Hprice.
    fold (OrderBook.deref (OrderBook.w_pool w1) entry) in Hside, Hprice.
    apply walked_order_tail in Hord as [Hord' _].
    destruct ret.
    + injection H as <- <-. exfalso. apply Hrem, Hret. reflexivity.
    + destruct (PriceLevel.empty level1).
      * rewrite <- Hside, <- Hprice. rewrite <- Hside in Hord'.
        eapply IH; eassumption.
      * destruct (OrderBook.match_against _ _ _ _ rest w1) as [rest' w2] eqn:Hrest.
        injection H as <- <-.
        apply match_against_spec in Hrest as (_ & _ & Htc').
        destruct (Hnot eq_refl) as [Hempty|Hfull]; [discriminate|lia].
Qed.

(** ** The cached best prices *)

Lemma bid_cache_fresh_price b : bid_cache_fresh b → bid_price_ok b.
Proof.
  unfold bid_cache_fresh, bid_price_ok.
  destruct (OrderBook.bids_ b) as [|[k l] r]; simpl; tauto.
Qed.

Lemma ask_cache_fresh_price b : ask_cache_fresh b → ask_price_ok b.
Proof.
  unfold ask_cache_fresh, ask_price_ok.
  destruct (OrderBook.asks_ b) as [|[k l] r]; simpl; tauto.
Qed.

Lemma update_best_bid_spec b :
  let b' := OrderBook.update_best_bid b in
  bid_cache_fresh b'
  ∧ OrderBook.bids_ b' = OrderBook.bids_ b ∧ OrderBook.asks_ b' = OrderBook.asks_ b
  ∧ OrderBook.pool_ b' = OrderBook.pool_ b ∧ OrderBook.orders_ b' = OrderBook.orders_ b
  ∧ OrderBook.best_ask_ b' = OrderBook.best_ask_ b
  ∧ OrderBook.best_ask_qty_ b' = OrderBook.best_ask_qty_ b.
Proof.
  unfold OrderBook.update_best_bid, bid_cache_fresh.
  destruct (OrderBook.bids_ b) as [|[k l] r] eqn:Hb; simpl; rewrite ?Hb; tauto.
Qed.

Lemma update_best_ask_spec b :
  let b' := OrderBook.update_best_ask b in
  ask_cache_fresh b'
  ∧ OrderBook.bids_ b' = OrderBook.bids_ b ∧ OrderBook.asks_ b' = OrderBook.asks_ b
  ∧ OrderBook.pool_ b' = OrderBook.pool_ b ∧ OrderBook.orders_ b' = OrderBook.orders_ b
  ∧ OrderBook.best_bid_ b' = OrderBook.best_bid_ b
  ∧ OrderBook.best_bid_qty_ b' = OrderBook.best_bid_qty_ b.
Proof.
  unfold OrderBook.update_best_ask, ask_cache_fresh.
  destruct (OrderBook.asks_ b) as [|[k l] r] eqn:Hb; simpl; rewrite ?Hb; tauto.
Qed.

(** ** The walks of [try_match_limit] and [try_match_market] *)

Lemma walk_asks_spec limit side_of b entry trades b' trades' :
  OrderBook.walk_asks limit side_of b entry trades = (b', trades') →
  OrderBook.bids_ b' = OrderBook.bids_ b
  ∧ thinned (OrderBook.asks_ b) (OrderBook.asks_ b')
  ∧ stable (OrderBook.mem (OrderBook.pool_ b)) (OrderBook.mem (OrderBook.pool_ b'))
  ∧ OrderBook.best_bid_ b' = OrderBook.best_bid_ b
  ∧ OrderBook.best_bid_qty_ b' = OrderBook.best_bid_qty_ b
  ∧ ask_cache_fresh b'
  ∧ (length trades ≤ length trades')%nat.
Proof.
  unfold OrderBook.walk_asks.
  destruct (OrderBook.match_against _ _ _ _ _ _) as [asks' w] eqn:Hwalk.
  intros [= <- <-]. apply match_against_spec in Hwalk as (Hth & Hst & Htc).
  match goal with |- context [OrderBook.update_best_ask ?x] =>
    destruct (update_best_ask_spec x) as (Hc & -> & -> & -> & _ & -> & ->) end.
  simpl in *. unfold OrderBook.trade_count in Htc. simpl in Htc.
  split_and!; auto. lia.
Qed.

Lemma walk_bids_spec limit side_of b entry trades b' trades' :
  OrderBook.walk_bids limit side_of b entry trades = (b', trades') →
  OrderBook.asks_ b' = OrderBook.asks_ b
  ∧ thinned (OrderBook.bids_ b) (OrderBook.bids_ b')
  ∧ stable (OrderBook.mem (OrderBook.pool_ b)) (OrderBook.mem (OrderBook.pool_ b'))
  ∧ OrderBook.best_ask_ b' = OrderBook.best_ask_ b
  ∧ OrderBook.best_ask_qty_ b' = OrderBook.best_ask_qty_ b
  ∧ bid_cache_fresh b'
  ∧ (length trades ≤ length trades')%nat.
Proof.
  unfold OrderBook.walk_bids.
  destruct (OrderBook.match_against _ _ _ _ _ _) as [bids' w] eqn:Hwalk.
  intros [= <- <-]. apply match_against_spec in Hwalk as (Hth & Hst & Htc).
  match goal with |- context [OrderBook.update_best_bid ?x] =>
    destruct (update_best_bid_spec x) as (Hc & -> & -> & -> & _ & -> & ->) end.
  simpl in *. unfold OrderBook.trade_count in Htc. simpl in Htc.
  split_and!; auto. lia.
Qed.

(** After a limit walk that stays under the cap and leaves a residual, the
    walked side holds only levels beyond the order's limit. *)
Lemma walk_asks_rest side_of b entry b' trades' :
  OrderBook.walk_asks true side_of b entry [] = (b', trades') →
  OrderBookEntry.side (OrderBook.deref (OrderBook.pool_ b) entry) = Buy →
  keyed (OrderBook.asks_ b) → ordered Z.ltb (OrderBook.asks_ b) →
  (length trades' < 64)%nat →
  OrderBook.remaining_of (OrderBook.deref (OrderBook.pool_ b') entry) ≠ 0 →
  ∀ k, k ∈ PriceMap.keys (OrderBook.asks_ b') →
       OrderBookEntry.price (OrderBook.deref (OrderBook.pool_ b) entry) < k.
Proof.
  unfold OrderBook.walk_asks.
  destruct (OrderBook.match_against _ _ _ _ _ _) as [asks' w] eqn:Hwalk.
  intros [= <- <-] Hside Hkeyed Hord Hcap Hrem k Hk.
  match goal with H : context [OrderBook.update_best_ask ?x] |- _ =>
    destruct (update_best_ask_spec x) as (_ & _ & Ha & Hp & _) end.
  rewrite Ha in Hk. rewrite Hp in Hrem. simpl in Hk, Hrem.
  pose proof (match_against_rest _ _ _ _ _ _ _ Hwalk) as Hrest. simpl in Hrest.
  rewrite Hside in Hrest. apply Hrest; auto.
  unfold OrderBook.trade_count, OrderBook.MAX_TRADES_PER_MATCH. lia.
Qed.

Lemma walk_bids_rest side_of b entry b' trades' :
  OrderBook.walk_bids true side_of b entry [] = (b', trades') →
  OrderBookEntry.side (OrderBook.deref (OrderBook.pool_ b) entry) = Sell →
  keyed (OrderBook.bids_ b) → ordered Z.gtb (OrderBook.bids_ b) →
  (length trades' < 64)%nat →
  OrderBook.remaining_of (OrderBook.deref (OrderBook.pool_ b') entry) ≠ 0 →
  ∀ k, k ∈ PriceMap.keys (OrderBook.bids_ b') →
       k < OrderBookEntry.price (OrderBook.deref (OrderBook.pool_ b) entry).
Proof.
  unfold OrderBook.walk_bids.
  destruct (OrderBook.match_against _ _ _ _ _ _) as [bids' w] eqn:Hwalk.
  intros [= <- <-] Hside Hkeyed Hord Hcap Hrem k Hk.
  match goal with H : context [OrderBook.update_best_bid ?x] |- _ =>
    destruct (update_best_bid_spec x) as (_ & Ha & _ & Hp & _) end.
  rewrite Ha in Hk. rewrite Hp in Hrem. simpl in Hk, Hrem.
  pose proof (match_against_rest _ _ _ _ _ _ _ Hwalk) as Hrest. simpl in Hrest.
  rewrite Hside in Hrest. apply Hrest; auto.
  unfold OrderBook.trade_count, OrderBook.MAX_TRADES_PER_MATCH. lia.
Qed.

(** ** Resting an order: [add_to_book] *)

Lemma at_key_idem before k g m :
  PriceMap.at_key before k (fun l => l) (PriceMap.at_key before k g m)
  = PriceMap.at_key before k g m.
Proof.
  induction m as [|[k0 l0] m IH]; simpl.
  - rewrite Z.eqb_refl. reflexivity.
  - destruct (k =? k0) eqn:Heq; simpl.
    + rewrite Heq. reflexivity.
    + destruct (before k k0) eqn:Hb; simpl.
      * rewrite Z.eqb_refl. reflexivity.
      * rewrite Heq, Hb, IH. reflexivity.
Qed.

Lemma find_at_key before k g m :
  ∃ x, PriceMap.find k (PriceMap.at_key before k g m) = Some (g x).
Proof.
  induction m as [|[k0 l0] m IH]; simpl.
  - rewrite Z.eqb_refl. eauto.
  - destruct (k =? k0) eqn:Heq; simpl.
    + rewrite Heq. eauto.
    + destruct (before k k0) eqn:Hb; simpl.
      * rewrite Z.eqb_refl. eauto.
      * rewrite Heq. exact IH.
Qed.

Lemma subscript_at_key before k g m :
  ∃ x, PriceMap.subscript before k (PriceMap.at_key before k g m) = g x.
Proof.
  unfold PriceMap.subscript. rewrite at_key_idem.
  destruct (find_at_key before k g m) as [x ->]. eauto.
Qed.

Lemma add_to_book_buy b entry :
  OrderBookEntry.side (OrderBook.deref (OrderBook.pool_ b) entry) = Buy →
  let p := OrderBookEntry.price (OrderBook.deref (OrderBook.pool_ b) entry) in
  let b' := OrderBook.add_to_book b entry in
  OrderBook.asks_ b' = OrderBook.asks_ b
  ∧ PriceMap.keys (OrderBook.bids_ b')
    = PriceMap.keys (PriceMap.at_key Z.gtb p (PriceLevel.set_price p) (OrderBook.bids_ b))
  ∧ (keyed (OrderBook.bids_ b) → keyed (OrderBook.bids_ b'))
  ∧ OrderBook.best_ask_ b' = OrderBook.best_ask_ b
  ∧ OrderBook.best_ask_qty_ b' = OrderBook.best_ask_qty_ b
  ∧ (if (OrderBook.best_bid_ b <? p) || (OrderBook.best_bid_qty_ b =? 0)
     then OrderBook.best_bid_ b' = p
          ∧ OrderBook.best_bid_qty_ b'
            = PriceLevel.total_quantity (PriceMap.subscript Z.gtb p (OrderBook.bids_ b'))
     else OrderBook.best_bid_ b' = OrderBook.best_bid_ b
          ∧ OrderBook.best_bid_qty_ b' = OrderBook.best_bid_qty_ b).
Proof.
  intros Hside p b'. subst b'. unfold OrderBook.add_to_book. rewrite Hside. fold p.
  destruct (PriceLevel.add_order _ _ _) as [m level] eqn:Hadd.
  apply add_order_spec in Hadd as [Hst Hprice].
  destruct (Hst entry) as (_ & _ & Hp). fold (OrderBook.deref (OrderBook.pool_ b) entry) in Hp.
  fold p in Hp. rewrite Hp.
  destruct (subscript_at_key Z.gtb p (PriceLevel.set_price p) (OrderBook.bids_ b)) as [x Hx].
  rewrite Hx in Hprice. simpl in Hprice.
  assert (Hkeyed : keyed (OrderBook.bids_ b) →
                   keyed (PriceMap.assign p level
                            (PriceMap.at_key Z.gtb p (PriceLevel.set_price p)
                               (OrderBook.bids_ b)))).
  { intros Hk. apply keyed_assign; [assumption|].
    apply keyed_at_key; [reflexivity | assumption]. }
  destruct ((OrderBook.best_bid_ b <? p) || (OrderBook.best_bid_qty_ b =? 0));
    simpl; rewrite keys_assign; split_and!; auto.
Qed.

Lemma add_to_book_sell b entry :
  OrderBookEntry.side (OrderBook.deref (OrderBook.pool_ b) entry) = Sell →
  let p := OrderBookEntry.price (OrderBook.deref (OrderBook.pool_ b) entry) in
  let b' := OrderBook.add_to_book b entry in
  OrderBook.bids_ b' = OrderBook.bids_ b
  ∧ PriceMap.keys (OrderBook.asks_ b')
    = PriceMap.keys (PriceMap.at_key Z.ltb p (PriceLevel.set_price p) (OrderBook.asks_ b))
  ∧ (keyed (OrderBook.asks_ b) → keyed (OrderBook.asks_ b'))
  ∧ OrderBook.best_bid_ b' = OrderBook.best_bid_ b
  ∧ OrderBook.best_bid_qty_ b' = OrderBook.best_bid_qty_ b
  ∧ (if (p <? OrderBook.best_ask_ b) || (OrderBook.best_ask_qty_ b =? 0)
     then OrderBook.best_ask_ b' = p
          ∧ OrderBook.best_ask_qty_ b'
            = PriceLevel.total_quantity (PriceMap.subscript Z.ltb p (OrderBook.asks_ b'))
     else OrderBook.best_ask_ b' = OrderBook.best_ask_ b
          ∧ OrderBook.best_ask_qty_ b' = OrderBook.best_ask_qty_ b).
Proof.
  intros Hside p b'. subst b'. unfold OrderBook.add_to_book. rewrite Hside. fold p.
  destruct (PriceLevel.add_order _ _ _) as [m level] eqn:Hadd.
  apply add_order_spec in Hadd as [Hst Hprice].
  destruct (Hst entry) as (_ & _ & Hp). fold (OrderBook.deref (OrderBook.pool_ b) entry) in Hp.
  fold p in Hp. rewrite Hp.
  destruct (subscript_at_key Z.ltb p (PriceLevel.set_price p) (OrderBook.asks_ b)) as [x Hx].
  rewrite Hx in Hprice. simpl in Hprice.
  assert (Hkeyed : keyed (OrderBook.asks_ b) →
                   keyed (PriceMap.assign p level
                            (PriceMap.at_key Z.ltb p (PriceLevel.set_price p)
                               (OrderBook.asks_ b)))).
  { intros Hk. apply keyed_assign; [assumption|].
    apply keyed_at_key; [reflexivity | assumption]. }
  destruct ((p <? OrderBook.best_ask_ b) || (OrderBook.best_ask_qty_ b =? 0));
    simpl; rewrite keys_assign; split_and!; auto.
Qed.

(** ** [match_order] *)

Lemma same_levels_refl b : same_levels b b.
Proof. unfold same_levels. tauto. Qed.

Lemma same_levels_trans b1 b2 b3 :
  same_levels b1 b2 → same_levels b2 b3 → same_levels b1 b3.
Proof. unfold same_levels. intuition congruence. Qed.

Lemma set_entry_status_same s entry b :
  same_levels b (OrderBook.set_entry_status s entry b)
  ∧ stable (OrderBook.mem (OrderBook.pool_ b))
      (OrderBook.mem (OrderBook.pool_ (OrderBook.set_entry_status s entry b))).
Proof.
  split; [unfold same_levels; simpl; tauto|].
  simpl. apply poke_stable, keeps_set_status.
Qed.

Lemma discard_same entry b : same_levels b (OrderBook.discard entry b).
Proof. unfold same_levels. simpl. tauto. Qed.

Lemma release_same id entry b : same_levels b (OrderBook.release id entry b).
Proof. unfold same_levels. simpl. tauto. Qed.

(** [match_order] either leaves the level maps as the walk left them, or
    rests the residual of a limit order. *)
Lemma match_order_cases b entry b' trades :
  OrderBook.match_order b entry = (b', trades) →
  ∃ b1 trades1,
    first_walk b entry = (b1, trades1)
    ∧ (same_levels b1 b'
       ∨ (OrderBookEntry.type (OrderBook.deref (OrderBook.pool_ b1) entry) = Limit
          ∧ OrderBook.remaining_of (OrderBook.deref (OrderBook.pool_ b1) entry) ≠ 0
          ∧ trades = trades1
          ∧ ∃ s, b' = OrderBook.add_to_book (OrderBook.set_entry_status s entry b1) entry)).
Proof.
  unfold OrderBook.match_order. fold (first_walk b entry).
  destruct (first_walk b entry) as [b1 trades1]. intros H.
  exists b1, trades1. split; [reflexivity|].
  destruct (bool_decide _ && _ && _).
  { injection H as <- <-. left.
    eapply same_levels_trans; [|apply discard_same].
    eapply same_levels_trans; [|apply set_entry_status_same].
    unfold same_levels. simpl. tauto. }
  destruct (0 <? OrderBook.remaining_of _) eqn:Hrem.
  - destruct (OrderBookEntry.type _) eqn:Htype.
    + injection H as <- <-. right. split_and!; auto.
      * apply Z.ltb_lt in Hrem. lia.
      * eauto.
    + injection H as <- <-. left.
      eapply same_levels_trans; [|apply discard_same]. apply set_entry_status_same.
    + injection H as <- <-. left.
      eapply same_levels_trans; [|apply discard_same]. apply set_entry_status_same.
    + injection H as <- <-. left. apply same_levels_refl.
  - injection H as <- <-. left.
    eapply same_levels_trans; [|apply discard_same]. apply set_entry_status_same.
Qed.

(** What the first walk does to the two sides, by the order's side. *)
Lemma first_walk_spec b entry b1 trades1 :
  first_walk b entry = (b1, trades1) →
  stable (OrderBook.mem (OrderBook.pool_ b)) (OrderBook.mem (OrderBook.pool_ b1))
  ∧ match OrderBookEntry.side (OrderBook.deref (OrderBook.pool_ b) entry) with
    | Buy =>
        OrderBook.bids_ b1 = OrderBook.bids_ b
        ∧ thinned (OrderBook.asks_ b) (OrderBook.asks_ b1)
        ∧ OrderBook.best_bid_ b1 = OrderBook.best_bid_ b
        ∧ OrderBook.best_bid_qty_ b1 = OrderBook.best_bid_qty_ b
        ∧ ask_cache_fresh b1
    | Sell =>
        OrderBook.asks_ b1 = OrderBook.asks_ b
        ∧ thinned (OrderBook.bids_ b) (OrderBook.bids_ b1)
        ∧ OrderBook.best_ask_ b1 = OrderBook.best_ask_ b
        ∧ OrderBook.best_ask_qty_ b1 = OrderBook.best_ask_qty_ b
        ∧ bid_cache_fresh b1
    end.
Proof.
  unfold first_walk, OrderBook.try_match_market, OrderBook.try_match_limit.
  destruct (OrderBookEntry.type _), (OrderBookEntry.side _); intros H;
    first [apply walk_asks_spec in H | apply walk_bids_spec in H]; tauto.
Qed.

(** The residual of a limit order that rests: what is left on the walked
    side is beyond its limit, when the walk stayed under the trade cap. *)
Lemma first_walk_rest b entry b1 trades1 :
  first_walk b entry = (b1, trades1) →
  OrderBookEntry.type (OrderBook.deref (OrderBook.pool_ b1) entry) = Limit →
  OrderBook.remaining_of (OrderBook.deref (OrderBook.pool_ b1) entry) ≠ 0 →
  (length trades1 < 64)%nat →
  book_wf b →
  match OrderBookEntry.side (OrderBook.deref (OrderBook.pool_ b) entry) with
  | Buy => ∀ k, k ∈ PriceMap.keys (OrderBook.asks_ b1) →
                OrderBookEntry.price (OrderBook.deref (OrderBook.pool_ b) entry) < k
  | Sell => ∀ k, k ∈ PriceMap.keys (OrderBook.bids_ b1) →
                 k < OrderBookEntry.price (OrderBook.deref (OrderBook.pool_ b) entry)
  end.
Proof.
  intros H Htype Hrem Hcap (Hob & Hoa & Hkb & Hka).
  pose proof (first_walk_spec _ _ _ _ H) as [Hst _].
  destruct (Hst entry) as (_ & Ht & _).
  fold (OrderBook.deref (OrderBook.pool_ b) entry) in Ht.
  fold (OrderBook.deref (OrderBook.pool_ b1) entry) in Ht.
  rewrite Htype in Ht. unfold first_walk in H. rewrite <- Ht in H.
  unfold OrderBook.try_match_limit in H.
  destruct (OrderBookEntry.side _) eqn:Hside.
  - eapply walk_asks_rest; eassumption.
  - eapply walk_bids_rest; eassumption.
Qed.

(** ** Order and non-crossing through the three calls *)

Lemma same_levels_wf b b' : same_levels b b' → book_wf b → book_wf b'.
Proof. unfold same_levels, book_wf. intros (-> & -> & _). tauto. Qed.

Lemma same_levels_no_cross b b' : same_levels b b' → no_cross b → no_cross b'.
Proof. unfold same_levels, no_cross. intros (-> & -> & _). tauto. Qed.

Lemma first_walk_wf b entry b1 trades1 :
  first_walk b entry = (b1, trades1) → book_wf b → book_wf b1.
Proof.
  intros H (Hob & Hoa & Hkb & Hka). apply first_walk_spec in H as [_ H].
  unfold book_wf.
  destruct (OrderBookEntry.side _); destruct H as (-> & Hth & _);
    split_and!; eauto using thinned_ordered, thinned_keyed.
Qed.

Lemma first_walk_no_cross b entry b1 trades1 :
  first_walk b entry = (b1, trades1) → no_cross b → no_cross b1.
Proof.
  intros H Hnc. apply first_walk_spec in H as [_ H]. unfold no_cross in *.
  destruct (OrderBookEntry.side _); destruct H as (-> & Hth & _);
    intros kb ka Hkb Hka; eauto using thinned_keys.
Qed.

Lemma match_order_sound b entry b' trades :
  OrderBook.match_order b entry = (b', trades) →
  book_wf b →
  book_wf b' ∧ (no_cross b → (length trades < 64)%nat → no_cross b').
Proof.
  intros H Hwf.
  apply match_order_cases in H as (b1 & trades1 & Hwalk & Hcase).
  pose proof (first_walk_wf _ _ _ _ Hwalk Hwf) as Hwf1.
  destruct Hcase as [Hsame | (Htype & Hrem & -> & s & ->)].
  { split; [eapply same_levels_wf; eassumption|]. intros Hnc _.
    eapply same_levels_no_cross; [eassumption|].
    eapply first_walk_no_cross; eassumption. }
  pose proof (first_walk_spec _ _ _ _ Hwalk) as [Hst _].
  destruct (set_entry_status_same s entry b1) as [Hsame Hst2].
  pose proof (same_levels_wf _ _ Hsame Hwf1) as (Hob & Hoa & Hkb & Hka).
  destruct (Hst entry) as (Hside1 & _ & Hprice1).
  destruct (Hst2 entry) as (Hside2 & _ & Hprice2).
  fold (OrderBook.deref (OrderBook.pool_ b) entry) in Hside1, Hprice1.
  fold (OrderBook.deref (OrderBook.pool_ b1) entry) in Hside1, Hprice1, Hside2, Hprice2.
  fold (OrderBook.deref (OrderBook.pool_ (OrderBook.set_entry_status s entry b1)) entry)
    in Hside2, Hprice2.
  set (b2 := OrderBook.set_entry_status s entry b1) in *.
  assert (Hside : OrderBookEntry.side (OrderBook.deref (OrderBook.pool_ b2) entry)
                  = OrderBookEntry.side (OrderBook.deref (OrderBook.pool_ b) entry))
    by congruence.
  assert (Hprice : OrderBookEntry.price (OrderBook.deref (OrderBook.pool_ b2) entry)
                   = OrderBookEntry.price (OrderBook.deref (OrderBook.pool_ b) entry))
    by congruence.
  destruct Hsame as (Hb2 & Ha2 & _).
  destruct (OrderBookEntry.side (OrderBook.deref (OrderBook.pool_ b) entry)) eqn:Hs.
  - destruct (add_to_book_buy b2 entry Hside) as (Hasks & Hkeys & Hkeyed & _).
    split.
    + unfold book_wf, ordered. rewrite Hasks, Hkeys.
      split_and!; auto. apply (ordered_at_key _ comparator_gtb), Hob.
    + intros Hnc Hcap kb ka Hinb Hina. rewrite Hasks, Ha2 in Hina.
      rewrite Hkeys in Hinb. apply keys_at_key in Hinb as [->|Hinb].
      * rewrite Hprice.
        pose proof (first_walk_rest _ _ _ _ Hwalk Htype Hrem Hcap Hwf) as Hrest.
        rewrite Hs in Hrest. apply Hrest, Hina.
      * rewrite Hb2 in Hinb.
        eapply first_walk_no_cross; eassumption.
  - destruct (add_to_book_sell b2 entry Hside) as (Hbids & Hkeys & Hkeyed & _).
    split.
    + unfold book_wf, ordered. rewrite Hbids, Hkeys.
      split_and!; auto. apply (ordered_at_key _ comparator_ltb), Hoa.
    + intros Hnc Hcap kb ka Hinb Hina. rewrite Hbids, Hb2 in Hinb.
      rewrite Hkeys in Hina. apply keys_at_key in Hina as [->|Hina].
      * rewrite Hprice.
        pose proof (first_walk_rest _ _ _ _ Hwalk Htype Hrem Hcap Hwf) as Hrest.
        rewrite Hs in Hrest. apply Hrest, Hinb.
      * rewrite Ha2 in Hina.
        eapply first_walk_no_cross; eassumption.
Qed.

Lemma add_order_sound b id side type price quantity timestamp b' trades :
  OrderBook.add_order b id side type price quantity timestamp = (b', trades) →
  book_wf b →
  book_wf b' ∧ (no_cross b → (length trades < 64)%nat → no_cross b').
Proof.
  unfold OrderBook.add_order.
  destruct (MemoryPool.allocate (OrderBook.pool_ b)) as [[entry|] pool'].
  - intros H Hwf. apply match_order_sound in H; [|exact Hwf]. exact H.
  - intros [= <- <-] Hwf. tauto.
Qed.

Lemma remove_from_book_spec b entry :
  let b' := OrderBook.remove_from_book b entry in
  thinned (OrderBook.bids_ b) (OrderBook.bids_ b')
  ∧ thinned (OrderBook.asks_ b) (OrderBook.asks_ b')
  ∧ match OrderBookEntry.side (OrderBook.deref (OrderBook.pool_ b) entry) with
    | Buy =>
        bid_cache_fresh b' ∧ OrderBook.asks_ b' = OrderBook.asks_ b
        ∧ OrderBook.best_ask_ b' = OrderBook.best_ask_ b
        ∧ OrderBook.best_ask_qty_ b' = OrderBook.best_ask_qty_ b
    | Sell =>
        ask_cache_fresh b' ∧ OrderBook.bids_ b' = OrderBook.bids_ b
        ∧ OrderBook.best_bid_ b' = OrderBook.best_bid_ b
        ∧ OrderBook.best_bid_qty_ b' = OrderBook.best_bid_qty_ b
    end.
Proof.
  unfold OrderBook.remove_from_book.
  destruct (OrderBookEntry.side _).
  - match goal with |- context [OrderBook.update_best_bid ?x] =>
      destruct (update_best_bid_spec x) as (Hc & -> & -> & _ & _ & -> & ->) end.
    destruct (PriceMap.find _ _) as [level|] eqn:Hfind.
    + destruct (PriceLevel.remove_order _ _ _) as [m level'] eqn:Hrm.
      apply remove_order_spec in Hrm as [_ Hp].
      simpl. split_and!; auto with book.
      destruct (PriceLevel.empty level'); [apply thinned_erase|].
      apply thinned_assign. intros l Hl. congruence.
    + split_and!; auto with book.
  - match goal with |- context [OrderBook.update_best_ask ?x] =>
      destruct (update_best_ask_spec x) as (Hc & -> & -> & _ & _ & -> & ->) end.
    destruct (PriceMap.find _ _) as [level|] eqn:Hfind.
    + destruct (PriceLevel.remove_order _ _ _) as [m level'] eqn:Hrm.
      apply remove_order_spec in Hrm as [_ Hp].
      simpl. split_and!; auto with book.
      destruct (PriceLevel.empty level'); [apply thinned_erase|].
      apply thinned_assign. intros l Hl. congruence.
    + split_and!; auto with book.
Qed.

Lemma thinned_wf b b' :
  thinned (OrderBook.bids_ b) (OrderBook.bids_ b') →
  thinned (OrderBook.asks_ b) (OrderBook.asks_ b') →
  (book_wf b → book_wf b') ∧ (no_cross b → no_cross b').
Proof.
  intros Hb Ha. split.
  - intros (Hob & Hoa & Hkb & Hka).
    unfold book_wf. split_and!; eauto using thinned_ordered, thinned_keyed.
  - intros Hnc kb ka Hkb Hka. eauto using thinned_keys.
Qed.

Lemma cancel_order_sound b id :
  let b' := fst (OrderBook.cancel_order b id) in
  (book_wf b → book_wf b') ∧ (no_cross b → no_cross b').
Proof.
  unfold OrderBook.cancel_order.
  destruct (OrderBook.orders_ b !! id) as [entry|]; simpl; [|tauto].
  destruct (remove_from_book_spec (OrderBook.set_entry_status Cancelled entry b) entry)
    as (Hb & Ha & _).
  apply thinned_wf; simpl; assumption.
Qed.

Lemma modify_order_sound b id new_price new_quantity b' trades :
  OrderBook.modify_order b id new_price new_quantity = (b', trades) →
  book_wf b →
  book_wf b' ∧ (no_cross b → (length trades < 64)%nat → no_cross b').
Proof.
  unfold OrderBook.modify_order.
  destruct (OrderBook.orders_ b !! id) as [entry|]; [|intros [= <- <-]; tauto].
  intros H Hwf.
  destruct (remove_from_book_spec b entry) as (Hb & Ha & _).
  destruct (thinned_wf b (OrderBook.release id entry (OrderBook.remove_from_book b entry)))
    as [Hwf' Hnc']; [exact Hb | exact Ha |].
  apply add_order_sound in H; [|auto]. destruct H as [Hwf2 Hnc2].
  split; [assumption|]. auto.
Qed.

(** Every book reached from the empty one has ordered, keyed level maps. *)
Lemma init_wf instrument : book_wf (OrderBook.init instrument).
Proof. unfold book_wf, ordered, keyed. simpl. split_and!; constructor. Qed.

Lemma step_wf b c : book_wf b → book_wf (step b c).
Proof.
  intros Hwf. destruct c as [id side type price quantity ts | id | id p q]; simpl.
  - destruct (OrderBook.add_order _ _ _ _ _ _ _) as [b' tr] eqn:H.
    apply add_order_sound in H; tauto.
  - apply cancel_order_sound, Hwf.
  - destruct (OrderBook.modify_order _ _ _ _) as [b' tr] eqn:H.
    apply modify_order_sound in H; tauto.
Qed.

Lemma run_wf cs : ∀ b, book_wf b → book_wf (run cs b).
Proof.
  unfold run. induction cs as [|c cs IH]; simpl; intros b Hwf; [assumption|].
  apply IH, step_wf, Hwf.
Qed.

(** ** C2: the book is not crossed while the trade cap is not reached *)




(** ** C4: the cached best prices *)

Lemma same_levels_prices b b' : same_levels b b' → bbo_prices_ok b → bbo_prices_ok b'.
Proof.
  unfold same_levels, bbo_prices_ok, bid_price_ok, ask_price_ok.
  intros (-> & -> & -> & -> & _). tauto.
Qed.

Lemma same_levels_qty b b' : same_levels b b' → bbo_qty_ok b → bbo_qty_ok b'.
Proof.
  unfold same_levels, bbo_qty_ok, bid_qty_ok, ask_qty_ok.
  intros (-> & -> & _ & _ & -> & ->). tauto.
Qed.

Lemma keys_nil (m : PriceMap.t) : PriceMap.keys m = [] ↔ m = [].
Proof. destruct m; simpl; split; intros H; congruence. Qed.

Lemma add_to_book_bid_price b entry :
  OrderBookEntry.side (OrderBook.deref (OrderBook.pool_ b) entry) = Buy →
  bbo_prices_ok b → bid_qty_ok b → bbo_prices_ok (OrderBook.add_to_book b entry).
Proof.
  intros Hside [Hbid Hask] Hqty.
  destruct (add_to_book_buy b entry Hside) as (Hasks & Hkeys & _ & Hba & _ & Hcache).
  split.
  - unfold bid_price_ok, bid_qty_ok in *. rewrite Hkeys.
    set (p := OrderBookEntry.price (OrderBook.deref (OrderBook.pool_ b) entry)) in *.
    pose proof (head_at_key Z.gtb p (PriceLevel.set_price p) (OrderBook.bids_ b)) as Hhead.
    destruct (PriceMap.keys (OrderBook.bids_ b)) as [|k0 r] eqn:Hk.
    + rewrite Hhead. apply keys_nil in Hk. apply Hqty in Hk. rewrite Hk in Hcache.
      rewrite orb_true_r in Hcache. tauto.
    + destruct Hhead as [r' ->].
      assert (Hnz : OrderBook.best_bid_qty_ b ≠ 0).
      { intros Hz. apply Hqty in Hz. rewrite Hz in Hk. discriminate. }
      apply Z.eqb_neq in Hnz. rewrite Hnz, orb_false_r, Hbid in Hcache.
      rewrite Z.gtb_ltb. destruct (k0 <? p); tauto.
  - unfold ask_price_ok in *. rewrite Hasks, Hba. assumption.
Qed.

Lemma add_to_book_ask_price b entry :
  OrderBookEntry.side (OrderBook.deref (OrderBook.pool_ b) entry) = Sell →
  bbo_prices_ok b → ask_qty_ok b → bbo_prices_ok (OrderBook.add_to_book b entry).
Proof.
  intros Hside [Hbid Hask] Hqty.
  destruct (add_to_book_sell b entry Hside) as (Hbids & Hkeys & _ & Hbb & _ & Hcache).
  split.
  - unfold bid_price_ok in *. rewrite Hbids, Hbb. assumption.
  - unfold ask_price_ok, ask_qty_ok in *. rewrite Hkeys.
    set (p := OrderBookEntry.price (OrderBook.deref (OrderBook.pool_ b) entry)) in *.
    pose proof (head_at_key Z.ltb p (PriceLevel.set_price p) (OrderBook.asks_ b)) as Hhead.
    destruct (PriceMap.keys (OrderBook.asks_ b)) as [|k0 r] eqn:Hk.
    + rewrite Hhead. apply keys_nil in Hk. apply Hqty in Hk. rewrite Hk in Hcache.
      rewrite orb_true_r in Hcache. tauto.
    + destruct Hhead as [r' ->].
      assert (Hnz : OrderBook.best_ask_qty_ b ≠ 0).
      { intros Hz. apply Hqty in Hz. rewrite Hz in Hk. discriminate. }
      apply Z.eqb_neq in Hnz. rewrite Hnz, orb_false_r, Hask in Hcache.
      destruct (p <? k0); tauto.
Qed.

Lemma first_walk_prices b entry b1 trades1 :
  first_walk b entry = (b1, trades1) →
  bbo_prices_ok b → bbo_qty_ok b →
  bbo_prices_ok b1
  ∧ match OrderBookEntry.side (OrderBook.deref (OrderBook.pool_ b) entry) with
    | Buy => bid_qty_ok b1
    | Sell => ask_qty_ok b1
    end.
Proof.
  intros H [Hbid Hask] [Hqb Hqa]. apply first_walk_spec in H as [_ H].
  unfold bbo_prices_ok, bid_price_ok, ask_price_ok, bid_qty_ok, ask_qty_ok in *.
  destruct (OrderBookEntry.side _).
  - destruct H as (-> & _ & -> & -> & Hfresh).
    split_and!; auto. apply ask_cache_fresh_price, Hfresh.
  - destruct H as (-> & _ & -> & -> & Hfresh).
    split_and!; auto. apply bid_cache_fresh_price, Hfresh.
Qed.

Lemma match_order_prices b entry b' trades :
  OrderBook.match_order b entry = (b', trades) →
  bbo_prices_ok b → bbo_qty_ok b → bbo_prices_ok b'.
Proof.
  intros H Hp Hq.
  apply match_order_cases in H as (b1 & trades1 & Hwalk & Hcase).
  pose proof (first_walk_prices _ _ _ _ Hwalk Hp Hq) as [Hp1 Hq1].
  destruct Hcase as [Hsame | (_ & _ & _ & s & ->)].
  { eapply same_levels_prices; eassumption. }
  pose proof (first_walk_spec _ _ _ _ Hwalk) as [Hst _].
  destruct (set_entry_status_same s entry b1) as [Hsame Hst2].
  destruct (Hst entry) as (Hside1 & _). destruct (Hst2 entry) as (Hside2 & _).
  fold (OrderBook.deref (OrderBook.pool_ b) entry) in Hside1.
  fold (OrderBook.deref (OrderBook.pool_ b1) entry) in Hside1, Hside2.
  fold (OrderBook.deref (OrderBook.pool_ (OrderBook.set_entry_status s entry b1)) entry)
    in Hside2.
  set (b2 := OrderBook.set_entry_status s entry b1) in *.
  pose proof (same_levels_prices _ _ Hsame Hp1) as Hp2.
  destruct Hsame as (Hb2 & Ha2 & _ & _ & Hqb2 & Hqa2).
  destruct (OrderBookEntry.side (OrderBook.deref (OrderBook.pool_ b) entry)) eqn:Hs.
  - apply add_to_book_bid_price; [congruence | assumption |].
    unfold bid_qty_ok in *. rewrite Hb2, Hqb2. assumption.
  - apply add_to_book_ask_price; [congruence | assumption |].
    unfold ask_qty_ok in *. rewrite Ha2, Hqa2. assumption.
Qed.

Lemma add_order_prices b id side type price quantity timestamp :
  bbo_prices_ok b → bbo_qty_ok b →
  bbo_prices_ok (fst (OrderBook.add_order b id side type price quantity timestamp)).
Proof.
  intros Hp Hq. unfold OrderBook.add_order.
  destruct (MemoryPool.allocate (OrderBook.pool_ b)) as [[entry|] pool']; [|assumption].
  destruct (OrderBook.match_order _ _) as [b' tr] eqn:H.
  apply match_order_prices in H; assumption.
Qed.

(** The removal that [cancel_order] and [modify_order] share refreshes
    the cache of the side it touches. *)
Lemma remove_from_book_prices b entry :
  bbo_prices_ok b → bbo_prices_ok (OrderBook.remove_from_book b entry).
Proof.
  intros [Hbid Hask]. destruct (remove_from_book_spec b entry) as (_ & _ & H).
  unfold bbo_prices_ok, bid_price_ok, ask_price_ok in *.
  destruct (OrderBookEntry.side _).
  - destruct H as (Hfresh & -> & -> & _). split; [|assumption].
    apply bid_cache_fresh_price, Hfresh.
  - destruct H as (Hfresh & -> & -> & _). split; [assumption|].
    apply ask_cache_fresh_price, Hfresh.
Qed.

Lemma cancel_order_prices b id :
  bbo_prices_ok b → bbo_prices_ok (fst (OrderBook.cancel_order b id)).
Proof.
  intros Hp. unfold OrderBook.cancel_order.
  destruct (OrderBook.orders_ b !! id) as [entry|]; simpl; [|assumption].
  eapply same_levels_prices; [apply release_same|].
  apply remove_from_book_prices.
  eapply same_levels_prices; [apply set_entry_status_same | assumption].
Qed.

Lemma modify_order_prices b id new_price new_quantity :
  bbo_prices_ok b → bbo_qty_ok (modify_removed b id) →
  bbo_prices_ok (fst (OrderBook.modify_order b id new_price new_quantity)).
Proof.
  unfold OrderBook.modify_order, modify_removed. intros Hp Hq.
  destruct (OrderBook.orders_ b !! id) as [entry|]; [|assumption].
  apply add_order_prices; [|assumption].
  eapply same_levels_prices; [apply release_same|].
  apply remove_from_book_prices, Hp.
Qed.

Lemma synced_sound b : synced b → book_wf b ∧ bbo_prices_ok b ∧ bbo_qty_ok b.
Proof.
  induction 1 as [instrument
                 | b id side type price quantity ts _ (Hwf & Hp & Hq) Hq'
                 | b id _ (Hwf & Hp & Hq) Hq'
                 | b id p q _ (Hwf & Hp & Hq) Hqm Hq'].
  - split; [apply init_wf|].
    split; split; try reflexivity; unfold bid_qty_ok, ask_qty_ok; simpl; tauto.
  - split_and!; [|apply add_order_prices; assumption | assumption].
    destruct (OrderBook.add_order _ _ _ _ _ _ _) as [b' tr] eqn:H.
    apply add_order_sound in H; tauto.
  - split_and!; [apply cancel_order_sound, Hwf
                | apply cancel_order_prices, Hp | assumption].
  - split_and!; [|apply modify_order_prices; assumption | assumption].
    destruct (OrderBook.modify_order _ _ _ _) as [b' tr] eqn:H.
    apply modify_order_sound in H; tauto.
Qed.

Lemma ordered_head_max m k r :
  ordered Z.gtb m → PriceMap.keys m = k :: r → ∀ k', k' ∈ k :: r → k' ≤ k.
Proof.
  unfold ordered. intros Hs Hk. rewrite Hk in Hs.
  apply StronglySorted_inv in Hs as [_ Hall]. rewrite Forall_forall in Hall.
  intros k' [->|Hin]%elem_of_cons; [lia|].
  specialize (Hall k' Hin). simpl in Hall. rewrite Z.gtb_ltb in Hall.
  apply Z.ltb_lt in Hall. lia.
Qed.

Lemma ordered_head_min m k r :
  ordered Z.ltb m → PriceMap.keys m = k :: r → ∀ k', k' ∈ k :: r → k ≤ k'.
Proof.
  unfold ordered. intros Hs Hk. rewrite Hk in Hs.
  apply StronglySorted_inv in Hs as [_ Hall]. rewrite Forall_forall in Hall.
  intros k' [->|Hin]%elem_of_cons; [lia|].
  specialize (Hall k' Hin). simpl in Hall. apply Z.ltb_lt in Hall. lia.
Qed.

Lemma prices_ok_correct b : book_wf b → bbo_prices_ok b → bbo_correct b.
Proof.
  intros (Hob & Hoa & _ & _) [Hbid Hask].
  unfold bbo_correct, OrderBook.best_bid, OrderBook.best_ask,
    bid_price_ok, ask_price_ok in *.
  split_and!.
  - intros Hnil. rewrite Hnil in Hbid. exact Hbid.
  - intros k [Hin Hmax].
    destruct (PriceMap.keys (OrderBook.bids_ b)) as [|k0 r] eqn:Hk;
      [apply elem_of_nil in Hin; contradiction|].
    pose proof (ordered_head_max _ _ _ Hob Hk k Hin).
    pose proof (Hmax k0 ltac:(apply elem_of_cons; auto)). lia.
  - intros Hnil. rewrite Hnil in Hask. simpl in Hask. rewrite Hask, Z.eqb_refl. reflexivity.
  - intros k [Hin Hmin].
    destruct (PriceMap.keys (OrderBook.asks_ b)) as [|k0 r] eqn:Hk;
      [apply elem_of_nil in Hin; contradiction|].
    pose proof (ordered_head_min _ _ _ Hoa Hk k Hin).
    pose proof (Hmin k0 ltac:(apply elem_of_cons; auto)).
    assert (k = k0) as -> by lia. rewrite Hask. reflexivity.
Qed.

(** An ask resting at [INT64_MAX] is the lowest ask, and [best_ask()]
    answers 0: [INT64_MAX] is the cached value that stands for "no ask". *)
Lemma best_ask_hides_ask_at_price_max :
  ¬ bbo_as_claimed (run [Add 1 Sell Limit PRICE_MAX 10 1] (OrderBook.init 0)).
Proof.
  intros (_ & _ & _ & H). specialize (H PRICE_MAX).
  assert (Hk : PriceMap.keys
                 (OrderBook.asks_ (run [Add 1 Sell Limit PRICE_MAX 10 1] (OrderBook.init 0)))
               = [PRICE_MAX]) by (vm_compute; reflexivity).
  rewrite Hk in H.
  assert (Hmin : is_min PRICE_MAX [PRICE_MAX]).
  { split; [apply list_elem_of_singleton; reflexivity|].
    intros k' ->%list_elem_of_singleton. lia. }
  apply H in Hmin. vm_compute in Hmin. discriminate.
Qed.

(** An unfilled FOK that met no liquidity stays in the id map without
    being linked into a level.  Cancelling it unlinks it from the level at
    its price as if it were the only entry there: the two bids resting at
    100 drop out of the level map while they stay in the id map.  After a
    new bid at 100 and the cancel of one of the lost ones, the level at 100
    has a [total_quantity] of 0, and a bid at 90 then takes the cached
    best bid although the level at 100 is still there. *)
Lemma stale_fok_cancel_breaks_best_bid :
  (OrderBook.bids_ fok_cancelled = [] ∧ OrderBook.order_count fok_cancelled = 2)
  ∧ PriceMap.keys (OrderBook.bids_ fok_cancelled_then_bids) = [100; 90]
  ∧ OrderBook.best_bid fok_cancelled_then_bids = 90
  ∧ ¬ synced fok_cancelled_then_bids.
Proof.
  split; [split; vm_compute; reflexivity|].
  split; [vm_compute; reflexivity|]. split; [vm_compute; reflexivity|].
  intros H. apply synced_sound in H as (_ & [Hbid _] & _).
  vm_compute in Hbid. discriminate Hbid.
Qed.

(** C4. [best_bid()] is not always the highest bid.  Two bids rest at
    100; a FOK buy at 100 meets no sell, records no trade, and stays in
    the id map without being linked into a level ([match_order] has no
    case for it); cancelling it empties the list of the level at 100 and
    erases the level.  After a new bid at 100 and the cancel of one of the
    two lost ones the level at 100 has a [total_quantity] of 0, which
    [add_to_book] reads as "no bid": a bid at 90 takes the cached best.
    The bid levels are then at 100 and 90, and [best_bid()] is 90. *)
Theorem best_bid_below_a_resting_bid :
  PriceMap.keys (OrderBook.bids_ fok_cancelled_then_bids) = [100; 90]
  ∧ is_max 100 (PriceMap.keys (OrderBook.bids_ fok_cancelled_then_bids))
  ∧ OrderBook.best_bid fok_cancelled_then_bids = 90
  ∧ ¬ bbo_as_claimed fok_cancelled_then_bids
  ∧ ¬ bbo_correct fok_cancelled_then_bids.
Proof.
  assert (Hk : PriceMap.keys (OrderBook.bids_ fok_cancelled_then_bids) = [100; 90])
    by (vm_compute; reflexivity).
  assert (Hb : OrderBook.best_bid fok_cancelled_then_bids = 90)
    by (vm_compute; reflexivity).
  assert (Hmax : is_max 100 (PriceMap.keys (OrderBook.bids_ fok_cancelled_then_bids))).
  { rewrite Hk. split; [left|].
    intros k' Hin. repeat (apply elem_of_cons in Hin as [->|Hin]; [lia|]).
    apply elem_of_nil in Hin. contradiction. }
  split_and!; [exact Hk | exact Hmax | exact Hb | |].
  - intros (_ & H & _). apply H in Hmax. rewrite Hb in Hmax. discriminate Hmax.
  - intros (_ & H & _). apply H in Hmax. rewrite Hb in Hmax. discriminate Hmax.
Qed.

(** What does hold of the cached best prices.  After every sequence of
    [add_order], [cancel_order] and [modify_order] calls during which each
    cached best quantity is zero exactly when its side has no level,
    [best_bid()] is the highest bid level price, [best_ask()] is the
    lowest ask level price unless that price is [INT64_MAX], for which it
    returns 0, and each returns 0 when its side is empty. *)
Theorem bbo_correct_while_synced b : synced b → bbo_correct b.
Proof.
  intros H. apply synced_sound in H as (Hwf & Hp & _).
  apply prices_ok_correct; assumption.
Qed.

Lemma bbo_correct_while_synced_witness :
  bbo_correct
    (fst (OrderBook.cancel_order
            (fst (OrderBook.add_order
                    (fst (OrderBook.add_order (OrderBook.init 0) 1 Buy Limit 9900 50 1))
                    2 Sell Limit 10100 30 2))
            1)).
Proof.
  apply bbo_correct_while_synced.
  apply synced_cancel; [apply synced_add; [apply synced_add; [apply synced_init|]|]|];
    vm_compute; (split; split; intros H; discriminate H || reflexivity).
Defined.

(** ** C10: an order resting at the cached best price *)

Lemma match_order_keeps_bid_cache b entry b' trades :
  OrderBook.match_order b entry = (b', trades) →
  OrderBookEntry.side (OrderBook.deref (OrderBook.pool_ b) entry) = Buy →
  OrderBook.best_bid_qty_ b ≠ 0 →
  OrderBookEntry.price (OrderBook.deref (OrderBook.pool_ b) entry) ≤ OrderBook.best_bid_ b →
  OrderBook.best_bid_ b' = OrderBook.best_bid_ b
  ∧ OrderBook.best_bid_qty_ b' = OrderBook.best_bid_qty_ b.
Proof.
  intros H Hside Hqty Hprice.
  apply match_order_cases in H as (b1 & trades1 & Hwalk & Hcase).
  pose proof (first_walk_spec _ _ _ _ Hwalk) as [Hst Hw]. rewrite Hside in Hw.
  destruct Hw as (_ & _ & Hbb & Hbq & _).
  destruct Hcase as [(_ & _ & Hb & _ & Hq & _) | (_ & _ & _ & s & ->)]; [split; congruence|].
  destruct (set_entry_status_same s entry b1) as [(_ & _ & Hb2 & _ & Hq2 & _) Hst2].
  destruct (Hst entry) as (Hside1 & _ & Hprice1).
  destruct (Hst2 entry) as (Hside2 & _ & Hprice2).
  fold (OrderBook.deref (OrderBook.pool_ b) entry) in Hside1, Hprice1.
  fold (OrderBook.deref (OrderBook.pool_ b1) entry) in Hside1, Hprice1, Hside2, Hprice2.
  fold (OrderBook.deref (OrderBook.pool_ (OrderBook.set_entry_status s entry b1)) entry)
    in Hside2, Hprice2.
  set (b2 := OrderBook.set_entry_status s entry b1) in *.
  assert (Hs : OrderBookEntry.side (OrderBook.deref (OrderBook.pool_ b2) entry) = Buy)
    by congruence.
  destruct (add_to_book_buy b2 entry Hs) as (_ & _ & _ & _ & _ & Hcache).
  replace ((OrderBook.best_bid_ b2 <? _) || (OrderBook.best_bid_qty_ b2 =? 0))
    with false in Hcache; [split; destruct Hcache; congruence|].
  symmetry. apply orb_false_iff. split; [apply Z.ltb_ge | apply Z.eqb_neq]; congruence.
Qed.

Lemma match_order_keeps_ask_cache b entry b' trades :
  OrderBook.match_order b entry = (b', trades) →
  OrderBookEntry.side (OrderBook.deref (OrderBook.pool_ b) entry) = Sell →
  OrderBook.best_ask_qty_ b ≠ 0 →
  OrderBook.best_ask_ b ≤ OrderBookEntry.price (OrderBook.deref (OrderBook.pool_ b) entry) →
  OrderBook.best_ask_ b' = OrderBook.best_ask_ b
  ∧ OrderBook.best_ask_qty_ b' = OrderBook.best_ask_qty_ b.
Proof.
  intros H Hside Hqty Hprice.
  apply match_order_cases in H as (b1 & trades1 & Hwalk & Hcase).
  pose proof (first_walk_spec _ _ _ _ Hwalk) as [Hst Hw]. rewrite Hside in Hw.
  destruct Hw as (_ & _ & Hbb & Hbq & _).
  destruct Hcase as [(_ & _ & _ & Hb & _ & Hq) | (_ & _ & _ & s & ->)]; [split; congruence|].
  destruct (set_entry_status_same s entry b1) as [(_ & _ & _ & Hb2 & _ & Hq2) Hst2].
  destruct (Hst entry) as (Hside1 & _ & Hprice1).
  destruct (Hst2 entry) as (Hside2 & _ & Hprice2).
  fold (OrderBook.deref (OrderBook.pool_ b) entry) in Hside1, Hprice1.
  fold (OrderBook.deref (OrderBook.pool_ b1) entry) in Hside1, Hprice1, Hside2, Hprice2.
  fold (OrderBook.deref (OrderBook.pool_ (OrderBook.set_entry_status s entry b1)) entry)
    in Hside2, Hprice2.
  set (b2 := OrderBook.set_entry_status s entry b1) in *.
  assert (Hs : OrderBookEntry.side (OrderBook.deref (OrderBook.pool_ b2) entry) = Sell)
    by congruence.
  destruct (add_to_book_sell b2 entry Hs) as (_ & _ & _ & _ & _ & Hcache).
  replace ((_ <? OrderBook.best_ask_ b2) || (OrderBook.best_ask_qty_ b2 =? 0))
    with false in Hcache; [split; destruct Hcache; congruence|].
  symmetry. apply orb_false_iff. split; [apply Z.ltb_ge | apply Z.eqb_neq]; congruence.
Qed.

(** The entry [add_order] has filled in, read back. *)
Lemma add_order_unfold b id side type price quantity timestamp :
  pool_head_ok b →
  OrderBook.add_order b id side type price quantity timestamp = (b, [])
  ∨ ∃ entry b1,
      OrderBook.add_order b id side type price quantity timestamp
      = OrderBook.match_order b1 entry
      ∧ same_levels b b1
      ∧ OrderBook.deref (OrderBook.pool_ b1) entry
        = OrderBookEntry.mk id (OrderBook.instrument_ b) side type New price quantity
            0 timestamp None None.
Proof.
  intros Hok. unfold OrderBook.add_order, MemoryPool.allocate.
  destruct (MemoryPool.free_head_ (OrderBook.pool_ b) =? MemoryPool.INVALID) eqn:Hfull;
    [left; reflexivity|].
  right. eexists _, _. split; [reflexivity|]. split; [unfold same_levels; simpl; tauto|].
  destruct Hok as [Hinv|Hlt]; [apply Z.eqb_neq in Hfull; contradiction|].
  unfold OrderBook.deref. simpl. rewrite slot_insert.
  apply decide_True. split; [reflexivity | exact Hlt].
Qed.

(** C10. When the cached best-bid quantity is nonzero and [add_order] is
    given a buy at exactly the cached best bid, [best_bid_quantity()]
    returns afterwards what it returned before, whether or not the order
    comes to rest; likewise for a sell at the cached best ask and
    [best_ask_quantity()].  After bids of 10 and 5 at 100, the cached
    quantity is 10 while the level at 100 holds 15. *)
Theorem rest_at_best_keeps_cached_quantity b id type price quantity timestamp :
  pool_head_ok b →
  (OrderBook.best_bid_qty_ b ≠ 0 → price = OrderBook.best_bid_ b →
   OrderBook.best_bid_quantity
     (fst (OrderBook.add_order b id Buy type price quantity timestamp))
   = OrderBook.best_bid_quantity b)
  ∧ (OrderBook.best_ask_qty_ b ≠ 0 → price = OrderBook.best_ask_ b →
     OrderBook.best_ask_quantity
       (fst (OrderBook.add_order b id Sell type price quantity timestamp))
     = OrderBook.best_ask_quantity b)
  ∧ (OrderBook.best_bid_quantity two_bids_at_100 = 10
     ∧ PriceLevel.total_quantity (PriceMap.subscript Z.gtb 100 (OrderBook.bids_ two_bids_at_100))
       = 15).
Proof.
  intros Hok. unfold OrderBook.best_bid_quantity, OrderBook.best_ask_quantity.
  split_and!; [| |vm_compute; reflexivity..].
  - intros Hqty ->.
    destruct (add_order_unfold b id Buy type (OrderBook.best_bid_ b) quantity timestamp Hok)
      as [-> | (entry & b1 & -> & (_ & _ & Hb & _ & Hq & _) & Hentry)]; [reflexivity|].
    destruct (OrderBook.match_order b1 entry) as [b' tr] eqn:H. simpl.
    apply match_order_keeps_bid_cache in H as [_ H]; rewrite ?Hentry; simpl;
      [congruence | reflexivity | congruence | lia].
  - intros Hqty ->.
    destruct (add_order_unfold b id Sell type (OrderBook.best_ask_ b) quantity timestamp Hok)
      as [-> | (entry & b1 & -> & (_ & _ & _ & Hb & _ & Hq) & Hentry)]; [reflexivity|].
    destruct (OrderBook.match_order b1 entry) as [b' tr] eqn:H. simpl.
    apply match_order_keeps_ask_cache in H as [_ H]; rewrite ?Hentry; simpl;
      [congruence | reflexivity | congruence | lia].
Qed.

Lemma rest_at_best_keeps_cached_quantity_witness :
  OrderBook.best_bid_quantity two_bids_at_100 = 10
  ∧ OrderBook.best_bid_quantity
      (fst (OrderBook.add_order two_bids_at_100 3 Buy Limit 100 7 3)) = 10
  ∧ PriceLevel.total_quantity
      (PriceMap.subscript Z.gtb 100
         (OrderBook.bids_ (fst (OrderBook.add_order two_bids_at_100 3 Buy Limit 100 7 3))))
    = 22.
Proof.
  split; [vm_compute; reflexivity|]. split; [|vm_compute; reflexivity].
  assert (Hok : pool_head_ok two_bids_at_100) by (right; apply Nat.ltb_lt; vm_compute; reflexivity).
  destruct (rest_at_best_keeps_cached_quantity two_bids_at_100 3 Limit 100 7 3 Hok)
    as (Hbid & _ & _).
  rewrite Hbid; vm_compute; [reflexivity | discriminate | reflexivity].
Defined.

(** ** The risk gate *)

(** C8. With a running peak of 1000.0 and [max_drawdown_pct] = 2.0 (the
    threshold being the precomputed [max_drawdown_pct / 100.0]),
    [on_pnl_update(970.0)] activates the kill switch; and while the kill
    switch is active every [check_order] returns [KillSwitchActive],
    whatever the request, the market price, the clock and the limits. *)
Theorem drawdown_kill_and_dominance :
  (∀ m,
     RiskManager.peak_pnl_ m = 1000%float →
     max_drawdown_pct (RiskManager.limits_ m) = 2%float →
     RiskManager.max_drawdown_threshold_ m
       = PrimFloat.div (max_drawdown_pct (RiskManager.limits_ m)) 100 →
     RiskManager.kill_switch_active (RiskManager.on_pnl_update m 970) = true)
  ∧ (∀ m request current_market_price now,
       RiskManager.kill_switch_active m = true →
       fst (RiskManager.check_order m request current_market_price now)
       = KillSwitchActive).
Proof.
  split.
  - intros m Hpeak Hpct Hthr. unfold RiskManager.on_pnl_update.
    rewrite Hpeak. cbn.
    rewrite Hpeak, Hthr, Hpct. cbn. reflexivity.
  - intros m request px now Hkill. unfold RiskManager.check_order.
    unfold RiskManager.kill_switch_active in Hkill. simpl. rewrite Hkill. reflexivity.
Qed.

Lemma drawdown_kill_and_dominance_witness :
  RiskManager.kill_switch_active
    (RiskManager.on_pnl_update
       (RiskManager.set_peak_pnl (RiskManager.init test_limits 0) 1000) 970) = true
  ∧ fst (RiskManager.check_order
           (RiskManager.on_pnl_update
              (RiskManager.set_peak_pnl (RiskManager.init test_limits 0) 1000) 970)
           (mkOrderRequest 1 0 Buy Limit 15000 10 0 0) 15000 5)
    = KillSwitchActive.
Proof.
  destruct drawdown_kill_and_dominance as [Hkill Hdom].
  assert (Hactive :
            RiskManager.kill_switch_active
              (RiskManager.on_pnl_update
                 (RiskManager.set_peak_pnl (RiskManager.init test_limits 0) 1000) 970)
            = true) by (apply Hkill; reflexivity).
  split; [exact Hactive | apply Hdom, Hactive].
Defined.

(** C9, as stated, fails.  Market price 15000, deviation limit 5%, order
    price 16500: the gate answers [FatFingerPrice], and the order has been
    counted in the rate window, step 5 coming before step 6. *)
Lemma fat_finger_counts_in_rate_window :
  let m := RiskManager.init test_limits 1000 in
  let r := RiskManager.check_order m (mkOrderRequest 1 0 Buy Limit 16500 10 0 0) 15000 1005 in
  fst r = FatFingerPrice
  ∧ RiskManager.order_count_in_window_ m = 0
  ∧ RiskManager.order_count_in_window_ (snd r) = 1
  ∧ ¬ rate_state_kept m (snd r).
Proof.
  split_and!; try (vm_compute; reflexivity).
  intros (_ & _ & H). vm_compute in H. discriminate.
Qed.

(** C9 (amended). A [check_order] call that returns [FatFingerPrice]
    leaves the limits, the position tracker, the kill switch, the peak and
    the precomputed thresholds as they were; it adds one to
    [checks_performed] and to [checks_rejected]; and it has counted the
    order in the rate window: the window restarts at [now] with a count of
    1 when a second has passed since its start, and otherwise keeps its
    start and has its count raised by one. *)
Theorem fat_finger_frame m request current_market_price now m' :
  RiskManager.check_order m request current_market_price now = (FatFingerPrice, m') →
  RiskManager.limits_ m' = RiskManager.limits_ m
  ∧ RiskManager.positions_ m' = RiskManager.positions_ m
  ∧ RiskManager.kill_switch_ m' = RiskManager.kill_switch_ m
  ∧ RiskManager.peak_pnl_ m' = RiskManager.peak_pnl_ m
  ∧ RiskManager.price_deviation_threshold_ m' = RiskManager.price_deviation_threshold_ m
  ∧ RiskManager.max_drawdown_threshold_ m' = RiskManager.max_drawdown_threshold_ m
  ∧ RiskManager.checks_performed m' = u64 (RiskManager.checks_performed m + 1)
  ∧ RiskManager.checks_rejected m' = u64 (RiskManager.checks_rejected m + 1)
  ∧ (if RiskManager.ONE_SECOND_NS <=? u64 (now - RiskManager.rate_window_start_ m)
     then RiskManager.rate_window_start_ m' = now
          ∧ RiskManager.order_count_in_window_ m' = 1
     else RiskManager.rate_window_start_ m' = RiskManager.rate_window_start_ m
          ∧ RiskManager.order_count_in_window_ m'
            = u32 (RiskManager.order_count_in_window_ m + 1)).
Proof.
  unfold RiskManager.check_order, RiskManager.reject, RiskManager.count_in_window.
  cbn [RiskManager.limits_ RiskManager.positions_ RiskManager.kill_switch_
       RiskManager.price_deviation_threshold_ RiskManager.order_count_in_window_
       RiskManager.rate_window_start_ RiskManager.peak_pnl_
       RiskManager.max_drawdown_threshold_ RiskManager.checks_performed_
       RiskManager.checks_rejected_].
  repeat match goal with
         | |- (if ?c then _ else _) = _ → _ => destruct c eqn:?
         | |- (match ?s with Buy => _ | Sell => _ end) = _ → _ => destruct s eqn:?
         end;
    try (intros [=]; fail);
    intros [= <-]; cbn; split_and!; try reflexivity.
  destruct (RiskManager.ONE_SECOND_NS <=? _); split; reflexivity.
Qed.

Lemma fat_finger_frame_witness :
  RiskManager.positions_
    (snd (RiskManager.check_order (RiskManager.init test_limits 1000)
            (mkOrderRequest 1 0 Buy Limit 16500 10 0 0) 15000 1005))
  = RiskManager.positions_ (RiskManager.init test_limits 1000).
Proof.
  eapply (fat_finger_frame (RiskManager.init test_limits 1000)
            (mkOrderRequest 1 0 Buy Limit 16500 10 0 0) 15000 1005).
  vm_compute. reflexivity.
Defined.

(** ** C6: the SPSC ring buffer as a sequential machine *)

Lemma is_power_of_two_pow2 n :
  is_power_of_two n = true → n < 2 ^ 64 → ∃ k, 0 ≤ k < 64 ∧ n = 2 ^ k.
Proof.
  unfold is_power_of_two, u64. intros H Hlt.
  apply andb_true_iff in H as [Hpos Hland].
  apply Z.ltb_lt in Hpos. apply Z.eqb_eq in Hland.
  rewrite Z.mod_small in Hland by lia.
  pose proof (Z.log2_spec n Hpos) as [Hlo Hhi].
  pose proof (Z.log2_nonneg n) as Hk.
  exists (Z.log2 n). split.
  - split; [assumption|].
    apply (Z.pow_lt_mono_r_iff 2); lia.
  - destruct (Z.eq_dec n (2 ^ Z.log2 n)) as [Heq|Hne]; [assumption|exfalso].
    assert (Hlog : Z.log2 (n - 1) = Z.log2 n) by (apply Z.log2_unique; lia).
    assert (Hb1 : Z.testbit n (Z.log2 n) = true) by (apply Z.bit_log2; lia).
    assert (Hb2 : Z.testbit (n - 1) (Z.log2 n) = true).
    { rewrite <- Hlog. apply Z.bit_log2.
      pose proof (Z.pow_pos_nonneg 2 (Z.log2 n)). lia. }
    assert (Hb : Z.testbit (Z.land n (n - 1)) (Z.log2 n) = true)
      by (rewrite Z.land_spec, Hb1, Hb2; reflexivity).
    rewrite Hland, Z.bits_0 in Hb. discriminate.
Qed.

Lemma mod_cases n a :
  0 < n → - n ≤ a < 2 * n →
  a mod n = if a <? 0 then a + n else if a <? n then a else a - n.
Proof.
  intros Hn Ha. destruct (Z.ltb_spec a 0); [|destruct (Z.ltb_spec a n)].
  - replace a with (a + n + (-1) * n) by lia.
    rewrite Z.mod_add by lia. rewrite Z.mod_small; lia.
  - apply Z.mod_small. lia.
  - replace a with (a - n + 1 * n) at 1 by lia.
    rewrite Z.mod_add by lia. apply Z.mod_small. lia.
Qed.

Section RingFacts.
Context {T : Type}.
Variables (Capacity k : Z).
Hypothesis Hk : 0 ≤ k < 64.
Hypothesis HN : Capacity = 2 ^ k.

Lemma capacity_pos : 0 < Capacity < 2 ^ 64.
Proof.
  subst Capacity. split; [apply Z.pow_pos_nonneg; lia|].
  apply Z.pow_lt_mono_r; lia.
Qed.

Lemma mask_mod x : Z.land x (LockFreeRingBuffer.MASK Capacity) = x mod Capacity.
Proof.
  unfold LockFreeRingBuffer.MASK. subst Capacity.
  replace (2 ^ k - 1) with (Z.ones k) by (rewrite Z.ones_equiv; lia).
  apply Z.land_ones. lia.
Qed.

(** The index after [i], as [try_push] and [try_pop] compute it. *)
Lemma next_index i :
  0 ≤ i < Capacity →
  Z.land (u64 (i + 1)) (LockFreeRingBuffer.MASK Capacity)
  = if i + 1 <? Capacity then i + 1 else 0.
Proof.
  intros Hi. pose proof capacity_pos. rewrite mask_mod. unfold u64.
  rewrite (Z.mod_small (i + 1)) by lia.
  rewrite mod_cases by lia.
  destruct (Z.ltb_spec (i + 1) 0); [lia|].
  destruct (Z.ltb_spec (i + 1) Capacity); lia.
Qed.

Lemma holds_init (zero : T) : holds Capacity (LockFreeRingBuffer.init Capacity zero) [].
Proof.
  pose proof capacity_pos. unfold holds, LockFreeRingBuffer.init. simpl.
  rewrite length_replicate, Z.mod_0_l by lia.
  split_and!; try lia.
Qed.

Lemma try_push_spec (q : LockFreeRingBuffer.t T) l x :
  holds Capacity q l →
  (fst (LockFreeRingBuffer.try_push Capacity q x) = false
   ↔ Z.of_nat (length l) = Capacity - 1)
  ∧ (fst (LockFreeRingBuffer.try_push Capacity q x) = false →
     snd (LockFreeRingBuffer.try_push Capacity q x) = q)
  ∧ (fst (LockFreeRingBuffer.try_push Capacity q x) = true →
     holds Capacity (snd (LockFreeRingBuffer.try_push Capacity q x)) (l ++ [x])).
Proof.
  intros (Hh & Ht & Hlen & Hsize & Hslots). pose proof capacity_pos as Hcap.
  unfold LockFreeRingBuffer.try_push. rewrite next_index by assumption.
  rewrite mod_cases in Hsize by lia.
  destruct (Z.eqb_spec (if LockFreeRingBuffer.tail_ q + 1 <? Capacity
                        then LockFreeRingBuffer.tail_ q + 1 else 0)
              (LockFreeRingBuffer.head_ q)) as [Hfull|Hroom]; simpl.
  - split_and!; [|reflexivity|discriminate]. split; [intros _|reflexivity].
    destruct (Z.ltb_spec (LockFreeRingBuffer.tail_ q + 1) Capacity);
      destruct (Z.ltb_spec (LockFreeRingBuffer.tail_ q - LockFreeRingBuffer.head_ q) 0);
      destruct (Z.ltb_spec (LockFreeRingBuffer.tail_ q - LockFreeRingBuffer.head_ q) Capacity);
      lia.
  - split_and!; [|discriminate|].
    { split; [discriminate|]. intros Hl. exfalso. apply Hroom.
      destruct (Z.ltb_spec (LockFreeRingBuffer.tail_ q + 1) Capacity);
        destruct (Z.ltb_spec (LockFreeRingBuffer.tail_ q - LockFreeRingBuffer.head_ q) 0);
        destruct (Z.ltb_spec (LockFreeRingBuffer.tail_ q - LockFreeRingBuffer.head_ q) Capacity);
        lia. }
    intros _. unfold holds. simpl. rewrite length_insert, length_app. simpl.
    assert (Hnt : 0 ≤ (if LockFreeRingBuffer.tail_ q + 1 <? Capacity
                       then LockFreeRingBuffer.tail_ q + 1 else 0) < Capacity)
      by (destruct (Z.ltb_spec (LockFreeRingBuffer.tail_ q + 1) Capacity); lia).
    split; [assumption|]. split; [assumption|]. split; [assumption|]. split.
    + rewrite mod_cases
        by (destruct (Z.ltb_spec (LockFreeRingBuffer.tail_ q + 1) Capacity); lia).
      destruct (Z.ltb_spec (LockFreeRingBuffer.tail_ q + 1) Capacity);
        destruct (Z.ltb_spec (LockFreeRingBuffer.tail_ q - LockFreeRingBuffer.head_ q) 0);
        destruct (Z.ltb_spec (LockFreeRingBuffer.tail_ q - LockFreeRingBuffer.head_ q) Capacity);
        repeat match goal with
               | |- context [?a <? ?b] => destruct (Z.ltb_spec a b)
               end; lia.
    + intros i Hi.
      assert (Hidx : (LockFreeRingBuffer.head_ q + Z.of_nat i) mod Capacity
                     = if LockFreeRingBuffer.head_ q + Z.of_nat i <? Capacity
                       then LockFreeRingBuffer.head_ q + Z.of_nat i
                       else LockFreeRingBuffer.head_ q + Z.of_nat i - Capacity).
      { rewrite mod_cases.
        - destruct (Z.ltb_spec (LockFreeRingBuffer.head_ q + Z.of_nat i) 0); [lia|reflexivity].
        - lia.
        - destruct (Z.ltb_spec (LockFreeRingBuffer.tail_ q - LockFreeRingBuffer.head_ q) 0);
            destruct (Z.ltb_spec (LockFreeRingBuffer.tail_ q - LockFreeRingBuffer.head_ q)
                        Capacity); lia. }
      destruct (decide (i = length l)) as [->|Hne].
      * rewrite lookup_app_r, Nat.sub_diag by lia. simpl.
        replace ((LockFreeRingBuffer.head_ q + Z.of_nat (length l)) mod Capacity)
          with (LockFreeRingBuffer.tail_ q).
        { apply list_lookup_insert_eq. lia. }
        rewrite Hidx.
        destruct (Z.ltb_spec (LockFreeRingBuffer.tail_ q - LockFreeRingBuffer.head_ q) 0);
          destruct (Z.ltb_spec (LockFreeRingBuffer.tail_ q - LockFreeRingBuffer.head_ q)
                      Capacity);
          destruct (Z.ltb_spec (LockFreeRingBuffer.head_ q + Z.of_nat (length l)) Capacity);
          lia.
      * rewrite lookup_app_l by lia. rewrite <- Hslots by lia.
        apply list_lookup_insert_ne. rewrite Hidx.
        destruct (Z.ltb_spec (LockFreeRingBuffer.tail_ q - LockFreeRingBuffer.head_ q) 0);
          destruct (Z.ltb_spec (LockFreeRingBuffer.tail_ q - LockFreeRingBuffer.head_ q)
                      Capacity);
          destruct (Z.ltb_spec (LockFreeRingBuffer.head_ q + Z.of_nat i) Capacity);
          lia.
Qed.

Lemma try_pop_spec (q : LockFreeRingBuffer.t T) l :
  holds Capacity q l →
  (fst (LockFreeRingBuffer.try_pop Capacity q) = None ↔ l = [])
  ∧ (fst (LockFreeRingBuffer.try_pop Capacity q) = None →
     snd (LockFreeRingBuffer.try_pop Capacity q) = q)
  ∧ (∀ v, fst (LockFreeRingBuffer.try_pop Capacity q) = Some v →
          ∃ l', l = v :: l' ∧ holds Capacity (snd (LockFreeRingBuffer.try_pop Capacity q)) l').
Proof.
  intros (Hh & Ht & Hlen & Hsize & Hslots). pose proof capacity_pos as Hcap.
  unfold LockFreeRingBuffer.try_pop.
  rewrite mod_cases in Hsize by lia.
  destruct (Z.eqb_spec (LockFreeRingBuffer.head_ q) (LockFreeRingBuffer.tail_ q))
    as [Heq|Hne]; simpl.
  - split_and!; [|reflexivity|discriminate]. split; [intros _|reflexivity].
    rewrite Heq, Z.sub_diag in Hsize. simpl in Hsize.
    destruct (Z.ltb_spec 0 Capacity); [|lia].
    destruct l; [reflexivity | simpl in Hsize; lia].
  - destruct l as [|v0 l'].
    { exfalso. simpl in Hsize.
      destruct (Z.ltb_spec (LockFreeRingBuffer.tail_ q - LockFreeRingBuffer.head_ q) 0);
        destruct (Z.ltb_spec (LockFreeRingBuffer.tail_ q - LockFreeRingBuffer.head_ q)
                    Capacity); lia. }
    pose proof (Hslots 0%nat ltac:(simpl; lia)) as H0.
    rewrite Z.add_0_r, Z.mod_small in H0 by lia. simpl in H0. rewrite H0. simpl.
    split_and!; [split; discriminate | discriminate |].
    intros v [= <-]. exists l'. split; [reflexivity|].
    rewrite next_index by assumption. unfold holds. simpl.
    assert (Hnh : 0 ≤ (if LockFreeRingBuffer.head_ q + 1 <? Capacity
                       then LockFreeRingBuffer.head_ q + 1 else 0) < Capacity)
      by (destruct (Z.ltb_spec (LockFreeRingBuffer.head_ q + 1) Capacity); lia).
    simpl in Hsize.
    split; [assumption|]. split; [assumption|]. split; [assumption|]. split.
    + rewrite mod_cases
        by (destruct (Z.ltb_spec (LockFreeRingBuffer.head_ q + 1) Capacity); lia).
      destruct (Z.ltb_spec (LockFreeRingBuffer.head_ q + 1) Capacity);
        destruct (Z.ltb_spec (LockFreeRingBuffer.tail_ q - LockFreeRingBuffer.head_ q) 0);
        destruct (Z.ltb_spec (LockFreeRingBuffer.tail_ q - LockFreeRingBuffer.head_ q) Capacity);
        repeat match goal with
               | |- context [?a <? ?b] => destruct (Z.ltb_spec a b)
               end; lia.
    + intros i Hi. specialize (Hslots (S i) ltac:(simpl; lia)). simpl in Hslots.
      rewrite <- Hslots. f_equal. f_equal.
      assert (Hrange : LockFreeRingBuffer.head_ q + Z.of_nat (S i) < 2 * Capacity).
      { destruct (Z.ltb_spec (LockFreeRingBuffer.tail_ q - LockFreeRingBuffer.head_ q) 0);
          destruct (Z.ltb_spec (LockFreeRingBuffer.tail_ q - LockFreeRingBuffer.head_ q)
                      Capacity); lia. }
      rewrite !mod_cases
        by (destruct (Z.ltb_spec (LockFreeRingBuffer.head_ q + 1) Capacity); lia).
      destruct (Z.ltb_spec (LockFreeRingBuffer.head_ q + 1) Capacity);
        repeat match goal with
               | |- context [?a <? ?b] => destruct (Z.ltb_spec a b)
               end; lia.
Qed.

(** Through any sequence of calls the record of pushes is the record of
    pops followed by what the buffer holds. *)
Lemma ring_step_holds (tr : LockFreeRingBuffer.t T * list T * list T) op l :
  holds Capacity tr.1.1 l → tr.1.2 = tr.2 ++ l →
  ∃ l', holds Capacity (ring_step Capacity tr op).1.1 l'
        ∧ (ring_step Capacity tr op).1.2 = (ring_step Capacity tr op).2 ++ l'.
Proof.
  destruct tr as [[q pushed] popped]. simpl. intros Hq Hrec.
  destruct op as [x|]; simpl.
  - destruct (try_push_spec q l x Hq) as (_ & Hfail & Hok).
    destruct (LockFreeRingBuffer.try_push Capacity q x) as [[|] q']; simpl in *.
    + exists (l ++ [x]). split; [auto|]. rewrite Hrec, app_assoc. reflexivity.
    + exists l. rewrite Hfail by reflexivity. auto.
  - destruct (try_pop_spec q l Hq) as (_ & Hfail & Hok).
    destruct (LockFreeRingBuffer.try_pop Capacity q) as [[v|] q']; simpl in *.
    + destruct (Hok v eq_refl) as (l' & -> & Hq'). exists l'. split; [assumption|].
      rewrite Hrec, <- app_assoc. reflexivity.
    + exists l. rewrite Hfail by reflexivity. auto.
Qed.

Lemma ring_fold_holds ops : ∀ (tr : LockFreeRingBuffer.t T * list T * list T) l,
  holds Capacity tr.1.1 l → tr.1.2 = tr.2 ++ l →
  ∃ l', holds Capacity (fold_left (ring_step Capacity) ops tr).1.1 l'
        ∧ (fold_left (ring_step Capacity) ops tr).1.2
          = (fold_left (ring_step Capacity) ops tr).2 ++ l'.
Proof.
  induction ops as [|op ops IH]; intros tr l Hq Hrec; simpl; [eauto|].
  destruct (ring_step_holds tr op l Hq Hrec) as (l1 & Hq1 & Hrec1). eauto.
Qed.
End RingFacts.

(** C6. For a buffer of power-of-two capacity [N], after any sequence of
    [try_push] and [try_pop] calls on the fresh buffer: the values pushed
    are the values popped, in the same order, followed by the values the
    buffer still holds; the next [try_push] returns [false] exactly when
    it holds [N - 1] values, which is [capacity()]; and the next [try_pop]
    returns [false] exactly when it holds none. *)
Theorem ring_buffer_fifo {T} (Capacity : Z) (zero : T) (ops : list (ring_op T)) :
  is_power_of_two Capacity = true → Capacity < 2 ^ 64 →
  ∃ held,
    (ring_run Capacity zero ops).1.2 = (ring_run Capacity zero ops).2 ++ held
    ∧ (∀ x, fst (LockFreeRingBuffer.try_push Capacity (ring_run Capacity zero ops).1.1 x)
            = false
            ↔ Z.of_nat (length held) = Capacity - 1)
    ∧ (fst (LockFreeRingBuffer.try_pop Capacity (ring_run Capacity zero ops).1.1) = None
       ↔ held = [])
    ∧ LockFreeRingBuffer.capacity Capacity = Capacity - 1.
Proof.
  intros Hpow Hlt. destruct (is_power_of_two_pow2 _ Hpow Hlt) as (k & Hk & HN).
  unfold ring_run.
  destruct (ring_fold_holds Capacity k Hk HN ops
              (LockFreeRingBuffer.init Capacity zero, [], []) [])
    as (held & Hq & Hrec); [apply (holds_init Capacity k Hk HN) | reflexivity |].
  exists held. split; [exact Hrec|]. split_and!.
  - intros x. apply (try_push_spec Capacity k Hk HN _ _ x Hq).
  - apply (try_pop_spec Capacity k Hk HN _ _ Hq).
  - reflexivity.
Qed.

Lemma ring_buffer_fifo_witness :
  ∃ held,
    (ring_run 4 0 [Push 1; Push 2; Pop; Push 3; Push 4; Push 5; Pop]).1.2
    = (ring_run 4 0 [Push 1; Push 2; Pop; Push 3; Push 4; Push 5; Pop]).2 ++ held
    ∧ (ring_run 4 0 [Push 1; Push 2; Pop; Push 3; Push 4; Push 5; Pop]).2 = [1; 2].
Proof.
  destruct (ring_buffer_fifo 4 0 [Push 1; Push 2; Pop; Push 3; Push 4; Push 5; Pop])
    as (held & Hrec & _); [reflexivity | reflexivity |].
  exists held. split; [exact Hrec | reflexivity].
Defined.

(** ** C7: the slab pool *)

Lemma entry_read_write_link w e :
  0 ≤ w < 2 ^ 32 → entry_read_link (entry_write_link w e) = w.
Proof.
  intros Hw. unfold entry_read_link, entry_write_link. simpl.
  rewrite Z.land_lor_distr_l, !Z.land_ones by lia.
  rewrite Z.shiftl_mul_pow2 by lia.
  rewrite Z.mod_mul by lia.
  rewrite Z.lor_0_l. apply Z.mod_small. lia.
Qed.

Section PoolFacts.
Context {T : Type} `{PoolSlot T}.
Variable PoolSize : nat.
(** A link written to a slot is read back: the object is at least four
    bytes wide. *)
Hypothesis Hlink : ∀ w (v : T), 0 ≤ w < 2 ^ 32 → read_link (write_link w v) = w.
(** Every slot index fits the 32-bit link and differs from [INVALID]. *)
Hypothesis Hsize : (1 ≤ PoolSize)%nat ∧ Z.of_nat PoolSize ≤ MemoryPool.INVALID.

Lemma pool_slot_insert (s : list T) i j x :
  MemoryPool.slot (<[i := x]> s) j
  = if decide (i = j ∧ (i < length s)%nat) then x else MemoryPool.slot s j.
Proof.
  unfold MemoryPool.slot. destruct (decide (i = j)) as [->|Hne].
  - destruct (decide (j < length s)%nat) as [Hlt|Hge].
    + rewrite list_lookup_insert_eq by assumption.
      rewrite decide_True by auto. reflexivity.
    + rewrite list_insert_ge by lia. rewrite decide_False by tauto. reflexivity.
  - rewrite list_lookup_insert_ne by assumption.
    rewrite decide_False by tauto. reflexivity.
Qed.

Lemma free_list_invalid s l :
  Z.of_nat (length s) ≤ MemoryPool.INVALID → free_list s MemoryPool.INVALID l → l = [].
Proof.
  intros Hlen Hfl. inversion Hfl as [|i l' Hi Hrest Hhead]; [reflexivity|]. lia.
Qed.

Lemma free_list_cons_inv s h i l :
  free_list s h (i :: l) →
  h = Z.of_nat i ∧ (i < length s)%nat ∧ free_list s (read_link (MemoryPool.slot s i)) l.
Proof. inversion 1; subst. auto. Qed.

Lemma free_list_head_range s h l :
  Z.of_nat (length s) ≤ MemoryPool.INVALID → free_list s h l → 0 ≤ h < 2 ^ 32.
Proof.
  intros Hlen Hfl. destruct Hfl; unfold MemoryPool.INVALID in *; lia.
Qed.

Lemma free_list_insert s h l j v :
  free_list s h l → j ∉ l → free_list (<[j := v]> s) h l.
Proof.
  induction 1 as [|i l Hi Hrest IH]; intros Hj; [constructor|].
  apply not_elem_of_cons in Hj as [Hne Hj].
  constructor; [rewrite length_insert; assumption|].
  rewrite pool_slot_insert, decide_False by (intros [? _]; congruence). auto.
Qed.

Lemma init_links_length n i : length (MemoryPool.init_links n i) = n.
Proof. revert i. induction n as [|n IH]; intros i; simpl; [reflexivity|]. rewrite IH. reflexivity. Qed.

Lemma init_links_lookup n : ∀ i j,
  (j < n)%nat →
  MemoryPool.init_links n i !! j = Some (write_link (i + Z.of_nat j + 1) slot_zero).
Proof.
  induction n as [|n IH]; intros i j Hj; [lia|].
  destruct j as [|j]; simpl.
  - do 2 f_equal. lia.
  - rewrite IH by lia. do 2 f_equal. lia.
Qed.

Lemma init_storage_length : length (MemoryPool.storage_ (MemoryPool.init PoolSize)) = PoolSize.
Proof. simpl. rewrite length_app, init_links_length. simpl. lia. Qed.

Lemma init_free_list m : ∀ j,
  (j + m = PoolSize - 1)%nat →
  free_list (MemoryPool.storage_ (MemoryPool.init PoolSize)) (Z.of_nat j) (seq j (S m)).
Proof.
  destruct Hsize as [Hone Hmax]. unfold MemoryPool.INVALID in Hmax.
  induction m as [|m IH]; intros j Hj; cbn [seq].
  - constructor; [rewrite init_storage_length; lia|].
    unfold MemoryPool.slot. simpl.
    rewrite lookup_app_r by (rewrite init_links_length; lia).
    rewrite init_links_length. replace (j - (PoolSize - 1))%nat with 0%nat by lia.
    simpl. rewrite Hlink by (unfold MemoryPool.INVALID; lia). constructor.
  - constructor; [rewrite init_storage_length; lia|].
    unfold MemoryPool.slot at 1. simpl.
    rewrite lookup_app_l by (rewrite init_links_length; lia).
    rewrite init_links_lookup by lia. simpl. rewrite Hlink by lia.
    replace (0 + Z.of_nat j + 1) with (Z.of_nat (S j)) by lia.
    apply IH. lia.
Qed.

Lemma pool_inv_init : pool_inv PoolSize (MemoryPool.init PoolSize) ∅.
Proof.
  destruct Hsize as [Hone Hmax].
  split; [apply init_storage_length|]. split; [reflexivity|].
  split; [intros i Hi; set_solver|].
  exists (seq 0 PoolSize). split_and!.
  - change (MemoryPool.free_head_ (MemoryPool.init PoolSize)) with (Z.of_nat 0).
    replace (seq 0 PoolSize) with (seq 0 (S (PoolSize - 1))) by (f_equal; lia).
    apply (init_free_list (PoolSize - 1) 0%nat). lia.
  - apply NoDup_seq.
  - intros i. rewrite elem_of_seq. split; [intros ?; split; [lia|set_solver]|].
    intros [? _]. lia.
Qed.

Lemma pool_inv_allocate p A :
  pool_inv PoolSize p A →
  pool_inv PoolSize (snd (MemoryPool.allocate p))
    (match fst (MemoryPool.allocate p) with Some i => A ∪ {[i]} | None => A end)
  ∧ match fst (MemoryPool.allocate p) with
    | Some i => (i < PoolSize)%nat ∧ i ∉ A
    | None => Z.of_nat (size A) = Z.of_nat PoolSize
    end.
Proof.
  destruct Hsize as [Hone Hmax].
  intros (Hlen & Hcount & Hbound & l & Hfl & Hnd & Hmem).
  unfold MemoryPool.allocate.
  destruct (Z.eqb_spec (MemoryPool.free_head_ p) MemoryPool.INVALID) as [Hfull|Hroom];
    simpl.
  - split; [split_and!; eauto|].
    rewrite Hfull in Hfl. apply free_list_invalid in Hfl; [|lia]. subst l.
    assert (HA : ∀ i, (i < PoolSize)%nat → i ∈ A).
    { intros i Hi. destruct (decide (i ∈ A)); [assumption|].
      exfalso. eapply elem_of_nil. apply Hmem. eauto. }
    f_equal.
    assert (HAeq : A = list_to_set (seq 0 PoolSize)).
    { apply set_eq. intros i. rewrite elem_of_list_to_set, elem_of_seq.
      split; [intros Hi; specialize (Hbound i Hi); lia | intros Hi; apply HA; lia]. }
    rewrite HAeq, size_list_to_set by apply NoDup_seq. apply length_seq.
  - destruct l as [|i l]; [inversion Hfl; congruence|].
    apply free_list_cons_inv in Hfl as (Hhead & Hi & Hrest).
    rewrite Hhead, Nat2Z.id.
    apply NoDup_cons in Hnd as [Hnotin Hnd].
    assert (HiA : (i < PoolSize)%nat ∧ i ∉ A) by (apply Hmem; left).
    split; [|exact HiA]. destruct HiA as [HiP HiA].
    unfold pool_inv. simpl. split_and!; [assumption | | |].
    + rewrite Hcount, size_union, size_singleton by set_solver.
      assert (Hle : (size A < PoolSize)%nat).
      { assert (Hsub : A ∪ {[i]} ⊆ list_to_set (seq 0 PoolSize)).
        { intros j [Hj| ->%elem_of_singleton]%elem_of_union;
            apply elem_of_list_to_set, elem_of_seq; [specialize (Hbound j Hj)|]; lia. }
        apply subseteq_size in Hsub.
        rewrite size_union, size_singleton, size_list_to_set, length_seq in Hsub
          by (try apply NoDup_seq; set_solver). lia. }
      unfold u64. rewrite Z.mod_small; unfold MemoryPool.INVALID in *; lia.
    + intros j [Hj| ->%elem_of_singleton]%elem_of_union; auto.
    + exists l. split_and!; [assumption | assumption |].
      intros j. split.
      * intros Hj. assert (j ∈ i :: l) as Hj' by (right; assumption).
        apply Hmem in Hj' as [? ?]. split; [assumption|].
        intros [?| ->%elem_of_singleton]%elem_of_union; [contradiction|]. contradiction.
      * intros [HjP HjA].
        assert (j ∈ i :: l) as [->|Hj]%elem_of_cons; [|exfalso|assumption].
        { apply Hmem. split; [assumption|].
          intros Hc. apply HjA, elem_of_union. left. exact Hc. }
        apply HjA, elem_of_union. right. apply elem_of_singleton. reflexivity.
Qed.

Lemma pool_inv_deallocate p A i :
  pool_inv PoolSize p A → i ∈ A → pool_inv PoolSize (MemoryPool.deallocate p (Some i)) (A ∖ {[i]}).
Proof.
  destruct Hsize as [Hone Hmax].
  intros (Hlen & Hcount & Hbound & l & Hfl & Hnd & Hmem) Hi.
  pose proof (Hbound i Hi) as HiP.
  assert (Hnotin : i ∉ l) by (intros Hc; apply Hmem in Hc as [_ ?]; contradiction).
  assert (Hhead : 0 ≤ MemoryPool.free_head_ p < 2 ^ 32)
    by (eapply free_list_head_range; [|eassumption]; lia).
  unfold pool_inv, MemoryPool.deallocate. simpl. rewrite length_insert.
  split_and!; [assumption | | |].
  - rewrite Hcount, size_difference, size_singleton
      by (intros j ->%elem_of_singleton; assumption).
    assert (Hpos : (1 ≤ size A)%nat).
    { destruct (decide (size A = 0%nat)) as [Hz|]; [|lia].
      apply size_empty_inv in Hz. exfalso.
      apply (not_elem_of_empty (C := gset nat) i). apply Hz. exact Hi. }
    assert (Hle : (size A ≤ PoolSize)%nat).
    { assert (Hsub : A ⊆ list_to_set (seq 0 PoolSize)).
      { intros j Hj. apply elem_of_list_to_set, elem_of_seq. specialize (Hbound j Hj). lia. }
      apply subseteq_size in Hsub.
      rewrite size_list_to_set, length_seq in Hsub by apply NoDup_seq. exact Hsub. }
    unfold u64. rewrite Z.mod_small; unfold MemoryPool.INVALID in *; lia.
  - intros j [Hj _]%elem_of_difference. auto.
  - exists (i :: l). split_and!.
    + unfold u32. rewrite Z.mod_small by (unfold MemoryPool.INVALID in *; lia).
      constructor; [rewrite length_insert; lia|].
      rewrite pool_slot_insert, decide_True by (split; [reflexivity | lia]).
      rewrite Hlink by assumption.
      apply free_list_insert; assumption.
    + apply NoDup_cons. auto.
    + intros j. rewrite elem_of_cons, Hmem, elem_of_difference, elem_of_singleton.
      destruct (decide (j = i)) as [->|Hne]; [tauto|]. tauto.
Qed.

Lemma pool_inv_write p A i v :
  pool_inv PoolSize p A → i ∈ A →
  pool_inv PoolSize (MemoryPool.mk (<[i := v]> (MemoryPool.storage_ p))
              (MemoryPool.free_head_ p) (MemoryPool.allocated_count_ p)) A.
Proof.
  intros (Hlen & Hcount & Hbound & l & Hfl & Hnd & Hmem) Hi.
  unfold pool_inv. simpl. rewrite length_insert.
  split_and!; [assumption..|].
  exists l. split_and!; [|assumption..].
  apply free_list_insert; [assumption|].
  intros Hc. apply Hmem in Hc as [_ ?]. contradiction.
Qed.

Lemma pool_reach_inv p A : pool_reach PoolSize p A → pool_inv PoolSize p A.
Proof.
  induction 1 as [| p A _ IH | p A i _ IH Hi | p A _ IH | p A i v _ IH Hi].
  - apply pool_inv_init.
  - apply pool_inv_allocate, IH.
  - apply pool_inv_deallocate; assumption.
  - exact IH.
  - apply pool_inv_write; assumption.
Qed.

(** C7. Under the discipline, at all times [allocated() + available()] is
    the capacity and the free list holds exactly the slots that are not
    handed out, each once; and [allocate] right after [deallocate] of a
    handed-out slot returns that slot. *)
Theorem pool_conservation p A :
  pool_reach PoolSize p A →
  MemoryPool.allocated p + MemoryPool.available PoolSize p = MemoryPool.pool_size PoolSize
  ∧ MemoryPool.allocated p = Z.of_nat (size A)
  ∧ (∃ l, free_list (MemoryPool.storage_ p) (MemoryPool.free_head_ p) l
          ∧ NoDup l
          ∧ ∀ i, i ∈ l ↔ (i < PoolSize)%nat ∧ i ∉ A)
  ∧ (∀ i, i ∈ A →
          fst (MemoryPool.allocate (MemoryPool.deallocate p (Some i))) = Some i).
Proof.
  destruct Hsize as [Hone Hmax]. intros Hreach.
  pose proof (pool_reach_inv _ _ Hreach) as (Hlen & Hcount & Hbound & Hfree).
  assert (Hle : (size A ≤ PoolSize)%nat).
  { assert (Hsub : A ⊆ list_to_set (seq 0 PoolSize)).
    { intros j Hj. apply elem_of_list_to_set, elem_of_seq. specialize (Hbound j Hj). lia. }
    apply subseteq_size in Hsub.
    rewrite size_list_to_set, length_seq in Hsub by apply NoDup_seq. exact Hsub. }
  unfold MemoryPool.allocated, MemoryPool.available, MemoryPool.pool_size.
  split_and!; [|assumption..|].
  - rewrite Hcount. unfold u64.
    rewrite Z.mod_small; unfold MemoryPool.INVALID in *; lia.
  - intros i Hi. specialize (Hbound i Hi).
    unfold MemoryPool.allocate, MemoryPool.deallocate. simpl.
    unfold u32. rewrite Z.mod_small by (unfold MemoryPool.INVALID in *; lia).
    destruct (Z.eqb_spec (Z.of_nat i) MemoryPool.INVALID) as [Heq|Hne]; [lia|].
    simpl. rewrite Nat2Z.id. reflexivity.
Qed.
End PoolFacts.

Lemma pool_conservation_witness :
  MemoryPool.allocated
    (snd (MemoryPool.allocate (MemoryPool.init (T := OrderBookEntry.t) 4)))
  + MemoryPool.available 4
      (snd (MemoryPool.allocate (MemoryPool.init (T := OrderBookEntry.t) 4)))
  = 4
  ∧ fst (MemoryPool.allocate
           (MemoryPool.deallocate
              (snd (MemoryPool.allocate (MemoryPool.init (T := OrderBookEntry.t) 4)))
              (Some 0%nat)))
    = Some 0%nat.
Proof.
  assert (Hsize : (1 ≤ 4)%nat ∧ Z.of_nat 4 ≤ MemoryPool.INVALID)
    by (vm_compute; split; [lia | discriminate]).
  destruct (@pool_conservation OrderBookEntry.t entry_slot 4 entry_read_write_link Hsize
              (snd (MemoryPool.allocate (MemoryPool.init 4))) (∅ ∪ {[0%nat]}))
    as (Hsum & _ & _ & Hsame).
  - exact (reach_allocate 4 (MemoryPool.init 4) ∅ (reach_init 4)).
  - split; [exact Hsum|]. apply Hsame. apply elem_of_union. right.
    apply elem_of_singleton. reflexivity.
Defined.

(** ** C5: price-time priority *)

Lemma poke_length i f mem : length (poke i f mem) = length mem.
Proof. unfold poke. apply length_insert. Qed.

Lemma slot_poke i f mem j :
  MemoryPool.slot (poke i f mem) j
  = if decide (i = j ∧ (i < length mem)%nat) then f (MemoryPool.slot mem i)
    else MemoryPool.slot mem j.
Proof. unfold poke. apply slot_insert. Qed.

Lemma slot_poke_ne i f mem j : i ≠ j → MemoryPool.slot (poke i f mem) j = MemoryPool.slot mem j.
Proof. intros Hne. rewrite slot_poke, decide_False by tauto. reflexivity. Qed.

Lemma slot_poke_eq i f mem :
  (i < length mem)%nat → MemoryPool.slot (poke i f mem) i = f (MemoryPool.slot mem i).
Proof. intros Hi. rewrite slot_poke, decide_True by tauto. reflexivity. Qed.

(** Links of entries other than [i] and [j] do not change when only [i]
    and [j] are written. *)
Lemma dlinked_frame mem mem' ptrs : ∀ before_p p,
  length mem' = length mem →
  (∀ i, i ∈ ptrs → MemoryPool.slot mem' i = MemoryPool.slot mem i) →
  dlinked mem before_p p ptrs → dlinked mem' before_p p ptrs.
Proof.
  induction ptrs as [|i r IH]; intros before_p p Hlen Hsame; simpl; [auto|].
  intros (-> & Hi & Hprev & Hrest).
  rewrite Hsame by (left; reflexivity). rewrite Hlen.
  split_and!; auto. apply IH; auto. intros j Hj. apply Hsame. right. exact Hj.
Qed.

(** Appending behind the last entry [tl] of a list. *)
Lemma dlinked_snoc mem ptrs : ∀ before_p p tl entry,
  dlinked mem before_p p (ptrs ++ [tl]) →
  NoDup (ptrs ++ [tl]) → entry ∉ ptrs ++ [tl] → (entry < length mem)%nat →
  dlinked
    (poke tl (OrderBookEntry.set_next (Some entry))
       (poke entry (OrderBookEntry.set_next None)
          (poke entry (OrderBookEntry.set_prev (Some tl)) mem)))
    before_p p (ptrs ++ [tl; entry]).
Proof.
  induction ptrs as [|i r IH]; intros before_p p tl entry; simpl.
  - intros (-> & Htl & Hprev & _) _ Hnotin Hentry.
    assert (Hne : entry ≠ tl) by (intros ->; apply Hnotin; left).
    set (mem3 := poke tl _ _).
    assert (Hslot_tl : MemoryPool.slot mem3 tl
                       = OrderBookEntry.set_next (Some entry) (MemoryPool.slot mem tl)).
    { subst mem3. rewrite slot_poke_eq by (rewrite !poke_length; assumption).
      rewrite !slot_poke_ne by assumption. reflexivity. }
    assert (Hslot_entry : MemoryPool.slot mem3 entry
                          = OrderBookEntry.set_next None
                              (OrderBookEntry.set_prev (Some tl) (MemoryPool.slot mem entry))).
    { subst mem3. rewrite slot_poke_ne by congruence.
      rewrite slot_poke_eq by (rewrite poke_length; assumption).
      rewrite slot_poke_eq by assumption. reflexivity. }
    assert (Hlen : length mem3 = length mem) by (subst mem3; rewrite !poke_length; reflexivity).
    rewrite Hslot_tl, Hslot_entry, Hlen. simpl. split_and!; auto.
  - intros (-> & Hi & Hprev & Hrest) Hnd Hnotin Hentry.
    apply NoDup_cons in Hnd as [Hi_notin Hnd].
    apply not_elem_of_cons in Hnotin as [Hne Hnotin].
    assert (Hitl : tl ≠ i).
    { intros ->. apply Hi_notin, elem_of_app. right. left. }
    rewrite !poke_length. rewrite !slot_poke_ne by congruence.
    split_and!; auto.
Qed.

Lemma last_snoc {A} (l : list A) x : last (l ++ [x]) = Some x.
Proof. induction l as [|a [|b l] IH]; simpl in *; auto. Qed.

(** [PriceLevel::add_order] puts the entry behind every entry of the
    level. *)
Lemma add_order_queue mem l entry ptrs :
  level_queue mem l ptrs → entry ∉ ptrs → (entry < length mem)%nat →
  level_queue (PriceLevel.add_order mem l entry).1 (PriceLevel.add_order mem l entry).2
    (ptrs ++ [entry]).
Proof.
  intros (Hlinked & Htail & Hnd) Hnotin Hentry.
  assert (Hnd' : NoDup (ptrs ++ [entry])).
  { apply NoDup_app. split_and!; [assumption | | apply NoDup_singleton].
    intros x Hx ->%list_elem_of_singleton. contradiction. }
  unfold PriceLevel.add_order, level_queue.
  destruct ptrs as [|i r] using rev_ind.
  - simpl in *. rewrite Htail. simpl.
    rewrite !poke_length.
    rewrite slot_poke_eq by (rewrite poke_length; assumption).
    rewrite slot_poke_eq by assumption. simpl.
    split_and!; auto.
  - clear IHr. rewrite last_snoc in Htail. rewrite Htail. simpl.
    rewrite <- app_assoc. simpl. split_and!.
    + apply dlinked_snoc; assumption.
    + replace (r ++ [i; entry]) with ((r ++ [i]) ++ [entry])
        by (rewrite <- app_assoc; reflexivity).
      symmetry. apply last_snoc.
    + rewrite <- app_assoc in Hnd'. exact Hnd'.
Qed.

(** [front()] is the oldest entry. *)
Lemma front_queue mem l r ptrs :
  level_queue mem l (r :: ptrs) → PriceLevel.front l = Some r.
Proof. intros ((Hhead & _) & _). exact Hhead. Qed.

(** [PriceLevel::remove_order] of the front leaves the others, in their
    order. *)
Lemma remove_front_queue mem l r ptrs :
  level_queue mem l (r :: ptrs) →
  level_queue (PriceLevel.remove_order mem l r).1 (PriceLevel.remove_order mem l r).2 ptrs.
Proof.
  intros ((Hhead & Hr & Hprev & Hrest) & Htail & Hnd).
  apply NoDup_cons in Hnd as [Hnotin Hnd].
  unfold PriceLevel.remove_order, level_queue. rewrite Hprev.
  destruct ptrs as [|n rest].
  - simpl in Hrest. rewrite Hrest. simpl. rewrite Hprev. simpl.
    split_and!; auto.
  - destruct Hrest as (Hnext & Hn & Hnprev & Hrest).
    rewrite Hnext. simpl. rewrite Hprev.
    assert (Hrn : r ≠ n) by (intros ->; apply Hnotin; left).
    apply NoDup_cons in Hnd as [Hn_notin Hnd'].
    rewrite !poke_length.
    rewrite !(slot_poke_ne r) by assumption.
    rewrite slot_poke_eq by assumption. simpl.
    split_and!; auto.
    + apply (dlinked_frame mem); [rewrite !poke_length; reflexivity | | assumption].
      intros j Hj. rewrite !slot_poke_ne; [reflexivity | | |];
        intros ->; first [apply Hn_notin, Hj | apply Hnotin; right; exact Hj].
    + apply NoDup_cons. auto.
Qed.

Lemma fill_trades side_of instrument entry resting level w :
  OrderBook.w_trades (OrderBook.fill side_of instrument entry resting level w).2
  = OrderBook.w_trades w
    ++ [trade_of side_of instrument (OrderBook.deref (OrderBook.w_pool w) entry)
          (OrderBook.deref (OrderBook.w_pool w) resting)].
Proof.
  unfold OrderBook.fill. destruct (_ <=? _); [|reflexivity].
  destruct (PriceLevel.remove_order _ _ _). reflexivity.
Qed.

Lemma match_level_trades side_of instrument entry fuel : ∀ level w,
  ∃ more,
    OrderBook.w_trades (OrderBook.match_level fuel side_of instrument entry level w).1.2
    = OrderBook.w_trades w ++ more.
Proof.
  induction fuel as [|fuel IH]; intros level w; simpl.
  - exists []. rewrite app_nil_r. reflexivity.
  - destruct (PriceLevel.front level) as [resting|];
      [|exists []; rewrite app_nil_r; reflexivity].
    destruct (negb _); [exists []; rewrite app_nil_r; reflexivity|].
    destruct (_ =? 0); [exists []; rewrite app_nil_r; reflexivity|].
    pose proof (fill_trades side_of instrument entry resting level w) as Hfill.
    destruct (OrderBook.fill _ _ _ _ _ _) as [level1 w1]. simpl in Hfill.
    destruct (IH level1 w1) as [more Hmore]. rewrite Hmore, Hfill, <- app_assoc. eauto.
Qed.

Lemma match_against_trades limit side_of instrument entry : ∀ levels w,
  ∃ more,
    OrderBook.w_trades (OrderBook.match_against limit side_of instrument entry levels w).2
    = OrderBook.w_trades w ++ more.
Proof.
  induction levels as [|[k level] rest IH]; intros w; cbn [OrderBook.match_against].
  - exists []. rewrite app_nil_r. reflexivity.
  - destruct (negb _); [exists []; rewrite app_nil_r; reflexivity|].
    destruct (_ && _ && _); [exists []; rewrite app_nil_r; reflexivity|].
    destruct (_ && _ && _); [exists []; rewrite app_nil_r; reflexivity|].
    destruct (match_level_trades side_of instrument entry
                (Z.to_nat OrderBook.MAX_TRADES_PER_MATCH) level w) as [more1 H1].
    destruct (OrderBook.match_level _ _ _ _ _ _) as [[level1 w1] ret]. simpl in H1.
    destruct ret; [simpl; eauto|].
    destruct (IH w1) as [more2 H2].
    destruct (PriceLevel.empty level1).
    + rewrite H2, H1, <- app_assoc. eauto.
    + destruct (OrderBook.match_against _ _ _ _ rest w1) as [rest' w2]. simpl in *.
      rewrite H2, H1, <- app_assoc. eauto.
Qed.

Lemma match_level_first side_of instrument entry fuel level resting w :
  OrderBook.w_trades w = [] →
  PriceLevel.front level = Some resting →
  OrderBook.remaining_of (OrderBook.deref (OrderBook.w_pool w) entry) ≠ 0 →
  ∃ more,
    OrderBook.w_trades
      (OrderBook.match_level (S fuel) side_of instrument entry level w).1.2
    = trade_of side_of instrument (OrderBook.deref (OrderBook.w_pool w) entry)
        (OrderBook.deref (OrderBook.w_pool w) resting) :: more.
Proof.
  intros Hnone Hfront Hrem.
  cbn [OrderBook.match_level]. rewrite Hfront.
  unfold OrderBook.trade_count at 1. rewrite Hnone. simpl negb. cbv iota.
  apply Z.eqb_neq in Hrem. rewrite Hrem.
  pose proof (fill_trades side_of instrument entry resting level w) as Hfill.
  destruct (OrderBook.fill _ _ _ _ _ _) as [level1 w1]. simpl in Hfill.
  destruct (match_level_trades side_of instrument entry fuel level1 w1) as [more Hmore].
  rewrite Hmore, Hfill, Hnone. simpl. eauto.
Qed.

(** The first trade of a walk is against the front of the first level:
    the best price, and at that price the oldest order. *)
Lemma match_against_first limit side_of instrument entry k level rest resting w :
  OrderBook.w_trades w = [] →
  PriceLevel.front level = Some resting →
  OrderBook.remaining_of (OrderBook.deref (OrderBook.w_pool w) entry) ≠ 0 →
  (limit = true →
   ¬ unmarketable (OrderBookEntry.side (OrderBook.deref (OrderBook.w_pool w) entry))
       (OrderBookEntry.price (OrderBook.deref (OrderBook.w_pool w) entry))
       (PriceLevel.price level)) →
  ∃ more,
    OrderBook.w_trades
      (OrderBook.match_against limit side_of instrument entry ((k, level) :: rest) w).2
    = trade_of side_of instrument (OrderBook.deref (OrderBook.w_pool w) entry)
        (OrderBook.deref (OrderBook.w_pool w) resting) :: more.
Proof.
  intros Hnone Hfront Hrem Hmk.
  pose proof (match_level_first side_of instrument entry 63 level resting w
                Hnone Hfront Hrem) as Hfirst.
  change (S 63) with (Z.to_nat OrderBook.MAX_TRADES_PER_MATCH) in Hfirst.
  cbn [OrderBook.match_against].
  unfold OrderBook.trade_count at 1. rewrite Hnone. simpl negb. cbv iota.
  assert (Hbuy : limit && bool_decide
                   (OrderBookEntry.side (OrderBook.deref (OrderBook.w_pool w) entry) = Buy)
                 && (OrderBookEntry.price (OrderBook.deref (OrderBook.w_pool w) entry)
                     <? PriceLevel.price level) = false).
  { destruct limit; [|reflexivity]. apply not_true_is_false. intros Hc.
    apply Hmk; [reflexivity|]. apply buy_break, Hc. }
  assert (Hsell : limit && bool_decide
                    (OrderBookEntry.side (OrderBook.deref (OrderBook.w_pool w) entry) = Sell)
                  && (PriceLevel.price level
                      <? OrderBookEntry.price (OrderBook.deref (OrderBook.w_pool w) entry))
                  = false).
  { destruct limit; [|reflexivity]. apply not_true_is_false. intros Hc.
    apply Hmk; [reflexivity|]. apply sell_break, Hc. }
  rewrite Hbuy, Hsell.
  destruct Hfirst as [more1 H1].
  destruct (OrderBook.match_level _ _ _ _ _ _) as [[level1 w1] ret]. simpl in H1.
  destruct ret; [simpl; eauto|].
  destruct (match_against_trades limit side_of instrument entry rest w1) as [more2 H2].
  destruct (PriceLevel.empty level1).
  - rewrite H2, H1. simpl. eauto.
  - destruct (OrderBook.match_against _ _ _ _ rest w1) as [rest' w2]. simpl in *.
    rewrite H2, H1. simpl. eauto.
Qed.

Lemma match_order_trades b entry :
  OrderBookEntry.type (OrderBook.deref (OrderBook.pool_ b) entry) ≠ FOK →
  snd (OrderBook.match_order b entry) = snd (first_walk b entry).
Proof.
  intros Htype. unfold OrderBook.match_order. fold (first_walk b entry).
  destruct (first_walk b entry) as [b1 trades1] eqn:Hwalk.
  apply first_walk_spec in Hwalk as [Hst _].
  destruct (Hst entry) as (_ & Ht & _).
  fold (OrderBook.deref (OrderBook.pool_ b) entry) in Ht.
  fold (OrderBook.deref (OrderBook.pool_ b1) entry) in Ht.
  rewrite (bool_decide_eq_false_2 (_ = FOK)) by congruence. simpl.
  destruct (0 <? _); [|reflexivity].
  destruct (OrderBookEntry.type (OrderBook.deref (OrderBook.pool_ b1) entry)); reflexivity.
Qed.

Lemma first_walk_first_trade b entry k level rest resting :
  opposite_levels b (OrderBookEntry.side (OrderBook.deref (OrderBook.pool_ b) entry))
  = (k, level) :: rest →
  PriceLevel.front level = Some resting →
  OrderBook.remaining_of (OrderBook.deref (OrderBook.pool_ b) entry) ≠ 0 →
  (OrderBookEntry.type (OrderBook.deref (OrderBook.pool_ b) entry) = Market
   ∨ ¬ unmarketable (OrderBookEntry.side (OrderBook.deref (OrderBook.pool_ b) entry))
         (OrderBookEntry.price (OrderBook.deref (OrderBook.pool_ b) entry))
         (PriceLevel.price level)) →
  ∃ more,
    snd (first_walk b entry)
    = trade_of OrderBookEntry.side (OrderBook.instrument_ b)
        (OrderBook.deref (OrderBook.pool_ b) entry)
        (OrderBook.deref (OrderBook.pool_ b) resting) :: more.
Proof.
  intros Hlevels Hfront Hrem Hmk.
  unfold first_walk, OrderBook.try_match_market, OrderBook.try_match_limit,
    OrderBook.walk_asks, OrderBook.walk_bids.
  set (e := OrderBook.deref (OrderBook.pool_ b) entry) in *.
  assert (Hlimit : OrderBookEntry.type e ≠ Market →
                   ¬ unmarketable (OrderBookEntry.side e) (OrderBookEntry.price e)
                       (PriceLevel.price level))
    by (destruct Hmk; [contradiction | auto]).
  unfold trade_of.
  destruct (OrderBookEntry.type e) eqn:Htype, (OrderBookEntry.side e) eqn:Hside;
    simpl in Hlevels; rewrite Hlevels;
    match goal with
    | |- context [OrderBook.match_against ?limit ?side_of ?i entry _ ?w] =>
        destruct (match_against_first limit side_of i entry k level rest resting w
                    eq_refl Hfront Hrem) as [more Hmore];
        [ intros Hl; try discriminate Hl; simpl; fold e; rewrite Hside;
          apply Hlimit; discriminate
        | destruct (OrderBook.match_against limit side_of i entry _ w) as [lv w'];
          simpl in Hmore |- *; exists more; rewrite Hmore;
          unfold trade_of; simpl; fold e; rewrite ?Hside; reflexivity ]
    end.
Qed.

(** The first trade of [add_order]: against the oldest order of the best
    level of the opposite side, at that order's price. *)
Lemma add_order_first_trade b id side type price quantity timestamp k level rest resting :
  MemoryPool.free_head_ (OrderBook.pool_ b) ≠ MemoryPool.INVALID →
  (Z.to_nat (MemoryPool.free_head_ (OrderBook.pool_ b))
   < length (MemoryPool.storage_ (OrderBook.pool_ b)))%nat →
  Z.to_nat (MemoryPool.free_head_ (OrderBook.pool_ b)) ≠ resting →
  type ≠ FOK →
  opposite_levels b side = (k, level) :: rest →
  PriceLevel.front level = Some resting →
  u64 quantity ≠ 0 →
  (type = Market ∨ ¬ unmarketable side price (PriceLevel.price level)) →
  ∃ t more,
    snd (OrderBook.add_order b id side type price quantity timestamp) = t :: more
    ∧ trade_price t = OrderBookEntry.price (OrderBook.deref (OrderBook.pool_ b) resting)
    ∧ trade_quantity t
      = Z.min (u64 quantity)
          (OrderBook.remaining_of (OrderBook.deref (OrderBook.pool_ b) resting))
    ∧ match side with
      | Buy => buyer_order_id t = id
               ∧ seller_order_id t
                 = OrderBookEntry.id (OrderBook.deref (OrderBook.pool_ b) resting)
      | Sell => seller_order_id t = id
                ∧ buyer_order_id t
                  = OrderBookEntry.id (OrderBook.deref (OrderBook.pool_ b) resting)
      end.
Proof.
  intros Hroom Hhead Hne Htype Hlevels Hfront Hqty Hmk.
  unfold OrderBook.add_order, MemoryPool.allocate.
  apply Z.eqb_neq in Hroom. rewrite Hroom.
  set (entry := Z.to_nat (MemoryPool.free_head_ (OrderBook.pool_ b))) in *.
  set (e := OrderBookEntry.mk id (OrderBook.instrument_ b) side type New price quantity
              0 timestamp None None).
  match goal with |- context [OrderBook.match_order ?x entry] => set (b1 := x) end.
  assert (He : OrderBook.deref (OrderBook.pool_ b1) entry = e).
  { unfold OrderBook.deref. subst b1. simpl. rewrite slot_insert.
    apply decide_True. split; [reflexivity | exact Hhead]. }
  assert (Hr : OrderBook.deref (OrderBook.pool_ b1) resting
               = OrderBook.deref (OrderBook.pool_ b) resting).
  { unfold OrderBook.deref. subst b1. simpl. rewrite slot_insert.
    apply decide_False. intros [? _]. contradiction. }
  rewrite match_order_trades by (rewrite He; exact Htype).
  destruct (first_walk_first_trade b1 entry k level rest resting) as [more Hmore].
  - rewrite He. simpl. destruct side; exact Hlevels.
  - exact Hfront.
  - rewrite He. unfold OrderBook.remaining_of, e.
    cbn [OrderBookEntry.quantity OrderBookEntry.filled_quantity].
    rewrite Z.sub_0_r. exact Hqty.
  - rewrite He. simpl. exact Hmk.
  - rewrite Hmore, He, Hr. eexists _, _. split; [reflexivity|].
    unfold trade_of, OrderBook.remaining_of, e.
    cbn [OrderBookEntry.quantity OrderBookEntry.filled_quantity OrderBookEntry.side
         OrderBookEntry.id OrderBookEntry.price OrderBookEntry.timestamp
         trade_price trade_quantity buyer_order_id seller_order_id].
    rewrite Z.sub_0_r.
    split_and!; try reflexivity. destruct side; split; reflexivity.
Qed.

(** In every book reached from the empty one, the first level of the
    asks is the lowest ask and the first level of the bids the highest
    bid. *)
Lemma first_level_is_best cs instrument k level rest :
  (OrderBook.asks_ (run cs (OrderBook.init instrument)) = (k, level) :: rest →
   is_min k (PriceMap.keys (OrderBook.asks_ (run cs (OrderBook.init instrument)))))
  ∧ (OrderBook.bids_ (run cs (OrderBook.init instrument)) = (k, level) :: rest →
     is_max k (PriceMap.keys (OrderBook.bids_ (run cs (OrderBook.init instrument))))).
Proof.
  destruct (run_wf cs _ (init_wf instrument)) as (Hob & Hoa & _ & _).
  split; intros Hl.
  - assert (Hk : PriceMap.keys (OrderBook.asks_ (run cs (OrderBook.init instrument)))
                 = k :: PriceMap.keys rest) by (rewrite Hl; reflexivity).
    unfold is_min. rewrite Hk. split; [left|]. eapply ordered_head_min; eassumption.
  - assert (Hk : PriceMap.keys (OrderBook.bids_ (run cs (OrderBook.init instrument)))
                 = k :: PriceMap.keys rest) by (rewrite Hl; reflexivity).
    unfold is_max. rewrite Hk. split; [left|]. eapply ordered_head_max; eassumption.
Qed.

(** What does hold of price-time priority.  Sells of 50 and 30 at 10000
    and of 20 at 9900, inserted in that
    order, then a limit buy of 100 at 10000: the trades are (9900, 20)
    against order 3, (10000, 50) against order 1 and (10000, 30) against
    order 2, in that order.  In general the first level of a side is its
    best price; the first trade of a call is against the oldest order of
    the first level of the opposite side; a level's list is a queue that
    [add_order] extends at the back, whose front is its oldest entry, and
    whose order the removal of the front keeps. *)
Theorem price_time_priority :
  map (fun t => (trade_price t, trade_quantity t, seller_order_id t))
    (snd (OrderBook.add_order three_sells 4 Buy Limit 10000 100 4))
  = [(9900, 20, 3); (10000, 50, 1); (10000, 30, 2)]
  ∧ (∀ cs instrument k level rest,
       (OrderBook.asks_ (run cs (OrderBook.init instrument)) = (k, level) :: rest →
        is_min k (PriceMap.keys (OrderBook.asks_ (run cs (OrderBook.init instrument)))))
       ∧ (OrderBook.bids_ (run cs (OrderBook.init instrument)) = (k, level) :: rest →
          is_max k (PriceMap.keys (OrderBook.bids_ (run cs (OrderBook.init instrument))))))
  ∧ (∀ b id side type price quantity timestamp k level rest resting,
       MemoryPool.free_head_ (OrderBook.pool_ b) ≠ MemoryPool.INVALID →
       (Z.to_nat (MemoryPool.free_head_ (OrderBook.pool_ b))
        < length (MemoryPool.storage_ (OrderBook.pool_ b)))%nat →
       Z.to_nat (MemoryPool.free_head_ (OrderBook.pool_ b)) ≠ resting →
       type ≠ FOK →
       opposite_levels b side = (k, level) :: rest →
       PriceLevel.front level = Some resting →
       u64 quantity ≠ 0 →
       (type = Market ∨ ¬ unmarketable side price (PriceLevel.price level)) →
       ∃ t more,
         snd (OrderBook.add_order b id side type price quantity timestamp) = t :: more
         ∧ trade_price t
           = OrderBookEntry.price (OrderBook.deref (OrderBook.pool_ b) resting)
         ∧ trade_quantity t
           = Z.min (u64 quantity)
               (OrderBook.remaining_of (OrderBook.deref (OrderBook.pool_ b) resting))
         ∧ match side with
           | Buy => buyer_order_id t = id
                    ∧ seller_order_id t
                      = OrderBookEntry.id (OrderBook.deref (OrderBook.pool_ b) resting)
           | Sell => seller_order_id t = id
                     ∧ buyer_order_id t
                       = OrderBookEntry.id (OrderBook.deref (OrderBook.pool_ b) resting)
           end)
  ∧ (∀ mem l entry ptrs,
       level_queue mem l ptrs → entry ∉ ptrs → (entry < length mem)%nat →
       level_queue (PriceLevel.add_order mem l entry).1
         (PriceLevel.add_order mem l entry).2 (ptrs ++ [entry]))
  ∧ (∀ mem l r ptrs,
       level_queue mem l (r :: ptrs) →
       PriceLevel.front l = Some r
       ∧ level_queue (PriceLevel.remove_order mem l r).1
           (PriceLevel.remove_order mem l r).2 ptrs).
Proof.
  split; [vm_compute; reflexivity|].
  split; [apply first_level_is_best|].
  split; [apply add_order_first_trade|].
  split; [apply add_order_queue|].
  intros mem l r ptrs Hq. split; [eapply front_queue | apply remove_front_queue]; eassumption.
Qed.

Lemma price_time_priority_witness :
  ∃ t more,
    snd (OrderBook.add_order three_sells 4 Buy Limit 10000 100 4) = t :: more
    ∧ trade_price t = 9900 ∧ trade_quantity t = 20 ∧ seller_order_id t = 3.
Proof.
  destruct price_time_priority as (_ & _ & Hfirst & _).
  destruct (Hfirst three_sells 4 Buy Limit 10000 100 4 9900
              (PriceLevel.mk 9900 20 1 (Some 2%nat) (Some 2%nat))
              [(10000, PriceLevel.mk 10000 80 2 (Some 0%nat) (Some 1%nat))] 2%nat)
    as (t & more & Htrades & Hprice & Hqty & _ & Hseller).
  - vm_compute. discriminate.
  - apply Nat.ltb_lt. vm_compute. reflexivity.
  - vm_compute. discriminate.
  - discriminate.
  - vm_compute. reflexivity.
  - reflexivity.
  - vm_compute. discriminate.
  - right. simpl. lia.
  - exists t, more. split; [exact Htrades|].
    rewrite Hprice, Hqty, Hseller. vm_compute. auto.
Defined.

(** C5. Resting orders of one price are not always consumed in the order
    they were added.  A bid of 10 rests at 100 (order 1).  A FOK buy at
    100 meets no sell, records no trade and stays in the id map without
    being linked into a level; cancelling it empties the list of the
    level at 100 and erases the level, while order 1 stays in the id map,
    [New] and unfilled.  A second bid of 10 at 100 (order 3) opens a new
    level.  A sell of 10 at 100 then trades with order 3, not with
    order 1, and a further sell at 100 finds nothing to trade with although
    order 1 is still in the id map. *)
Theorem later_bid_consumed_before_earlier_bid :
  (OrderBook.orders_ bid_lost_then_new_bid !! 1 = Some 0%nat
   ∧ OrderBook.orders_ bid_lost_then_new_bid !! 3 = Some 1%nat
   ∧ OrderBook.order_count bid_lost_then_new_bid = 2)
  ∧ (let first := OrderBook.deref (OrderBook.pool_ bid_lost_then_new_bid) 0 in
     OrderBookEntry.id first = 1
     ∧ (OrderBookEntry.side first, OrderBookEntry.price first) = (Buy, 100)
     ∧ (OrderBookEntry.status first, OrderBookEntry.quantity first,
        OrderBookEntry.filled_quantity first) = (New, 10, 0))
  ∧ map (fun t => (trade_price t, trade_quantity t, buyer_order_id t, seller_order_id t))
      (snd (OrderBook.add_order bid_lost_then_new_bid 4 Sell Limit 100 10 4))
    = [(100, 10, 3, 4)]
  ∧ (let after := fst (OrderBook.add_order bid_lost_then_new_bid 4 Sell Limit 100 10 4) in
     OrderBook.orders_ after !! 1 = Some 0%nat
     ∧ OrderBookEntry.filled_quantity (OrderBook.deref (OrderBook.pool_ after) 0) = 0
     ∧ snd (OrderBook.add_order after 5 Sell Limit 100 10 5) = []).
Proof.
  cbv zeta. split_and!; vm_compute; reflexivity.
Qed.

(** * Further properties of the code *)

(** ** The observers of the ring buffer *)

Section RingObservers.
Context {T : Type}.
Variables (Capacity k : Z).
Hypothesis Hk : 0 ≤ k < 64.
Hypothesis HN : Capacity = 2 ^ k.

Lemma size_spec (q : LockFreeRingBuffer.t T) l :
  holds Capacity q l →
  LockFreeRingBuffer.size Capacity q = Z.of_nat (length l).
Proof.
  intros (Hh & Ht & _ & Hlen & _).
  pose proof (capacity_pos Capacity k Hk HN) as Hc.
  unfold LockFreeRingBuffer.size. rewrite (mask_mod Capacity k Hk HN), Hlen.
  unfold u64. subst Capacity.
  replace (2 ^ 64) with (2 ^ k * 2 ^ (64 - k))
    by (rewrite <- Z.pow_add_r by lia; f_equal; lia).
  rewrite Z.rem_mul_r by (try apply Z.pow_pos_nonneg; lia).
  rewrite Z.mul_comm, Z.mod_add by lia.
  apply Z.mod_mod; lia.
Qed.

Lemma empty_spec (q : LockFreeRingBuffer.t T) l :
  holds Capacity q l → (LockFreeRingBuffer.empty q = true ↔ l = []).
Proof.
  intros (Hh & Ht & _ & Hlen & _).
  unfold LockFreeRingBuffer.empty. rewrite Z.eqb_eq. split.
  - intros Heq. rewrite Heq, Z.sub_diag, Z.mod_0_l in Hlen by lia.
    destruct l; [reflexivity | simpl in Hlen; lia].
  - intros ->. simpl in Hlen.
    rewrite (mod_cases Capacity) in Hlen by lia.
    destruct (_ <? 0) eqn:E1; [apply Z.ltb_lt in E1; lia|].
    destruct (_ <? Capacity) eqn:E2; [lia | apply Z.ltb_ge in E2; lia].
Qed.

Lemma full_spec (q : LockFreeRingBuffer.t T) l :
  holds Capacity q l →
  (LockFreeRingBuffer.full Capacity q = true ↔ Z.of_nat (length l) = Capacity - 1).
Proof.
  intros (Hh & Ht & _ & Hlen & _).
  unfold LockFreeRingBuffer.full. rewrite Z.eqb_eq.
  rewrite (next_index Capacity k Hk HN) by lia.
  rewrite Hlen, (mod_cases Capacity) by lia.
  destruct (_ + 1 <? Capacity) eqn:E0;
    [apply Z.ltb_lt in E0 | apply Z.ltb_ge in E0];
    (destruct (_ <? 0) eqn:E1; [apply Z.ltb_lt in E1 | apply Z.ltb_ge in E1]);
    try (destruct (_ <? Capacity) eqn:E2; [apply Z.ltb_lt in E2 | apply Z.ltb_ge in E2]);
    lia.
Qed.
End RingObservers.

(** X1. after any sequence of [try_push] and [try_pop] calls on a fresh
    buffer, [size()] is the number of values held, [empty()] holds exactly
    when nothing is held and [full()] exactly when [capacity()] values are
    held; [size()] never exceeds [capacity()]. *)
Theorem ring_buffer_observers {T} (Capacity : Z) (zero : T) (ops : list (ring_op T)) :
  is_power_of_two Capacity = true → Capacity < 2 ^ 64 →
  ∃ held,
    (ring_run Capacity zero ops).1.2 = (ring_run Capacity zero ops).2 ++ held
    ∧ LockFreeRingBuffer.size Capacity (ring_run Capacity zero ops).1.1
      = Z.of_nat (length held)
    ∧ (LockFreeRingBuffer.empty (ring_run Capacity zero ops).1.1 = true ↔ held = [])
    ∧ (LockFreeRingBuffer.full Capacity (ring_run Capacity zero ops).1.1 = true
       ↔ Z.of_nat (length held) = LockFreeRingBuffer.capacity Capacity)
    ∧ LockFreeRingBuffer.size Capacity (ring_run Capacity zero ops).1.1
      ≤ LockFreeRingBuffer.capacity Capacity.
Proof.
  intros Hpow Hlt. destruct (is_power_of_two_pow2 _ Hpow Hlt) as (k & Hk & HN).
  unfold ring_run.
  destruct (ring_fold_holds Capacity k Hk HN ops
              (LockFreeRingBuffer.init Capacity zero, [], []) [])
    as (held & Hq & Hrec); [apply (holds_init Capacity k Hk HN) | reflexivity |].
  exists held. split; [exact Hrec|].
  pose proof (size_spec Capacity k Hk HN _ _ Hq) as Hsz.
  split; [exact Hsz|]. split; [apply (empty_spec Capacity k Hk HN _ _ Hq)|].
  split; [apply (full_spec Capacity k Hk HN _ _ Hq)|].
  rewrite Hsz. destruct Hq as (Hh & Ht & _ & Hlen & _).
  unfold LockFreeRingBuffer.capacity. rewrite Hlen.
  pose proof (Z.mod_pos_bound
                (LockFreeRingBuffer.tail_ (fold_left (ring_step Capacity) ops
                   (LockFreeRingBuffer.init Capacity zero, [], [])).1.1
                 - LockFreeRingBuffer.head_ (fold_left (ring_step Capacity) ops
                   (LockFreeRingBuffer.init Capacity zero, [], [])).1.1) Capacity).
  lia.
Qed.

Lemma ring_buffer_observers_witness :
  LockFreeRingBuffer.size 4 (ring_run 4 0 [Push 1; Push 2; Pop; Push 3; Push 4]).1.1 = 3
  ∧ LockFreeRingBuffer.full 4 (ring_run 4 0 [Push 1; Push 2; Pop; Push 3; Push 4]).1.1 = true.
Proof.
  destruct (ring_buffer_observers 4 0 [Push 1; Push 2; Pop; Push 3; Push 4])
    as (held & Hrec & Hsize & _ & Hfull & _); [reflexivity | reflexivity |].
  split; [reflexivity|]. apply Hfull. rewrite <- Hsize. reflexivity.
Defined.

(** X2. [is_power_of_two(n)] holds exactly for the powers of two
    [2^0 .. 2^63] among the [size_t] values. *)
Theorem is_power_of_two_iff n :
  0 ≤ n < 2 ^ 64 →
  (is_power_of_two n = true ↔ ∃ k, 0 ≤ k < 64 ∧ n = 2 ^ k).
Proof.
  intros Hn. split; [intros H; apply is_power_of_two_pow2; [exact H | lia]|].
  intros (k & Hk & ->). unfold is_power_of_two.
  assert (Hpos : 0 < 2 ^ k) by (apply Z.pow_pos_nonneg; lia).
  apply andb_true_intro. split; [apply Z.ltb_lt; exact Hpos|].
  apply Z.eqb_eq. unfold u64. rewrite Z.mod_small by lia.
  replace (2 ^ k - 1) with (Z.ones k) by (rewrite Z.ones_equiv; lia).
  rewrite Z.land_ones by lia. apply Z.mod_same. lia.
Qed.

Lemma is_power_of_two_iff_witness :
  is_power_of_two 65536 = true ↔ ∃ k, 0 ≤ k < 64 ∧ 65536 = 2 ^ k.
Proof. apply is_power_of_two_iff. lia. Defined.

Section PoolMore.
Context {T : Type} `{PoolSlot T}.
Variable PoolSize : nat.
Hypothesis Hlink : ∀ w (v : T), 0 ≤ w < 2 ^ 32 → read_link (write_link w v) = w.
Hypothesis Hsize : (1 ≤ PoolSize)%nat ∧ Z.of_nat PoolSize ≤ MemoryPool.INVALID.

Lemma init_slot_link j :
  (j < PoolSize)%nat →
  read_link (MemoryPool.slot (MemoryPool.storage_ (MemoryPool.init PoolSize)) j)
  = if (S j <? PoolSize)%nat then Z.of_nat (S j) else MemoryPool.INVALID.
Proof.
  intros Hj. unfold MemoryPool.slot, MemoryPool.init. cbn [MemoryPool.storage_].
  unfold MemoryPool.INVALID in *.
  destruct (S j <? PoolSize)%nat eqn:E;
    [apply Nat.ltb_lt in E | apply Nat.ltb_ge in E].
  - rewrite lookup_app_l by (rewrite init_links_length; lia).
    rewrite (init_links_lookup PoolSize Hsize) by lia. simpl.
    rewrite Hlink by lia. lia.
  - rewrite lookup_app_r by (rewrite init_links_length; lia).
    rewrite init_links_length. replace (j - (PoolSize - 1))%nat with 0%nat by lia.
    simpl. apply Hlink. lia.
Qed.

Lemma allocate_many_from n : ∀ j a,
  (j + n ≤ PoolSize)%nat → 0 ≤ a → a + Z.of_nat n < 2 ^ 64 →
  allocate_many n
    (MemoryPool.mk (MemoryPool.storage_ (MemoryPool.init PoolSize))
       (if (j <? PoolSize)%nat then Z.of_nat j else MemoryPool.INVALID) a)
  = (map Some (seq j n),
     MemoryPool.mk (MemoryPool.storage_ (MemoryPool.init PoolSize))
       (if (j + n <? PoolSize)%nat then Z.of_nat (j + n) else MemoryPool.INVALID)
       (a + Z.of_nat n)).
Proof.
  induction n as [|n IH]; intros j a Hj Ha Hb.
  - simpl. rewrite Nat.add_0_r, Z.add_0_r. reflexivity.
  - cbn [allocate_many]. unfold MemoryPool.allocate at 1.
    cbn [MemoryPool.free_head_ MemoryPool.storage_ MemoryPool.allocated_count_].
    assert (Hlt : (j <? PoolSize)%nat = true) by (apply Nat.ltb_lt; lia).
    rewrite Hlt.
    assert (Hne : (Z.of_nat j =? MemoryPool.INVALID) = false).
    { apply Z.eqb_neq. unfold MemoryPool.INVALID in *. lia. }
    rewrite Hne, Nat2Z.id. rewrite init_slot_link by lia.
    replace (u64 (a + 1)) with (a + 1) by (unfold u64; rewrite Z.mod_small; lia).
    rewrite (IH (S j) (a + 1)) by lia.
    replace (S j + n)%nat with (j + S n)%nat by lia.
    replace (a + 1 + Z.of_nat n) with (a + Z.of_nat (S n)) by lia. reflexivity.
Qed.
End PoolMore.

Section PoolMore2.
Context {T : Type} `{PoolSlot T}.
Variable PoolSize : nat.
Hypothesis Hlink : ∀ w (v : T), 0 ≤ w < 2 ^ 32 → read_link (write_link w v) = w.
Hypothesis Hsize : (1 ≤ PoolSize)%nat ∧ Z.of_nat PoolSize ≤ MemoryPool.INVALID.

(** X3. a fresh pool hands out its slots in the order 0, 1, ..,
    [PoolSize - 1]; once all are handed out, [allocate] returns null and
    leaves the pool as it is. *)
Theorem fresh_pool_allocates_in_order n :
  (n ≤ PoolSize)%nat →
  fst (allocate_many n (MemoryPool.init PoolSize)) = map Some (seq 0 n)
  ∧ MemoryPool.allocated (snd (allocate_many n (MemoryPool.init PoolSize))) = Z.of_nat n
  ∧ MemoryPool.available PoolSize (snd (allocate_many n (MemoryPool.init PoolSize)))
    = Z.of_nat (PoolSize - n)
  ∧ (n = PoolSize →
     MemoryPool.allocate (snd (allocate_many n (MemoryPool.init PoolSize)))
     = (None, snd (allocate_many n (MemoryPool.init PoolSize)))).
Proof.
  intros Hn.
  pose proof (allocate_many_from PoolSize Hlink Hsize n 0 0) as Hrun.
  assert (H0 : (0 <? PoolSize)%nat = true) by (apply Nat.ltb_lt; lia).
  rewrite H0 in Hrun. change (MemoryPool.mk _ (Z.of_nat 0) 0) with (MemoryPool.init PoolSize) in Hrun.
  unfold MemoryPool.INVALID in *.
  rewrite Hrun by lia. cbn [fst snd]. split; [reflexivity|].
  unfold MemoryPool.allocated, MemoryPool.available, MemoryPool.allocate.
  cbn [MemoryPool.allocated_count_ MemoryPool.free_head_].
  split; [lia|]. split.
  - unfold u64. rewrite Z.mod_small; lia.
  - intros ->. simpl. rewrite Nat.ltb_irrefl. reflexivity.
Qed.
End PoolMore2.

Lemma fresh_pool_allocates_in_order_witness :
  fst (allocate_many 3 (MemoryPool.init (T := OrderBookEntry.t) 3))
  = [Some 0%nat; Some 1%nat; Some 2%nat]
  ∧ fst (MemoryPool.allocate
           (snd (allocate_many 3 (MemoryPool.init (T := OrderBookEntry.t) 3))))
    = None.
Proof.
  assert (Hsize : (1 ≤ 3)%nat ∧ Z.of_nat 3 ≤ MemoryPool.INVALID)
    by (vm_compute; split; [lia | discriminate]).
  destruct (@fresh_pool_allocates_in_order OrderBookEntry.t entry_slot 3
              entry_read_write_link Hsize 3) as (Hptrs & _ & _ & Hnull); [lia|].
  split; [exact Hptrs|]. rewrite Hnull by reflexivity. reflexivity.
Defined.

Section PoolMore3.
Context {T : Type} `{PoolSlot T}.
Variable PoolSize : nat.
Hypothesis Hlink : ∀ w (v : T), 0 ≤ w < 2 ^ 32 → read_link (write_link w v) = w.
Hypothesis Hsize : (1 ≤ PoolSize)%nat ∧ Z.of_nat PoolSize ≤ MemoryPool.INVALID.

Lemma handed_out_bound (A : gset nat) :
  (∀ i, i ∈ A → (i < PoolSize)%nat) → (size A ≤ PoolSize)%nat.
Proof.
  intros HA.
  assert (Hsub : A ⊆ list_to_set (seq 0 PoolSize)).
  { intros i Hi. apply elem_of_list_to_set, elem_of_seq. specialize (HA i Hi). lia. }
  apply subseteq_size in Hsub.
  rewrite size_list_to_set, length_seq in Hsub by apply NoDup_seq. exact Hsub.
Qed.

(** X4. in every pool reached by [allocate], [deallocate] of handed-out
    slots and writes to them, [allocate] returns null exactly when all
    [PoolSize] slots are handed out; otherwise it returns a slot the pool
    owns and that is not handed out at the time. *)
Theorem allocate_fresh_or_exhausted p A :
  pool_reach PoolSize p A →
  (fst (MemoryPool.allocate p) = None ↔ MemoryPool.allocated p = MemoryPool.pool_size PoolSize)
  ∧ (∀ i, fst (MemoryPool.allocate p) = Some i →
          MemoryPool.owns PoolSize (Some i) = true ∧ i ∉ A)
  ∧ MemoryPool.owns PoolSize None = false.
Proof.
  intros Hr. apply (pool_reach_inv PoolSize Hlink Hsize) in Hr.
  destruct (pool_inv_allocate PoolSize Hlink Hsize p A Hr) as [Hinv' Hres].
  destruct Hr as (_ & Hcount & HA & _).
  unfold MemoryPool.allocated, MemoryPool.pool_size. rewrite Hcount.
  destruct (fst (MemoryPool.allocate p)) as [i|] eqn:E.
  - destruct Hres as [Hi HnA]. split_and!.
    + split; [discriminate|]. intros Hfull.
      destruct Hinv' as (_ & _ & HA' & _).
      apply handed_out_bound in HA'.
      rewrite size_union, size_singleton in HA'
        by (apply disjoint_singleton_r; exact HnA). lia.
    + intros i' [= <-]. split; [|exact HnA].
      unfold MemoryPool.owns. apply bool_decide_eq_true. exact Hi.
    + reflexivity.
  - split_and!; [split; [intros _; exact Hres | reflexivity] | discriminate | reflexivity].
Qed.

(** X5. the free list is a stack: after [deallocate(p)] and then
    [deallocate(q)], the next two [allocate] calls return [q] and then
    [p]. *)
Theorem pool_reuses_last_freed_first p A i j :
  pool_reach PoolSize p A → i ∈ A → j ∈ A → i ≠ j →
  let p2 := MemoryPool.deallocate (MemoryPool.deallocate p (Some i)) (Some j) in
  fst (MemoryPool.allocate p2) = Some j
  ∧ fst (MemoryPool.allocate (snd (MemoryPool.allocate p2))) = Some i.
Proof.
  intros Hr Hi Hj Hne p2.
  apply (pool_reach_inv PoolSize Hlink Hsize) in Hr.
  destruct Hr as (Hlen & _ & HA & _).
  pose proof (HA i Hi) as Hil. pose proof (HA j Hj) as Hjl.
  unfold MemoryPool.INVALID in *.
  assert (Hui : u32 (Z.of_nat i) = Z.of_nat i) by (unfold u32; rewrite Z.mod_small; lia).
  assert (Huj : u32 (Z.of_nat j) = Z.of_nat j) by (unfold u32; rewrite Z.mod_small; lia).
  subst p2. unfold MemoryPool.deallocate, MemoryPool.allocate.
  cbn [MemoryPool.free_head_ MemoryPool.storage_ MemoryPool.allocated_count_ fst snd].
  rewrite Hui, Huj.
  assert (Hnj : (Z.of_nat j =? 4294967295) = false) by (apply Z.eqb_neq; lia).
  assert (Hni : (Z.of_nat i =? 4294967295) = false) by (apply Z.eqb_neq; lia).
  unfold MemoryPool.INVALID. rewrite Hnj. cbn [fst snd MemoryPool.free_head_ MemoryPool.storage_].
  rewrite Nat2Z.id. split; [reflexivity|].
  rewrite (pool_slot_insert PoolSize Hsize).
  rewrite decide_True by (split; [reflexivity | rewrite length_insert; lia]).
  rewrite Hlink by lia. rewrite Hni. cbn [fst]. rewrite Nat2Z.id. reflexivity.
Qed.
End PoolMore3.

Lemma allocate_fresh_or_exhausted_witness :
  MemoryPool.owns 4 (fst (MemoryPool.allocate (MemoryPool.init (T := OrderBookEntry.t) 4)))
  = true.
Proof.
  assert (Hsize : (1 ≤ 4)%nat ∧ Z.of_nat 4 ≤ MemoryPool.INVALID)
    by (vm_compute; split; [lia | discriminate]).
  destruct (@allocate_fresh_or_exhausted OrderBookEntry.t entry_slot 4
              entry_read_write_link Hsize (MemoryPool.init 4) ∅ (reach_init 4))
    as (_ & Hown & _).
  exact (proj1 (Hown 0%nat eq_refl)).
Defined.

Lemma pool_reuses_last_freed_first_witness :
  let p2 := (allocate_many 2 (MemoryPool.init (T := OrderBookEntry.t) 4)).2 in
  let p4 := MemoryPool.deallocate (MemoryPool.deallocate p2 (Some 0%nat)) (Some 1%nat) in
  fst (MemoryPool.allocate p4) = Some 1%nat
  ∧ fst (MemoryPool.allocate (snd (MemoryPool.allocate p4))) = Some 0%nat.
Proof.
  assert (Hsize : (1 ≤ 4)%nat ∧ Z.of_nat 4 ≤ MemoryPool.INVALID)
    by (vm_compute; split; [lia | discriminate]).
  apply (@pool_reuses_last_freed_first OrderBookEntry.t entry_slot 4
           entry_read_write_link Hsize _ (∅ ∪ {[0%nat]} ∪ {[1%nat]})).
  - exact (reach_allocate 4 _ _ (reach_allocate 4 _ _ (reach_init 4))).
  - apply elem_of_union. left. apply elem_of_union. right. apply elem_of_singleton. reflexivity.
  - apply elem_of_union. right. apply elem_of_singleton. reflexivity.
  - discriminate.
Defined.

Ltac gate_cases :=
  repeat match goal with
         | |- context [if ?c then _ else _] =>
             lazymatch c with
             | decide _ => fail
             | _ => destruct c eqn:?
             end
         | |- context [match ?s with Buy => _ | Sell => _ end] => destruct s eqn:?
         end.

Lemma check_order_frame_spec m request current_market_price now :
  let r := fst (RiskManager.check_order m request current_market_price now) in
  let m' := snd (RiskManager.check_order m request current_market_price now) in
  RiskManager.limits_ m' = RiskManager.limits_ m
  ∧ RiskManager.positions_ m' = RiskManager.positions_ m
  ∧ RiskManager.kill_switch_ m' = RiskManager.kill_switch_ m
  ∧ RiskManager.peak_pnl_ m' = RiskManager.peak_pnl_ m
  ∧ RiskManager.price_deviation_threshold_ m' = RiskManager.price_deviation_threshold_ m
  ∧ RiskManager.max_drawdown_threshold_ m' = RiskManager.max_drawdown_threshold_ m
  ∧ RiskManager.checks_performed m' = u64 (RiskManager.checks_performed m + 1)
  ∧ RiskManager.checks_rejected m'
    = if decide (r = Approved) then RiskManager.checks_rejected m
      else u64 (RiskManager.checks_rejected m + 1).
Proof.
  unfold RiskManager.check_order, RiskManager.reject, RiskManager.count_in_window,
    RiskManager.checks_performed, RiskManager.checks_rejected.
  cbn [RiskManager.limits_ RiskManager.kill_switch_ RiskManager.positions_
       RiskManager.order_count_in_window_ RiskManager.price_deviation_threshold_].
  gate_cases; cbn [fst snd RiskManager.limits_ RiskManager.kill_switch_
                    RiskManager.positions_ RiskManager.peak_pnl_
                    RiskManager.price_deviation_threshold_
                    RiskManager.max_drawdown_threshold_ RiskManager.checks_performed_
                    RiskManager.checks_rejected_];
    (destruct (decide _) as [Hd|Hd];
     [try discriminate Hd | try (exfalso; apply Hd; reflexivity)]);
    split_and!; reflexivity.
Qed.

Lemma check_order_window_spec m request current_market_price now :
  let r := fst (RiskManager.check_order m request current_market_price now) in
  let m' := snd (RiskManager.check_order m request current_market_price now) in
  if decide (r = KillSwitchActive ∨ r = OrderSizeTooLarge
             ∨ r = PositionLimitBreached ∨ r = CapitalLimitBreached)
  then RiskManager.rate_window_start_ m' = RiskManager.rate_window_start_ m
       ∧ RiskManager.order_count_in_window_ m' = RiskManager.order_count_in_window_ m
  else RiskManager.rate_window_start_ m'
       = RiskManager.rate_window_start_ (RiskManager.count_in_window now m)
       ∧ RiskManager.order_count_in_window_ m'
         = RiskManager.order_count_in_window_ (RiskManager.count_in_window now m).
Proof.
  unfold RiskManager.check_order, RiskManager.reject.
  cbn [RiskManager.limits_ RiskManager.kill_switch_ RiskManager.positions_
       RiskManager.order_count_in_window_ RiskManager.price_deviation_threshold_].
  gate_cases; cbn [fst snd];
    match goal with
    | |- context [decide ?P] => destruct (decide P) as [Hd|Hd]
    end;
    try (split; reflexivity);
    try (exfalso; destruct Hd as [Hd|[Hd|[Hd|Hd]]]; discriminate Hd);
    try (exfalso; apply Hd; auto).
Qed.

Lemma check_order_approved_spec m request current_market_price now :
  fst (RiskManager.check_order m request current_market_price now) = Approved →
  let m' := snd (RiskManager.check_order m request current_market_price now) in
  let current_pos :=
    PositionTracker.position (RiskManager.positions_ m) (req_instrument request) in
  RiskManager.kill_switch_active m = false
  ∧ req_quantity request ≤ max_order_size (RiskManager.limits_ m)
  ∧ s64 (Z.abs (position_after m request))
    ≤ max_position_per_instrument (RiskManager.limits_ m)
  ∧ s64 (PositionTracker.total_absolute_position (RiskManager.positions_ m)
         + s64 (s64 (Z.abs (position_after m request)) - s64 (Z.abs current_pos)))
    ≤ max_total_position (RiskManager.limits_ m)
  ∧ PrimFloat.ltb (max_capital (RiskManager.limits_ m))
      (PrimFloat.add (PositionTracker.capital_used (RiskManager.positions_ m))
         (PrimFloat.div
            (PrimFloat.mul (double_of_Z (req_quantity request))
               (double_of_Z (req_price request)))
            (double_of_Z PRICE_SCALE)))
    = false
  ∧ RiskManager.order_count_in_window_ m' ≤ max_orders_per_second (RiskManager.limits_ m)
  ∧ (0 < current_market_price →
     PrimFloat.ltb
       (PrimFloat.mul (double_of_Z current_market_price)
          (RiskManager.price_deviation_threshold_ m))
       (double_of_Z (s64 (Z.abs (s64 (req_price request - current_market_price)))))
     = false).
Proof.
  unfold RiskManager.check_order, RiskManager.reject, RiskManager.kill_switch_active,
    position_after.
  cbn [RiskManager.limits_ RiskManager.kill_switch_ RiskManager.positions_
       RiskManager.order_count_in_window_ RiskManager.price_deviation_threshold_].
  destruct (RiskManager.kill_switch_ m) eqn:Hkill; [discriminate|].
  destruct (_ <? req_quantity request) eqn:Hsz; [discriminate|].
  apply Z.ltb_ge in Hsz.
  destruct (max_position_per_instrument _ <? _) eqn:Hpos; [discriminate|].
  apply Z.ltb_ge in Hpos.
  destruct (max_total_position _ <? _) eqn:Htot; [discriminate|].
  apply Z.ltb_ge in Htot.
  destruct (PrimFloat.ltb (max_capital _) _) eqn:Hcap; [discriminate|].
  destruct (max_orders_per_second _ <? _) eqn:Hrate; [discriminate|].
  apply Z.ltb_ge in Hrate.
  intros Hres. split_and!; try assumption; try reflexivity.
  - clear Hres. gate_cases; exact Hrate.
  - intros Hmp. apply Z.ltb_lt in Hmp. rewrite Hmp in Hres.
    match type of Hres with
    | context [if PrimFloat.ltb ?a ?b then _ else _] =>
        destruct (PrimFloat.ltb a b) eqn:E; [discriminate Hres | exact E]
    end.
Qed.

(** X6. whatever it answers, [check_order] leaves the limits, the
    position tracker, the kill switch, the peak P&L and the two thresholds
    as they were; it adds one to [checks_performed], and one to
    [checks_rejected] exactly when the answer is not [Approved]. *)
Theorem check_order_frame m request current_market_price now :
  let r := fst (RiskManager.check_order m request current_market_price now) in
  let m' := snd (RiskManager.check_order m request current_market_price now) in
  RiskManager.limits_ m' = RiskManager.limits_ m
  ∧ RiskManager.positions_ m' = RiskManager.positions_ m
  ∧ RiskManager.kill_switch_ m' = RiskManager.kill_switch_ m
  ∧ RiskManager.peak_pnl_ m' = RiskManager.peak_pnl_ m
  ∧ RiskManager.price_deviation_threshold_ m' = RiskManager.price_deviation_threshold_ m
  ∧ RiskManager.max_drawdown_threshold_ m' = RiskManager.max_drawdown_threshold_ m
  ∧ RiskManager.checks_performed m' = u64 (RiskManager.checks_performed m + 1)
  ∧ RiskManager.checks_rejected m'
    = if decide (r = Approved) then RiskManager.checks_rejected m
      else u64 (RiskManager.checks_rejected m + 1).
Proof. apply check_order_frame_spec. Qed.

(** X7. the order is counted in the rate window exactly when the first
    four checks pass: an answer of [KillSwitchActive], [OrderSizeTooLarge],
    [PositionLimitBreached] or [CapitalLimitBreached] leaves the window
    start and the in-window count alone; with any other answer the window
    has been restarted if a second had passed, and the order counted. *)
Theorem check_order_rate_window m request current_market_price now :
  let r := fst (RiskManager.check_order m request current_market_price now) in
  let m' := snd (RiskManager.check_order m request current_market_price now) in
  if decide (r = KillSwitchActive ∨ r = OrderSizeTooLarge
             ∨ r = PositionLimitBreached ∨ r = CapitalLimitBreached)
  then RiskManager.rate_window_start_ m' = RiskManager.rate_window_start_ m
       ∧ RiskManager.order_count_in_window_ m' = RiskManager.order_count_in_window_ m
  else RiskManager.rate_window_start_ m'
       = RiskManager.rate_window_start_ (RiskManager.count_in_window now m)
       ∧ RiskManager.order_count_in_window_ m'
         = RiskManager.order_count_in_window_ (RiskManager.count_in_window now m).
Proof. apply check_order_window_spec. Qed.

(** X8. an approved order has passed every check: the kill switch is
    off, the quantity is within [max_order_size], the position after the
    order and the total position are within their limits, the capital
    with the order's value does not exceed [max_capital], the order is
    within the rate of its window, and its price is within the deviation
    threshold of a positive market price. *)
Theorem approved_order_passes_every_check m request current_market_price now :
  fst (RiskManager.check_order m request current_market_price now) = Approved →
  let m' := snd (RiskManager.check_order m request current_market_price now) in
  let current_pos :=
    PositionTracker.position (RiskManager.positions_ m) (req_instrument request) in
  RiskManager.kill_switch_active m = false
  ∧ req_quantity request ≤ max_order_size (RiskManager.limits_ m)
  ∧ s64 (Z.abs (position_after m request))
    ≤ max_position_per_instrument (RiskManager.limits_ m)
  ∧ s64 (PositionTracker.total_absolute_position (RiskManager.positions_ m)
         + s64 (s64 (Z.abs (position_after m request)) - s64 (Z.abs current_pos)))
    ≤ max_total_position (RiskManager.limits_ m)
  ∧ PrimFloat.ltb (max_capital (RiskManager.limits_ m))
      (PrimFloat.add (PositionTracker.capital_used (RiskManager.positions_ m))
         (PrimFloat.div
            (PrimFloat.mul (double_of_Z (req_quantity request))
               (double_of_Z (req_price request)))
            (double_of_Z PRICE_SCALE)))
    = false
  ∧ RiskManager.order_count_in_window_ m' ≤ max_orders_per_second (RiskManager.limits_ m)
  ∧ (0 < current_market_price →
     PrimFloat.ltb
       (PrimFloat.mul (double_of_Z current_market_price)
          (RiskManager.price_deviation_threshold_ m))
       (double_of_Z (s64 (Z.abs (s64 (req_price request - current_market_price)))))
     = false).
Proof. apply check_order_approved_spec. Qed.

Lemma approved_order_passes_every_check_witness :
  req_quantity (mkOrderRequest 1 0 Buy Limit 15000 10 0 0) ≤ max_order_size test_limits.
Proof.
  pose proof (approved_order_passes_every_check
                (RiskManager.init test_limits 0)
                (mkOrderRequest 1 0 Buy Limit 15000 10 0 0) 15000 5) as Hc.
  cbv zeta in Hc. apply Hc. vm_compute. reflexivity.
Defined.

Lemma check_order_kill_switch m request current_market_price now :
  RiskManager.kill_switch_
    (snd (RiskManager.check_order m request current_market_price now))
  = RiskManager.kill_switch_ m.
Proof. apply (check_order_frame_spec m request current_market_price now). Qed.

Lemma risk_step_kill_switch m c :
  RiskManager.kill_switch_ m = true → RiskManager.kill_switch_ (risk_step m c) = true.
Proof.
  intros Hk. destruct c; cbn [risk_step]; try exact Hk; try reflexivity.
  - rewrite check_order_kill_switch. exact Hk.
  - unfold RiskManager.on_pnl_update, RiskManager.activate_kill_switch,
      RiskManager.set_kill_switch, RiskManager.set_peak_pnl.
    gate_cases; cbn; first [reflexivity | exact Hk].
Qed.

(** X9. the kill switch latches: once it is set, it stays set through
    every later [check_order], [on_pnl_update], [set_peak_pnl],
    [set_limits], [reset_rate_counter], [activate_kill_switch] call and
    every fill or mark-price update of the tracker, and every [check_order]
    of the run answers [KillSwitchActive] and is counted as rejected. *)
Theorem kill_switch_latches m cs :
  RiskManager.kill_switch_active m = true →
  RiskManager.kill_switch_active (fold_left risk_step cs m) = true
  ∧ ∀ request current_market_price now,
      fst (RiskManager.check_order (fold_left risk_step cs m)
             request current_market_price now)
      = KillSwitchActive
      ∧ RiskManager.checks_rejected
          (snd (RiskManager.check_order (fold_left risk_step cs m)
                  request current_market_price now))
        = u64 (RiskManager.checks_rejected (fold_left risk_step cs m) + 1).
Proof.
  unfold RiskManager.kill_switch_active. intros Hk.
  assert (Hrun : RiskManager.kill_switch_ (fold_left risk_step cs m) = true).
  { revert m Hk. induction cs as [|c cs IH]; intros m Hk; [exact Hk|].
    simpl. apply IH, risk_step_kill_switch, Hk. }
  split; [exact Hrun|]. intros request current_market_price now.
  unfold RiskManager.check_order. cbn [RiskManager.kill_switch_]. rewrite Hrun.
  split; reflexivity.
Qed.

Lemma kill_switch_latches_witness :
  fst (RiskManager.check_order
         (fold_left risk_step
            [OnPnlUpdate 2000; SetLimits test_limits; ResetRateCounter 7]
            (RiskManager.activate_kill_switch (RiskManager.init test_limits 0)))
         (mkOrderRequest 1 0 Buy Limit 15000 10 0 0) 15000 8)
  = KillSwitchActive.
Proof.
  apply (kill_switch_latches
           (RiskManager.activate_kill_switch (RiskManager.init test_limits 0))
           [OnPnlUpdate 2000; SetLimits test_limits; ResetRateCounter 7]).
  reflexivity.
Defined.

Lemma check_order_in_window m request current_market_price now :
  u64 (now - RiskManager.rate_window_start_ m) < RiskManager.ONE_SECOND_NS →
  0 ≤ RiskManager.order_count_in_window_ m < 2 ^ 32 - 1 →
  let r := fst (RiskManager.check_order m request current_market_price now) in
  let m' := snd (RiskManager.check_order m request current_market_price now) in
  RiskManager.rate_window_start_ m' = RiskManager.rate_window_start_ m
  ∧ RiskManager.limits_ m' = RiskManager.limits_ m
  ∧ RiskManager.order_count_in_window_ m ≤ RiskManager.order_count_in_window_ m'
    ≤ RiskManager.order_count_in_window_ m + 1
  ∧ (r = Approved →
     RiskManager.order_count_in_window_ m' = RiskManager.order_count_in_window_ m + 1
     ∧ RiskManager.order_count_in_window_ m'
       ≤ max_orders_per_second (RiskManager.limits_ m)).
Proof.
  intros Hwin Hcount r m'.
  pose proof (check_order_window_spec m request current_market_price now) as Hw.
  pose proof (check_order_frame_spec m request current_market_price now) as (Hl & _).
  pose proof (check_order_approved_spec m request current_market_price now) as Ha.
  cbv zeta in Hw, Ha. fold r m' in Hw, Ha, Hl.
  assert (Hc : RiskManager.rate_window_start_ (RiskManager.count_in_window now m)
               = RiskManager.rate_window_start_ m
               ∧ RiskManager.order_count_in_window_ (RiskManager.count_in_window now m)
                 = RiskManager.order_count_in_window_ m + 1).
  { unfold RiskManager.count_in_window.
    cbn [RiskManager.rate_window_start_ RiskManager.order_count_in_window_].
    apply Z.leb_gt in Hwin. rewrite Hwin. split; [reflexivity|].
    unfold u32. apply Z.mod_small. lia. }
  destruct Hc as [Hc1 Hc2].
  destruct (decide _) as [Hd|Hd].
  - destruct Hw as [-> ->]. split_and!; try reflexivity; try lia; [exact Hl|].
    intros Hr. rewrite Hr in Hd. destruct Hd as [Hd|[Hd|[Hd|Hd]]]; discriminate Hd.
  - destruct Hw as [-> Hw2]. rewrite Hw2, Hc1, Hc2.
    split_and!; try reflexivity; try lia; [exact Hl|].
    intros Hr. split; [reflexivity|].
    destruct (Ha Hr) as (_ & _ & _ & _ & _ & Hrate & _).
    rewrite Hw2, Hc2 in Hrate. exact Hrate.
Qed.

(** X10. while the clock stays inside one rate window, the gate approves
    at most [max_orders_per_second] orders less the ones already counted
    in the window. *)
Theorem approvals_bounded_in_window calls : ∀ m,
  (∀ c, c ∈ calls → u64 (c.2 - RiskManager.rate_window_start_ m) < RiskManager.ONE_SECOND_NS) →
  0 ≤ RiskManager.order_count_in_window_ m →
  RiskManager.order_count_in_window_ m + Z.of_nat (length calls) < 2 ^ 32 →
  approvals (fst (check_orders m calls))
  ≤ Z.max 0 (max_orders_per_second (RiskManager.limits_ m)
             - RiskManager.order_count_in_window_ m).
Proof.
  induction calls as [|[[request price] now] calls IH]; intros m Hwin H0 Hlen.
  - unfold approvals. simpl. lia.
  - cbn [check_orders length] in *.
    destruct (RiskManager.check_order m request price now) as [r m'] eqn:E.
    destruct (check_orders m' calls) as [rs m''] eqn:E'.
    pose proof (check_order_in_window m request price now) as Hstep.
    rewrite E in Hstep. cbn [fst snd] in Hstep.
    destruct Hstep as (Hstart & Hlim & Hcnt & Happ).
    { apply (Hwin (request, price, now)). left. }
    { lia. }
    specialize (IH m'). rewrite E' in IH. cbn [fst] in IH.
    rewrite Hstart, Hlim in IH.
    assert (IH' : approvals rs
                  ≤ Z.max 0 (max_orders_per_second (RiskManager.limits_ m)
                             - RiskManager.order_count_in_window_ m')).
    { apply IH; [|lia|lia]. intros c Hc. apply Hwin. right. exact Hc. }
    cbn [fst]. unfold approvals in *. rewrite filter_cons.
    destruct (decide (r = Approved)) as [Hr|Hr].
    + destruct (Happ Hr) as [Hc1 Hc2]. cbn [length]. lia.
    + lia.
Qed.

Lemma approvals_bounded_in_window_witness :
  approvals
    (fst (check_orders (RiskManager.init (mkRiskLimits 1000 5000 1000000 500 2 5 2) 0)
            [(mkOrderRequest 1 0 Buy Limit 15000 10 0 0, 15000, 5);
             (mkOrderRequest 2 0 Buy Limit 15000 10 0 0, 15000, 6);
             (mkOrderRequest 3 0 Buy Limit 15000 10 0 0, 15000, 7)]))
  ≤ 2.
Proof.
  apply (approvals_bounded_in_window
           [(mkOrderRequest 1 0 Buy Limit 15000 10 0 0, 15000, 5);
            (mkOrderRequest 2 0 Buy Limit 15000 10 0 0, 15000, 6);
            (mkOrderRequest 3 0 Buy Limit 15000 10 0 0, 15000, 7)]
           (RiskManager.init (mkRiskLimits 1000 5000 1000000 500 2 5 2) 0)).
  - intros c Hc. repeat (apply elem_of_cons in Hc as [->|Hc]; [vm_compute; reflexivity|]).
    apply elem_of_nil in Hc. contradiction.
  - vm_compute. discriminate.
  - vm_compute. reflexivity.
Defined.

Lemma s64_mod a : s64 a mod 2 ^ 64 = a mod 2 ^ 64.
Proof.
  unfold s64. rewrite <- Zminus_mod_idemp_l, Z.mod_mod by lia.
  rewrite Zminus_mod_idemp_l. f_equal. lia.
Qed.

Lemma s64_congr a b : a mod 2 ^ 64 = b mod 2 ^ 64 → s64 a = s64 b.
Proof.
  intros Hab. unfold s64. f_equal.
  rewrite <- (Zplus_mod_idemp_l a), <- (Zplus_mod_idemp_l b), Hab. reflexivity.
Qed.

Lemma s64_add_l a b : s64 (s64 a + b) = s64 (a + b).
Proof.
  apply s64_congr. rewrite <- Zplus_mod_idemp_l, s64_mod, Zplus_mod_idemp_l. reflexivity.
Qed.

Lemma s64_range a : - 2 ^ 63 ≤ s64 a < 2 ^ 63.
Proof. unfold s64. pose proof (Z.mod_pos_bound (a + 2 ^ 63) (2 ^ 64)). lia. Qed.

Lemma s64_small a : - 2 ^ 63 ≤ a < 2 ^ 63 → s64 a = a.
Proof. intros Ha. unfold s64. rewrite Z.mod_small; lia. Qed.

Lemma tracker_sized_init : tracker_sized PositionTracker.init.
Proof.
  unfold tracker_sized, PositionTracker.init.
  cbn [PositionTracker.positions_ PositionTracker.avg_prices_ PositionTracker.mark_prices_
       PositionTracker.instrument_pnl_].
  rewrite !length_replicate. auto.
Qed.

Lemma on_fill_sized p instrument side quantity price :
  tracker_sized p → tracker_sized (PositionTracker.on_fill p instrument side quantity price).
Proof.
  intros (H1 & H2 & H3 & H4). unfold PositionTracker.on_fill, tracker_sized.
  repeat match goal with
         | |- context [if ?c then _ else _] => destruct c
         | |- context [match ?s with Buy => _ | Sell => _ end] => destruct s
         end; cbn; rewrite ?length_insert; auto.
Qed.

Lemma position_on_fill p instrument side quantity price i :
  tracker_sized p → 0 ≤ instrument → 0 ≤ i →
  PositionTracker.position (PositionTracker.on_fill p instrument side quantity price) i
  = if (instrument =? i) && (i <? Z.of_nat MAX_INSTRUMENTS)
    then s64 (PositionTracker.position p i
              + match side with Buy => s64 quantity | Sell => - s64 quantity end)
    else PositionTracker.position p i.
Proof.
  intros (Hlen & _) Hins Hi. unfold PositionTracker.position, PositionTracker.on_fill.
  destruct (Z.of_nat MAX_INSTRUMENTS <=? i) eqn:Ei.
  { replace (i <? Z.of_nat MAX_INSTRUMENTS) with false
      by (symmetry; apply Z.ltb_ge, Z.leb_le, Ei).
    rewrite andb_false_r.
    repeat match goal with
           | |- context [if ?c then _ else _] => destruct c
           | |- context [match ?s with Buy => _ | Sell => _ end] => destruct s
           end; reflexivity. }
  apply Z.leb_gt in Ei.
  replace (i <? Z.of_nat MAX_INSTRUMENTS) with true by (symmetry; apply Z.ltb_lt, Ei).
  rewrite andb_true_r.
  destruct (Z.of_nat MAX_INSTRUMENTS <=? instrument) eqn:Eins.
  { apply Z.leb_le in Eins. replace (instrument =? i) with false
      by (symmetry; apply Z.eqb_neq; lia). reflexivity. }
  apply Z.leb_gt in Eins.
  destruct (instrument =? i) eqn:E; [apply Z.eqb_eq in E; subst i | apply Z.eqb_neq in E].
  - assert (Hl : (Z.to_nat instrument < length (PositionTracker.positions_ p))%nat)
      by (rewrite Hlen; lia).
    destruct side;
      repeat match goal with
             | |- context [if ?c then _ else _] => destruct c
             end; cbn [PositionTracker.positions_];
      rewrite list_lookup_insert_eq by exact Hl; cbn [default]; f_equal; lia.
  - assert (Hne : Z.to_nat instrument ≠ Z.to_nat i) by lia.
    destruct side;
      repeat match goal with
             | |- context [if ?c then _ else _] => destruct c
             end; cbn [PositionTracker.positions_];
      rewrite list_lookup_insert_ne by exact Hne; reflexivity.
Qed.

Lemma fold_apply_fill_sized fs : ∀ p,
  tracker_sized p → tracker_sized (fold_left apply_fill fs p).
Proof.
  induction fs as [|[[[i s] q] pr] fs IH]; intros p Hp; [exact Hp|].
  simpl. apply IH, on_fill_sized, Hp.
Qed.

(** X11. the position of an instrument is the running sum of its fills:
    after any sequence of [on_fill] calls on a fresh tracker,
    [position(i)] is the sum of the bought quantities less the sold ones
    of instrument [i], as a 64-bit signed value; fills of other
    instruments, and of instruments outside the arrays, do not enter
    it. *)
Theorem position_is_net_filled fs i :
  0 ≤ i < Z.of_nat MAX_INSTRUMENTS →
  (∀ f, f ∈ fs → 0 ≤ f.1.1.1) →
  PositionTracker.position (fold_left apply_fill fs PositionTracker.init) i
  = s64 (net_filled i fs).
Proof.
  intros Hi Hfs.
  assert (Hgen : ∀ fs p, tracker_sized p → (∀ f, f ∈ fs → 0 ≤ f.1.1.1) →
            s64 (PositionTracker.position p i) = PositionTracker.position p i →
            PositionTracker.position (fold_left apply_fill fs p) i
            = s64 (PositionTracker.position p i + net_filled i fs)).
  { clear fs Hfs. induction fs as [|[[[j s] q] pr] fs IH]; intros p Hp Hfs Hr.
    { cbn [fold_left net_filled fold_right]. rewrite Z.add_0_r, Hr. reflexivity. }
    cbn [fold_left apply_fill].
    assert (Hj : 0 ≤ j) by (apply (Hfs (j, s, q, pr)); left).
    assert (Hfs' : ∀ f, f ∈ fs → 0 ≤ f.1.1.1) by (intros f Hf; apply Hfs; right; exact Hf).
    pose proof (position_on_fill p j s q pr i Hp Hj ltac:(lia)) as Hstep.
    replace (i <? Z.of_nat MAX_INSTRUMENTS) with true in Hstep
      by (symmetry; apply Z.ltb_lt; lia).
    rewrite andb_true_r in Hstep.
    rewrite (IH _ (on_fill_sized p j s q pr Hp) Hfs').
    - rewrite Hstep. cbn [net_filled fold_right signed_fill].
      fold (net_filled i fs).
      destruct (j =? i).
      + rewrite s64_add_l. f_equal; lia.
      + f_equal; lia.
    - rewrite Hstep. destruct (j =? i); [|exact Hr].
      apply s64_small, s64_range. }
  rewrite (Hgen fs PositionTracker.init tracker_sized_init Hfs).
  - f_equal. unfold PositionTracker.position, PositionTracker.init.
    cbn [PositionTracker.positions_].
    replace (Z.of_nat MAX_INSTRUMENTS <=? i) with false by (symmetry; apply Z.leb_gt; lia).
    rewrite lookup_replicate_2 by lia. reflexivity.
  - unfold PositionTracker.position, PositionTracker.init.
    cbn [PositionTracker.positions_].
    replace (Z.of_nat MAX_INSTRUMENTS <=? i) with false by (symmetry; apply Z.leb_gt; lia).
    rewrite lookup_replicate_2 by lia. reflexivity.
Qed.

Lemma position_is_net_filled_witness :
  PositionTracker.position
    (fold_left apply_fill [(0, Buy, 100, 15000); (1, Sell, 50, 28000); (0, Sell, 30, 15100)]
       PositionTracker.init) 0
  = 70.
Proof.
  rewrite position_is_net_filled.
  - reflexivity.
  - vm_compute. split; [discriminate | reflexivity].
  - intros f Hf. repeat (apply elem_of_cons in Hf as [->|Hf]; [simpl; lia|]).
    apply elem_of_nil in Hf. contradiction.
Defined.

(** X12. a fill changes nothing of the other instruments and no mark
    price; with an instrument outside the arrays it changes nothing at
    all. *)
Theorem on_fill_touches_one_instrument p instrument side quantity price :
  tracker_sized p → 0 ≤ instrument →
  let p' := PositionTracker.on_fill p instrument side quantity price in
  (∀ j, 0 ≤ j → j ≠ instrument →
        PositionTracker.position p' j = PositionTracker.position p j
        ∧ PositionTracker.avg_price p' j = PositionTracker.avg_price p j
        ∧ PositionTracker.instrument_pnl_ p' !! Z.to_nat j
          = PositionTracker.instrument_pnl_ p !! Z.to_nat j)
  ∧ PositionTracker.mark_prices_ p' = PositionTracker.mark_prices_ p
  ∧ (Z.of_nat MAX_INSTRUMENTS ≤ instrument → p' = p).
Proof.
  intros Hp Hins p'. split_and!.
  - intros j Hj Hne. split_and!.
    + unfold p'. rewrite position_on_fill by (assumption || lia).
      replace (instrument =? j) with false by (symmetry; apply Z.eqb_neq; lia).
      reflexivity.
    + unfold p', PositionTracker.avg_price, PositionTracker.on_fill.
      assert (Hn : Z.to_nat instrument ≠ Z.to_nat j) by lia.
      repeat match goal with
             | |- context [if ?c then _ else _] => destruct c
             | |- context [match ?s with Buy => _ | Sell => _ end] => destruct s
             end; cbn [PositionTracker.avg_prices_];
        rewrite ?list_lookup_insert_ne by exact Hn; reflexivity.
    + unfold p', PositionTracker.on_fill.
      assert (Hn : Z.to_nat instrument ≠ Z.to_nat j) by lia.
      repeat match goal with
             | |- context [if ?c then _ else _] => destruct c
             | |- context [match ?s with Buy => _ | Sell => _ end] => destruct s
             end; cbn [PositionTracker.instrument_pnl_];
        rewrite ?list_lookup_insert_ne by exact Hn; reflexivity.
  - unfold p', PositionTracker.on_fill.
    repeat match goal with
           | |- context [if ?c then _ else _] => destruct c
           | |- context [match ?s with Buy => _ | Sell => _ end] => destruct s
           end; reflexivity.
  - intros Hout. unfold p', PositionTracker.on_fill.
    apply Z.leb_le in Hout. rewrite Hout. reflexivity.
Qed.

Lemma on_fill_touches_one_instrument_witness :
  PositionTracker.position
    (PositionTracker.on_fill PositionTracker.init 3 Buy 100 15000) 4 = 0.
Proof.
  destruct (on_fill_touches_one_instrument PositionTracker.init 3 Buy 100 15000)
    as (Hother & _).
  - unfold tracker_sized, PositionTracker.init.
    cbn [PositionTracker.positions_ PositionTracker.avg_prices_ PositionTracker.mark_prices_
         PositionTracker.instrument_pnl_].
    rewrite !length_replicate. auto.
  - lia.
  - destruct (Hother 4) as (Hpos & _); [lia | lia |]. rewrite Hpos. reflexivity.
Defined.

Lemma s64_zero a : - 2 ^ 64 < a < 2 ^ 64 → s64 a = 0 → a = 0.
Proof.
  unfold s64. intros Ha Hz.
  destruct (Z_lt_dec a (- 2 ^ 63)) as [Hlo|Hlo].
  - replace (a + 2 ^ 63) with (a + 2 ^ 64 + 2 ^ 63 + -1 * 2 ^ 64) in Hz by lia.
    rewrite Z.mod_add, Z.mod_small in Hz; lia.
  - destruct (Z_lt_dec a (2 ^ 63)) as [Hhi|Hhi].
    + rewrite Z.mod_small in Hz; lia.
    + replace (a + 2 ^ 63) with (a - 2 ^ 63 + 1 * 2 ^ 64) in Hz by lia.
      rewrite Z.mod_add, Z.mod_small in Hz; lia.
Qed.

Lemma on_fill_flat_is_clean p instrument side quantity price :
  tracker_sized p → 0 ≤ instrument → 0 ≤ quantity < 2 ^ 63 →
  flat_is_clean p →
  flat_is_clean (PositionTracker.on_fill p instrument side quantity price).
Proof.
  intros (Hl1 & Hl2 & _) Hins Hq Hinv. unfold PositionTracker.on_fill.
  destruct (Z.of_nat MAX_INSTRUMENTS <=? instrument) eqn:Eins; [exact Hinv|].
  apply Z.leb_gt in Eins.
  set (i := Z.to_nat instrument).
  assert (Hi1 : (i < length (PositionTracker.positions_ p))%nat) by (rewrite Hl1; lia).
  assert (Hi2 : (i < length (PositionTracker.avg_prices_ p))%nat) by (rewrite Hl2; lia).
  destruct (lookup_lt_is_Some_2 _ _ Hi1) as [pos Hpos].
  destruct (lookup_lt_is_Some_2 _ _ Hi2) as [avg Havg].
  destruct (Hinv i pos avg Hpos Havg) as [Hrange Hflat].
  rewrite Hpos, Havg. cbn [default from_option id].
  rewrite (s64_small quantity) by lia.
  assert (Hstep : ∀ pos' avg' ipnl rpnl,
            - 2 ^ 63 ≤ pos' < 2 ^ 63 → (pos' = 0 → avg' = 0%float) →
            flat_is_clean
              (PositionTracker.mk (<[i := pos']> (PositionTracker.positions_ p))
                 (<[i := avg']> (PositionTracker.avg_prices_ p))
                 (PositionTracker.mark_prices_ p) ipnl rpnl)).
  { intros pos' avg' ipnl rpnl Hr Hf k pk ak.
    cbn [PositionTracker.positions_ PositionTracker.avg_prices_].
    destruct (decide (k = i)) as [->|Hk].
    - rewrite !list_lookup_insert_eq by assumption. intros [= <-] [= <-]. auto.
    - rewrite !list_lookup_insert_ne by congruence. apply Hinv. }
  destruct side.
  - destruct (0 <=? pos) eqn:E; [apply Z.leb_le in E | apply Z.leb_gt in E];
      apply Hstep; try apply s64_range.
    + intros Hz. apply s64_zero in Hz; [|lia].
      replace (0 <? s64 (pos + quantity)) with false
        by (symmetry; apply Z.ltb_ge; rewrite s64_small; lia).
      apply Hflat. lia.
    + intros Hz. rewrite Hz. reflexivity.
  - destruct (pos <=? 0) eqn:E; [apply Z.leb_le in E | apply Z.leb_gt in E];
      apply Hstep; try apply s64_range.
    + intros Hz. apply s64_zero in Hz; [|lia].
      replace (s64 (pos - quantity) <? 0) with false
        by (symmetry; apply Z.ltb_ge; rewrite s64_small; lia).
      apply Hflat. lia.
    + intros Hz. rewrite Hz. reflexivity.
Qed.

(** X13. an instrument without a position has no average price: after
    any sequence of fills of quantities below 2^63 on a fresh tracker,
    [avg_price(i)] is 0.0 whenever [position(i)] is 0. *)
Theorem flat_position_has_no_average fs i :
  (∀ f, f ∈ fs → 0 ≤ f.1.1.1 ∧ 0 ≤ f.1.2 < 2 ^ 63) →
  0 ≤ i →
  PositionTracker.position (fold_left apply_fill fs PositionTracker.init) i = 0 →
  PositionTracker.avg_price (fold_left apply_fill fs PositionTracker.init) i = 0%float.
Proof.
  intros Hfs Hi.
  assert (Hgen : ∀ fs p, (∀ f, f ∈ fs → 0 ≤ f.1.1.1 ∧ 0 ≤ f.1.2 < 2 ^ 63) →
            tracker_sized p → flat_is_clean p →
            tracker_sized (fold_left apply_fill fs p)
            ∧ flat_is_clean (fold_left apply_fill fs p)).
  { clear. induction fs as [|[[[j s] q] pr] fs IH]; intros p Hfs Hp Hc; [auto|].
    cbn [fold_left apply_fill].
    destruct (Hfs (j, s, q, pr)) as [Hj Hq]; [left|]. cbn in Hj, Hq.
    apply IH.
    - intros f Hf. apply Hfs. right. exact Hf.
    - apply on_fill_sized, Hp.
    - apply on_fill_flat_is_clean; assumption. }
  destruct (Hgen fs PositionTracker.init Hfs tracker_sized_init) as [(Hl1 & Hl2 & _) Hclean].
  { intros k pos avg. unfold PositionTracker.init.
    cbn [PositionTracker.positions_ PositionTracker.avg_prices_].
    intros [-> _]%lookup_replicate [-> _]%lookup_replicate. split; [lia | auto]. }
  unfold PositionTracker.position, PositionTracker.avg_price.
  destruct (Z.of_nat MAX_INSTRUMENTS <=? i) eqn:E; [reflexivity|].
  apply Z.leb_gt in E.
  set (p := fold_left apply_fill fs PositionTracker.init) in *.
  assert (Hi1 : (Z.to_nat i < length (PositionTracker.positions_ p))%nat) by (rewrite Hl1; lia).
  assert (Hi2 : (Z.to_nat i < length (PositionTracker.avg_prices_ p))%nat) by (rewrite Hl2; lia).
  destruct (lookup_lt_is_Some_2 _ _ Hi1) as [pos Hpos].
  destruct (lookup_lt_is_Some_2 _ _ Hi2) as [avg Havg].
  rewrite Hpos, Havg. cbn [default from_option id]. intros Hz.
  apply (Hclean _ _ _ Hpos Havg). exact Hz.
Qed.

Lemma flat_position_has_no_average_witness :
  PositionTracker.avg_price
    (fold_left apply_fill [(0, Buy, 100, 15000); (0, Sell, 100, 15100)] PositionTracker.init) 0
  = 0%float.
Proof.
  apply flat_position_has_no_average.
  - intros f Hf. repeat (apply elem_of_cons in Hf as [->|Hf]; [simpl; lia|]).
    apply elem_of_nil in Hf. contradiction.
  - lia.
  - vm_compute. reflexivity.
Defined.

Lemma unrealized_loop_unmarked ps : ∀ marks avgs pnl,
  Forall (fun m => m = 0) marks →
  PositionTracker.unrealized_loop ps marks avgs pnl = pnl.
Proof.
  induction ps as [|pos ps IH]; intros marks avgs pnl Hm; [reflexivity|].
  destruct marks as [|mark marks]; [reflexivity|].
  destruct avgs as [|avg avgs]; [reflexivity|].
  apply Forall_cons in Hm as [-> Hm]. cbn [PositionTracker.unrealized_loop].
  rewrite Z.eqb_refl, andb_false_r. apply IH, Hm.
Qed.

Lemma fold_apply_fill_marks fs : ∀ p,
  PositionTracker.mark_prices_ (fold_left apply_fill fs p) = PositionTracker.mark_prices_ p.
Proof.
  induction fs as [|[[[j s] q] pr] fs IH]; intros p; [reflexivity|].
  cbn [fold_left apply_fill]. rewrite IH.
  unfold PositionTracker.on_fill.
  repeat match goal with
         | |- context [if ?c then _ else _] => destruct c
         | |- context [match ?s with Buy => _ | Sell => _ end] => destruct s
         end; reflexivity.
Qed.

(** X14. until a mark price is set, nothing is unrealized: after any
    sequence of fills on a fresh tracker, [unrealized_pnl()] is 0.0 and
    [total_pnl()] is [realized_pnl() + 0.0]. *)
Theorem unmarked_tracker_has_no_unrealized_pnl fs :
  PositionTracker.unrealized_pnl (fold_left apply_fill fs PositionTracker.init) = 0%float
  ∧ PositionTracker.total_pnl (fold_left apply_fill fs PositionTracker.init)
    = PrimFloat.add
        (PositionTracker.realized_pnl (fold_left apply_fill fs PositionTracker.init)) 0.
Proof.
  assert (Hu : PositionTracker.unrealized_pnl (fold_left apply_fill fs PositionTracker.init)
               = 0%float).
  { unfold PositionTracker.unrealized_pnl. apply unrealized_loop_unmarked.
    rewrite fold_apply_fill_marks. unfold PositionTracker.init.
    cbn [PositionTracker.mark_prices_]. apply Forall_replicate. reflexivity. }
  split; [exact Hu|]. unfold PositionTracker.total_pnl. rewrite Hu. reflexivity.
Qed.

(** ** The order book: the trade buffer, the id map, the levels *)







Lemma remove_from_book_orders b entry :
  OrderBook.orders_ (OrderBook.remove_from_book b entry) = OrderBook.orders_ b.
Proof.
  unfold OrderBook.remove_from_book, OrderBook.update_best_bid, OrderBook.update_best_ask.
  destruct (OrderBookEntry.side _);
    destruct (PriceMap.find _ _) as [level|];
    try destruct (PriceLevel.remove_order _ _ _) as [m level'];
    cbn [OrderBook.bids_ OrderBook.asks_];
    repeat match goal with
           | |- context [match ?l with [] => _ | _ :: _ => _ end] => destruct l as [|[? ?] ?]
           | |- context [if ?c then _ else _] => destruct c
           end; reflexivity.
Qed.

(** X16. [cancel_order] returns [true] exactly for an id the book knows;
    the id is then unknown to the book, [order_count()] is one less, and
    the other ids are known as before.  For an id it does not know it
    returns [false] and leaves the book as it is: cancelling twice returns
    [true], then [false]. *)
Theorem cancel_order_forgets_the_id b id :
  (snd (OrderBook.cancel_order b id) = true ↔ is_Some (OrderBook.orders_ b !! id))
  ∧ OrderBook.orders_ (fst (OrderBook.cancel_order b id)) !! id = None
  ∧ (∀ id', id' ≠ id →
            OrderBook.orders_ (fst (OrderBook.cancel_order b id)) !! id'
            = OrderBook.orders_ b !! id')
  ∧ (snd (OrderBook.cancel_order b id) = true →
     OrderBook.order_count (fst (OrderBook.cancel_order b id)) = OrderBook.order_count b - 1)
  ∧ (snd (OrderBook.cancel_order b id) = false → fst (OrderBook.cancel_order b id) = b)
  ∧ snd (OrderBook.cancel_order (fst (OrderBook.cancel_order b id)) id) = false.
Proof.
  assert (Hgone : OrderBook.orders_ (fst (OrderBook.cancel_order b id)) !! id = None).
  { unfold OrderBook.cancel_order.
    destruct (OrderBook.orders_ b !! id) as [entry|] eqn:Hid; [|exact Hid].
    cbn [fst OrderBook.release OrderBook.orders_]. apply lookup_delete_eq. }
  unfold OrderBook.order_count.
  split_and!; try exact Hgone.
  - unfold OrderBook.cancel_order.
    destruct (OrderBook.orders_ b !! id) as [entry|]; cbn [snd].
    + split; [eauto | reflexivity].
    + split; [discriminate | intros [x Hx]; discriminate Hx].
  - intros id' Hne. unfold OrderBook.cancel_order.
    destruct (OrderBook.orders_ b !! id) as [entry|]; [|reflexivity].
    cbn [fst OrderBook.release OrderBook.orders_].
    rewrite lookup_delete_ne by congruence.
    rewrite remove_from_book_orders. reflexivity.
  - unfold OrderBook.cancel_order.
    destruct (OrderBook.orders_ b !! id) as [entry|] eqn:Hid; [|discriminate].
    intros _. cbn [fst OrderBook.release OrderBook.orders_].
    rewrite remove_from_book_orders. cbn [OrderBook.set_entry_status OrderBook.orders_].
    rewrite map_size_delete, Hid.
    pose proof (map_size_non_empty_iff (OrderBook.orders_ b)) as Hne.
    assert (size (OrderBook.orders_ b) ≠ 0)%nat.
    { apply Hne. intros He. rewrite He, lookup_empty in Hid. discriminate. }
    lia.
  - unfold OrderBook.cancel_order.
    destruct (OrderBook.orders_ b !! id) as [entry|]; [discriminate | reflexivity].
  - revert Hgone. generalize (fst (OrderBook.cancel_order b id)). intros b' Hb'.
    unfold OrderBook.cancel_order. rewrite Hb'. reflexivity.
Qed.

Lemma thinned_length m m' : thinned m m' → (length m' ≤ length m)%nat.
Proof. induction 1; simpl; lia. Qed.

Lemma add_order_walk b id side type price quantity timestamp :
  pool_head_ok b →
  MemoryPool.free_head_ (OrderBook.pool_ b) ≠ MemoryPool.INVALID →
  ∃ entry b1 b2 trades1,
    OrderBook.add_order b id side type price quantity timestamp
    = OrderBook.match_order b1 entry
    ∧ same_levels b b1
    ∧ OrderBook.instrument_ b1 = OrderBook.instrument_ b
    ∧ OrderBook.deref (OrderBook.pool_ b1) entry
      = OrderBookEntry.mk id (OrderBook.instrument_ b) side type New price quantity
          0 timestamp None None
    ∧ first_walk b1 entry = (b2, trades1)
    ∧ OrderBookEntry.type (OrderBook.deref (OrderBook.pool_ b2) entry) = type
    ∧ OrderBookEntry.side (OrderBook.deref (OrderBook.pool_ b2) entry) = side
    ∧ OrderBookEntry.price (OrderBook.deref (OrderBook.pool_ b2) entry) = price.
Proof.
  intros Hok Hroom. unfold OrderBook.add_order, MemoryPool.allocate.
  apply Z.eqb_neq in Hroom. rewrite Hroom.
  match goal with |- context [OrderBook.match_order ?x ?e] => set (b1 := x); set (entry := e) end.
  destruct (first_walk b1 entry) as [b2 trades1] eqn:Hwalk.
  exists entry, b1, b2, trades1.
  assert (He : OrderBook.deref (OrderBook.pool_ b1) entry
               = OrderBookEntry.mk id (OrderBook.instrument_ b) side type New price quantity
                   0 timestamp None None).
  { destruct Hok as [Hinv|Hlt]; [apply Z.eqb_neq in Hroom; contradiction|].
    unfold OrderBook.deref. subst b1. simpl. rewrite slot_insert.
    apply decide_True. split; [reflexivity | exact Hlt]. }
  apply first_walk_spec in Hwalk as Hspec. destruct Hspec as [Hst _].
  destruct (Hst entry) as (Hs & Ht & Hp). fold (OrderBook.deref (OrderBook.pool_ b1) entry) in *.
  fold (OrderBook.deref (OrderBook.pool_ b2) entry) in *.
  rewrite He in Hs, Ht, Hp. cbn in Hs, Ht, Hp.
  split_and!; try reflexivity; try assumption.
  unfold same_levels. subst b1. simpl. tauto.
Qed.

(** X17. only a limit order can rest: [add_order] with a market, IOC or
    FOK order creates no price level; every price of the book after the
    call was a price of that side before it, and neither side has more
    levels than before. *)
Theorem only_limit_orders_rest b id side type price quantity timestamp :
  pool_head_ok b → type ≠ Limit →
  let b' := fst (OrderBook.add_order b id side type price quantity timestamp) in
  (∀ k, k ∈ PriceMap.keys (OrderBook.bids_ b') → k ∈ PriceMap.keys (OrderBook.bids_ b))
  ∧ (∀ k, k ∈ PriceMap.keys (OrderBook.asks_ b') → k ∈ PriceMap.keys (OrderBook.asks_ b))
  ∧ OrderBook.bid_level_count b' ≤ OrderBook.bid_level_count b
  ∧ OrderBook.ask_level_count b' ≤ OrderBook.ask_level_count b.
Proof.
  intros Hok Htype b'.
  assert (Hth : thinned (OrderBook.bids_ b) (OrderBook.bids_ b')
                ∧ thinned (OrderBook.asks_ b) (OrderBook.asks_ b')).
  { subst b'.
    destruct (Z.eq_dec (MemoryPool.free_head_ (OrderBook.pool_ b)) MemoryPool.INVALID)
      as [Hfull|Hroom].
    { unfold OrderBook.add_order, MemoryPool.allocate.
      apply Z.eqb_eq in Hfull. rewrite Hfull. split; apply thinned_refl. }
    destruct (add_order_walk b id side type price quantity timestamp Hok Hroom)
      as (entry & b1 & b2 & trades1 & -> & Hsame & _ & He & Hwalk & Ht & _).
    destruct (OrderBook.match_order b1 entry) as [b3 trades] eqn:Hm. cbn [fst].
    apply match_order_cases in Hm as (b2' & trades1' & Hwalk' & Hcase).
    rewrite Hwalk in Hwalk'. injection Hwalk' as <- <-.
    destruct Hcase as [Hs|(Hlim & _)]; [|congruence].
    apply first_walk_spec in Hwalk as [_ Hside]. rewrite He in Hside. cbn in Hside.
    destruct Hsame as (Hb1 & Ha1 & _). destruct Hs as (Hb3 & Ha3 & _).
    rewrite Hb3, Ha3, <- Hb1, <- Ha1.
    destruct side.
    - destruct Hside as (-> & Hth & _). split; [apply thinned_refl | exact Hth].
    - destruct Hside as (-> & Hth & _). split; [exact Hth | apply thinned_refl]. }
  destruct Hth as [Hb Ha]. unfold OrderBook.bid_level_count, OrderBook.ask_level_count.
  split_and!.
  - intros k. apply thinned_keys, Hb.
  - intros k. apply thinned_keys, Ha.
  - apply thinned_length in Hb. lia.
  - apply thinned_length in Ha. lia.
Qed.

Lemma only_limit_orders_rest_witness :
  OrderBook.ask_level_count
    (fst (OrderBook.add_order seed_sell_50 2 Buy IOC 10000 100 2))
  ≤ OrderBook.ask_level_count seed_sell_50.
Proof.
  apply (only_limit_orders_rest seed_sell_50 2 Buy IOC 10000 100 2).
  - right. apply Nat.ltb_lt. vm_compute. reflexivity.
  - discriminate.
Defined.

Lemma match_against_no_match (limit : bool) side_of instrument entry levels w :
  OrderBook.w_trades w = [] →
  finds_no_match levels
    (OrderBookEntry.side (OrderBook.deref (OrderBook.w_pool w) entry))
    (if limit then Limit else Market)
    (OrderBookEntry.price (OrderBook.deref (OrderBook.w_pool w) entry)) →
  OrderBook.match_against limit side_of instrument entry levels w = (levels, w).
Proof.
  intros Hno Hnm. destruct levels as [|[k level] rest]; [reflexivity|].
  cbn [OrderBook.match_against]. unfold OrderBook.trade_count. rewrite Hno.
  cbn [length negb]. change (Z.of_nat 0 <? OrderBook.MAX_TRADES_PER_MATCH) with true.
  cbn [negb]. destruct Hnm as [Hlim Hun].
  destruct limit; [|contradiction]. cbn [andb].
  destruct (OrderBookEntry.side _) eqn:Hside; cbn [unmarketable] in Hun.
  - rewrite bool_decide_eq_true_2 by reflexivity.
    apply Z.ltb_lt in Hun. rewrite Hun. reflexivity.
  - rewrite bool_decide_eq_false_2 by discriminate. cbn [andb].
    rewrite bool_decide_eq_true_2 by reflexivity.
    apply Z.ltb_lt in Hun. rewrite Hun. reflexivity.
Qed.

Lemma first_walk_no_match b entry :
  finds_no_match
    (opposite_levels b (OrderBookEntry.side (OrderBook.deref (OrderBook.pool_ b) entry)))
    (OrderBookEntry.side (OrderBook.deref (OrderBook.pool_ b) entry))
    (OrderBookEntry.type (OrderBook.deref (OrderBook.pool_ b) entry))
    (OrderBookEntry.price (OrderBook.deref (OrderBook.pool_ b) entry)) →
  first_walk b entry
  = (match OrderBookEntry.side (OrderBook.deref (OrderBook.pool_ b) entry) with
     | Buy => OrderBook.update_best_ask b
     | Sell => OrderBook.update_best_bid b
     end, []).
Proof.
  intros Hnm. unfold first_walk, OrderBook.try_match_market, OrderBook.try_match_limit,
    OrderBook.walk_asks, OrderBook.walk_bids.
  destruct b as [ins pool bids asks orders bb ba bbq baq].
  cbn [OrderBook.pool_ OrderBook.bids_ OrderBook.asks_ OrderBook.orders_
       OrderBook.instrument_ OrderBook.best_bid_ OrderBook.best_ask_
       OrderBook.best_bid_qty_ OrderBook.best_ask_qty_ opposite_levels] in *.
  assert (Hm : ∀ (limit : bool) side_of levels,
            finds_no_match levels
              (OrderBookEntry.side (OrderBook.deref pool entry))
              (if limit then Limit else Market)
              (OrderBookEntry.price (OrderBook.deref pool entry)) →
            OrderBook.match_against limit side_of ins entry levels
              (OrderBook.mkWalk pool orders [])
            = (levels, OrderBook.mkWalk pool orders [])).
  { intros limit side_of levels H. apply match_against_no_match; [reflexivity | exact H]. }
  assert (Hweak : ∀ levels s t p,
            finds_no_match levels s t p → t ≠ Market → finds_no_match levels s Limit p).
  { intros [|[k l] r] s t p H Ht; [exact I|]. destruct H as [_ H]. split; [discriminate | exact H]. }
  assert (Hmkt : ∀ levels s p,
            finds_no_match levels s Market p → finds_no_match levels s Market p ∧ levels = []).
  { intros [|[k l] r] s p H; [auto|]. destruct H as [H _]. contradiction. }
  destruct (OrderBookEntry.type (OrderBook.deref pool entry)) eqn:Ht,
           (OrderBookEntry.side (OrderBook.deref pool entry)) eqn:Hs;
    cbn [opposite_levels] in Hnm;
    try (apply Hweak in Hnm; [|discriminate]);
    try (apply Hmkt in Hnm as [Hnm ->]);
    rewrite Hm by exact Hnm; reflexivity.
Qed.

Lemma set_entry_status_fields s entry b i :
  same_order_fields (OrderBook.deref (OrderBook.pool_ b) i)
    (OrderBook.deref (OrderBook.pool_ (OrderBook.set_entry_status s entry b)) i).
Proof.
  unfold OrderBook.set_entry_status, OrderBook.deref, OrderBook.mem, OrderBook.with_mem.
  cbn [OrderBook.pool_ MemoryPool.storage_].
  apply poke_stable, keeps_set_status.
Qed.

Lemma unmatched_order_spec b id side type price quantity timestamp :
  pool_head_ok b →
  MemoryPool.free_head_ (OrderBook.pool_ b) ≠ MemoryPool.INVALID →
  finds_no_match (opposite_levels b side) side type price →
  let r := OrderBook.add_order b id side type price quantity timestamp in
  snd r = []
  ∧ opposite_levels (fst r) side = opposite_levels b side
  ∧ if decide (type = Limit ∧ u64 quantity ≠ 0)
    then ∀ k, k ∈ PriceMap.keys (own_levels (fst r) side)
              ↔ k = price ∨ k ∈ PriceMap.keys (own_levels b side)
    else own_levels (fst r) side = own_levels b side.
Proof.
  intros Hok Hroom Hnm r. subst r.
  destruct (add_order_walk b id side type price quantity timestamp Hok Hroom)
    as (entry & b1 & b2 & trades1 & -> & Hsame & _ & He & _).
  destruct Hsame as (Hb1 & Ha1 & _).
  assert (Hopp : opposite_levels b1 side = opposite_levels b side)
    by (destruct side; assumption).
  assert (Hown : own_levels b1 side = own_levels b side)
    by (destruct side; assumption).
  pose proof (first_walk_no_match b1 entry) as Hwalk.
  rewrite He in Hwalk.
  cbn [OrderBookEntry.side OrderBookEntry.type OrderBookEntry.price] in Hwalk.
  rewrite Hopp in Hwalk. specialize (Hwalk Hnm).
  set (b2' := match side with
              | Buy => OrderBook.update_best_ask b1
              | Sell => OrderBook.update_best_bid b1
              end) in *.
  assert (Hpool : OrderBook.pool_ b2' = OrderBook.pool_ b1).
  { subst b2'. destruct side;
      [apply (update_best_ask_spec b1) | apply (update_best_bid_spec b1)]. }
  assert (Hopp2 : opposite_levels b2' side = opposite_levels b side).
  { rewrite <- Hopp. subst b2'. destruct side; cbn [opposite_levels];
      [apply (update_best_ask_spec b1) | apply (update_best_bid_spec b1)]. }
  assert (Hown2 : own_levels b2' side = own_levels b side).
  { rewrite <- Hown. subst b2'. destruct side; cbn [own_levels];
      [apply (update_best_ask_spec b1) | apply (update_best_bid_spec b1)]. }
  unfold OrderBook.match_order. fold (first_walk b1 entry). rewrite Hwalk.
  rewrite Hpool, He.
  cbn [OrderBookEntry.type length Z.of_nat]. rewrite Z.ltb_irrefl, andb_false_r.
  unfold OrderBook.remaining_of.
  cbn [OrderBookEntry.quantity OrderBookEntry.filled_quantity]. rewrite Z.sub_0_r.
  assert (Hdiscard : ∀ s,
            opposite_levels (OrderBook.discard entry (OrderBook.set_entry_status s entry b2'))
              side = opposite_levels b side
            ∧ own_levels (OrderBook.discard entry (OrderBook.set_entry_status s entry b2'))
                side = own_levels b side).
  { intros s. rewrite <- Hopp2, <- Hown2. destruct side; split; reflexivity. }
  assert (Hu : 0 ≤ u64 quantity) by (unfold u64; apply Z.mod_pos_bound; lia).
  destruct (0 <? u64 quantity) eqn:Hrem;
    [apply Z.ltb_lt in Hrem | apply Z.ltb_ge in Hrem].
  - destruct type; cbn [fst snd].
    + (* Limit: rests *)
      change (0 <? 0) with false. cbv iota.
      split; [reflexivity|].
      rewrite decide_True by (split; [reflexivity | lia]).
      set (bX := OrderBook.set_entry_status New entry b2').
      destruct (set_entry_status_fields New entry b2' entry) as (HsX & _ & HpX).
      fold bX in HsX, HpX. rewrite Hpool, He in HsX, HpX.
      cbn [OrderBookEntry.side OrderBookEntry.price] in HsX, HpX.
      assert (HoppX : opposite_levels bX side = opposite_levels b side)
        by (rewrite <- Hopp2; destruct side; reflexivity).
      assert (HownX : own_levels bX side = own_levels b side)
        by (rewrite <- Hown2; destruct side; reflexivity).
      destruct side; cbn [opposite_levels own_levels] in *.
      * destruct (add_to_book_buy bX entry HsX) as (Hasks & Hkeys & _).
        rewrite HpX in Hkeys. split; [etrans; [exact Hasks | exact HoppX]|].
        intros k. rewrite Hkeys, (keys_at_key Z.gtb), HownX. reflexivity.
      * destruct (add_to_book_sell bX entry HsX) as (Hbids & Hkeys & _).
        rewrite HpX in Hkeys. split; [etrans; [exact Hbids | exact HoppX]|].
        intros k. rewrite Hkeys, (keys_at_key Z.ltb), HownX. reflexivity.
    + split; [reflexivity|]. rewrite decide_False by (intros [? _]; discriminate).
      apply Hdiscard.
    + split; [reflexivity|]. rewrite decide_False by (intros [? _]; discriminate).
      apply Hdiscard.
    + split; [reflexivity|]. rewrite decide_False by (intros [? _]; discriminate).
      split; assumption.
  - cbn [fst snd]. split; [reflexivity|].
    rewrite decide_False by (intros [_ ?]; lia). apply Hdiscard.
Qed.

(** X18. an order that finds nothing to trade with records no trade and
    leaves the other side of the book as it is.  A limit order of nonzero
    quantity then rests if the pool has a free slot: its price is a price
    of its own side after the call, beside the prices that side had.  Any
    other order, and every order when the pool is exhausted, leaves its
    own side unchanged as well; on an exhausted pool the order is dropped
    and the book is as it was. *)
Theorem unmatched_order_does_not_trade b id side type price quantity timestamp :
  pool_head_ok b →
  finds_no_match (opposite_levels b side) side type price →
  let r := OrderBook.add_order b id side type price quantity timestamp in
  snd r = []
  ∧ opposite_levels (fst r) side = opposite_levels b side
  ∧ (if decide (type = Limit ∧ u64 quantity ≠ 0
                ∧ MemoryPool.free_head_ (OrderBook.pool_ b) ≠ MemoryPool.INVALID)
     then ∀ k, k ∈ PriceMap.keys (own_levels (fst r) side)
               ↔ k = price ∨ k ∈ PriceMap.keys (own_levels b side)
     else own_levels (fst r) side = own_levels b side)
  ∧ (MemoryPool.free_head_ (OrderBook.pool_ b) = MemoryPool.INVALID → fst r = b).
Proof.
  intros Hok Hnm r.
  destruct (decide (MemoryPool.free_head_ (OrderBook.pool_ b) = MemoryPool.INVALID))
    as [Hfull|Hroom].
  - assert (Hr : r = (b, [])).
    { subst r. unfold OrderBook.add_order, MemoryPool.allocate.
      rewrite Hfull, Z.eqb_refl. reflexivity. }
    rewrite Hr. cbn [fst snd]. split_and!; [reflexivity | reflexivity | | reflexivity].
    rewrite decide_False by (intros (_ & _ & H); contradiction). reflexivity.
  - destruct (unmatched_order_spec b id side type price quantity timestamp Hok Hroom Hnm)
      as (Htrades & Hopp & Hown).
    fold r in Htrades, Hopp, Hown.
    split_and!; [exact Htrades | exact Hopp | | intros H; contradiction].
    destruct (decide (type = Limit ∧ u64 quantity ≠ 0)) as [[Ht Hq]|Hno].
    + rewrite decide_True by auto. exact Hown.
    + rewrite decide_False by (intros (Ht & Hq & _); apply Hno; auto). exact Hown.
Qed.

Lemma unmatched_order_does_not_trade_witness :
  snd (OrderBook.add_order seed_sell_50 2 Buy Limit 9900 10 2) = []
  ∧ 9900 ∈ PriceMap.keys
             (own_levels (fst (OrderBook.add_order seed_sell_50 2 Buy Limit 9900 10 2)) Buy).
Proof.
  destruct (unmatched_order_does_not_trade seed_sell_50 2 Buy Limit 9900 10 2)
    as (Htrades & _ & Hrest & _).
  - right. apply Nat.ltb_lt. vm_compute. reflexivity.
  - vm_compute. split; [discriminate | reflexivity].
  - split; [exact Htrades|].
    rewrite decide_True in Hrest
      by (split_and!; [reflexivity | vm_compute; discriminate | vm_compute; discriminate]).
    apply (Hrest 9900). left. reflexivity.
Defined.

(** ** No empty level is left in the book *)



















(** ** Depth and spread *)

Lemma fill_depth_spec n : ∀ levels i entries count,
  (i + length (take n levels) ≤ length entries)%nat →
  OrderBook.fill_depth i n levels entries count
  = (take i entries ++ map depth_entry_of (take n levels)
       ++ drop (i + length (take n levels)) entries,
     match take n levels with
     | [] => count
     | _ => Z.of_nat (i + length (take n levels))
     end).
Proof.
  induction n as [|n IH]; intros levels i entries count Hlen.
  - rewrite take_0. cbn [OrderBook.fill_depth map length app].
    rewrite Nat.add_0_r, take_drop. reflexivity.
  - destruct levels as [|[k level] rest].
    + rewrite take_nil. cbn [OrderBook.fill_depth map length app].
      rewrite Nat.add_0_r, take_drop. reflexivity.
    + rewrite firstn_cons in *. cbn [OrderBook.fill_depth length] in *.
      rewrite IH by (rewrite length_insert; lia).
      assert (Hi : (i < length entries)%nat) by lia.
      rewrite (take_S_r (<[i:=_]> entries) i
                 (OrderBook.mkDepthEntry k (PriceLevel.total_quantity level)
                    (PriceLevel.order_count level)))
        by (apply list_lookup_insert_eq; exact Hi).
      rewrite take_insert_ge by lia.
      rewrite drop_insert_lt by lia.
      rewrite <- app_assoc. cbn [map app depth_entry_of fst snd].
      replace (S i + length (take n rest))%nat with (i + S (length (take n rest)))%nat by lia.
      f_equal.
      destruct (take n rest); [cbn [length]; lia | reflexivity].
Qed.

(** X20. [get_depth] writes the first [max_levels] levels of each side,
    best price first, with each level's price, [total_quantity] and
    [order_count], into the front of the caller's arrays and leaves the
    rest of the arrays alone.  The value it returns is the number of bid
    levels written, the smaller of [max_levels] and [bid_level_count()],
    whatever the number of ask levels written. *)
Theorem get_depth_reports_top_levels b bid_entries ask_entries max_levels :
  0 ≤ max_levels →
  max_levels ≤ Z.of_nat (length bid_entries) →
  max_levels ≤ Z.of_nat (length ask_entries) →
  let n := Z.to_nat max_levels in
  OrderBook.get_depth b bid_entries ask_entries max_levels
  = (Z.min max_levels (OrderBook.bid_level_count b),
     map depth_entry_of (take n (OrderBook.bids_ b))
       ++ drop (length (take n (OrderBook.bids_ b))) bid_entries,
     map depth_entry_of (take n (OrderBook.asks_ b))
       ++ drop (length (take n (OrderBook.asks_ b))) ask_entries).
Proof.
  intros H0 Hb Ha n. unfold OrderBook.get_depth. fold n.
  rewrite !fill_depth_spec by (rewrite length_take; lia).
  rewrite !take_0. cbn [app Nat.add]. unfold OrderBook.bid_level_count.
  assert (Hc : match take n (OrderBook.bids_ b) with
               | [] => 0
               | _ :: _ => Z.of_nat (length (take n (OrderBook.bids_ b)))
               end
               = Z.min max_levels (Z.of_nat (length (OrderBook.bids_ b)))).
  { destruct (take n (OrderBook.bids_ b)) eqn:Ht.
    - apply (f_equal length) in Ht. rewrite length_take in Ht. cbn [length] in Ht. lia.
    - rewrite <- Ht, length_take. lia. }
  rewrite Hc. reflexivity.
Qed.

Lemma get_depth_reports_top_levels_witness :
  fst (fst (OrderBook.get_depth three_sells
              (replicate 5 (OrderBook.mkDepthEntry 0 0 0))
              (replicate 5 (OrderBook.mkDepthEntry 0 0 0)) 5))
  = 0
  ∧ take 2 (snd (OrderBook.get_depth three_sells
                   (replicate 5 (OrderBook.mkDepthEntry 0 0 0))
                   (replicate 5 (OrderBook.mkDepthEntry 0 0 0)) 5))
    = [OrderBook.mkDepthEntry 9900 20 1; OrderBook.mkDepthEntry 10000 80 2].
Proof.
  rewrite get_depth_reports_top_levels by (vm_compute; discriminate).
  split; vm_compute; reflexivity.
Defined.

(** X21. [spread()] is 0 while a side of the book is empty.  In a book
    whose cached best prices are those of its first levels, it is the
    lowest ask price less the highest bid price when that difference is a
    64-bit value, and it is positive when the book is not crossed. *)
Theorem spread_is_best_ask_less_best_bid b :
  synced b →
  (OrderBook.bids_ b = [] ∨ OrderBook.asks_ b = [] → OrderBook.spread b = 0)
  ∧ (∀ kb ka,
       is_max kb (PriceMap.keys (OrderBook.bids_ b)) →
       is_min ka (PriceMap.keys (OrderBook.asks_ b)) →
       - 2 ^ 63 ≤ ka - kb < 2 ^ 63 →
       OrderBook.spread b = ka - kb
       ∧ (no_cross b → 0 < OrderBook.spread b)).
Proof.
  intros Hs. apply synced_sound in Hs as ((Hob & Hoa & _) & [Hbid Hask] & _).
  split.
  - unfold OrderBook.spread. intros [->| ->]; [reflexivity|].
    destruct (OrderBook.bids_ b); reflexivity.
  - intros kb ka [Hkb Hmax] [Hka Hmin] Hrange.
    unfold bid_price_ok in Hbid. unfold ask_price_ok in Hask.
    unfold OrderBook.spread.
    destruct (OrderBook.bids_ b) as [|[kb0 lb] rb] eqn:Eb;
      [apply elem_of_nil in Hkb; contradiction|].
    destruct (OrderBook.asks_ b) as [|[ka0 la] ra] eqn:Ea;
      [apply elem_of_nil in Hka; contradiction|].
    cbn [PriceMap.keys map fst] in *.
    pose proof (ordered_head_max _ kb0 (PriceMap.keys rb) Hob eq_refl) as Hb0.
    pose proof (ordered_head_min _ ka0 (PriceMap.keys ra) Hoa eq_refl) as Ha0.
    assert (Hkb0 : kb0 = kb).
    { pose proof (Hb0 kb Hkb). pose proof (Hmax kb0 ltac:(left)). lia. }
    assert (Hka0 : ka0 = ka).
    { pose proof (Ha0 ka Hka). pose proof (Hmin ka0 ltac:(left)). lia. }
    rewrite Hbid, Hask, Hkb0, Hka0. rewrite s64_small by lia.
    split; [reflexivity|].
    intros Hnc. specialize (Hnc kb ka). rewrite Eb, Ea in Hnc.
    cbn [PriceMap.keys map fst] in Hnc. rewrite Hkb0, Hka0 in Hnc.
    specialize (Hnc ltac:(left) ltac:(left)). lia.
Qed.

Lemma spread_is_best_ask_less_best_bid_witness :
  OrderBook.spread
    (fst (OrderBook.add_order
            (fst (OrderBook.add_order (OrderBook.init 0) 1 Buy Limit 10000 100 1))
            2 Sell Limit 10100 100 2))
  = 10100 - 10000.
Proof.
  set (b := fst (OrderBook.add_order
                   (fst (OrderBook.add_order (OrderBook.init 0) 1 Buy Limit 10000 100 1))
                   2 Sell Limit 10100 100 2)).
  assert (Hs : synced b).
  { apply synced_add; [apply synced_add; [apply synced_init|]|];
      vm_compute; (split; split; intros H; discriminate H || reflexivity). }
  assert (Hb : PriceMap.keys (OrderBook.bids_ b) = [10000]) by (vm_compute; reflexivity).
  assert (Ha : PriceMap.keys (OrderBook.asks_ b) = [10100]) by (vm_compute; reflexivity).
  destruct (spread_is_best_ask_less_best_bid b Hs) as [_ H].
  destruct (H 10000 10100) as [Hspread _].
  - rewrite Hb. split; [apply list_elem_of_singleton; reflexivity|].
    intros k' ->%list_elem_of_singleton. lia.
  - rewrite Ha. split; [apply list_elem_of_singleton; reflexivity|].
    intros k' ->%list_elem_of_singleton. lia.
  - lia.
  - exact Hspread.
Defined.

(** ** Unlinking an order from the middle of a level *)

(** The slab after [x], [r] and the entries [ys] behind [r] have been
    relinked around [r]. *)
Lemma dlinked_cut mem ys : ∀ xs before_p p x r mem',
  dlinked mem before_p p (xs ++ x :: r :: ys) →
  NoDup (xs ++ x :: r :: ys) →
  length mem' = length mem →
  MemoryPool.slot mem' x
  = OrderBookEntry.set_next (head ys) (MemoryPool.slot mem x) →
  (∀ n, head ys = Some n →
        MemoryPool.slot mem' n
        = OrderBookEntry.set_prev (Some x) (MemoryPool.slot mem n)) →
  (∀ i, i ≠ x → i ≠ r → head ys ≠ Some i →
        MemoryPool.slot mem' i = MemoryPool.slot mem i) →
  dlinked mem' before_p p (xs ++ x :: ys).
Proof.
  induction xs as [|x0 xs IH]; intros before_p p x r mem' Hl Hnd Hlen Hx Hn Hother.
  - cbn [app] in *. destruct Hl as (-> & Hxl & Hxprev & Hl).
    destruct Hl as (Hxnext & Hrl & Hrprev & Hl).
    apply NoDup_cons in Hnd as [Hx_notin Hnd].
    apply NoDup_cons in Hnd as [Hr_notin Hnd].
    cbn [dlinked]. rewrite Hlen, Hx.
    split_and!; [reflexivity | exact Hxl | exact Hxprev |].
    cbn [OrderBookEntry.next OrderBookEntry.set_next].
    destruct ys as [|n ys]; [reflexivity|].
    cbn [head] in *. destruct Hl as (Hrnext & Hnl & Hnprev & Hl).
    apply NoDup_cons in Hnd as [Hn_notin Hnd].
    cbn [dlinked]. rewrite Hlen, (Hn n eq_refl).
    split_and!; [reflexivity | exact Hnl | reflexivity |].
    cbn [OrderBookEntry.next OrderBookEntry.set_prev].
    apply (dlinked_frame mem); [exact Hlen | | exact Hl].
    intros j Hj. apply Hother.
    + intros ->. apply Hx_notin. right. right. exact Hj.
    + intros ->. apply Hr_notin. right. exact Hj.
    + intros [= ->]. apply Hn_notin, Hj.
  - cbn [app] in *. destruct Hl as (-> & Hx0l & Hx0prev & Hl).
    apply NoDup_cons in Hnd as [Hx0_notin Hnd].
    assert (Hslot : MemoryPool.slot mem' x0 = MemoryPool.slot mem x0).
    { apply Hother.
      - intros ->. apply Hx0_notin, elem_of_app. right. left.
      - intros ->. apply Hx0_notin, elem_of_app. right. right. left.
      - destruct ys as [|n ys]; [discriminate|]. intros [= ->].
        apply Hx0_notin, elem_of_app. right. right. right. left. }
    cbn [dlinked]. rewrite Hlen, Hslot.
    split_and!; [reflexivity | exact Hx0l | exact Hx0prev |].
    apply (IH _ _ x r); assumption.
Qed.

Lemma dlinked_middle mem xs : ∀ before_p p r ys,
  dlinked mem before_p p (xs ++ r :: ys) →
  (r < length mem)%nat
  ∧ OrderBookEntry.prev (MemoryPool.slot mem r)
    = match last xs with Some x => Some x | None => before_p end
  ∧ OrderBookEntry.next (MemoryPool.slot mem r) = head ys
  ∧ (∀ n, head ys = Some n → (n < length mem)%nat)
  ∧ (∀ x, last xs = Some x → (x < length mem)%nat).
Proof.
  induction xs as [|x0 xs IH]; intros before_p p r ys Hl.
  - cbn [app last] in *. destruct Hl as (-> & Hrl & Hprev & Hl).
    split_and!; [exact Hrl | exact Hprev | | | discriminate].
    + destruct ys as [|n ys]; [exact Hl | apply Hl].
    + intros n Hn. destruct ys as [|n' ys]; [discriminate|]. injection Hn as ->. apply Hl.
  - cbn [app] in Hl. destruct Hl as (-> & Hx0l & _ & Hl).
    destruct (IH _ _ _ _ Hl) as (Hrl & Hprev & Hnext & Hn & Hx).
    split_and!; [exact Hrl | | exact Hnext | exact Hn |].
    + rewrite Hprev, last_cons. destruct (last xs); reflexivity.
    + intros x. rewrite last_cons. destruct (last xs) as [y|] eqn:E.
      * intros [= <-]. apply Hx. reflexivity.
      * intros [= <-]. exact Hx0l.
Qed.

Lemma last_app_cons {A} (xs : list A) y ys : last (xs ++ y :: ys) = last (y :: ys).
Proof.
  induction xs as [|x xs IH]; [reflexivity|].
  cbn [app]. rewrite last_cons, IH, last_cons. destruct (last ys); reflexivity.
Qed.

Lemma remove_order_keeps_the_queue_spec mem l xs r ys :
  level_queue mem l (xs ++ r :: ys) →
  level_queue (PriceLevel.remove_order mem l r).1 (PriceLevel.remove_order mem l r).2
    (xs ++ ys)
  ∧ PriceLevel.order_count (PriceLevel.remove_order mem l r).2
    = u32 (PriceLevel.order_count l - 1)
  ∧ OrderBookEntry.prev (MemoryPool.slot (PriceLevel.remove_order mem l r).1 r) = None
  ∧ OrderBookEntry.next (MemoryPool.slot (PriceLevel.remove_order mem l r).1 r) = None.
Proof.
  intros Hq. pose proof Hq as (Hl & Htail & Hnd).
  destruct (dlinked_middle _ _ _ _ _ _ Hl) as (Hrl & Hprev & Hnext & Hnl & Hxl).
  assert (Hcount : PriceLevel.order_count (PriceLevel.remove_order mem l r).2
                   = u32 (PriceLevel.order_count l - 1)).
  { unfold PriceLevel.remove_order.
    repeat match goal with
           | |- context [match ?o with Some _ => _ | None => _ end] => destruct o
           end; reflexivity. }
  assert (Hlinks : OrderBookEntry.prev (MemoryPool.slot (PriceLevel.remove_order mem l r).1 r)
                   = None
                   ∧ OrderBookEntry.next
                       (MemoryPool.slot (PriceLevel.remove_order mem l r).1 r) = None).
  { unfold PriceLevel.remove_order.
    repeat match goal with
           | |- context [match ?o with Some _ => _ | None => _ end] => destruct o
           end; cbn [fst];
      rewrite slot_poke_eq by (rewrite !poke_length; exact Hrl);
      rewrite slot_poke_eq by (rewrite ?poke_length; exact Hrl);
      split; reflexivity. }
  split; [|split; [exact Hcount | exact Hlinks]].
  destruct xs as [|x xs _] using rev_ind.
  { apply remove_front_queue. exact Hq. }
  rewrite <- app_assoc in *. cbn [app] in *.
  rewrite last_snoc in Hprev. specialize (Hxl x (last_snoc _ _)).
  assert (Hxr : x ≠ r).
  { intros ->. apply NoDup_app in Hnd as (_ & _ & Hnd).
    apply NoDup_cons in Hnd as [Hn _]. apply Hn. left. }
  unfold PriceLevel.remove_order, level_queue. rewrite Hprev.
  rewrite (slot_poke_ne x) by exact Hxr. rewrite Hnext.
  destruct ys as [|n ys]; cbn [head fst snd PriceLevel.head PriceLevel.tail].
  - split_and!.
    + apply (dlinked_cut mem [] xs _ _ x r); try assumption.
      * rewrite !poke_length. reflexivity.
      * rewrite !(slot_poke_ne r) by congruence.
        rewrite slot_poke_eq by exact Hxl. reflexivity.
      * intros n Hn. discriminate Hn.
      * intros i Hix Hir _. rewrite !(slot_poke_ne r) by congruence.
        rewrite slot_poke_ne by congruence. reflexivity.
    + rewrite Hprev. symmetry. apply last_snoc.
    + apply NoDup_app in Hnd as (Hnd1 & Hdis & Hnd2).
      apply NoDup_app. split_and!; [exact Hnd1 | | apply NoDup_singleton].
      intros i Hi ->%list_elem_of_singleton. apply (Hdis x Hi). left.
  - specialize (Hnl n eq_refl).
    assert (Hnr : n ≠ r).
    { intros ->. apply NoDup_app in Hnd as (_ & _ & Hnd).
      apply NoDup_cons in Hnd as [_ Hnd]. apply NoDup_cons in Hnd as [Hn _].
      apply Hn. left. }
    assert (Hnx : n ≠ x).
    { intros ->. apply NoDup_app in Hnd as (_ & _ & Hnd).
      apply NoDup_cons in Hnd as [Hn _]. apply Hn. right. left. }
    split_and!.
    + apply (dlinked_cut mem (n :: ys) xs _ _ x r); try assumption.
      * rewrite !poke_length. reflexivity.
      * rewrite !(slot_poke_ne r) by congruence.
        rewrite slot_poke_ne by exact Hnx.
        rewrite slot_poke_eq by exact Hxl. reflexivity.
      * intros n' [= <-]. rewrite !(slot_poke_ne r) by congruence.
        rewrite slot_poke_eq by (rewrite poke_length; exact Hnl).
        rewrite slot_poke_ne by congruence. rewrite Hprev. reflexivity.
      * intros i Hix Hir Hin.
        assert (Hni : n ≠ i) by (intros ->; apply Hin; reflexivity).
        rewrite !(slot_poke_ne r) by congruence.
        rewrite !slot_poke_ne by congruence. reflexivity.
    + rewrite Htail, !last_app_cons. rewrite !last_cons. destruct (last ys); reflexivity.
    + apply NoDup_app in Hnd as (Hnd1 & Hdis & Hnd2).
      apply NoDup_cons in Hnd2 as [Hx2 Hnd2]. apply NoDup_cons in Hnd2 as [Hr2 Hnd2].
      apply NoDup_app. split_and!; [exact Hnd1 | |].
      * intros i Hi Hi'. apply (Hdis i Hi).
        apply elem_of_cons in Hi' as [->|Hi']; [left | right; right; exact Hi'].
      * apply NoDup_cons. split; [|exact Hnd2].
        intros Hx3. apply Hx2. right. exact Hx3.
Qed.

(** X22. [PriceLevel::remove_order] unlinks exactly the entry it is
    given: the orders before it and behind it stay in the level in their
    order, the removed entry's links are null, and [order_count] is one
    less. *)
Theorem remove_order_keeps_the_queue mem l xs r ys :
  level_queue mem l (xs ++ r :: ys) →
  level_queue (PriceLevel.remove_order mem l r).1 (PriceLevel.remove_order mem l r).2
    (xs ++ ys)
  ∧ PriceLevel.order_count (PriceLevel.remove_order mem l r).2
    = u32 (PriceLevel.order_count l - 1)
  ∧ OrderBookEntry.prev (MemoryPool.slot (PriceLevel.remove_order mem l r).1 r) = None
  ∧ OrderBookEntry.next (MemoryPool.slot (PriceLevel.remove_order mem l r).1 r) = None.
Proof. apply remove_order_keeps_the_queue_spec. Qed.

Lemma remove_order_keeps_the_queue_witness :
  level_queue
    (PriceLevel.remove_order three_in_a_level.1 three_in_a_level.2 1).1
    (PriceLevel.remove_order three_in_a_level.1 three_in_a_level.2 1).2
    [0; 2]%nat.
Proof.
  apply (remove_order_keeps_the_queue three_in_a_level.1 three_in_a_level.2 [0%nat] 1%nat
           [2%nat]).
  unfold level_queue. split_and!.
  - vm_compute. repeat split; lia.
  - vm_compute. reflexivity.
  - repeat (apply NoDup_cons; split;
            [intros Hin; repeat (apply elem_of_cons in Hin as [Hin|Hin]; [discriminate Hin|]);
             apply elem_of_nil in Hin; exact Hin|]).
    apply NoDup_nil. exact I.
Defined.

(** ** The rate limiter of the execution engine *)

(** X23. inside one rate window the engine lets exactly the first
    [max_orders_per_sec_ - c] orders through, [c] being the number already
    let through in the window, and throttles every later one. *)
Theorem rate_limiter_admits_up_to_the_limit nows : ∀ e,
  (∀ now, now ∈ nows →
          u64 (now - ExecutionEngine.rate_window_start_ e) < ExecutionEngine.ONE_SECOND_NS) →
  0 ≤ ExecutionEngine.orders_in_window_ e ≤ ExecutionEngine.max_orders_per_sec_ e →
  ExecutionEngine.max_orders_per_sec_ e < 2 ^ 32 →
  let room :=
    Z.to_nat (ExecutionEngine.max_orders_per_sec_ e - ExecutionEngine.orders_in_window_ e) in
  fst (check_rate_limits e nows)
  = replicate (min (length nows) room) true ++ replicate (length nows - room) false.
Proof.
  induction nows as [|now nows IH]; intros e Hwin Hcount Hmax room; [reflexivity|].
  cbn [check_rate_limits]. unfold ExecutionEngine.check_rate_limit.
  assert (Hnow : (ExecutionEngine.ONE_SECOND_NS
                  <=? u64 (now - ExecutionEngine.rate_window_start_ e)) = false).
  { apply Z.leb_gt, Hwin. left. }
  rewrite Hnow. cbv beta zeta iota.
  assert (Hrest : ∀ now', now' ∈ nows →
            u64 (now' - ExecutionEngine.rate_window_start_ e)
            < ExecutionEngine.ONE_SECOND_NS).
  { intros now' Hin. apply Hwin. right. exact Hin. }
  destruct (ExecutionEngine.max_orders_per_sec_ e <=? ExecutionEngine.orders_in_window_ e)
    eqn:Hfull; [apply Z.leb_le in Hfull | apply Z.leb_gt in Hfull].
  - specialize (IH (ExecutionEngine.mk (ExecutionEngine.max_orders_per_sec_ e)
                      (ExecutionEngine.rate_window_start_ e)
                      (ExecutionEngine.orders_in_window_ e)) Hrest Hcount Hmax).
    cbn [ExecutionEngine.max_orders_per_sec_ ExecutionEngine.orders_in_window_] in IH.
    destruct (check_rate_limits _ nows) as [oks e'']. cbn [fst] in *. cbv zeta in IH.
    rewrite IH.
    subst room. replace (Z.to_nat _) with 0%nat by lia.
    rewrite !Nat.min_0_r, !Nat.sub_0_r. reflexivity.
  - assert (Hu : u32 (ExecutionEngine.orders_in_window_ e + 1)
                 = ExecutionEngine.orders_in_window_ e + 1)
      by (unfold u32; apply Z.mod_small; lia).
    specialize (IH (ExecutionEngine.mk (ExecutionEngine.max_orders_per_sec_ e)
                      (ExecutionEngine.rate_window_start_ e)
                      (u32 (ExecutionEngine.orders_in_window_ e + 1))) Hrest).
    cbn [ExecutionEngine.max_orders_per_sec_ ExecutionEngine.orders_in_window_] in IH.
    rewrite Hu in IH |- *. specialize (IH ltac:(lia) Hmax).
    destruct (check_rate_limits _ nows) as [oks e'']. cbn [fst] in *. cbv zeta in IH.
    rewrite IH.
    subst room.
    replace (Z.to_nat (ExecutionEngine.max_orders_per_sec_ e
                       - ExecutionEngine.orders_in_window_ e))
      with (S (Z.to_nat (ExecutionEngine.max_orders_per_sec_ e
                         - (ExecutionEngine.orders_in_window_ e + 1)))) by lia.
    cbn [length]. rewrite <- Nat.succ_min_distr. cbn [replicate app Nat.sub]. reflexivity.
Qed.

Lemma rate_limiter_admits_up_to_the_limit_witness :
  fst (check_rate_limits (ExecutionEngine.set_rate_limit ExecutionEngine.init 2) [5; 6; 7; 8])
  = [true; true; false; false].
Proof.
  rewrite rate_limiter_admits_up_to_the_limit.
  - reflexivity.
  - intros now Hin. repeat (apply elem_of_cons in Hin as [->|Hin]; [vm_compute; reflexivity|]).
    apply elem_of_nil in Hin. contradiction.
  - vm_compute. split; discriminate.
  - reflexivity.
Defined.

(** ** The gate and the tracker together *)

Lemma risk_step_thresholds m c : thresholds_in_step m → thresholds_in_step (risk_step m c).
Proof.
  unfold thresholds_in_step. intros [Hp Hd]. destruct c; cbn [risk_step].
  - destruct (check_order_frame_spec m request current_market_price now)
      as (-> & _ & _ & _ & -> & -> & _). auto.
  - unfold RiskManager.on_pnl_update, RiskManager.activate_kill_switch,
      RiskManager.set_kill_switch, RiskManager.set_peak_pnl.
    repeat match goal with |- context [if ?c then _ else _] => destruct c end; cbn; auto.
  - cbn. auto.
  - cbn. auto.
  - cbn. auto.
  - cbn. auto.
  - cbn. auto.
  - cbn. auto.
Qed.

(** X24. the precomputed thresholds follow the limits: after the
    constructor and any sequence of calls, among them [set_limits], the
    threshold of the fat-finger check is [max_price_deviation_pct / 100]
    and that of the drawdown check [max_drawdown_pct / 100] of the limits
    in force. *)
Theorem thresholds_follow_the_limits limits now cs :
  let m := fold_left risk_step cs (RiskManager.init limits now) in
  RiskManager.price_deviation_threshold_ m
  = PrimFloat.div (max_price_deviation_pct (RiskManager.limits_ m)) 100
  ∧ RiskManager.max_drawdown_threshold_ m
    = PrimFloat.div (max_drawdown_pct (RiskManager.limits_ m)) 100.
Proof.
  intros m. subst m. change (thresholds_in_step
                               (fold_left risk_step cs (RiskManager.init limits now))).
  assert (H0 : thresholds_in_step (RiskManager.init limits now))
    by (split; reflexivity).
  revert H0. generalize (RiskManager.init limits now).
  induction cs as [|c cs IH]; intros m Hm; [exact Hm|].
  cbn [fold_left]. apply IH, risk_step_thresholds, Hm.
Qed.

Lemma on_fill_positions p instrument side quantity price :
  0 ≤ instrument < Z.of_nat MAX_INSTRUMENTS →
  PositionTracker.positions_ (PositionTracker.on_fill p instrument side quantity price)
  = <[Z.to_nat instrument :=
        s64 (default 0 (PositionTracker.positions_ p !! Z.to_nat instrument)
             + match side with Buy => s64 quantity | Sell => - s64 quantity end)]>
      (PositionTracker.positions_ p).
Proof.
  intros Hi. unfold PositionTracker.on_fill.
  replace (Z.of_nat MAX_INSTRUMENTS <=? instrument) with false
    by (symmetry; apply Z.leb_gt; lia).
  destruct side;
    repeat match goal with |- context [if ?c then _ else _] => destruct c end;
    cbn [PositionTracker.positions_]; f_equal; f_equal; lia.
Qed.

Lemma total_fold_norm l : ∀ acc,
  s64 acc = acc →
  s64 (fold_left (fun total pos => s64 (total + s64 (Z.abs pos))) l acc)
  = fold_left (fun total pos => s64 (total + s64 (Z.abs pos))) l acc.
Proof.
  induction l as [|a l IH]; intros acc Hacc; [exact Hacc|].
  cbn [fold_left]. apply IH. apply s64_small, s64_range.
Qed.

Lemma total_fold_sum l : ∀ acc,
  s64 (fold_left (fun total pos => s64 (total + s64 (Z.abs pos))) l acc)
  = s64 (acc + fold_right (fun pos s => s64 (Z.abs pos) + s) 0 l).
Proof.
  induction l as [|a l IH]; intros acc.
  - cbn [fold_left fold_right]. rewrite Z.add_0_r. reflexivity.
  - cbn [fold_left fold_right]. rewrite IH, s64_add_l. f_equal. lia.
Qed.

Lemma sum_insert (g : Z → Z) l : ∀ i x cur,
  l !! i = Some cur →
  fold_right (fun pos s => g pos + s) 0 (<[i := x]> l)
  = fold_right (fun pos s => g pos + s) 0 l - g cur + g x.
Proof.
  induction l as [|a l IH]; intros i x cur Hi; [discriminate Hi|].
  destruct i as [|i].
  - injection Hi as ->. cbn [fold_right]. simpl. lia.
  - cbn [fold_right]. simpl. rewrite (IH i x cur Hi). lia.
Qed.

Lemma gate_position_spec m request price :
  tracker_sized (RiskManager.positions_ m) →
  0 ≤ req_instrument request < Z.of_nat MAX_INSTRUMENTS →
  let filled :=
    PositionTracker.on_fill (RiskManager.positions_ m) (req_instrument request)
      (req_side request) (req_quantity request) price in
  let current_pos :=
    PositionTracker.position (RiskManager.positions_ m) (req_instrument request) in
  PositionTracker.position filled (req_instrument request) = position_after m request
  ∧ PositionTracker.total_absolute_position filled
    = s64 (PositionTracker.total_absolute_position (RiskManager.positions_ m)
           + s64 (s64 (Z.abs (position_after m request)) - s64 (Z.abs current_pos))).
Proof.
  intros Hp Hi filled current_pos.
  assert (Hpos : PositionTracker.position filled (req_instrument request)
                 = position_after m request).
  { subst filled. rewrite position_on_fill by (assumption || lia).
    rewrite Z.eqb_refl.
    replace (req_instrument request <? Z.of_nat MAX_INSTRUMENTS) with true
      by (symmetry; apply Z.ltb_lt; lia).
    cbn [andb]. unfold position_after. destruct (req_side request); f_equal; lia. }
  split; [exact Hpos|].
  destruct Hp as (Hlen & _).
  set (i := Z.to_nat (req_instrument request)).
  assert (Hil : (i < length (PositionTracker.positions_ (RiskManager.positions_ m)))%nat)
    by (rewrite Hlen; subst i; lia).
  destruct (lookup_lt_is_Some_2 _ _ Hil) as [cur Hcur].
  assert (Hcurrent : current_pos = cur).
  { subst current_pos. unfold PositionTracker.position.
    replace (Z.of_nat MAX_INSTRUMENTS <=? req_instrument request) with false
      by (symmetry; apply Z.leb_gt; lia).
    fold i. rewrite Hcur. reflexivity. }
  assert (Hnew : PositionTracker.positions_ filled
                 = <[i := position_after m request]>
                     (PositionTracker.positions_ (RiskManager.positions_ m))).
  { subst filled. rewrite on_fill_positions by lia. fold i. rewrite Hcur.
    cbn [default from_option id]. f_equal. unfold position_after.
    fold current_pos. rewrite Hcurrent. destruct (req_side request); f_equal; lia. }
  unfold PositionTracker.total_absolute_position. rewrite Hnew.
  rewrite !firstn_all2 by (rewrite ?length_insert, Hlen; lia).
  rewrite <- total_fold_norm by reflexivity.
  rewrite total_fold_sum, (sum_insert (fun pos => s64 (Z.abs pos)) _ _ _ _ Hcur).
  rewrite <- (total_fold_norm (PositionTracker.positions_ _) 0) by reflexivity.
  rewrite total_fold_sum, Hcurrent. cbn [Z.add].
  apply s64_congr.
  rewrite <- (Zplus_mod_idemp_l (s64 _)), <- (Zplus_mod_idemp_r (s64 _)).
  rewrite !s64_mod. rewrite Zplus_mod_idemp_l, Zplus_mod_idemp_r. f_equal. lia.
Qed.

(** X25. the positions the gate checks are those the tracker will have:
    for an instrument inside the arrays, the position [check_order]
    computes for after the order is [position()] after [on_fill] of the
    order's instrument, side and quantity, at any price, and the total it
    compares with [max_total_position] is [total_absolute_position()]
    after that fill.  So once an approved order is filled in full, the
    position of its instrument is within [max_position_per_instrument] and
    the total position within [max_total_position]. *)
Theorem gate_position_is_tracker_position m request current_market_price now price :
  tracker_sized (RiskManager.positions_ m) →
  0 ≤ req_instrument request < Z.of_nat MAX_INSTRUMENTS →
  let filled :=
    PositionTracker.on_fill (RiskManager.positions_ m) (req_instrument request)
      (req_side request) (req_quantity request) price in
  let current_pos :=
    PositionTracker.position (RiskManager.positions_ m) (req_instrument request) in
  PositionTracker.position filled (req_instrument request) = position_after m request
  ∧ PositionTracker.total_absolute_position filled
    = s64 (PositionTracker.total_absolute_position (RiskManager.positions_ m)
           + s64 (s64 (Z.abs (position_after m request)) - s64 (Z.abs current_pos)))
  ∧ (fst (RiskManager.check_order m request current_market_price now) = Approved →
     s64 (Z.abs (PositionTracker.position filled (req_instrument request)))
     ≤ max_position_per_instrument (RiskManager.limits_ m)
     ∧ PositionTracker.total_absolute_position filled
       ≤ max_total_position (RiskManager.limits_ m)).
Proof.
  intros Hp Hi filled current_pos.
  destruct (gate_position_spec m request price Hp Hi) as [Hpos Htot].
  fold filled in Hpos, Htot. fold current_pos in Htot.
  split_and!; [exact Hpos | exact Htot |].
  intros Hok.
  destruct (check_order_approved_spec m request current_market_price now Hok)
    as (_ & _ & Hposlim & Htotlim & _).
  fold current_pos in Htotlim.
  rewrite Hpos, Htot. split; assumption.
Qed.

Lemma gate_position_is_tracker_position_witness :
  s64 (Z.abs (PositionTracker.position
                (PositionTracker.on_fill PositionTracker.init 0 Buy 10 15000) 0))
  ≤ max_position_per_instrument test_limits.
Proof.
  pose proof (gate_position_is_tracker_position (RiskManager.init test_limits 0)
                (mkOrderRequest 1 0 Buy Limit 15000 10 0 0) 15000 5 15000
                tracker_sized_init) as Hc.
  cbv zeta in Hc.
  apply Hc.
  - vm_compute. split; [discriminate | reflexivity].
  - vm_compute. reflexivity.
Defined.

(** ** The circular buffer as a rolling window *)

Section RollingFacts.
Context {T : Type}.
Variable Capacity : Z.
Hypothesis HC : 0 < Capacity < 2 ^ 63.

Lemma rolled_init (zero : T) : rolled Capacity (CircularBuffer.init Capacity zero) [].
Proof.
  unfold rolled, CircularBuffer.init.
  cbn [CircularBuffer.buffer_ CircularBuffer.write_pos_ CircularBuffer.count_ length].
  rewrite length_replicate, Z.mod_0_l by lia.
  split_and!; [lia | reflexivity | lia |]. intros j Hj. lia.
Qed.

Lemma rolled_push (c : CircularBuffer.t T) xs x :
  rolled Capacity c xs →
  rolled Capacity (CircularBuffer.push_back Capacity c x) (xs ++ [x]).
Proof.
  intros (Hlen & Hwp & Hcount & Hbuf). unfold rolled, CircularBuffer.push_back.
  cbn [CircularBuffer.buffer_ CircularBuffer.write_pos_ CircularBuffer.count_].
  rewrite length_insert, length_app. cbn [length].
  set (n := Z.of_nat (length xs)) in *.
  pose proof (Z.mod_pos_bound n Capacity ltac:(lia)) as Hn.
  assert (Hn0 : 0 ≤ n) by (subst n; lia).
  replace (Z.of_nat (length xs + 1)) with (n + 1) by (subst n; lia).
  split_and!.
  - exact Hlen.
  - rewrite Hwp. unfold u64. rewrite (Z.mod_small (n mod Capacity + 1)) by lia.
    apply Zplus_mod_idemp_l.
  - rewrite Hcount. destruct (Z.min n Capacity <? Capacity) eqn:E;
      [apply Z.ltb_lt in E | apply Z.ltb_ge in E].
    + unfold u64. rewrite Z.mod_small; lia.
    + lia.
  - intros j Hj Hwin. rewrite Hwp.
    destruct (Z.eq_dec j n) as [->|Hne].
    + rewrite list_lookup_insert_eq by lia.
      subst n. rewrite Nat2Z.id, lookup_app_r by lia.
      rewrite Nat.sub_diag. reflexivity.
    + assert (Hmod : j mod Capacity ≠ n mod Capacity).
      { intros Heq.
        assert (Hz : (n - j) mod Capacity = 0)
          by (rewrite Zminus_mod, Heq, Z.sub_diag; apply Z.mod_0_l; lia).
        rewrite Z.mod_small in Hz by lia. lia. }
      pose proof (Z.mod_pos_bound j Capacity ltac:(lia)).
      rewrite list_lookup_insert_ne by lia.
      rewrite lookup_app_l by lia. apply Hbuf; lia.
Qed.

Lemma rolled_fold xs : ∀ (c : CircularBuffer.t T) ys,
  rolled Capacity c ys →
  rolled Capacity (fold_left (CircularBuffer.push_back Capacity) xs c) (ys ++ xs).
Proof.
  induction xs as [|x xs IH]; intros c ys Hc.
  - rewrite app_nil_r. exact Hc.
  - cbn [fold_left]. replace (ys ++ x :: xs) with ((ys ++ [x]) ++ xs)
      by (rewrite <- app_assoc; reflexivity).
    apply IH, rolled_push, Hc.
Qed.

Lemma rolled_subscript (c : CircularBuffer.t T) xs idx :
  rolled Capacity c xs →
  0 ≤ idx < CircularBuffer.size c →
  CircularBuffer.subscript Capacity c idx
  = xs !! Z.to_nat (Z.of_nat (length xs) - CircularBuffer.size c + idx).
Proof.
  intros (Hlen & Hwp & Hcount & Hbuf). unfold CircularBuffer.subscript, CircularBuffer.size.
  rewrite Hcount, Hwp. set (n := Z.of_nat (length xs)) in *.
  pose proof (Z.mod_pos_bound n Capacity ltac:(lia)) as Hn.
  intros Hidx.
  destruct (Z.min n Capacity <? Capacity) eqn:E;
    [apply Z.ltb_lt in E | apply Z.ltb_ge in E].
  - assert (HnC : n < Capacity) by lia.
    replace (Z.min n Capacity) with n in * by lia.
    replace (n - n + idx) with idx by lia. rewrite Z.add_0_l.
    unfold u64. rewrite (Z.mod_small idx (2 ^ 64)) by lia.
    apply Hbuf; lia.
  - assert (HnC : Capacity ≤ n) by lia.
    replace (Z.min n Capacity) with Capacity in * by lia.
    unfold u64. rewrite (Z.mod_small (n mod Capacity + idx)) by lia.
    rewrite Zplus_mod_idemp_l.
    replace (n + idx) with (n - Capacity + idx + 1 * Capacity) by lia.
    rewrite Z.mod_add by lia. apply Hbuf; lia.
Qed.
End RollingFacts.

(** X26. the circular buffer is a rolling window over the values pushed:
    after the values [xs] have been pushed onto a fresh buffer, [size()]
    is the smaller of their number and [Capacity], [operator[]] at
    [0 <= idx < size()] is the value pushed [size() - idx] pushes ago
    (index 0 the oldest kept), [front()] is the oldest value kept and
    [back()] the last one pushed; [full()] holds from [Capacity] pushes
    on. *)
Theorem circular_buffer_is_a_rolling_window {T} (Capacity : Z) (zero : T) (xs : list T) :
  0 < Capacity < 2 ^ 63 →
  let c := fold_left (CircularBuffer.push_back Capacity) xs
             (CircularBuffer.init Capacity zero) in
  let n := Z.of_nat (length xs) in
  CircularBuffer.size c = Z.min n Capacity
  ∧ (∀ idx, 0 ≤ idx < CircularBuffer.size c →
            CircularBuffer.subscript Capacity c idx
            = xs !! Z.to_nat (n - CircularBuffer.size c + idx))
  ∧ (xs ≠ [] →
     CircularBuffer.front Capacity c = xs !! Z.to_nat (n - CircularBuffer.size c)
     ∧ CircularBuffer.back Capacity c = last xs)
  ∧ (CircularBuffer.empty c = true ↔ xs = [])
  ∧ (CircularBuffer.full Capacity c = true ↔ Capacity ≤ n).
Proof.
  intros HC c n.
  pose proof (rolled_fold Capacity HC xs _ [] (rolled_init Capacity HC zero)) as Hr.
  cbn [app] in Hr. fold c in Hr.
  pose proof (rolled_subscript Capacity HC c xs) as Hsub.
  destruct Hr as (Hlen & Hwp & Hcount & Hbuf). fold n in Hwp, Hcount, Hbuf, Hsub.
  assert (Hn0 : 0 ≤ n) by (subst n; lia).
  pose proof (Z.mod_pos_bound n Capacity ltac:(lia)) as Hn.
  unfold CircularBuffer.size in *. split_and!.
  - exact Hcount.
  - intros idx Hidx. apply Hsub; [|exact Hidx].
    unfold rolled. fold n. auto.
  - intros Hne. assert (Hpos : 0 < n).
    { subst n. destruct xs; [contradiction | cbn [length]; lia]. }
    split.
    + specialize (Hsub 0). rewrite Z.add_0_r in Hsub. rewrite <- Hsub.
      * unfold CircularBuffer.front, CircularBuffer.subscript.
        rewrite Z.add_0_r. unfold u64.
        destruct (CircularBuffer.count_ c <? Capacity).
        -- rewrite !Z.mod_0_l by lia. reflexivity.
        -- rewrite Hwp, (Z.mod_small (n mod Capacity) (2 ^ 64)) by lia.
           rewrite Z.mod_mod by lia. reflexivity.
      * unfold rolled. fold n. auto.
      * lia.
    + unfold CircularBuffer.back. rewrite Hwp. unfold u64.
      rewrite (Z.mod_small (n mod Capacity + Capacity)) by lia.
      rewrite (Z.mod_small (n mod Capacity + Capacity - 1)) by lia.
      replace (n mod Capacity + Capacity - 1) with (n mod Capacity + (Capacity - 1)) by lia.
      rewrite Zplus_mod_idemp_l.
      replace (n + (Capacity - 1)) with (n - 1 + 1 * Capacity) by lia.
      rewrite Z.mod_add by lia. rewrite Hbuf by lia.
      rewrite last_lookup. f_equal. subst n. lia.
  - unfold CircularBuffer.empty. rewrite Z.eqb_eq, Hcount. split.
    + intros Hz. destruct xs; [reflexivity | subst n; cbn [length] in *; lia].
    + intros ->. subst n. cbn [length]. lia.
  - unfold CircularBuffer.full. rewrite Z.eqb_eq, Hcount. lia.
Qed.

Lemma circular_buffer_is_a_rolling_window_witness :
  CircularBuffer.subscript 3
    (fold_left (CircularBuffer.push_back 3) [10; 20; 30; 40; 50] (CircularBuffer.init 3 0)) 0
  = Some 30.
Proof.
  destruct (circular_buffer_is_a_rolling_window 3 0 [10; 20; 30; 40; 50])
    as (Hsize & Hsub & _); [lia|].
  rewrite Hsub, Hsize; [reflexivity|]. rewrite Hsize. vm_compute. split; [discriminate | reflexivity].
Defined.

(** ** Adding an order to a level and removing it again *)

Lemma level_queue_head_tail mem l ptrs :
  level_queue mem l ptrs →
  PriceLevel.head l = head ptrs ∧ PriceLevel.tail l = last ptrs.
Proof.
  intros (Hl & Ht & _). split; [|exact Ht].
  destruct ptrs as [|i r]; [exact Hl | apply Hl].
Qed.

Lemma keeps_links_id : keeps_links (fun e => e).
Proof. intros e. auto. Qed.

Lemma keeps_links_set_status s : keeps_links (OrderBookEntry.set_status s).
Proof. intros e. cbn. auto. Qed.

Lemma poke_id i mem : poke i (fun e => e) mem = mem.
Proof.
  unfold poke, MemoryPool.slot. destruct (mem !! i) as [x|] eqn:Hx.
  - apply list_insert_id. exact Hx.
  - apply list_insert_ge. apply lookup_ge_None. exact Hx.
Qed.

Lemma poke_remaining i f mem j :
  (∀ e, OrderBook.remaining_of (f e) = OrderBook.remaining_of e) →
  OrderBook.remaining_of (MemoryPool.slot (poke i f mem) j)
  = OrderBook.remaining_of (MemoryPool.slot mem j).
Proof.
  intros Hf. rewrite slot_poke. destruct (decide _) as [[-> _]|_]; [apply Hf | reflexivity].
Qed.

Lemma keeps_links_remaining f e :
  keeps_links f → OrderBook.remaining_of (f e) = OrderBook.remaining_of e.
Proof.
  intros Hf. destruct (Hf e) as (_ & _ & Hq & Hfq).
  unfold OrderBook.remaining_of. rewrite Hq, Hfq. reflexivity.
Qed.

Lemma add_order_remaining mem l entry j :
  OrderBook.remaining_of (MemoryPool.slot (PriceLevel.add_order mem l entry).1 j)
  = OrderBook.remaining_of (MemoryPool.slot mem j).
Proof.
  unfold PriceLevel.add_order.
  destruct (PriceLevel.tail l); cbn [fst];
    rewrite !poke_remaining by (intros e; reflexivity); reflexivity.
Qed.

Lemma remove_order_remaining mem l entry j :
  OrderBook.remaining_of (MemoryPool.slot (PriceLevel.remove_order mem l entry).1 j)
  = OrderBook.remaining_of (MemoryPool.slot mem j).
Proof.
  unfold PriceLevel.remove_order.
  repeat match goal with
         | |- context [match ?o with Some _ => _ | None => _ end] => destruct o
         end; cbn [fst];
    rewrite !poke_remaining by (intros e; reflexivity); reflexivity.
Qed.

Lemma add_order_total mem l entry :
  PriceLevel.total_quantity (PriceLevel.add_order mem l entry).2
  = u64 (PriceLevel.total_quantity l
         + OrderBook.remaining_of (MemoryPool.slot mem entry))
  ∧ PriceLevel.order_count (PriceLevel.add_order mem l entry).2
    = u32 (PriceLevel.order_count l + 1)
  ∧ PriceLevel.price (PriceLevel.add_order mem l entry).2 = PriceLevel.price l.
Proof.
  pose proof (add_order_remaining mem l entry entry) as Hr.
  unfold PriceLevel.add_order in *.
  destruct (PriceLevel.tail l); cbn [fst snd PriceLevel.total_quantity
                                      PriceLevel.order_count PriceLevel.price] in *;
    unfold OrderBook.remaining_of in Hr; rewrite Hr; auto.
Qed.

Lemma remove_order_total mem l entry :
  PriceLevel.total_quantity (PriceLevel.remove_order mem l entry).2
  = (if OrderBook.remaining_of (MemoryPool.slot mem entry) <=? PriceLevel.total_quantity l
     then PriceLevel.total_quantity l - OrderBook.remaining_of (MemoryPool.slot mem entry)
     else 0)
  ∧ PriceLevel.price (PriceLevel.remove_order mem l entry).2 = PriceLevel.price l.
Proof.
  pose proof (remove_order_remaining mem l entry entry) as Hr.
  unfold PriceLevel.remove_order in *.
  repeat match goal with
         | |- context [match ?o with Some _ => _ | None => _ end] => destruct o
         end; cbn [fst snd PriceLevel.total_quantity PriceLevel.price] in *;
    unfold OrderBook.remaining_of in Hr; rewrite Hr; auto.
Qed.

Lemma add_order_length mem l entry :
  length (PriceLevel.add_order mem l entry).1 = length mem.
Proof.
  unfold PriceLevel.add_order. destruct (PriceLevel.tail l); cbn [fst];
    rewrite !poke_length; reflexivity.
Qed.

Lemma remove_order_length mem l entry :
  length (PriceLevel.remove_order mem l entry).1 = length mem.
Proof.
  unfold PriceLevel.remove_order.
  repeat match goal with
         | |- context [match ?o with Some _ => _ | None => _ end] => destruct o
         end; cbn [fst]; rewrite !poke_length; reflexivity.
Qed.

(** A write that keeps the links keeps every list. *)
Lemma dlinked_poke_links i f mem ptrs : ∀ before_p p,
  keeps_links f →
  dlinked mem before_p p ptrs → dlinked (poke i f mem) before_p p ptrs.
Proof.
  induction ptrs as [|j r IH]; intros before_p p Hf; simpl; [auto|].
  intros (-> & Hj & Hprev & Hrest).
  assert (Hl : OrderBookEntry.prev (MemoryPool.slot (poke i f mem) j)
               = OrderBookEntry.prev (MemoryPool.slot mem j)
               ∧ OrderBookEntry.next (MemoryPool.slot (poke i f mem) j)
                 = OrderBookEntry.next (MemoryPool.slot mem j)).
  { rewrite slot_poke. destruct (decide _) as [[-> _]|_]; [|auto].
    destruct (Hf (MemoryPool.slot mem j)) as (Hp & Hn & _). auto. }
  destruct Hl as [-> ->]. rewrite poke_length. split_and!; auto.
Qed.

(** The last entry of a list has no successor. *)
Lemma dlinked_last_next mem ptrs : ∀ before_p p tl,
  dlinked mem before_p p (ptrs ++ [tl]) →
  OrderBookEntry.next (MemoryPool.slot mem tl) = None ∧ (tl < length mem)%nat.
Proof.
  induction ptrs as [|j r IH]; intros before_p p tl; simpl.
  - intros (_ & Htl & _ & Hn). auto.
  - intros (_ & _ & _ & Hrest). eapply IH. exact Hrest.
Qed.

Lemma set_next_same e : OrderBookEntry.set_next (OrderBookEntry.next e) e = e.
Proof. destruct e. reflexivity. Qed.

(** What [add_order] leaves in the slots. *)
Lemma add_order_slots mem l entry :
  (entry < length mem)%nat → PriceLevel.tail l ≠ Some entry →
  MemoryPool.slot (PriceLevel.add_order mem l entry).1 entry
  = OrderBookEntry.set_next None
      (OrderBookEntry.set_prev (PriceLevel.tail l) (MemoryPool.slot mem entry))
  ∧ ∀ j, j ≠ entry →
         MemoryPool.slot (PriceLevel.add_order mem l entry).1 j
         = if decide (PriceLevel.tail l = Some j ∧ (j < length mem)%nat)
           then OrderBookEntry.set_next (Some entry) (MemoryPool.slot mem j)
           else MemoryPool.slot mem j.
Proof.
  intros Hentry Htl. unfold PriceLevel.add_order.
  destruct (PriceLevel.tail l) as [tl|] eqn:Ht; cbn [fst].
  - assert (Hne : tl ≠ entry) by congruence. split.
    + rewrite slot_poke_ne by exact Hne.
      rewrite slot_poke_eq by (rewrite poke_length; exact Hentry).
      rewrite slot_poke_eq by exact Hentry. reflexivity.
    + intros j Hj. rewrite slot_poke, !poke_length.
      rewrite !(slot_poke_ne entry) by congruence.
      destruct (decide (tl = j ∧ _)) as [[-> Hlt]|Hno].
      * rewrite decide_True by auto. reflexivity.
      * rewrite decide_False; [reflexivity|]. intros [[= ->] Hlt]. apply Hno. auto.
  - split.
    + rewrite slot_poke_eq by (rewrite poke_length; exact Hentry).
      rewrite slot_poke_eq by exact Hentry. reflexivity.
    + intros j Hj. rewrite !(slot_poke_ne entry) by congruence.
      rewrite decide_False; [reflexivity|]. intros [[=] _].
Qed.

(** What [remove_order] of the last entry of a list leaves in the other
    slots. *)
Lemma remove_last_slots mem l entry :
  OrderBookEntry.next (MemoryPool.slot mem entry) = None →
  OrderBookEntry.prev (MemoryPool.slot mem entry) ≠ Some entry →
  ∀ j, j ≠ entry →
       MemoryPool.slot (PriceLevel.remove_order mem l entry).1 j
       = if decide (OrderBookEntry.prev (MemoryPool.slot mem entry) = Some j
                    ∧ (j < length mem)%nat)
         then OrderBookEntry.set_next None (MemoryPool.slot mem j)
         else MemoryPool.slot mem j.
Proof.
  intros Hnext Hprev j Hj. unfold PriceLevel.remove_order.
  destruct (OrderBookEntry.prev (MemoryPool.slot mem entry)) as [p|] eqn:Hp.
  - assert (Hne : p ≠ entry) by congruence.
    rewrite (slot_poke_ne p _ mem entry) by exact Hne. rewrite Hnext. cbn [fst].
    rewrite !(slot_poke_ne entry) by congruence.
    rewrite slot_poke.
    destruct (decide (p = j ∧ _)) as [[-> Hlt]|Hno].
    + rewrite decide_True by auto. reflexivity.
    + rewrite decide_False; [reflexivity|]. intros [[= ->] Hlt]. apply Hno. auto.
  - rewrite Hnext. cbn [fst]. rewrite !(slot_poke_ne entry) by congruence.
    rewrite decide_False; [reflexivity|]. intros [[=] _].
Qed.

(** [add_order] and then [remove_order] of the same entry, with writes
    between them that keep the entry's links and quantities. *)
Lemma level_round_trip_spec mem l entry ptrs f :
  keeps_links f →
  level_queue mem l ptrs → entry ∉ ptrs → (entry < length mem)%nat →
  0 ≤ PriceLevel.order_count l < 2 ^ 32 →
  0 ≤ PriceLevel.total_quantity l →
  PriceLevel.total_quantity l + OrderBook.remaining_of (MemoryPool.slot mem entry) < 2 ^ 64 →
  let added := PriceLevel.add_order mem l entry in
  let removed := PriceLevel.remove_order (poke entry f added.1) added.2 entry in
  removed.2 = l ∧ level_queue removed.1 removed.2 ptrs
  ∧ length removed.1 = length mem
  ∧ ∀ j, j ≠ entry → MemoryPool.slot removed.1 j = MemoryPool.slot mem j.
Proof.
  intros Hf Hq Hnotin Hentry Hcount Htq Hsum added removed.
  pose proof (add_order_queue mem l entry ptrs Hq Hnotin Hentry) as Hq1.
  fold added in Hq1.
  assert (Hq1' : level_queue (poke entry f added.1) added.2 (ptrs ++ [entry])).
  { destruct Hq1 as (Hd & Ht & Hnd). split_and!; [|exact Ht|exact Hnd].
    apply dlinked_poke_links; assumption. }
  destruct (remove_order_keeps_the_queue_spec _ added.2 ptrs entry [] Hq1')
    as (Hq2 & Hc2 & _).
  fold removed in Hq2, Hc2. rewrite app_nil_r in Hq2.
  destruct (level_queue_head_tail _ _ _ Hq) as [Hh Ht].
  destruct (level_queue_head_tail _ _ _ Hq2) as [Hh2 Ht2].
  destruct (add_order_total mem l entry) as (Ht1 & Hc1 & Hp1).
  destruct (remove_order_total (poke entry f added.1) added.2 entry) as (Ht3 & Hp3).
  fold added in Ht1, Hc1, Hp1. fold removed in Ht3, Hp3.
  assert (Hrem0 : 0 ≤ OrderBook.remaining_of (MemoryPool.slot mem entry)).
  { unfold OrderBook.remaining_of, u64. apply Z.mod_pos_bound. lia. }
  assert (Hlen1 : length added.1 = length mem) by apply add_order_length.
  assert (Htl : PriceLevel.tail l ≠ Some entry).
  { rewrite Ht. intros Hlast. apply Hnotin.
    apply last_Some in Hlast as [r ->]. apply elem_of_app. right. left. }
  destruct (add_order_slots mem l entry Hentry Htl) as [Hse Hso].
  fold added in Hse, Hso.
  assert (Hmid : MemoryPool.slot (poke entry f added.1) entry
                 = f (MemoryPool.slot added.1 entry)).
  { apply slot_poke_eq. rewrite Hlen1. exact Hentry. }
  split_and!; [| exact Hq2 | |].
  - rewrite Hmid, keeps_links_remaining in Ht3 by exact Hf.
    subst added. rewrite add_order_remaining in Ht3.
    rewrite Ht1 in Ht3. unfold u64 in Ht3. rewrite Z.mod_small in Ht3 by lia.
    replace (_ <=? _) with true in Ht3 by (symmetry; apply Z.leb_le; lia).
    rewrite Hc1 in Hc2. unfold u32 in Hc2.
    destruct (Z.eq_dec (PriceLevel.order_count l + 1) (2 ^ 32)) as [Hwrap|Hno].
    + rewrite Hwrap, Z.mod_same in Hc2 by lia.
      change ((0 - 1) mod 2 ^ 32) with (2 ^ 32 - 1) in Hc2.
      destruct removed.2 as [p2 t2 c2 h2 tl2], l as [p t c h tl].
      cbn in *. f_equal; congruence || lia.
    + rewrite (Z.mod_small (PriceLevel.order_count l + 1)) in Hc2 by lia.
      rewrite Z.mod_small in Hc2 by lia.
      destruct removed.2 as [p2 t2 c2 h2 tl2], l as [p t c h tl].
      cbn in *. f_equal; congruence || lia.
  - subst removed. rewrite remove_order_length, poke_length. exact Hlen1.
  - intros j Hj.
    assert (Hmid_links : OrderBookEntry.prev (MemoryPool.slot (poke entry f added.1) entry)
                         = PriceLevel.tail l
                         ∧ OrderBookEntry.next (MemoryPool.slot (poke entry f added.1) entry)
                           = None).
    { rewrite Hmid. destruct (Hf (MemoryPool.slot added.1 entry)) as (-> & -> & _).
      rewrite Hse. cbn. auto. }
    destruct Hmid_links as [Hmp Hmn].
    subst removed. rewrite remove_last_slots; [| exact Hmn | rewrite Hmp; exact Htl | exact Hj].
    rewrite Hmp, poke_length, Hlen1.
    rewrite !(slot_poke_ne entry) by congruence.
    rewrite (Hso j Hj).
    destruct (decide (PriceLevel.tail l = Some j ∧ _)) as [[Htj Hlt]|Hno]; [|reflexivity].
    rewrite Ht in Htj. apply last_Some in Htj as [r ->].
    destruct Hq as (Hd & _ & _).
    apply dlinked_last_next in Hd as [Hn _].
    destruct (MemoryPool.slot mem j); cbn in Hn |- *. rewrite Hn. reflexivity.
Qed.

(** X27. [add_order] followed by [remove_order] of the same entry gives
    the level back: its price, total quantity, order count, head and tail
    are as before, its orders are linked as before and every other entry
    of the slab is as it was (while the total quantity with the entry's
    residual fits in 64 bits). *)
Theorem level_add_then_remove mem l entry ptrs :
  level_queue mem l ptrs → entry ∉ ptrs → (entry < length mem)%nat →
  0 ≤ PriceLevel.order_count l < 2 ^ 32 →
  0 ≤ PriceLevel.total_quantity l →
  PriceLevel.total_quantity l + OrderBook.remaining_of (MemoryPool.slot mem entry) < 2 ^ 64 →
  let added := PriceLevel.add_order mem l entry in
  let removed := PriceLevel.remove_order added.1 added.2 entry in
  removed.2 = l ∧ level_queue removed.1 removed.2 ptrs
  ∧ ∀ j, j ≠ entry → MemoryPool.slot removed.1 j = MemoryPool.slot mem j.
Proof.
  intros Hq Hnotin Hentry Hcount Htq Hsum added removed.
  destruct (level_round_trip_spec mem l entry ptrs (fun e => e) keeps_links_id
              Hq Hnotin Hentry Hcount Htq Hsum) as (Hl & Hq2 & _ & Hs).
  rewrite poke_id in Hl, Hq2, Hs. auto.
Qed.

Lemma level_add_then_remove_witness :
  let added := PriceLevel.add_order two_queued_one_spare.1 two_queued_one_spare.2 2 in
  let removed := PriceLevel.remove_order added.1 added.2 2 in
  removed.2 = two_queued_one_spare.2
  ∧ level_queue removed.1 removed.2 [0; 1]%nat
  ∧ ∀ j, j ≠ 2%nat →
         MemoryPool.slot removed.1 j = MemoryPool.slot two_queued_one_spare.1 j.
Proof.
  apply (level_add_then_remove two_queued_one_spare.1 two_queued_one_spare.2 2%nat
           [0; 1]%nat).
  - unfold level_queue. split_and!.
    + vm_compute. repeat split; lia.
    + vm_compute. reflexivity.
    + repeat (apply NoDup_cons; split;
              [intros Hin; repeat (apply elem_of_cons in Hin as [Hin|Hin]; [discriminate Hin|]);
               apply elem_of_nil in Hin; exact Hin|]).
      apply NoDup_nil. exact I.
  - intros Hin. repeat (apply elem_of_cons in Hin as [Hin|Hin]; [discriminate Hin|]).
    apply elem_of_nil in Hin. exact Hin.
  - vm_compute. lia.
  - vm_compute. split; [discriminate | reflexivity].
  - vm_compute. discriminate.
  - vm_compute. reflexivity.
Defined.

(** ** Adding a resting order to the book and cancelling it again *)

Lemma at_key_cases before k f m :
  (∃ m1 v m2, m = m1 ++ (k, v) :: m2 ∧ (k ∉ PriceMap.keys m1)
              ∧ PriceMap.at_key before k f m = m1 ++ (k, f v) :: m2)
  ∨ (∃ m1 m2, m = m1 ++ m2 ∧ (k ∉ PriceMap.keys m1)
              ∧ PriceMap.at_key before k f m = m1 ++ (k, f PriceLevel.fresh) :: m2).
Proof.
  induction m as [|[k0 v0] m IH]; cbn [PriceMap.at_key].
  - right. exists [], []. split_and!; [reflexivity | apply not_elem_of_nil | reflexivity].
  - destruct (k =? k0) eqn:Heq.
    + apply Z.eqb_eq in Heq as <-. left. exists [], v0, m.
      split_and!; [reflexivity | apply not_elem_of_nil | reflexivity].
    + apply Z.eqb_neq in Heq. destruct (before k k0).
      * right. exists [], ((k0, v0) :: m).
        split_and!; [reflexivity | apply not_elem_of_nil | reflexivity].
      * destruct IH as [(m1 & v & m2 & -> & Hk & ->)|(m1 & m2 & -> & Hk & ->)].
        -- left. exists ((k0, v0) :: m1), v, m2. split_and!; [reflexivity | | reflexivity].
           cbn. apply not_elem_of_cons. auto.
        -- right. exists ((k0, v0) :: m1), m2. split_and!; [reflexivity | | reflexivity].
           cbn. apply not_elem_of_cons. auto.
Qed.

Lemma find_split k v m1 m2 :
  k ∉ PriceMap.keys m1 → PriceMap.find k (m1 ++ (k, v) :: m2) = Some v.
Proof.
  induction m1 as [|[k0 v0] m1 IH]; cbn.
  - rewrite Z.eqb_refl. reflexivity.
  - intros [Hne Hk]%not_elem_of_cons. apply Z.eqb_neq in Hne. rewrite Hne. auto.
Qed.

Lemma assign_split k v v' m1 m2 :
  k ∉ PriceMap.keys m1 →
  PriceMap.assign k v' (m1 ++ (k, v) :: m2) = m1 ++ (k, v') :: m2.
Proof.
  induction m1 as [|[k0 v0] m1 IH]; cbn.
  - rewrite Z.eqb_refl. reflexivity.
  - intros [Hne Hk]%not_elem_of_cons. apply Z.eqb_neq in Hne. rewrite Hne, IH by exact Hk.
    reflexivity.
Qed.

Lemma erase_split k v m1 m2 :
  k ∉ PriceMap.keys m1 → PriceMap.erase k (m1 ++ (k, v) :: m2) = m1 ++ m2.
Proof.
  induction m1 as [|[k0 v0] m1 IH]; cbn.
  - rewrite Z.eqb_refl. reflexivity.
  - intros [Hne Hk]%not_elem_of_cons. apply Z.eqb_neq in Hne. rewrite Hne, IH by exact Hk.
    reflexivity.
Qed.

Lemma set_price_same l : PriceLevel.set_price (PriceLevel.price l) l = l.
Proof. destruct l. reflexivity. Qed.

(** The level map of the order's side through [add_to_book] and
    [remove_from_book]. *)
Lemma own_side_round_trip before p mem levels entry s :
  (entry < length mem)%nat →
  (∀ l, PriceMap.find p levels = Some l →
        queue_with_room mem entry (OrderBook.remaining_of (MemoryPool.slot mem entry)) p l) →
  let levels1 := PriceMap.at_key before p (PriceLevel.set_price p) levels in
  let added := PriceLevel.add_order mem (PriceMap.subscript before p levels1) entry in
  let levels2 := PriceMap.assign p added.2 levels1 in
  let removed :=
    PriceLevel.remove_order (poke entry (OrderBookEntry.set_status s) added.1) added.2 entry in
  PriceMap.find p levels2 = Some added.2
  ∧ (if PriceLevel.empty removed.2 then PriceMap.erase p levels2
     else PriceMap.assign p removed.2 levels2) = levels
  ∧ length removed.1 = length mem
  ∧ ∀ j, j ≠ entry → MemoryPool.slot removed.1 j = MemoryPool.slot mem j.
Proof.
  intros Hentry Hroom levels1 added levels2 removed.
  assert (Hsub : ∀ m1 x m2, levels1 = m1 ++ (p, x) :: m2 → p ∉ PriceMap.keys m1 →
                 PriceMap.subscript before p levels1 = x).
  { intros m1 x m2 Heq Hk. unfold PriceMap.subscript. subst levels1.
    rewrite at_key_idem, Heq, find_split by exact Hk. reflexivity. }
  assert (Hu : 0 ≤ OrderBook.remaining_of (MemoryPool.slot mem entry) < 2 ^ 64).
  { unfold OrderBook.remaining_of, u64. apply Z.mod_pos_bound. lia. }
  destruct (at_key_cases before p (PriceLevel.set_price p) levels)
    as [(m1 & v & m2 & Hlv & Hk & H1)|(m1 & m2 & Hlv & Hk & H1)].
  - assert (Hfind : PriceMap.find p levels = Some v)
      by (rewrite Hlv; apply find_split; exact Hk).
    destruct (Hroom v Hfind) as (Hp & Hc & Ht & Hs & ptrs & Hne & Hnotin & Hq).
    assert (Hv : PriceLevel.set_price p v = v) by (rewrite <- Hp; apply set_price_same).
    fold levels1 in H1. rewrite Hv in H1.
    assert (HL : PriceMap.subscript before p levels1 = v) by (eapply Hsub; eassumption).
    destruct (level_round_trip_spec mem v entry ptrs (OrderBookEntry.set_status s)
                (keeps_links_set_status s) Hq Hnotin Hentry Hc Ht Hs)
      as (Hback & Hq2 & Hlen & Hslots).
    subst removed levels2 added. rewrite HL.
    set (added := PriceLevel.add_order mem v entry) in *.
    rewrite H1. rewrite assign_split by exact Hk.
    split_and!; [apply find_split; exact Hk | | exact Hlen | exact Hslots].
    rewrite Hback. unfold PriceLevel.empty.
    destruct (level_queue_head_tail _ _ _ Hq) as [Hh _].
    rewrite bool_decide_eq_false_2.
    + rewrite assign_split by exact Hk. symmetry. exact Hlv.
    + rewrite Hh. destruct ptrs; [contradiction | discriminate].
  - fold levels1 in H1.
    set (L := PriceLevel.set_price p PriceLevel.fresh) in *.
    assert (HL : PriceMap.subscript before p levels1 = L) by (eapply Hsub; eassumption).
    assert (Hq : level_queue mem L []).
    { unfold level_queue. cbn. split_and!; auto. apply NoDup_nil. exact I. }
    destruct (level_round_trip_spec mem L entry [] (OrderBookEntry.set_status s)
                (keeps_links_set_status s) Hq (not_elem_of_nil _) Hentry)
      as (Hback & Hq2 & Hlen & Hslots).
    { cbn. lia. }
    { cbn. lia. }
    { cbn. lia. }
    subst removed levels2 added. rewrite HL.
    set (added := PriceLevel.add_order mem L entry) in *.
    rewrite H1. rewrite assign_split by exact Hk.
    split_and!; [apply find_split; exact Hk | | exact Hlen | exact Hslots].
    rewrite Hback. unfold PriceLevel.empty. cbn [L PriceLevel.set_price PriceLevel.head
                                                 PriceLevel.fresh].
    rewrite bool_decide_eq_true_2 by reflexivity.
    rewrite erase_split by exact Hk. symmetry. exact Hlv.
Qed.

(** The fields of the book after [add_to_book]. *)
Lemma add_to_book_fields b entry :
  let s := OrderBookEntry.side (OrderBook.deref (OrderBook.pool_ b) entry) in
  let p := OrderBookEntry.price (OrderBook.deref (OrderBook.pool_ b) entry) in
  let levels1 := PriceMap.at_key (own_before s) p (PriceLevel.set_price p) (own_levels b s) in
  let added :=
    PriceLevel.add_order (OrderBook.mem (OrderBook.pool_ b))
      (PriceMap.subscript (own_before s) p levels1) entry in
  let b' := OrderBook.add_to_book b entry in
  OrderBook.pool_ b' = OrderBook.with_mem added.1 (OrderBook.pool_ b)
  ∧ own_levels b' s = PriceMap.assign p added.2 levels1
  ∧ opposite_levels b' s = opposite_levels b s
  ∧ OrderBook.orders_ b' = OrderBook.orders_ b
  ∧ match s with
    | Buy => OrderBook.best_ask_ b' = OrderBook.best_ask_ b
             ∧ OrderBook.best_ask_qty_ b' = OrderBook.best_ask_qty_ b
    | Sell => OrderBook.best_bid_ b' = OrderBook.best_bid_ b
              ∧ OrderBook.best_bid_qty_ b' = OrderBook.best_bid_qty_ b
    end.
Proof.
  intros s p levels1 added b'. subst b' added levels1. unfold OrderBook.add_to_book.
  fold s p. destruct s; cbn [own_before own_levels opposite_levels];
    destruct (PriceLevel.add_order _ _ _) as [m level];
    match goal with |- context [if ?c then _ else _] => destruct c end;
    cbn; split_and!; reflexivity.
Qed.

(** The fields of the book after [remove_from_book] of an entry whose
    level is found. *)
Lemma remove_from_book_fields b entry level :
  let s := OrderBookEntry.side (OrderBook.deref (OrderBook.pool_ b) entry) in
  let p := OrderBookEntry.price (OrderBook.deref (OrderBook.pool_ b) entry) in
  PriceMap.find p (own_levels b s) = Some level →
  let removed := PriceLevel.remove_order (OrderBook.mem (OrderBook.pool_ b)) level entry in
  let b' := OrderBook.remove_from_book b entry in
  OrderBook.pool_ b' = OrderBook.with_mem removed.1 (OrderBook.pool_ b)
  ∧ own_levels b' s
    = (if PriceLevel.empty removed.2 then PriceMap.erase p (own_levels b s)
       else PriceMap.assign p removed.2 (own_levels b s))
  ∧ opposite_levels b' s = opposite_levels b s
  ∧ OrderBook.orders_ b' = OrderBook.orders_ b
  ∧ match s with
    | Buy => bid_cache_fresh b'
             ∧ OrderBook.best_ask_ b' = OrderBook.best_ask_ b
             ∧ OrderBook.best_ask_qty_ b' = OrderBook.best_ask_qty_ b
    | Sell => ask_cache_fresh b'
              ∧ OrderBook.best_bid_ b' = OrderBook.best_bid_ b
              ∧ OrderBook.best_bid_qty_ b' = OrderBook.best_bid_qty_ b
    end.
Proof.
  intros s p Hfind removed b'. subst b' removed. unfold OrderBook.remove_from_book.
  fold s p. destruct s; cbn [own_levels opposite_levels] in *; rewrite Hfind;
    destruct (PriceLevel.remove_order _ _ _) as [m level'].
  - match goal with |- context [OrderBook.update_best_bid ?x] =>
      destruct (update_best_bid_spec x) as (Hc & -> & -> & -> & -> & -> & ->) end.
    cbn. split_and!; auto.
  - match goal with |- context [OrderBook.update_best_ask ?x] =>
      destruct (update_best_ask_spec x) as (Hc & -> & -> & -> & -> & -> & ->) end.
    cbn. split_and!; auto.
Qed.

Lemma update_best_ask_pool b :
  OrderBook.pool_ (OrderBook.update_best_ask b) = OrderBook.pool_ b.
Proof. apply update_best_ask_spec. Qed.

Lemma update_best_bid_pool b :
  OrderBook.pool_ (OrderBook.update_best_bid b) = OrderBook.pool_ b.
Proof. apply update_best_bid_spec. Qed.

(** A limit order that finds nothing to trade with goes to
    [add_to_book] as it was written to its slot. *)
Lemma add_limit_rests b id side price quantity timestamp :
  MemoryPool.free_head_ (OrderBook.pool_ b) ≠ MemoryPool.INVALID →
  (Z.to_nat (MemoryPool.free_head_ (OrderBook.pool_ b))
   < length (OrderBook.mem (OrderBook.pool_ b)))%nat →
  0 < quantity < 2 ^ 64 →
  finds_no_match (opposite_levels b side) side Limit price →
  let entry := Z.to_nat (MemoryPool.free_head_ (OrderBook.pool_ b)) in
  ∃ X, OrderBook.add_order b id side Limit price quantity timestamp
       = (OrderBook.add_to_book X entry, [])
     ∧ OrderBook.deref (OrderBook.pool_ X) entry
       = OrderBookEntry.mk id (OrderBook.instrument_ b) side Limit New price quantity
           0 timestamp None None
     ∧ length (OrderBook.mem (OrderBook.pool_ X)) = length (OrderBook.mem (OrderBook.pool_ b))
     ∧ (∀ j, j ≠ entry →
             OrderBook.deref (OrderBook.pool_ X) j = OrderBook.deref (OrderBook.pool_ b) j)
     ∧ MemoryPool.free_head_ (OrderBook.pool_ X)
       = read_link (OrderBook.deref (OrderBook.pool_ b) entry)
     ∧ MemoryPool.allocated_count_ (OrderBook.pool_ X)
       = u64 (MemoryPool.allocated_count_ (OrderBook.pool_ b) + 1)
     ∧ OrderBook.bids_ X = OrderBook.bids_ b
     ∧ OrderBook.asks_ X = OrderBook.asks_ b
     ∧ OrderBook.orders_ X = <[id := entry]> (OrderBook.orders_ b)
     ∧ match side with Buy => ask_cache_fresh X | Sell => bid_cache_fresh X end.
Proof.
  intros Hroom Hlt Hq Hnm entry.
  unfold OrderBook.add_order, MemoryPool.allocate.
  apply Z.eqb_neq in Hroom. rewrite Hroom. fold entry.
  match goal with |- context [OrderBook.match_order ?x entry] => set (b1 := x) end.
  set (e := OrderBookEntry.mk id (OrderBook.instrument_ b) side Limit New price quantity
              0 timestamp None None).
  assert (He : OrderBook.deref (OrderBook.pool_ b1) entry = e).
  { unfold OrderBook.deref. subst b1. cbn. rewrite slot_insert.
    apply decide_True. split; [reflexivity | exact Hlt]. }
  assert (Hwalk : first_walk b1 entry
                  = (match side with
                     | Buy => OrderBook.update_best_ask b1
                     | Sell => OrderBook.update_best_bid b1
                     end, [])).
  { rewrite first_walk_no_match; rewrite He; cbn [e OrderBookEntry.side OrderBookEntry.type
                                                   OrderBookEntry.price].
    - reflexivity.
    - destruct side; exact Hnm. }
  unfold OrderBook.match_order.
  change (match OrderBookEntry.type (OrderBook.deref (OrderBook.pool_ b1) entry) with
          | Market => OrderBook.try_match_market b1 entry []
          | _ => OrderBook.try_match_limit b1 entry []
          end) with (first_walk b1 entry).
  rewrite Hwalk.
  set (b2 := match side with
             | Buy => OrderBook.update_best_ask b1
             | Sell => OrderBook.update_best_bid b1
             end).
  assert (Hpool : OrderBook.pool_ b2 = OrderBook.pool_ b1).
  { subst b2. destruct side; [apply update_best_ask_pool | apply update_best_bid_pool]. }
  cbv beta iota zeta. rewrite Hpool, He.
  assert (Hrem : OrderBook.remaining_of e = quantity).
  { unfold OrderBook.remaining_of, u64. cbn. rewrite Z.sub_0_r. apply Z.mod_small. lia. }
  rewrite Hrem.
  cbn [e OrderBookEntry.type OrderBookEntry.filled_quantity].
  rewrite bool_decide_eq_false_2 by discriminate. cbn [andb].
  replace (0 <? quantity) with true by (symmetry; apply Z.ltb_lt; lia).
  change (0 <? 0) with false. cbv iota.
  exists (OrderBook.set_entry_status New entry b2).
  split; [reflexivity|].
  assert (Hb2 : OrderBook.bids_ b2 = OrderBook.bids_ b
                ∧ OrderBook.asks_ b2 = OrderBook.asks_ b
                ∧ OrderBook.orders_ b2 = <[id := entry]> (OrderBook.orders_ b)
                ∧ match side with Buy => ask_cache_fresh b2 | Sell => bid_cache_fresh b2 end).
  { subst b2. destruct side.
    - destruct (update_best_ask_spec b1) as (Hc & -> & -> & _ & -> & _). auto.
    - destruct (update_best_bid_spec b1) as (Hc & -> & -> & _ & -> & _). auto. }
  destruct Hb2 as (Hbids & Hasks & Horders & Hfresh).
  assert (Hmem : OrderBook.mem (OrderBook.pool_ (OrderBook.set_entry_status New entry b2))
                 = poke entry (OrderBookEntry.set_status New)
                     (<[entry := e]> (OrderBook.mem (OrderBook.pool_ b)))).
  { unfold OrderBook.set_entry_status. cbn [OrderBook.pool_]. rewrite Hpool. reflexivity. }
  unfold OrderBook.deref. rewrite Hmem.
  split_and!.
  - rewrite slot_poke_eq by (rewrite length_insert; exact Hlt).
    rewrite slot_insert, decide_True by (split; [reflexivity | exact Hlt]). reflexivity.
  - rewrite poke_length, length_insert. reflexivity.
  - intros j Hj. rewrite slot_poke_ne by congruence.
    rewrite slot_insert, decide_False by (intros [? _]; congruence). reflexivity.
  - unfold OrderBook.set_entry_status. cbn [OrderBook.pool_]. rewrite Hpool. reflexivity.
  - unfold OrderBook.set_entry_status. cbn [OrderBook.pool_]. rewrite Hpool. reflexivity.
  - exact Hbids.
  - exact Hasks.
  - exact Horders.
  - destruct side; exact Hfresh.
Qed.

Lemma own_levels_fields b b' s :
  OrderBook.bids_ b' = OrderBook.bids_ b → OrderBook.asks_ b' = OrderBook.asks_ b →
  own_levels b' s = own_levels b s ∧ opposite_levels b' s = opposite_levels b s.
Proof. intros Hb Ha. destruct s; cbn; auto. Qed.

(** X28. cancelling a limit order of nonzero quantity that has just been
    added and has not traded gives the book back.  When the quantity is
    between 1 and 2^64 - 1, the pool has a free slot inside the slab and a
    count in the range of [size_t], the order finds nothing to trade with
    and the level at its price, if there is one, has that price in its
    [price] field and is a consistent, non-empty list that does not hold
    the free slot and has room for the order, [add_order] returns no
    trade, [cancel_order] of the id returns true, and afterwards both
    level maps are those before the two calls, the id map is the old one
    without the id, the pool has the same free head, the same count and
    the same free-list link in the slot it handed out, every other slot of
    the slab is as before, and both cached bests agree with the first
    level of their side. *)
Theorem add_then_cancel_restores_the_book b id side price quantity timestamp :
  0 ≤ MemoryPool.free_head_ (OrderBook.pool_ b) < MemoryPool.INVALID →
  (Z.to_nat (MemoryPool.free_head_ (OrderBook.pool_ b))
   < length (OrderBook.mem (OrderBook.pool_ b)))%nat →
  0 ≤ MemoryPool.allocated_count_ (OrderBook.pool_ b) < 2 ^ 64 →
  0 < quantity < 2 ^ 64 →
  finds_no_match (opposite_levels b side) side Limit price →
  (∀ l, PriceMap.find price (own_levels b side) = Some l →
        queue_with_room (OrderBook.mem (OrderBook.pool_ b))
          (Z.to_nat (MemoryPool.free_head_ (OrderBook.pool_ b))) quantity price l) →
  let entry := Z.to_nat (MemoryPool.free_head_ (OrderBook.pool_ b)) in
  let added := OrderBook.add_order b id side Limit price quantity timestamp in
  let cancelled := OrderBook.cancel_order added.1 id in
  added.2 = [] ∧ cancelled.2 = true
  ∧ OrderBook.bids_ cancelled.1 = OrderBook.bids_ b
  ∧ OrderBook.asks_ cancelled.1 = OrderBook.asks_ b
  ∧ OrderBook.orders_ cancelled.1 = delete id (OrderBook.orders_ b)
  ∧ MemoryPool.free_head_ (OrderBook.pool_ cancelled.1)
    = MemoryPool.free_head_ (OrderBook.pool_ b)
  ∧ MemoryPool.allocated_count_ (OrderBook.pool_ cancelled.1)
    = MemoryPool.allocated_count_ (OrderBook.pool_ b)
  ∧ read_link (OrderBook.deref (OrderBook.pool_ cancelled.1) entry)
    = read_link (OrderBook.deref (OrderBook.pool_ b) entry)
  ∧ (∀ j, j ≠ entry →
          OrderBook.deref (OrderBook.pool_ cancelled.1) j
          = OrderBook.deref (OrderBook.pool_ b) j)
  ∧ bid_cache_fresh cancelled.1 ∧ ask_cache_fresh cancelled.1.
Proof.
  intros Hfh Hlt Hac Hq Hnm Hlevel entry added cancelled.
  assert (Hroom : MemoryPool.free_head_ (OrderBook.pool_ b) ≠ MemoryPool.INVALID) by lia.
  destruct (add_limit_rests b id side price quantity timestamp Hroom Hlt Hq Hnm)
    as (X & Hadd & HeX & HlenX & HslotX & HfhX & HacX & HbidsX & HasksX & HordX & HfreshX).
  fold entry in Hadd, HeX, HslotX, HfhX, HordX, Hlevel, Hlt.
  subst cancelled added. rewrite Hadd. cbn [fst snd].
  set (e := OrderBookEntry.mk id (OrderBook.instrument_ b) side Limit New price quantity
              0 timestamp None None) in *.
  pose proof (add_to_book_fields X entry) as HB. cbv zeta in HB. rewrite HeX in HB.
  cbn [OrderBookEntry.side OrderBookEntry.price e] in HB.
  set (B := OrderBook.add_to_book X entry) in *.
  set (levels1 := PriceMap.at_key (own_before side) price (PriceLevel.set_price price)
                    (own_levels X side)) in *.
  set (added := PriceLevel.add_order (OrderBook.mem (OrderBook.pool_ X))
                  (PriceMap.subscript (own_before side) price levels1) entry) in *.
  destruct HB as (HpoolB & HownB & HoppB & HordB & HcacheB).
  destruct (own_levels_fields b X side HbidsX HasksX) as [HownX HoppX].
  assert (Hrem : OrderBook.remaining_of e = quantity).
  { unfold OrderBook.remaining_of, u64. cbn. rewrite Z.sub_0_r. apply Z.mod_small. lia. }
  assert (HltX : (entry < length (OrderBook.mem (OrderBook.pool_ X)))%nat)
    by (rewrite HlenX; exact Hlt).
  assert (HroomX : ∀ l, PriceMap.find price (own_levels X side) = Some l →
            queue_with_room (OrderBook.mem (OrderBook.pool_ X)) entry
              (OrderBook.remaining_of
                 (MemoryPool.slot (OrderBook.mem (OrderBook.pool_ X)) entry)) price l).
  { intros l Hl. rewrite HownX in Hl.
    destruct (Hlevel l Hl) as (Hp & Hc & Ht & Hs & ptrs & Hne & Hnotin & Hqueue).
    fold (OrderBook.deref (OrderBook.pool_ X) entry). rewrite HeX, Hrem.
    unfold queue_with_room.
    split_and!; [exact Hp | apply Hc | apply Hc | exact Ht | exact Hs |]. exists ptrs. split_and!; try assumption.
    destruct Hqueue as (Hd & Htl & Hnd). split_and!; try assumption.
    eapply dlinked_frame; [exact HlenX | | exact Hd].
    intros i Hi. apply HslotX. intros ->. contradiction. }
  pose proof (own_side_round_trip (own_before side) price (OrderBook.mem (OrderBook.pool_ X))
                (own_levels X side) entry Cancelled HltX HroomX) as Hrt.
  cbv zeta in Hrt. fold levels1 in Hrt. fold added in Hrt.
  destruct Hrt as (Hfind & Hback & HlenR & HslotR).
  unfold OrderBook.cancel_order. rewrite HordB, HordX, lookup_insert_eq. cbn [fst snd].
  set (b3 := OrderBook.set_entry_status Cancelled entry B).
  assert (Hmem3 : OrderBook.mem (OrderBook.pool_ b3)
                  = poke entry (OrderBookEntry.set_status Cancelled) added.1).
  { subst b3. unfold OrderBook.set_entry_status. cbn [OrderBook.pool_]. rewrite HpoolB.
    reflexivity. }
  assert (Hfields : same_order_fields e (OrderBook.deref (OrderBook.pool_ b3) entry)).
  { unfold OrderBook.deref. rewrite Hmem3. rewrite <- HeX. unfold OrderBook.deref.
    assert (Hst : stable (OrderBook.mem (OrderBook.pool_ X))
                    (poke entry (OrderBookEntry.set_status Cancelled) added.1)).
    { eapply stable_trans; [|apply poke_stable, keeps_set_status].
      eapply add_order_spec. apply surjective_pairing. }
    apply Hst. }
  destruct Hfields as (Hside3 & _ & Hprice3). cbn [e OrderBookEntry.side OrderBookEntry.price]
    in Hside3, Hprice3.
  destruct (own_levels_fields B b3 side eq_refl eq_refl) as [Hown3 Hopp3].
  pose proof (remove_from_book_fields b3 entry added.2) as HR. cbv zeta in HR.
  rewrite Hside3, Hprice3, Hown3, HownB, Hmem3 in HR. specialize (HR Hfind).
  set (removed := PriceLevel.remove_order
                    (poke entry (OrderBookEntry.set_status Cancelled) added.1) added.2 entry)
    in *.
  set (R := OrderBook.remove_from_book b3 entry) in *.
  destruct HR as (HpoolR & HownR & HoppR & HordR & HcacheR).
  rewrite Hback in HownR.
  assert (Hpool3 : MemoryPool.free_head_ (OrderBook.pool_ b3)
                   = MemoryPool.free_head_ (OrderBook.pool_ X)
                   ∧ MemoryPool.allocated_count_ (OrderBook.pool_ b3)
                     = MemoryPool.allocated_count_ (OrderBook.pool_ X)).
  { subst b3. unfold OrderBook.set_entry_status. cbn [OrderBook.pool_]. rewrite HpoolB.
    split; reflexivity. }
  destruct Hpool3 as [Hfh3 Hac3].
  assert (Hcache3 : OrderBook.best_bid_ b3 = OrderBook.best_bid_ B
                    ∧ OrderBook.best_bid_qty_ b3 = OrderBook.best_bid_qty_ B
                    ∧ OrderBook.best_ask_ b3 = OrderBook.best_ask_ B
                    ∧ OrderBook.best_ask_qty_ b3 = OrderBook.best_ask_qty_ B
                    ∧ OrderBook.orders_ b3 = OrderBook.orders_ B)
    by (split_and!; reflexivity).
  destruct Hcache3 as (Hbb3 & Hbq3 & Hba3 & Haq3 & Hord3).
  assert (HltR : (entry < length removed.1)%nat) by (rewrite HlenR; exact HltX).
  assert (Hlink : 0 ≤ read_link (OrderBook.deref (OrderBook.pool_ b) entry) < 2 ^ 32).
  { cbn [read_link entry_slot]. unfold entry_read_link. rewrite Z.land_ones by lia.
    apply Z.mod_pos_bound. lia. }
  unfold OrderBook.release.
  cbn [OrderBook.bids_ OrderBook.asks_ OrderBook.orders_ OrderBook.pool_].
  rewrite HpoolR. unfold MemoryPool.deallocate, OrderBook.with_mem, OrderBook.deref,
    OrderBook.mem. cbn [MemoryPool.storage_ MemoryPool.free_head_ MemoryPool.allocated_count_].
  split_and!.
  - reflexivity.
  - reflexivity.
  - destruct side; cbn [own_levels opposite_levels] in *; congruence.
  - destruct side; cbn [own_levels opposite_levels] in *; congruence.
  - rewrite HordR, Hord3, HordB, HordX. apply delete_insert_eq.
  - subst entry. rewrite Z2Nat.id by lia. unfold u32. apply Z.mod_small.
    unfold MemoryPool.INVALID in Hfh. lia.
  - rewrite Hac3, HacX. unfold u64.
    destruct (Z.eq_dec (MemoryPool.allocated_count_ (OrderBook.pool_ b) + 1) (2 ^ 64))
      as [Hwrap|Hno].
    + rewrite Hwrap, Z.mod_same by lia. change ((0 - 1) mod 2 ^ 64) with (2 ^ 64 - 1). lia.
    + rewrite (Z.mod_small (_ + 1)) by lia. rewrite Z.mod_small by lia. lia.
  - rewrite slot_insert, decide_True by (split; [reflexivity | exact HltR]).
    rewrite Hfh3, HfhX. cbn [read_link write_link entry_slot].
    apply entry_read_write_link. exact Hlink.
  - intros j Hj. rewrite slot_insert, decide_False by (intros [? _]; congruence).
    rewrite HslotR by exact Hj. apply HslotX. exact Hj.
  - change (bid_cache_fresh R). destruct side.
    + apply HcacheR.
    + destruct HcacheR as (_ & Hb & Hbq). destruct HcacheB as [HbB HbqB].
      cbn [own_levels opposite_levels] in *.
      unfold bid_cache_fresh in *. rewrite HoppR, Hopp3, HoppB, Hb, Hbq, Hbb3, Hbq3, HbB, HbqB.
      exact HfreshX.
  - change (ask_cache_fresh R). destruct side.
    + destruct HcacheR as (_ & Ha & Haq). destruct HcacheB as [HaB HaqB].
      cbn [own_levels opposite_levels] in *.
      unfold ask_cache_fresh in *. rewrite HoppR, Hopp3, HoppB, Ha, Haq, Hba3, Haq3, HaB, HaqB.
      exact HfreshX.
    + apply HcacheR.
Qed.

Lemma add_then_cancel_restores_the_book_witness :
  let entry := Z.to_nat (MemoryPool.free_head_ (OrderBook.pool_ two_bids_at_100)) in
  let added := OrderBook.add_order two_bids_at_100 3 Buy Limit 100 7 3 in
  let cancelled := OrderBook.cancel_order added.1 3 in
  added.2 = [] ∧ cancelled.2 = true
  ∧ OrderBook.bids_ cancelled.1 = OrderBook.bids_ two_bids_at_100
  ∧ OrderBook.asks_ cancelled.1 = OrderBook.asks_ two_bids_at_100
  ∧ OrderBook.orders_ cancelled.1 = delete 3 (OrderBook.orders_ two_bids_at_100)
  ∧ MemoryPool.free_head_ (OrderBook.pool_ cancelled.1)
    = MemoryPool.free_head_ (OrderBook.pool_ two_bids_at_100)
  ∧ MemoryPool.allocated_count_ (OrderBook.pool_ cancelled.1)
    = MemoryPool.allocated_count_ (OrderBook.pool_ two_bids_at_100)
  ∧ read_link (OrderBook.deref (OrderBook.pool_ cancelled.1) entry)
    = read_link (OrderBook.deref (OrderBook.pool_ two_bids_at_100) entry)
  ∧ (∀ j, j ≠ entry →
          OrderBook.deref (OrderBook.pool_ cancelled.1) j
          = OrderBook.deref (OrderBook.pool_ two_bids_at_100) j)
  ∧ bid_cache_fresh cancelled.1 ∧ ask_cache_fresh cancelled.1.
Proof.
  apply (add_then_cancel_restores_the_book two_bids_at_100 3 Buy 100 7 3).
  - vm_compute. split; [discriminate | reflexivity].
  - apply Nat.ltb_lt. vm_compute. reflexivity.
  - vm_compute. split; [discriminate | reflexivity].
  - lia.
  - vm_compute. exact I.
  - intros l Hl. vm_compute in Hl. injection Hl as <-.
    unfold queue_with_room. split_and!.
    + reflexivity.
    + cbn. lia.
    + cbn. lia.
    + cbn. lia.
    + cbn. lia.
    + exists [0; 1]%nat. split_and!.
      * discriminate.
      * intros Hin. repeat (apply elem_of_cons in Hin as [Hin|Hin]; [vm_compute in Hin; discriminate Hin|]).
        apply elem_of_nil in Hin. exact Hin.
      * unfold level_queue. cbn [dlinked].
        split_and!;
          lazymatch goal with
          | |- (_ < _)%nat => apply Nat.ltb_lt; vm_compute; reflexivity
          | |- NoDup _ => idtac
          | |- _ => vm_compute; reflexivity
          end.
        repeat (apply NoDup_cons; split;
                [intros Hin; repeat (apply elem_of_cons in Hin as [Hin|Hin]; [discriminate Hin|]);
                 apply elem_of_nil in Hin; exact Hin|]).
        apply NoDup_nil. exact I.
Defined.

(** ** The matching walk and the order of the lists *)

Lemma same_order_refl e : same_order e e.
Proof. repeat split. Qed.

Lemma same_order_trans e1 e2 e3 : same_order e1 e2 → same_order e2 e3 → same_order e1 e3.
Proof.
  intros (?&?&?&?&?&?) (?&?&?&?&?&?). repeat split; congruence.
Qed.

Lemma remaining_within e :
  within_quantity e →
  OrderBook.remaining_of e = OrderBookEntry.quantity e - OrderBookEntry.filled_quantity e.
Proof.
  intros (H0 & H1 & H2). unfold OrderBook.remaining_of, u64. apply Z.mod_small. lia.
Qed.

Lemma keeps_chain_add_filled v : keeps_chain (OrderBook.add_filled v).
Proof. intros e. split; reflexivity. Qed.
Lemma keeps_chain_set_status s : keeps_chain (OrderBookEntry.set_status s).
Proof. intros e. split; reflexivity. Qed.

Lemma dlinked_poke_chain i f mem ptrs : ∀ before_p p,
  keeps_chain f →
  dlinked mem before_p p ptrs → dlinked (poke i f mem) before_p p ptrs.
Proof.
  induction ptrs as [|j r IH]; intros before_p p Hf; simpl; [auto|].
  intros (-> & Hj & Hprev & Hrest).
  assert (Hl : OrderBookEntry.prev (MemoryPool.slot (poke i f mem) j)
               = OrderBookEntry.prev (MemoryPool.slot mem j)
               ∧ OrderBookEntry.next (MemoryPool.slot (poke i f mem) j)
                 = OrderBookEntry.next (MemoryPool.slot mem j)).
  { rewrite slot_poke. destruct (decide _) as [[-> _]|_]; [|auto]. apply Hf. }
  destruct Hl as [-> ->]. rewrite poke_length. split_and!; auto.
Qed.

Lemma level_queue_poke_chain i f mem l ptrs :
  keeps_chain f → level_queue mem l ptrs → level_queue (poke i f mem) l ptrs.
Proof.
  intros Hf (Hd & Ht & Hnd). split_and!; [|exact Ht|exact Hnd].
  apply dlinked_poke_chain; assumption.
Qed.

Lemma level_queue_frame mem mem' l ptrs :
  length mem' = length mem →
  (∀ p, p ∈ ptrs → MemoryPool.slot mem' p = MemoryPool.slot mem p) →
  level_queue mem l ptrs → level_queue mem' l ptrs.
Proof.
  intros Hlen Hs (Hd & Ht & Hnd). split_and!; [|exact Ht|exact Hnd].
  eapply dlinked_frame; eassumption.
Qed.

Lemma level_queue_lt mem l ptrs p :
  level_queue mem l ptrs → p ∈ ptrs → (p < length mem)%nat.
Proof.
  intros (Hd & _ & _). revert Hd. generalize (PriceLevel.head l) (@None nat).
  induction ptrs as [|j r IH]; intros h bp Hd Hin; [apply elem_of_nil in Hin; contradiction|].
  destruct Hd as (_ & Hj & _ & Hrest).
  apply elem_of_cons in Hin as [->|Hin]; [exact Hj|]. eapply IH; eassumption.
Qed.

(** What [remove_order] of the front of a list leaves in the slots: only
    links are written, and none outside the list. *)
Lemma remove_front_slots mem l r q :
  level_queue mem l (r :: q) →
  (∀ p, p ≠ r → p ∉ q →
        MemoryPool.slot (PriceLevel.remove_order mem l r).1 p = MemoryPool.slot mem p)
  ∧ (∀ p, same_order (MemoryPool.slot mem p)
            (MemoryPool.slot (PriceLevel.remove_order mem l r).1 p)
          ∧ OrderBookEntry.filled_quantity
              (MemoryPool.slot (PriceLevel.remove_order mem l r).1 p)
            = OrderBookEntry.filled_quantity (MemoryPool.slot mem p)).
Proof.
  intros ((Hhead & Hr & Hprev & Hrest) & _ & _).
  assert (Hpk : ∀ i f m p,
            (f = OrderBookEntry.set_prev None ∨ (∃ v, f = OrderBookEntry.set_next v)
             ∨ ∃ v, f = OrderBookEntry.set_prev v) →
            same_order (MemoryPool.slot m p) (MemoryPool.slot (poke i f m) p)
            ∧ OrderBookEntry.filled_quantity (MemoryPool.slot (poke i f m) p)
              = OrderBookEntry.filled_quantity (MemoryPool.slot m p)).
  { intros i f m p Hf. rewrite slot_poke. destruct (decide _) as [[-> _]|_].
    - destruct Hf as [->|[[v ->]|[v ->]]]; repeat split.
    - repeat split. }
  unfold PriceLevel.remove_order. rewrite Hprev.
  destruct q as [|n q'].
  - simpl in Hrest. rewrite Hrest. cbn [fst]. split.
    + intros p Hp _. rewrite !slot_poke_ne by congruence. reflexivity.
    + intros p.
      destruct (Hpk r (OrderBookEntry.set_prev None) mem p) as [H1 H1']; [auto|].
      destruct (Hpk r (OrderBookEntry.set_next None)
                  (poke r (OrderBookEntry.set_prev None) mem) p) as [H2 H2'];
        [right; left; eauto|].
      split; [exact (same_order_trans _ _ _ H1 H2) | congruence].
  - destruct Hrest as (Hnext & Hn & _). rewrite Hnext. cbn [fst]. rewrite ?Hprev. split.
    + intros p Hp Hq. rewrite !(slot_poke_ne r) by congruence.
      rewrite slot_poke_ne; [reflexivity|]. intros ->. apply Hq. left.
    + intros p.
      destruct (Hpk n (OrderBookEntry.set_prev (OrderBookEntry.prev (MemoryPool.slot mem r)))
                  mem p) as [H0 H0']; [right; right; eauto|].
      rewrite Hprev in H0, H0'.
      destruct (Hpk r (OrderBookEntry.set_prev None)
                  (poke n (OrderBookEntry.set_prev None) mem) p) as [H1 H1']; [auto|].
      destruct (Hpk r (OrderBookEntry.set_next None)
                  (poke r (OrderBookEntry.set_prev None)
                     (poke n (OrderBookEntry.set_prev None) mem)) p) as [H2 H2'];
        [right; left; eauto|].
      split; [exact (same_order_trans _ _ _ (same_order_trans _ _ _ H0 H1) H2) | congruence].
Qed.

(** One turn of the inner loop on a list: the front is taken off when it
    is filled completely, and stays at the front otherwise. *)
Lemma fill_fifo side_of ins entry resting level w q :
  let mem := OrderBook.mem (OrderBook.w_pool w) in
  level_queue mem level (resting :: q) → entry ∉ resting :: q → (entry < length mem)%nat →
  within_quantity (MemoryPool.slot mem entry) →
  within_quantity (MemoryPool.slot mem resting) →
  OrderBook.remaining_of (MemoryPool.slot mem entry) ≠ 0 →
  let r := OrderBook.fill side_of ins entry resting level w in
  let mem' := OrderBook.mem (OrderBook.w_pool r.2) in
  length mem' = length mem
  ∧ (∀ p, p ≠ entry → p ∉ resting :: q → MemoryPool.slot mem' p = MemoryPool.slot mem p)
  ∧ (∀ p, p ∈ q →
          same_order (MemoryPool.slot mem p) (MemoryPool.slot mem' p)
          ∧ OrderBookEntry.filled_quantity (MemoryPool.slot mem' p)
            = OrderBookEntry.filled_quantity (MemoryPool.slot mem p))
  ∧ same_order (MemoryPool.slot mem entry) (MemoryPool.slot mem' entry)
  ∧ within_quantity (MemoryPool.slot mem' entry)
  ∧ if OrderBook.remaining_of (MemoryPool.slot mem resting)
       <=? OrderBook.remaining_of (MemoryPool.slot mem entry)
    then level_queue mem' r.1 q
    else level_queue mem' r.1 (resting :: q)
         ∧ OrderBook.remaining_of (MemoryPool.slot mem' entry) = 0
         ∧ same_order (MemoryPool.slot mem resting) (MemoryPool.slot mem' resting)
         ∧ within_quantity (MemoryPool.slot mem' resting).
Proof.
  intros mem Hq Hnotin Hentry He Hr Hrem r mem'.
  assert (Hne : entry ≠ resting) by (intros ->; apply Hnotin; left).
  assert (Hresting : (resting < length mem)%nat)
    by (eapply level_queue_lt; [exact Hq | left]).
  pose proof (remaining_within _ He) as Hre.
  pose proof (remaining_within _ Hr) as Hrr.
  destruct He as (He0 & He1 & He2). destruct Hr as (Hr0 & Hr1 & Hr2).
  set (e := MemoryPool.slot mem entry) in *.
  set (r0 := MemoryPool.slot mem resting) in *.
  set (f := Z.min (OrderBook.remaining_of e) (OrderBook.remaining_of r0)).
  set (m1 := poke entry (OrderBook.add_filled f) mem).
  set (m2 := poke resting (OrderBook.add_filled f) m1).
  assert (Hm2e : MemoryPool.slot m2 entry = OrderBook.add_filled f e).
  { subst m2 m1. rewrite slot_poke_ne by congruence. apply slot_poke_eq. exact Hentry. }
  assert (Hm2r : MemoryPool.slot m2 resting = OrderBook.add_filled f r0).
  { subst m2 m1. rewrite slot_poke_eq by (rewrite poke_length; exact Hresting).
    rewrite slot_poke_ne by congruence. reflexivity. }
  assert (Hm2o : ∀ p, p ≠ entry → p ≠ resting → MemoryPool.slot m2 p = MemoryPool.slot mem p).
  { intros p H1 H2. subst m2 m1. rewrite !slot_poke_ne by congruence. reflexivity. }
  assert (Hlen2 : length m2 = length mem) by (subst m2 m1; rewrite !poke_length; reflexivity).
  assert (Hq2 : level_queue m2 level (resting :: q)).
  { subst m2 m1. repeat apply level_queue_poke_chain; try apply keeps_chain_add_filled.
    exact Hq. }
  assert (Hf : 0 ≤ f ∧ f ≤ OrderBook.remaining_of e ∧ f ≤ OrderBook.remaining_of r0) by lia.
  assert (Hfe : OrderBookEntry.filled_quantity (OrderBook.add_filled f e)
                = OrderBookEntry.filled_quantity e + f).
  { cbn. unfold u64. apply Z.mod_small. lia. }
  assert (Hfr : OrderBookEntry.filled_quantity (OrderBook.add_filled f r0)
                = OrderBookEntry.filled_quantity r0 + f).
  { cbn. unfold u64. apply Z.mod_small. lia. }
  assert (Hinq : ∀ p, p ∈ q → p ≠ entry ∧ p ≠ resting).
  { intros p Hp. split; intros ->.
    - apply Hnotin. right. exact Hp.
    - destruct Hq as (_ & _ & Hnd). apply NoDup_cons in Hnd as [Hn _]. contradiction. }
  subst r mem'. unfold OrderBook.fill.
  fold (OrderBook.mem (OrderBook.w_pool w)). fold mem.
  unfold OrderBook.deref. fold mem. fold e r0 f m1 m2.
  rewrite Hm2r. cbn [OrderBookEntry.quantity OrderBook.add_filled
                       OrderBookEntry.set_filled_quantity].
  change (u64 (OrderBookEntry.filled_quantity r0 + f))
    with (OrderBookEntry.filled_quantity (OrderBook.add_filled f r0)).
  rewrite Hfr.
  destruct (OrderBook.remaining_of r0 <=? OrderBook.remaining_of e) eqn:Hfull;
    [apply Z.leb_le in Hfull | apply Z.leb_gt in Hfull].
  - replace (OrderBookEntry.quantity r0 <=? OrderBookEntry.filled_quantity r0 + f) with true
      by (symmetry; apply Z.leb_le; lia).
    set (m3 := poke resting (OrderBookEntry.set_status Filled) m2).
    assert (Hq3 : level_queue m3 level (resting :: q))
      by (apply level_queue_poke_chain; [apply keeps_chain_set_status | exact Hq2]).
    pose proof (remove_front_queue _ _ _ _ Hq3) as Hq4.
    pose proof (remove_front_slots _ _ _ _ Hq3) as [Hs4 Hso4].
    pose proof (remove_order_length m3 level resting) as Hlen4.
    destruct (PriceLevel.remove_order m3 level resting) as [m4 level4].
    cbn [fst snd] in *.
    cbn [OrderBook.w_pool OrderBook.mem MemoryPool.deallocate MemoryPool.storage_
         OrderBook.with_mem].
    assert (Hlen3 : length m3 = length mem) by (subst m3; rewrite poke_length; exact Hlen2).
    assert (Hm3o : ∀ p, p ≠ resting → MemoryPool.slot m3 p = MemoryPool.slot m2 p)
      by (intros p Hp; subst m3; rewrite slot_poke_ne by congruence; reflexivity).
    split_and!.
    + rewrite length_insert. congruence.
    + intros p Hp Hpq. apply not_elem_of_cons in Hpq as [Hpr Hpq].
      rewrite slot_insert, decide_False by (intros [? _]; congruence).
      rewrite Hs4 by assumption. rewrite Hm3o by assumption. apply Hm2o; assumption.
    + intros p Hp. destruct (Hinq p Hp) as [Hpe Hpr].
      rewrite slot_insert, decide_False by (intros [? _]; congruence).
      destruct (Hso4 p) as [Hso Hfq]. rewrite Hm3o, Hm2o in Hso, Hfq by assumption.
      split; assumption.
    + rewrite slot_insert, decide_False by (intros [? _]; congruence).
      destruct (Hso4 entry) as [Hso _]. rewrite Hm3o, Hm2e in Hso by congruence.
      eapply same_order_trans; [|exact Hso]. repeat split.
    + rewrite slot_insert, decide_False by (intros [? _]; congruence).
      destruct (Hso4 entry) as [(_ & _ & _ & _ & Hqty & _) Hfq].
      rewrite Hm3o, Hm2e in Hqty, Hfq by congruence.
      unfold within_quantity. rewrite Hqty, Hfq, Hfe.
      cbn [OrderBookEntry.quantity OrderBook.add_filled OrderBookEntry.set_filled_quantity].
      lia.
    + eapply level_queue_frame; [| |exact Hq4].
      * rewrite length_insert. reflexivity.
      * intros p Hp. destruct (Hinq p Hp) as [_ Hpr].
        rewrite slot_insert, decide_False by (intros [? _]; congruence). reflexivity.
  - replace (OrderBookEntry.quantity r0 <=? OrderBookEntry.filled_quantity r0 + f) with false
      by (symmetry; apply Z.leb_gt; lia).
    set (m3 := poke resting (OrderBookEntry.set_status PartiallyFilled) m2).
    cbn [fst snd OrderBook.w_pool OrderBook.mem MemoryPool.storage_ OrderBook.with_mem].
    assert (Hlen3 : length m3 = length mem) by (subst m3; rewrite poke_length; exact Hlen2).
    assert (Hm3o : ∀ p, p ≠ resting → MemoryPool.slot m3 p = MemoryPool.slot m2 p)
      by (intros p Hp; subst m3; rewrite slot_poke_ne by congruence; reflexivity).
    assert (Hm3r : MemoryPool.slot m3 resting
                   = OrderBookEntry.set_status PartiallyFilled (OrderBook.add_filled f r0)).
    { subst m3. rewrite slot_poke_eq by (rewrite Hlen2; exact Hresting). rewrite Hm2r.
      reflexivity. }
    split_and!.
    + exact Hlen3.
    + intros p Hp Hpq. apply not_elem_of_cons in Hpq as [Hpr Hpq].
      rewrite Hm3o by assumption. apply Hm2o; assumption.
    + intros p Hp. destruct (Hinq p Hp) as [Hpe Hpr].
      rewrite Hm3o, Hm2o by assumption. split; [apply same_order_refl | reflexivity].
    + rewrite Hm3o, Hm2e by congruence. repeat split.
    + rewrite Hm3o, Hm2e by congruence. unfold within_quantity. rewrite Hfe.
      cbn [OrderBookEntry.quantity OrderBook.add_filled OrderBookEntry.set_filled_quantity].
      lia.
    + destruct Hq2 as (Hd & Ht & Hnd). split_and!; [|exact Ht|exact Hnd].
      apply dlinked_poke_chain; [apply keeps_chain_set_status | exact Hd].
    + rewrite Hm3o, Hm2e by congruence.
      unfold OrderBook.remaining_of at 1.
      cbn [OrderBookEntry.quantity OrderBook.add_filled OrderBookEntry.set_filled_quantity
           OrderBookEntry.filled_quantity].
      fold (OrderBookEntry.filled_quantity e).
      assert (Hfeq : f = OrderBook.remaining_of e) by lia.
      unfold u64. rewrite (Z.mod_small (_ + f)) by lia.
      replace (OrderBookEntry.quantity e - (OrderBookEntry.filled_quantity e + f)) with 0
        by lia.
      reflexivity.
    + rewrite Hm3r. repeat split.
    + rewrite Hm3r. unfold within_quantity.
      cbn [OrderBookEntry.quantity OrderBook.add_filled OrderBookEntry.set_filled_quantity
           OrderBookEntry.set_status OrderBookEntry.filled_quantity].
      unfold u64. rewrite Z.mod_small by lia. lia.
Qed.

Lemma in_order_nil s entry mem flat :
  within_quantity (MemoryPool.slot mem entry) →
  Forall (fun p => within_quantity (MemoryPool.slot mem p)) flat →
  in_order s entry mem mem flat [] 0 0.
Proof.
  intros He Hall. unfold in_order. rewrite !take_0, !drop_0.
  rewrite Forall_forall in Hall.
  split_and!.
  - lia.
  - lia.
  - lia.
  - constructor.
  - constructor.
  - reflexivity.
  - reflexivity.
  - intros p Hp. split; [apply same_order_refl | apply Hall, Hp].
  - reflexivity.
  - apply same_order_refl.
  - exact He.
  - discriminate.
Qed.

Lemma trade_against_same s e e' r r' t :
  OrderBookEntry.id e' = OrderBookEntry.id e →
  same_order r r' →
  OrderBookEntry.filled_quantity r' = OrderBookEntry.filled_quantity r →
  trade_against s e' r' t → trade_against s e r t.
Proof.
  intros Hid (Hrid & _ & _ & Hp & Hq & _) Hf (Hids & Hprice & Hqty).
  unfold trade_against, OrderBook.remaining_of in *.
  rewrite Hid, Hrid, Hp, Hq, Hf in *. auto.
Qed.

Lemma Forall2_impl_in {A B} (P Q : A → B → Prop) l k :
  Forall2 P l k → (∀ x y, y ∈ k → P x y → Q x y) → Forall2 Q l k.
Proof.
  induction 1 as [|x y l k Hxy Hlk IH]; intros Himp; constructor.
  - apply Himp; [left | exact Hxy].
  - apply IH. intros x' y' Hy'. apply Himp. right. exact Hy'.
Qed.

Lemma in_take {A} (l : list A) k p : p ∈ take k l → p ∈ l.
Proof. rewrite <- (take_drop k l) at 2. intros H. apply elem_of_app. auto. Qed.

Lemma in_drop {A} (l : list A) k p : p ∈ drop k l → p ∈ l.
Proof. rewrite <- (take_drop k l) at 2. intros H. apply elem_of_app. auto. Qed.

(** A stretch that filled every order it traded with, and the stretch
    after it. *)
Lemma in_order_app s entry mem mem1 mem2 flat new1 new2 m1 n2 m2 :
  in_order s entry mem mem1 flat new1 m1 m1 →
  in_order s entry mem1 mem2 (drop m1 flat) new2 n2 m2 →
  in_order s entry mem mem2 flat (new1 ++ new2) (m1 + n2) (m1 + m2).
Proof.
  intros (_ & _ & Hlen1 & Ht1 & Hf1 & Hl1 & Hfr1 & Hso1 & Hfq1 & He1 & Hw1 & _)
         (Hmn & Hnm & Hlen2 & Ht2 & Hf2 & Hl2 & Hfr2 & Hso2 & Hfq2 & He2 & Hw2 & Hz2).
  rewrite length_drop in Hlen2.
  assert (Hnew1 : length new1 = m1).
  { apply Forall2_length in Ht1. rewrite length_take in Ht1. lia. }
  assert (Hsplit : ∀ k, take (m1 + k) flat = take m1 flat ++ take k (drop m1 flat)).
  { intros k. rewrite <- (take_drop m1 flat) at 1.
    rewrite take_app_add'; [reflexivity|]. rewrite length_take. lia. }
  assert (Hdrop : ∀ k, drop (m1 + k) flat = drop k (drop m1 flat)).
  { intros k. rewrite drop_drop. reflexivity. }
  assert (Hback : ∀ t p, p ∈ drop m1 flat →
            trade_against s (MemoryPool.slot mem1 entry) (MemoryPool.slot mem1 p) t →
            trade_against s (MemoryPool.slot mem entry) (MemoryPool.slot mem p) t).
  { intros t p Hp. apply trade_against_same.
    - apply He1.
    - apply Hso1, Hp.
    - apply Hfq1, Hp. }
  assert (Hrem : ∀ p, p ∈ drop m1 flat →
            OrderBook.remaining_of (MemoryPool.slot mem1 p)
            = OrderBook.remaining_of (MemoryPool.slot mem p)).
  { intros p Hp. destruct (Hso1 p Hp) as [(_ & _ & _ & _ & Hq & _) _].
    unfold OrderBook.remaining_of. rewrite Hq, (Hfq1 p Hp). reflexivity. }
  unfold in_order. split_and!; try lia.
  - rewrite Hsplit. apply Forall2_app; [exact Ht1|].
    eapply Forall2_impl_in; [exact Ht2|].
    intros t p Hp. apply Hback. eapply in_take, Hp.
  - assert (Htk : take (m1 + m2) (new1 ++ new2) = take m1 new1 ++ take m2 new2).
    { clear -Hnew1. subst m1. rewrite take_app_add, firstn_all. reflexivity. }
    rewrite Hsplit, Htk.
    apply Forall2_app; [exact Hf1|].
    eapply Forall2_impl_in; [exact Hf2|].
    intros t p Hp ->. apply Hrem. eapply in_take, Hp.
  - intros p Hpe Hp. rewrite Hfr2, Hfr1; auto.
    intros Hin. apply Hp. eapply in_drop, Hin.
  - intros p Hp. rewrite Hdrop in Hp. destruct (Hso2 p Hp) as [Hs2 Hwq2].
    split; [|exact Hwq2].
    eapply same_order_trans; [|exact Hs2]. apply Hso1. eapply in_drop, Hp.
  - intros p Hp. rewrite Hdrop in Hp. rewrite (Hfq2 p Hp). apply Hfq1.
    eapply in_drop, Hp.
  - eapply same_order_trans; eassumption.
  - exact Hw2.
Qed.

(** A stretch over a list is a stretch over that list and more. *)
Lemma in_order_more s entry mem mem' flat more new n m :
  in_order s entry mem mem' flat new n m →
  Forall (fun p => within_quantity (MemoryPool.slot mem p) ∧ p ≠ entry ∧ p ∉ flat) more →
  in_order s entry mem mem' (flat ++ more) new n m.
Proof.
  intros (Hmn & Hnm & Hlen & Ht & Hf & Hl & Hfr & Hso & Hfq & He & Hw & Hz) Hmore.
  rewrite Forall_forall in Hmore.
  assert (Hsame : ∀ p, p ∈ more → MemoryPool.slot mem' p = MemoryPool.slot mem p).
  { intros p Hp. destruct (Hmore p Hp) as (_ & Hpe & Hpf). apply Hfr; assumption. }
  unfold in_order. rewrite length_app.
  rewrite !take_app_le by lia. rewrite !drop_app_le by lia.
  split_and!; try lia; try assumption.
  - intros p Hpe Hp. apply Hfr; [exact Hpe|]. intros Hin. apply Hp, elem_of_app. auto.
  - intros p [Hp|Hp]%elem_of_app; [apply Hso, Hp|].
    rewrite (Hsame p Hp). split; [apply same_order_refl | apply Hmore, Hp].
  - intros p [Hp|Hp]%elem_of_app; [apply Hfq, Hp|]. rewrite (Hsame p Hp). reflexivity.
Qed.

Lemma match_level_done side_of ins entry fuel level w resting :
  PriceLevel.front level = Some resting →
  OrderBook.remaining_of (OrderBook.deref (OrderBook.w_pool w) entry) = 0 →
  ∃ ret, OrderBook.match_level fuel side_of ins entry level w = (level, w, ret)
         ∧ (ret = false →
            fuel = O ∨ OrderBook.MAX_TRADES_PER_MATCH ≤ OrderBook.trade_count w).
Proof.
  intros Hfront Hrem. destruct fuel; cbn [OrderBook.match_level].
  - exists false. auto.
  - rewrite Hfront.
    destruct (OrderBook.trade_count w <? OrderBook.MAX_TRADES_PER_MATCH) eqn:Hg; cbn [negb].
    + rewrite Hrem. change (0 =? 0) with true. cbv iota.
      exists true. split; [reflexivity | discriminate].
    + exists false. split; [reflexivity|]. intros _. right. apply Z.ltb_ge, Hg.
Qed.

Lemma trade_of_against side_of s ins e r :
  side_of e = s → within_quantity e → within_quantity r →
  trade_against s e r (trade_of side_of ins e r).
Proof.
  intros Hs He Hr. pose proof (remaining_within _ He). pose proof (remaining_within _ Hr).
  destruct He as (?&?&?), Hr as (?&?&?).
  unfold trade_against, trade_of. cbn. rewrite Hs.
  split_and!; [destruct s; auto | reflexivity | lia | lia].
Qed.

(** The inner loop on a list: the trades are against the orders of the
    list from its head on, and what is left of the list is left in its
    order. *)
Lemma match_level_fifo side_of s ins entry fuel : ∀ level w q level' w' ret,
  (∀ e e', OrderBookEntry.side e' = OrderBookEntry.side e → side_of e' = side_of e) →
  side_of (MemoryPool.slot (OrderBook.mem (OrderBook.w_pool w)) entry) = s →
  OrderBook.MAX_TRADES_PER_MATCH ≤ Z.of_nat fuel + OrderBook.trade_count w →
  level_queue (OrderBook.mem (OrderBook.w_pool w)) level q →
  entry ∉ q → (entry < length (OrderBook.mem (OrderBook.w_pool w)))%nat →
  within_quantity (MemoryPool.slot (OrderBook.mem (OrderBook.w_pool w)) entry) →
  Forall (fun p => within_quantity (MemoryPool.slot (OrderBook.mem (OrderBook.w_pool w)) p))
    q →
  OrderBook.match_level fuel side_of ins entry level w = (level', w', ret) →
  ∃ new n m,
    OrderBook.w_trades w' = OrderBook.w_trades w ++ new
    ∧ in_order s entry (OrderBook.mem (OrderBook.w_pool w))
        (OrderBook.mem (OrderBook.w_pool w')) q new n m
    ∧ level_queue (OrderBook.mem (OrderBook.w_pool w')) level' (drop m q)
    ∧ (ret = true → drop m q ≠ [])
    ∧ (ret = false →
       drop m q = [] ∨ OrderBook.MAX_TRADES_PER_MATCH ≤ OrderBook.trade_count w').
Proof.
  induction fuel as [|fuel IH];
    intros level w q level' w' ret Hso Hs Hfuel Hq Hnotin Hentry He Hall Hrun.
  - cbn in Hrun. injection Hrun as <- <- <-.
    exists [], 0%nat, 0%nat. rewrite app_nil_r, drop_0.
    split_and!; [reflexivity | apply in_order_nil; assumption | exact Hq | discriminate |].
    intros _. right. lia.
  - cbn [OrderBook.match_level] in Hrun.
    destruct q as [|resting q1].
    { assert (Hfront : PriceLevel.front level = None) by apply Hq.
      rewrite Hfront in Hrun. injection Hrun as <- <- <-.
      exists [], 0%nat, 0%nat. rewrite app_nil_r, drop_0.
      split_and!; [reflexivity | apply in_order_nil; assumption | exact Hq | discriminate |].
      intros _. left. reflexivity. }
    rewrite (front_queue _ _ _ _ Hq) in Hrun.
    destruct (OrderBook.trade_count w <? OrderBook.MAX_TRADES_PER_MATCH) eqn:Hg;
      cbn [negb] in Hrun; cbv iota in Hrun.
    2:{ injection Hrun as <- <- <-.
        exists [], 0%nat, 0%nat. rewrite app_nil_r, drop_0.
        split_and!; [reflexivity | apply in_order_nil; assumption | exact Hq | discriminate |].
        intros _. right. apply Z.ltb_ge, Hg. }
    destruct (OrderBook.remaining_of (OrderBook.deref (OrderBook.w_pool w) entry) =? 0)
      eqn:Hrem.
    { injection Hrun as <- <- <-.
      exists [], 0%nat, 0%nat. rewrite app_nil_r, drop_0.
      split_and!; [reflexivity | apply in_order_nil; assumption | exact Hq
                  | discriminate | discriminate]. }
    apply Z.eqb_neq in Hrem. unfold OrderBook.deref in Hrem.
    pose proof Hall as Hall'. apply Forall_cons in Hall' as [Hr Hall1].
    pose proof (fill_fifo side_of ins entry resting level w q1 Hq Hnotin Hentry He Hr Hrem)
      as Hfill.
    pose proof (fill_trades side_of ins entry resting level w) as Htr.
    destruct (OrderBook.fill side_of ins entry resting level w) as [level1 w1] eqn:Hf.
    cbv zeta in Hfill. cbn [fst snd] in Hfill, Htr. unfold OrderBook.deref in Htr.
    set (mem := OrderBook.mem (OrderBook.w_pool w)) in *.
    set (mem1 := OrderBook.mem (OrderBook.w_pool w1)) in *.
    set (t0 := trade_of side_of ins (MemoryPool.slot mem entry) (MemoryPool.slot mem resting))
      in *.
    destruct Hfill as (Hlen1 & Hfr1 & Hq1s & He1 & Hw1 & Hcase).
    assert (Htc1 : OrderBook.trade_count w1 = OrderBook.trade_count w + 1).
    { unfold OrderBook.trade_count. rewrite Htr, length_app. cbn. lia. }
    assert (Ht0 : trade_against s (MemoryPool.slot mem entry) (MemoryPool.slot mem resting) t0)
      by (apply trade_of_against; assumption).
    assert (Hs1 : side_of (MemoryPool.slot mem1 entry) = s).
    { rewrite <- Hs. apply Hso. apply He1. }
    assert (Hq1w : ∀ p, p ∈ q1 → within_quantity (MemoryPool.slot mem1 p)).
    { intros p Hp. destruct (Hq1s p Hp) as [(_ & _ & _ & _ & Hqty & _) Hfq].
      rewrite Forall_forall in Hall1. specialize (Hall1 p Hp).
      unfold within_quantity in *. rewrite Hqty, Hfq. exact Hall1. }
    apply not_elem_of_cons in Hnotin as [Hne Hnotin1].
    destruct (OrderBook.remaining_of (MemoryPool.slot mem resting)
              <=? OrderBook.remaining_of (MemoryPool.slot mem entry)) eqn:Hfull.
    + (* the front is filled completely and taken off *)
      apply Z.leb_le in Hfull.
      assert (Hstage : in_order s entry mem mem1 (resting :: q1) [t0] 1 1).
      { unfold in_order. cbn [take firstn drop skipn length].
        rewrite !take_0.
        split_and!; try lia.
        - constructor; [exact Ht0 | constructor].
        - constructor; [|constructor]. subst t0. cbn. lia.
        - exact Hfr1.
        - intros p Hp. split; [apply Hq1s, Hp | apply Hq1w, Hp].
        - intros p Hp. apply Hq1s, Hp.
        - exact He1.
        - exact Hw1. }
      destruct (IH level1 w1 q1 level' w' ret Hso Hs1 ltac:(lia) Hcase Hnotin1
                  ltac:(fold mem1; rewrite Hlen1; exact Hentry) Hw1
                  ltac:(apply Forall_forall; exact Hq1w) Hrun)
        as (new2 & n2 & m2 & Htr2 & Hord2 & Hq2 & Hret1 & Hret0).
      exists (t0 :: new2), (S n2), (S m2).
      split_and!.
      * rewrite Htr2, Htr, <- app_assoc. reflexivity.
      * apply (in_order_app s entry mem mem1 _ (resting :: q1) [t0] new2 1 n2 m2 Hstage).
        exact Hord2.
      * exact Hq2.
      * exact Hret1.
      * exact Hret0.
    + (* the front is filled in part and stays *)
      apply Z.leb_gt in Hfull.
      destruct Hcase as (Hq1 & Hzero & Hsr & Hwr).
      destruct (match_level_done side_of ins entry fuel level1 w1 resting
                  (front_queue _ _ _ _ Hq1) Hzero) as (ret' & Hdone & Hret').
      rewrite Hdone in Hrun. injection Hrun as <- <- <-.
      exists [t0], 1%nat, 0%nat. rewrite drop_0.
      split_and!.
      * exact Htr.
      * unfold in_order. cbn [take firstn drop skipn length]. rewrite !take_0.
        split_and!; try lia.
        -- constructor; [exact Ht0 | constructor].
        -- constructor.
        -- exact Hlen1.
        -- exact Hfr1.
        -- intros p [->|Hp]%elem_of_cons; [split; assumption|].
           split; [apply Hq1s, Hp | apply Hq1w, Hp].
        -- intros p Hp. apply Hq1s, Hp.
        -- exact He1.
        -- exact Hw1.
        -- intros _. exact Hzero.
      * exact Hq1.
      * discriminate.
      * intros Hfalse. right. destruct (Hret' Hfalse) as [->|Hcap]; lia.
Qed.

Lemma level_queue_empty mem l ptrs :
  level_queue mem l ptrs → (PriceLevel.empty l = true ↔ ptrs = []).
Proof.
  intros (Hd & _ & _). unfold PriceLevel.empty. destruct ptrs as [|p r].
  - cbn in Hd. rewrite Hd, bool_decide_eq_true_2 by reflexivity. tauto.
  - destruct Hd as (Hh & _). rewrite Hh, bool_decide_eq_false_2 by discriminate.
    split; discriminate.
Qed.

Lemma side_queues_within mem levels qs :
  side_queues mem levels qs →
  Forall (fun p => within_quantity (MemoryPool.slot mem p)) (concat qs).
Proof.
  intros [Hall _]. induction Hall as [|kl q levels qs (_ & _ & Hw) _ IH]; cbn.
  - constructor.
  - apply Forall_app. auto.
Qed.

Lemma side_queues_frame mem mem' levels qs :
  length mem' = length mem →
  (∀ p, p ∈ concat qs → MemoryPool.slot mem' p = MemoryPool.slot mem p) →
  side_queues mem levels qs → side_queues mem' levels qs.
Proof.
  intros Hlen Hsame [Hall Hnd]. split; [|exact Hnd]. clear Hnd.
  induction Hall as [|kl q levels qs (Hq & Hne & Hw) _ IH]; constructor.
  - split_and!; [|exact Hne|].
    + eapply level_queue_frame; [exact Hlen | | exact Hq].
      intros p Hp. apply Hsame. cbn. apply elem_of_app. auto.
    + rewrite Forall_forall in *. intros p Hp. rewrite Hsame; [apply Hw, Hp|].
      cbn. apply elem_of_app. auto.
  - apply IH. intros p Hp. apply Hsame. cbn. apply elem_of_app. auto.
Qed.

Lemma match_against_capped limit side_of ins entry levels w :
  OrderBook.MAX_TRADES_PER_MATCH ≤ OrderBook.trade_count w →
  OrderBook.match_against limit side_of ins entry levels w = (levels, w).
Proof.
  intros Hcap. destruct levels as [|[k l] rest]; [reflexivity|].
  cbn [OrderBook.match_against].
  replace (OrderBook.trade_count w <? OrderBook.MAX_TRADES_PER_MATCH) with false
    by (symmetry; apply Z.ltb_ge; exact Hcap).
  reflexivity.
Qed.

(** The outer loop on the lists of one side: the trades are against the
    orders of the levels from the first level on, each level from its
    head on, and what is left is left in its order. *)
Lemma match_against_fifo limit side_of s ins entry : ∀ levels qs w levels' w',
  (∀ e e', OrderBookEntry.side e' = OrderBookEntry.side e → side_of e' = side_of e) →
  side_of (MemoryPool.slot (OrderBook.mem (OrderBook.w_pool w)) entry) = s →
  side_queues (OrderBook.mem (OrderBook.w_pool w)) levels qs →
  entry ∉ concat qs → (entry < length (OrderBook.mem (OrderBook.w_pool w)))%nat →
  within_quantity (MemoryPool.slot (OrderBook.mem (OrderBook.w_pool w)) entry) →
  OrderBook.match_against limit side_of ins entry levels w = (levels', w') →
  ∃ new n m qs',
    OrderBook.w_trades w' = OrderBook.w_trades w ++ new
    ∧ in_order s entry (OrderBook.mem (OrderBook.w_pool w))
        (OrderBook.mem (OrderBook.w_pool w')) (concat qs) new n m
    ∧ side_queues (OrderBook.mem (OrderBook.w_pool w')) levels' qs'
    ∧ concat qs' = drop m (concat qs).
Proof.
  induction levels as [|[k level] rest IH];
    intros qs w levels' w' Hso Hs Hqs Hnotin Hentry He Hrun.
  - cbn in Hrun. injection Hrun as <- <-.
    destruct Hqs as [Hall Hnd]. apply Forall2_nil_inv_l in Hall as ->.
    exists [], 0%nat, 0%nat, []. rewrite app_nil_r.
    split_and!; [reflexivity | apply in_order_nil; [exact He | constructor]
                | split; [constructor | exact Hnd] | reflexivity].
  - assert (Hnone : ∃ new n m qs',
              OrderBook.w_trades w = OrderBook.w_trades w ++ new
              ∧ in_order s entry (OrderBook.mem (OrderBook.w_pool w))
                  (OrderBook.mem (OrderBook.w_pool w)) (concat qs) new n m
              ∧ side_queues (OrderBook.mem (OrderBook.w_pool w)) ((k, level) :: rest) qs'
              ∧ concat qs' = drop m (concat qs)).
    { exists [], 0%nat, 0%nat, qs. rewrite app_nil_r, drop_0.
      split_and!; [reflexivity | | exact Hqs | reflexivity].
      apply in_order_nil; [exact He | eapply side_queues_within; exact Hqs]. }
    cbn [OrderBook.match_against] in Hrun.
    destruct (negb (OrderBook.trade_count w <? OrderBook.MAX_TRADES_PER_MATCH));
      [injection Hrun as <- <-; exact Hnone|].
    destruct (limit && _ && _); [injection Hrun as <- <-; exact Hnone|].
    destruct (limit && _ && _); [injection Hrun as <- <-; exact Hnone|].
    clear Hnone.
    pose proof Hqs as [Hall Hnd].
    apply Forall2_cons_inv_l in Hall as (q & qs_r & (Hq & Hqne & Hqw) & Hall_r & ->).
    cbn [concat] in *.
    apply not_elem_of_app in Hnotin as [Hnotin_q Hnotin_r].
    apply NoDup_app in Hnd as (Hnd_q & Hdisj & Hnd_r).
    set (mem := OrderBook.mem (OrderBook.w_pool w)) in *.
    assert (Hqs_r : side_queues mem rest qs_r) by (split; assumption).
    destruct (OrderBook.match_level (Z.to_nat OrderBook.MAX_TRADES_PER_MATCH) side_of ins
                entry level w) as [[level1 w1] ret] eqn:Hlevel.
    assert (Htc0 : 0 ≤ OrderBook.trade_count w) by (unfold OrderBook.trade_count; lia).
    destruct (match_level_fifo side_of s ins entry
                (Z.to_nat OrderBook.MAX_TRADES_PER_MATCH) level w q level1 w1 ret Hso Hs
                ltac:(unfold OrderBook.MAX_TRADES_PER_MATCH in *; lia)
                Hq Hnotin_q Hentry He Hqw Hlevel)
      as (new1 & n1 & m1 & Htr1 & Hord1 & Hq1 & Hret1 & Hret0).
    set (mem1 := OrderBook.mem (OrderBook.w_pool w1)) in *.
    pose proof Hord1 as (Hmn1 & Hnm1 & Hnl1 & _ & _ & Hlen1 & Hfr1 & Hso1 & _ & He1 & Hw1 & _).
    assert (Hmore : Forall (fun p => within_quantity (MemoryPool.slot mem p)
                                     ∧ p ≠ entry ∧ p ∉ q) (concat qs_r)).
    { pose proof (side_queues_within _ _ _ Hqs_r) as Hw_r.
      rewrite Forall_forall in *. intros p Hp. split_and!; [apply Hw_r, Hp | |].
      - intros ->. contradiction.
      - intros Hpq. exact (Hdisj p Hpq Hp). }
    pose proof (in_order_more s entry mem mem1 q (concat qs_r) new1 n1 m1 Hord1 Hmore)
      as Hord1'.
    assert (Hqs_r1 : side_queues mem1 rest qs_r).
    { eapply side_queues_frame; [exact Hlen1 | | exact Hqs_r].
      rewrite Forall_forall in Hmore. intros p Hp. destruct (Hmore p Hp) as (_ & Hpe & Hpq).
      apply Hfr1; assumption. }
    assert (Hstay : drop m1 q ≠ [] →
              ∃ new n m qs',
                OrderBook.w_trades w1 = OrderBook.w_trades w ++ new
                ∧ in_order s entry mem mem1 (q ++ concat qs_r) new n m
                ∧ side_queues mem1 ((k, level1) :: rest) qs'
                ∧ concat qs' = drop m (q ++ concat qs_r)).
    { intros Hleft. exists new1, n1, m1, (drop m1 q :: qs_r).
      split_and!; [exact Htr1 | exact Hord1' | |].
      - split.
        + constructor; [|apply Hqs_r1]. split_and!; [exact Hq1 | exact Hleft |].
          apply Forall_forall. intros p Hp. apply Hso1, Hp.
        + cbn [concat]. apply NoDup_app. split_and!; [| |exact Hnd_r].
          * rewrite <- (take_drop m1 q) in Hnd_q. apply NoDup_app in Hnd_q. apply Hnd_q.
          * intros p Hp. apply Hdisj. eapply in_drop, Hp.
      - cbn [concat]. rewrite drop_app_le by lia. reflexivity. }
    destruct ret.
    + injection Hrun as <- <-. apply Hstay, Hret1. reflexivity.
    + destruct (PriceLevel.empty level1) eqn:Hempty.
      * (* the level is used up *)
        apply (level_queue_empty _ _ _ Hq1) in Hempty.
        assert (Hm1 : m1 = length q).
        { apply (f_equal length) in Hempty. rewrite length_drop in Hempty. cbn in Hempty.
          lia. }
        assert (Hn1 : n1 = length q) by lia.
        subst n1 m1.
        assert (Hs1 : side_of (MemoryPool.slot mem1 entry) = s)
          by (rewrite <- Hs; apply Hso, He1).
        destruct (IH qs_r w1 levels' w' Hso Hs1 Hqs_r1 Hnotin_r
                    ltac:(fold mem1; rewrite Hlen1; exact Hentry) Hw1 Hrun)
          as (new2 & n2 & m2 & qs2 & Htr2 & Hord2 & Hqs2 & Hcat2).
        exists (new1 ++ new2), (length q + n2)%nat, (length q + m2)%nat, qs2.
        split_and!.
        -- rewrite Htr2, Htr1, <- app_assoc. reflexivity.
        -- apply (in_order_app s entry mem mem1 _ (q ++ concat qs_r) new1 new2
                    (length q) n2 m2 Hord1').
           rewrite drop_app_length. exact Hord2.
        -- exact Hqs2.
        -- rewrite Hcat2, <- drop_drop, drop_app_length. reflexivity.
      * (* the cap: the walk is over *)
        assert (Hleft : drop m1 q ≠ []).
        { intros Hnil. apply (level_queue_empty _ _ _ Hq1) in Hnil. congruence. }
        destruct (Hret0 eq_refl) as [Hnil|Hcap]; [contradiction|].
        rewrite (match_against_capped _ _ _ _ _ _ Hcap) in Hrun.
        injection Hrun as <- <-. apply Hstay, Hleft.
Qed.

Lemma walk_asks_fifo limit side_of b entry qs :
  (∀ e e', OrderBookEntry.side e' = OrderBookEntry.side e → side_of e' = side_of e) →
  side_of (OrderBook.deref (OrderBook.pool_ b) entry) = Buy →
  side_queues (OrderBook.mem (OrderBook.pool_ b)) (OrderBook.asks_ b) qs →
  entry ∉ concat qs → (entry < length (OrderBook.mem (OrderBook.pool_ b)))%nat →
  within_quantity (OrderBook.deref (OrderBook.pool_ b) entry) →
  let walked := OrderBook.walk_asks limit side_of b entry [] in
  ∃ n m qs',
    in_order Buy entry (OrderBook.mem (OrderBook.pool_ b))
      (OrderBook.mem (OrderBook.pool_ walked.1)) (concat qs) walked.2 n m
    ∧ side_queues (OrderBook.mem (OrderBook.pool_ walked.1)) (OrderBook.asks_ walked.1) qs'
    ∧ concat qs' = drop m (concat qs)
    ∧ OrderBook.bids_ walked.1 = OrderBook.bids_ b.
Proof.
  intros Hso Hs Hqs Hnotin Hentry He walked. subst walked. unfold OrderBook.walk_asks.
  destruct (OrderBook.match_against limit side_of (OrderBook.instrument_ b) entry
              (OrderBook.asks_ b)
              (OrderBook.mkWalk (OrderBook.pool_ b) (OrderBook.orders_ b) []))
    as [asks' w] eqn:Hrun.
  destruct (match_against_fifo limit side_of Buy _ entry _ qs
              (OrderBook.mkWalk (OrderBook.pool_ b) (OrderBook.orders_ b) []) _ _
              Hso Hs Hqs Hnotin Hentry He Hrun) as (new & n & m & qs' & Htr & Hord & Hqs' & Hcat).
  cbn [OrderBook.w_trades OrderBook.w_pool app] in Htr, Hord.
  cbn [fst snd].
  match goal with |- context [OrderBook.update_best_ask ?x] =>
    destruct (update_best_ask_spec x) as (_ & Hb & Ha & Hp & _) end.
  rewrite Hp, Ha, Hb. cbn [OrderBook.pool_ OrderBook.asks_ OrderBook.bids_].
  exists n, m, qs'. rewrite Htr. auto.
Qed.

Lemma walk_bids_fifo limit side_of b entry qs :
  (∀ e e', OrderBookEntry.side e' = OrderBookEntry.side e → side_of e' = side_of e) →
  side_of (OrderBook.deref (OrderBook.pool_ b) entry) = Sell →
  side_queues (OrderBook.mem (OrderBook.pool_ b)) (OrderBook.bids_ b) qs →
  entry ∉ concat qs → (entry < length (OrderBook.mem (OrderBook.pool_ b)))%nat →
  within_quantity (OrderBook.deref (OrderBook.pool_ b) entry) →
  let walked := OrderBook.walk_bids limit side_of b entry [] in
  ∃ n m qs',
    in_order Sell entry (OrderBook.mem (OrderBook.pool_ b))
      (OrderBook.mem (OrderBook.pool_ walked.1)) (concat qs) walked.2 n m
    ∧ side_queues (OrderBook.mem (OrderBook.pool_ walked.1)) (OrderBook.bids_ walked.1) qs'
    ∧ concat qs' = drop m (concat qs)
    ∧ OrderBook.asks_ walked.1 = OrderBook.asks_ b.
Proof.
  intros Hso Hs Hqs Hnotin Hentry He walked. subst walked. unfold OrderBook.walk_bids.
  destruct (OrderBook.match_against limit side_of (OrderBook.instrument_ b) entry
              (OrderBook.bids_ b)
              (OrderBook.mkWalk (OrderBook.pool_ b) (OrderBook.orders_ b) []))
    as [bids' w] eqn:Hrun.
  destruct (match_against_fifo limit side_of Sell _ entry _ qs
              (OrderBook.mkWalk (OrderBook.pool_ b) (OrderBook.orders_ b) []) _ _
              Hso Hs Hqs Hnotin Hentry He Hrun) as (new & n & m & qs' & Htr & Hord & Hqs' & Hcat).
  cbn [OrderBook.w_trades OrderBook.w_pool app] in Htr, Hord.
  cbn [fst snd].
  match goal with |- context [OrderBook.update_best_bid ?x] =>
    destruct (update_best_bid_spec x) as (_ & Hb & Ha & Hp & _) end.
  rewrite Hp, Ha, Hb. cbn [OrderBook.pool_ OrderBook.asks_ OrderBook.bids_].
  exists n, m, qs'. rewrite Htr. auto.
Qed.

Lemma first_walk_fifo b entry qs :
  let s := OrderBookEntry.side (OrderBook.deref (OrderBook.pool_ b) entry) in
  side_queues (OrderBook.mem (OrderBook.pool_ b)) (opposite_levels b s) qs →
  entry ∉ concat qs → (entry < length (OrderBook.mem (OrderBook.pool_ b)))%nat →
  within_quantity (OrderBook.deref (OrderBook.pool_ b) entry) →
  let walked := first_walk b entry in
  ∃ n m qs',
    in_order s entry (OrderBook.mem (OrderBook.pool_ b))
      (OrderBook.mem (OrderBook.pool_ walked.1)) (concat qs) walked.2 n m
    ∧ side_queues (OrderBook.mem (OrderBook.pool_ walked.1)) (opposite_levels walked.1 s) qs'
    ∧ concat qs' = drop m (concat qs)
    ∧ own_levels walked.1 s = own_levels b s.
Proof.
  intros s Hqs Hnotin Hentry He walked. subst walked.
  unfold first_walk, OrderBook.try_match_market, OrderBook.try_match_limit.
  fold s. 
  destruct (OrderBookEntry.type _), s eqn:Hs; cbn [opposite_levels own_levels] in *;
    first [ apply walk_asks_fifo | apply walk_bids_fifo ]; auto.
Qed.

(** X29. the matching walk follows price-time priority.  On a book whose
    levels on the side opposite to the incoming order are consistent,
    non-empty lists of distinct orders within their quantity, none of them
    the incoming order, the walk of [match_order] ([try_match_limit], or
    [try_match_market] for a market order) trades with the first [n]
    orders of those lists, taken level by level from the first level on
    and each list from its head on, in that order and at each resting
    order's price; the first [m] of them are filled completely, where [n]
    is [m] or [m + 1].  Afterwards the levels of that side hold the orders
    from the [m]-th on, in the same order, so that an order filled in part
    stays at the front of its level; no slot outside the lists and the
    incoming order's is written, and the other side's levels are as
    before. *)
Theorem walk_follows_price_time_priority b entry qs :
  let s := OrderBookEntry.side (OrderBook.deref (OrderBook.pool_ b) entry) in
  side_queues (OrderBook.mem (OrderBook.pool_ b)) (opposite_levels b s) qs →
  entry ∉ concat qs → (entry < length (OrderBook.mem (OrderBook.pool_ b)))%nat →
  within_quantity (OrderBook.deref (OrderBook.pool_ b) entry) →
  let walked := first_walk b entry in
  ∃ n m qs',
    in_order s entry (OrderBook.mem (OrderBook.pool_ b))
      (OrderBook.mem (OrderBook.pool_ walked.1)) (concat qs) walked.2 n m
    ∧ side_queues (OrderBook.mem (OrderBook.pool_ walked.1)) (opposite_levels walked.1 s) qs'
    ∧ concat qs' = drop m (concat qs)
    ∧ own_levels walked.1 s = own_levels b s.
Proof. apply first_walk_fifo. Qed.

Lemma three_sells_queues :
  side_queues (OrderBook.mem (OrderBook.pool_ three_sells)) (OrderBook.asks_ three_sells)
    [[2]; [0; 1]]%nat.
Proof.
  assert (Hasks : OrderBook.asks_ three_sells
                  = [(9900, PriceLevel.mk 9900 20 1 (Some 2%nat) (Some 2%nat));
                     (10000, PriceLevel.mk 10000 80 2 (Some 0%nat) (Some 1%nat))])
    by (vm_compute; reflexivity).
  rewrite Hasks. unfold side_queues, level_queue, within_quantity.
  cbn [concat app dlinked snd last PriceLevel.head PriceLevel.tail].
  repeat match goal with
         | |- Forall2 _ _ _ => constructor
         | |- Forall _ _ => constructor
         | |- _ ∧ _ => split
         | |- (_ < _)%nat => apply Nat.ltb_lt; vm_compute; reflexivity
         | |- _ ≠ [] => discriminate
         | |- _ ≤ _ => vm_compute; discriminate
         | |- _ < _ => vm_compute; reflexivity
         | |- NoDup _ =>
             repeat (apply NoDup_cons; split;
                     [intros Hin;
                      repeat (apply elem_of_cons in Hin as [Hin|Hin]; [discriminate Hin|]);
                      apply elem_of_nil in Hin; exact Hin|]);
             apply NoDup_nil; exact I
         | |- dlinked _ _ _ _ => cbn [dlinked snd PriceLevel.head]
         | |- _ = _ => vm_compute; reflexivity
         end.
Qed.

Lemma walk_follows_price_time_priority_witness :
  let s := OrderBookEntry.side (OrderBook.deref (OrderBook.pool_ three_sells_and_a_buy) 3) in
  let walked := first_walk three_sells_and_a_buy 3 in
  ∃ n m qs',
    in_order s 3 (OrderBook.mem (OrderBook.pool_ three_sells_and_a_buy))
      (OrderBook.mem (OrderBook.pool_ walked.1)) (concat [[2]; [0; 1]]%nat) walked.2 n m
    ∧ side_queues (OrderBook.mem (OrderBook.pool_ walked.1)) (opposite_levels walked.1 s) qs'
    ∧ concat qs' = drop m (concat [[2]; [0; 1]]%nat)
    ∧ own_levels walked.1 s = own_levels three_sells_and_a_buy s.
Proof.
  apply (walk_follows_price_time_priority three_sells_and_a_buy 3 [[2]; [0; 1]]%nat).
  - assert (Hopp : opposite_levels three_sells_and_a_buy
                     (OrderBookEntry.side
                        (OrderBook.deref (OrderBook.pool_ three_sells_and_a_buy) 3))
                   = OrderBook.asks_ three_sells) by (vm_compute; reflexivity).
    rewrite Hopp.
    eapply side_queues_frame; [| |exact three_sells_queues].
    + unfold three_sells_and_a_buy. cbn [OrderBook.pool_ OrderBook.mem OrderBook.with_mem
                                          MemoryPool.storage_].
      apply length_insert.
    + intros p Hp. unfold three_sells_and_a_buy.
      cbn [OrderBook.pool_ OrderBook.mem OrderBook.with_mem MemoryPool.storage_].
      rewrite slot_insert, decide_False; [reflexivity|].
      intros [<- _].
      repeat (apply elem_of_cons in Hp as [Hp|Hp]; [discriminate Hp|]).
      apply elem_of_nil in Hp. exact Hp.
  - intros Hin. repeat (apply elem_of_cons in Hin as [Hin|Hin]; [discriminate Hin|]).
    apply elem_of_nil in Hin. exact Hin.
  - apply Nat.ltb_lt. vm_compute. reflexivity.
  - unfold within_quantity. split_and!.
    + vm_compute. discriminate.
    + vm_compute. discriminate.
    + vm_compute. reflexivity.
Defined.

(** X30. the trades [add_order] returns follow price-time priority.  When
    the pool has a free slot inside the slab that is in none of the lists,
    and the levels of the opposite side are consistent, non-empty lists of
    distinct orders within their quantity, the trades of an order that is
    not FOK are against the first [n] orders of those lists, taken level
    by level from the first level on and each list from its head on, in
    that order: each trade bears the incoming id and the resting order's
    id and price, and its quantity is the resting order's residual for the
    first [m] trades ([n] is [m] or [m + 1]) and no more than it for the
    last. *)
Theorem add_order_trades_follow_the_lists b id side type price quantity timestamp qs :
  MemoryPool.free_head_ (OrderBook.pool_ b) ≠ MemoryPool.INVALID →
  (Z.to_nat (MemoryPool.free_head_ (OrderBook.pool_ b))
   < length (OrderBook.mem (OrderBook.pool_ b)))%nat →
  type ≠ FOK →
  0 ≤ quantity < 2 ^ 64 →
  side_queues (OrderBook.mem (OrderBook.pool_ b)) (opposite_levels b side) qs →
  Z.to_nat (MemoryPool.free_head_ (OrderBook.pool_ b)) ∉ concat qs →
  let incoming := incoming_order b id side type price quantity timestamp in
  let trades := snd (OrderBook.add_order b id side type price quantity timestamp) in
  ∃ n m,
    (m ≤ n)%nat ∧ (n ≤ S m)%nat ∧ (n ≤ length (concat qs))%nat
    ∧ Forall2 (fun t p =>
                 trade_against side incoming
                   (MemoryPool.slot (OrderBook.mem (OrderBook.pool_ b)) p) t)
        trades (take n (concat qs))
    ∧ Forall2 (fun t p =>
                 trade_quantity t
                 = OrderBook.remaining_of
                     (MemoryPool.slot (OrderBook.mem (OrderBook.pool_ b)) p))
        (take m trades) (take m (concat qs)).
Proof.
  intros Hroom Hlt Htype Hq Hqs Hnotin incoming trades. subst trades.
  unfold OrderBook.add_order, MemoryPool.allocate.
  apply Z.eqb_neq in Hroom. rewrite Hroom.
  set (entry := Z.to_nat (MemoryPool.free_head_ (OrderBook.pool_ b))) in *.
  fold (incoming_order b id side type price quantity timestamp). fold incoming.
  match goal with |- context [OrderBook.match_order ?x entry] => set (b1 := x) end.
  assert (Hmem1 : OrderBook.mem (OrderBook.pool_ b1)
                  = <[entry := incoming]> (OrderBook.mem (OrderBook.pool_ b)))
    by reflexivity.
  assert (He : OrderBook.deref (OrderBook.pool_ b1) entry = incoming).
  { unfold OrderBook.deref. rewrite Hmem1, slot_insert.
    apply decide_True. split; [reflexivity | exact Hlt]. }
  assert (Hother : ∀ p, p ≠ entry →
            MemoryPool.slot (OrderBook.mem (OrderBook.pool_ b1)) p
            = MemoryPool.slot (OrderBook.mem (OrderBook.pool_ b)) p).
  { intros p Hp. rewrite Hmem1, slot_insert, decide_False by (intros [? _]; congruence).
    reflexivity. }
  rewrite match_order_trades by (rewrite He; exact Htype).
  pose proof (first_walk_fifo b1 entry qs) as Hwalk. cbv zeta in Hwalk.
  rewrite He in Hwalk. cbn [incoming incoming_order OrderBookEntry.side] in Hwalk.
  destruct Hwalk as (n & m & qs' & Hord & _).
  - change (opposite_levels b1 side) with (opposite_levels b side).
    eapply side_queues_frame; [| |exact Hqs].
    + rewrite Hmem1. apply length_insert.
    + intros p Hp. apply Hother. intros ->. contradiction.
  - exact Hnotin.
  - rewrite Hmem1, length_insert. exact Hlt.
  - unfold within_quantity. cbn. lia.
  - destruct Hord as (Hmn & Hnm & Hlen & Ht & Hf & _).
    fold (OrderBook.deref (OrderBook.pool_ b1) entry) in Ht. rewrite He in Ht.
    exists n, m. split_and!; [exact Hmn | exact Hnm | exact Hlen | |].
    + eapply Forall2_impl_in; [exact Ht|]. intros t p Hp. cbv beta.
      rewrite Hother; [auto|]. intros ->. apply Hnotin. eapply in_take, Hp.
    + eapply Forall2_impl_in; [exact Hf|]. intros t p Hp. cbv beta.
      rewrite Hother; [auto|]. intros ->. apply Hnotin. eapply in_take, Hp.
Qed.

Lemma add_order_trades_follow_the_lists_witness :
  let incoming := incoming_order three_sells 4 Buy Limit 10000 100 4 in
  let trades := snd (OrderBook.add_order three_sells 4 Buy Limit 10000 100 4) in
  ∃ n m,
    (m ≤ n)%nat ∧ (n ≤ S m)%nat ∧ (n ≤ length (concat [[2]; [0; 1]]%nat))%nat
    ∧ Forall2 (fun t p =>
                 trade_against Buy incoming
                   (MemoryPool.slot (OrderBook.mem (OrderBook.pool_ three_sells)) p) t)
        trades (take n (concat [[2]; [0; 1]]%nat))
    ∧ Forall2 (fun t p =>
                 trade_quantity t
                 = OrderBook.remaining_of
                     (MemoryPool.slot (OrderBook.mem (OrderBook.pool_ three_sells)) p))
        (take m trades) (take m (concat [[2]; [0; 1]]%nat)).
Proof.
  apply (add_order_trades_follow_the_lists three_sells 4 Buy Limit 10000 100 4
           [[2]; [0; 1]]%nat).
  - vm_compute. discriminate.
  - apply Nat.ltb_lt. vm_compute. reflexivity.
  - discriminate.
  - lia.
  - exact three_sells_queues.
  - intros Hin. vm_compute in Hin.
    repeat (apply elem_of_cons in Hin as [Hin|Hin]; [discriminate Hin|]).
    apply elem_of_nil in Hin. exact Hin.
Defined.
